(** * newcarx: the animation timeline scheduler (src/animation.ts)

    A shallow embedding of the virtual clock, the chain nodes and the
    scheduler of [src/animation.ts], and the properties of the written
    specification that concern them.

    Modelling conventions.
    - Objects live in a store: a node reference is the index of the node in
      [heap]; field assignment through a reference is [alter] at that index.
      There is one scheduler, so [node.timeline] is always that scheduler.
    - JavaScript numbers that carry time are exact rationals ([Qc]); rounding
      of floating point arithmetic is not modelled.  The result of the
      progress division can be infinite or not-a-number, which [number] keeps.
      A duration is a finite rational as well, and its zero is the positive
      zero: an infinite, not-a-number or negative-zero duration is outside
      the model.
    - Arrays have the length the language allows (below 2^32); memory is not
      a limit.
    - [performance.now()] is an input: the [k]-th read returns [perf k].
    - Caller supplied callbacks (effect, timing) are functions of their
      arguments that either return or throw a value.
    - The deferred of a chain (its completion signal) is an entry of
      [promises]; [resolve] and [reject] settle it at most once.
    - Calls into caller code and into the deferred are recorded in [trace],
      as are the calls the sweep makes to [_tick] and [_complete]. *)

From Stdlib Require Import QArith Qcanon.
From stdpp Require Import base decidable numbers list option.

Set Default Proof Using "Type".

(** ** Numbers *)

Definition ms (z : Z) : Qc := Qc_of_Z z.

Inductive number := Num (q : Qc) | PosInf | NegInf | NaN.

(** [a / b] on finite numbers, with the IEEE results for a divisor that is
    the positive zero. *)
Definition js_div (a b : Qc) : number :=
  if decide (b = 0%Qc) then
    if decide (0 < a)%Qc then PosInf
    else if decide (a < 0)%Qc then NegInf else NaN
  else Num (a / b)%Qc.

(** [Math.max(x, y)] and [Math.min(x, y)] for a finite [y]. *)
Definition Math_max (x : number) (y : Qc) : number :=
  match x with
  | Num q => Num (if decide (q ≤ y)%Qc then y else q)
  | PosInf => PosInf
  | NegInf => Num y
  | NaN => NaN
  end.

Definition Math_min (x : number) (y : Qc) : number :=
  match x with
  | Num q => Num (if decide (q ≤ y)%Qc then q else y)
  | PosInf => Num y
  | NegInf => NegInf
  | NaN => NaN
  end.

(** [x >= y] for a finite [y]; false on not-a-number. *)
Definition js_ge (x : number) (y : Qc) : bool :=
  match x with
  | Num q => bool_decide (y ≤ q)%Qc
  | PosInf => true
  | NegInf => false
  | NaN => false
  end.

(** ** Callbacks *)

(** A thrown value. *)
Definition value := nat.

Inductive outcome (A : Type) := Returns (a : A) | Throws (e : value).
Arguments Returns {A} a.
Arguments Throws {A} e.

Definition TimingFunction := number → outcome number.
Definition Animator := number → number → outcome unit.

Definition linear : TimingFunction := λ x, Returns x.
Definition noop : Animator := λ _ _, Returns tt.

(** ** The virtual clock *)

Module AnimationClock.

Record t := mk { _pausedTime : Qc; _isPaused : bool; _offset : Qc }.

Definition init : t := mk 0 false 0.

(** [wall] is what [performance.now()] returns at the call; it is only
    read when the clock is running. *)
Definition now (wall : Qc) (c : t) : Qc :=
  if _isPaused c then _pausedTime c else (wall - _offset c)%Qc.

Definition pause (wall : Qc) (c : t) : t :=
  if negb (_isPaused c) then mk (now wall c) true (_offset c) else c.

Definition resume (wall : Qc) (c : t) : t :=
  if _isPaused c
  then mk (_pausedTime c) false (_offset c + (wall - _pausedTime c))%Qc
  else c.

Definition isPaused (c : t) : bool := _isPaused c.

Definition reset (c : t) : t := mk 0 false 0.

(** A session on the clock alone: each call comes with the wall time at
    which it is made; [CNow] calls are answered in order. *)
Inductive call := CNow | CPause | CResume.

Fixpoint session (cs : list (call * Qc)) (c : t) : list Qc * t :=
  match cs with
  | [] => ([], c)
  | (CNow, w) :: cs => let '(r, c') := session cs c in (now w c :: r, c')
  | (CPause, w) :: cs => session cs (pause w c)
  | (CResume, w) :: cs => session cs (resume w c)
  end.

End AnimationClock.

(** ** The object store *)

(** The segment forms [animate] accepts. *)
Record Segment := mkSegment {
  seg_duration : Qc;
  seg_animator : option Animator;
  seg_timing : option TimingFunction }.

Inductive AnimationInitial :=
| InitObject (seg : Segment)
| InitTuple (duration : Qc) (animator : option Animator) (timing : option TimingFunction)
| InitNumber (duration : Qc).

Module Node.

(** [AnimationTimelineNodeImpl].  [_onError] and [_onCompleted] hold the
    index of the deferred whose [reject], respectively [resolve], they call. *)
Record t := mk {
  duration : Qc;
  animator : option Animator;
  timing : option TimingFunction;
  _onError : option nat;
  _started : bool;
  _startTime : option Qc;
  _completed : bool;
  _error : bool;
  _subNode : option nat;
  _onCompleted : option nat;
  _prevNode : option nat;
  _nextNode : option nat }.

(** [new AnimationTimelineNodeImpl(timeline, duration, animator, timing,
    onError, prevNode)]. *)
Definition new (d : Qc) (a : option Animator) (f : option TimingFunction)
    (onError : option nat) (prev : option nat) : t :=
  mk d a f onError false None false false None None prev None.

Definition start (ts : Qc) (n : t) : t :=
  mk (duration n) (animator n) (timing n) (_onError n) true (Some ts)
     (_completed n) (_error n) (_subNode n) (_onCompleted n) (_prevNode n) (_nextNode n).

Definition set_completed (b : bool) (n : t) : t :=
  mk (duration n) (animator n) (timing n) (_onError n) (_started n) (_startTime n)
     b (_error n) (_subNode n) (_onCompleted n) (_prevNode n) (_nextNode n).

Definition set_error (b : bool) (n : t) : t :=
  mk (duration n) (animator n) (timing n) (_onError n) (_started n) (_startTime n)
     (_completed n) b (_subNode n) (_onCompleted n) (_prevNode n) (_nextNode n).

Definition set_subNode (m : option nat) (n : t) : t :=
  mk (duration n) (animator n) (timing n) (_onError n) (_started n) (_startTime n)
     (_completed n) (_error n) m (_onCompleted n) (_prevNode n) (_nextNode n).

Definition set_onCompleted (c : option nat) (n : t) : t :=
  mk (duration n) (animator n) (timing n) (_onError n) (_started n) (_startTime n)
     (_completed n) (_error n) (_subNode n) c (_prevNode n) (_nextNode n).

Definition set_prevNode (m : option nat) (n : t) : t :=
  mk (duration n) (animator n) (timing n) (_onError n) (_started n) (_startTime n)
     (_completed n) (_error n) (_subNode n) (_onCompleted n) m (_nextNode n).

Definition set_nextNode (m : option nat) (n : t) : t :=
  mk (duration n) (animator n) (timing n) (_onError n) (_started n) (_startTime n)
     (_completed n) (_error n) (_subNode n) (_onCompleted n) (_prevNode n) m.

End Node.

(** The state of a deferred. *)
Inductive settled := Pending | Resolved | Rejected (e : value).

Inductive event :=
| EvTick (n : nat) (ts : Qc)             (* the sweep calls n._tick(ts) *)
| EvTiming (n : nat) (t : number)        (* n.timing(t) is called *)
| EvAnimator (n : nat) (x t : number)    (* n.animator(x, t) is called *)
| EvComplete (n : nat)                   (* the sweep calls n._complete() *)
| EvOnCompleted (n c : nat)              (* n._onCompleted() calls resolve of c *)
| EvOnError (n c : nat) (e : value).     (* n._onError(e) calls reject of c *)

(** [AnimationTimelineImpl], with the store of its nodes, the deferreds it
    created, the frame driver and the wall clock. *)
Record Timeline := mkTimeline {
  heap : list Node.t;
  _nextNode : option nat;
  _tailNode : option nat;
  _timer : option nat;
  _clock : AnimationClock.t;
  _isPolling : bool;
  promises : list settled;
  raf_next : nat;                 (* the next handle of requestAnimationFrame *)
  raf_pending : list nat;         (* the handles whose callback is due *)
  perf : nat → Qc;                (* the readings of performance.now() *)
  perf_reads : nat;               (* how many were taken *)
  trace : list event }.

Definition createTimeline (wall : nat → Qc) : Timeline :=
  mkTimeline [] None None None AnimationClock.init false [] 1 [] wall 0 [].

(** ** State access *)

Definition set_heap (h : list Node.t) (s : Timeline) : Timeline :=
  mkTimeline h (_nextNode s) (_tailNode s) (_timer s) (_clock s) (_isPolling s)
    (promises s) (raf_next s) (raf_pending s) (perf s) (perf_reads s) (trace s).

Definition set_nextNode (o : option nat) (s : Timeline) : Timeline :=
  mkTimeline (heap s) o (_tailNode s) (_timer s) (_clock s) (_isPolling s)
    (promises s) (raf_next s) (raf_pending s) (perf s) (perf_reads s) (trace s).

Definition set_tailNode (o : option nat) (s : Timeline) : Timeline :=
  mkTimeline (heap s) (_nextNode s) o (_timer s) (_clock s) (_isPolling s)
    (promises s) (raf_next s) (raf_pending s) (perf s) (perf_reads s) (trace s).

Definition set_timer (o : option nat) (s : Timeline) : Timeline :=
  mkTimeline (heap s) (_nextNode s) (_tailNode s) o (_clock s) (_isPolling s)
    (promises s) (raf_next s) (raf_pending s) (perf s) (perf_reads s) (trace s).

Definition set_clock (c : AnimationClock.t) (s : Timeline) : Timeline :=
  mkTimeline (heap s) (_nextNode s) (_tailNode s) (_timer s) c (_isPolling s)
    (promises s) (raf_next s) (raf_pending s) (perf s) (perf_reads s) (trace s).

Definition set_isPolling (b : bool) (s : Timeline) : Timeline :=
  mkTimeline (heap s) (_nextNode s) (_tailNode s) (_timer s) (_clock s) b
    (promises s) (raf_next s) (raf_pending s) (perf s) (perf_reads s) (trace s).

Definition set_promises (p : list settled) (s : Timeline) : Timeline :=
  mkTimeline (heap s) (_nextNode s) (_tailNode s) (_timer s) (_clock s) (_isPolling s)
    p (raf_next s) (raf_pending s) (perf s) (perf_reads s) (trace s).

Definition set_raf (next : nat) (pending : list nat) (s : Timeline) : Timeline :=
  mkTimeline (heap s) (_nextNode s) (_tailNode s) (_timer s) (_clock s) (_isPolling s)
    (promises s) next pending (perf s) (perf_reads s) (trace s).

Definition set_perf_reads (k : nat) (s : Timeline) : Timeline :=
  mkTimeline (heap s) (_nextNode s) (_tailNode s) (_timer s) (_clock s) (_isPolling s)
    (promises s) (raf_next s) (raf_pending s) (perf s) k (trace s).

Definition set_trace (t : list event) (s : Timeline) : Timeline :=
  mkTimeline (heap s) (_nextNode s) (_tailNode s) (_timer s) (_clock s) (_isPolling s)
    (promises s) (raf_next s) (raf_pending s) (perf s) (perf_reads s) t.

(** Assignment to fields of the object [n] refers to. *)
Definition upd (n : nat) (f : Node.t → Node.t) (s : Timeline) : Timeline :=
  set_heap (alter f n (heap s)) s.

Definition log (e : event) (s : Timeline) : Timeline :=
  set_trace (trace s ++ [e]) s.

Definition prevOf (n : nat) (s : Timeline) : option nat :=
  heap s !! n ≫= Node._prevNode.

Definition nextOf (n : nat) (s : Timeline) : option nat :=
  heap s !! n ≫= Node._nextNode.

Definition subOf (n : nat) (s : Timeline) : option nat :=
  heap s !! n ≫= Node._subNode.

(** [new AnimationTimelineNodeImpl(...)]: the new object gets the next
    index of the store. *)
Definition alloc (nd : Node.t) (s : Timeline) : nat * Timeline :=
  (length (heap s), set_heap (heap s ++ [nd]) s).

(** ** The environment: wall clock, frame driver, deferreds *)

Definition performance_now (s : Timeline) : Qc * Timeline :=
  (perf s (perf_reads s), set_perf_reads (S (perf_reads s)) s).

Definition requestAnimationFrame (s : Timeline) : nat * Timeline :=
  (raf_next s, set_raf (S (raf_next s)) (raf_pending s ++ [raf_next s]) s).

Definition cancelAnimationFrame (id : nat) (s : Timeline) : Timeline :=
  set_raf (raf_next s) (filter (λ i, i ≠ id) (raf_pending s)) s.

(** [deferred()]: a new pending deferred. *)
Definition deferred (s : Timeline) : nat * Timeline :=
  (length (promises s), set_promises (promises s ++ [Pending]) s).

Definition settle (v : settled) (p : settled) : settled :=
  match p with Pending => v | _ => p end.

(** [resolve(this)] of deferred [c], called by [n._onCompleted]. *)
Definition resolve (n c : nat) (s : Timeline) : Timeline :=
  set_promises (alter (settle Resolved) c (promises s)) (log (EvOnCompleted n c) s).

(** [reject(e)] of deferred [c], called by [n._onError]. *)
Definition reject (n c : nat) (e : value) (s : Timeline) : Timeline :=
  set_promises (alter (settle (Rejected e)) c (promises s)) (log (EvOnError n c e) s).

(** [this._clock.now()], [.pause()], [.resume()], [.reset()] on the
    scheduler's clock; the wall clock is read as the class reads it. *)
Definition clock_now (s : Timeline) : Qc * Timeline :=
  if AnimationClock._isPaused (_clock s)
  then (AnimationClock.now 0 (_clock s), s)
  else let '(w, s') := performance_now s in (AnimationClock.now w (_clock s), s').

Definition clock_pause (s : Timeline) : Timeline :=
  if AnimationClock._isPaused (_clock s) then s
  else let '(w, s') := performance_now s in
       set_clock (AnimationClock.pause w (_clock s)) s'.

Definition clock_resume (s : Timeline) : Timeline :=
  if AnimationClock._isPaused (_clock s)
  then let '(w, s') := performance_now s in
       set_clock (AnimationClock.resume w (_clock s)) s'
  else s.

Definition clock_reset (s : Timeline) : Timeline :=
  set_clock (AnimationClock.reset (_clock s)) s.

(** ** Chain nodes: [AnimationTimelineNodeImpl] *)

Definition _initializeAnimation (n : nat) (s : Timeline) : Timeline :=
  let '(t, s') := clock_now s in upd n (Node.start t) s'.

(** [now - undefined] is not-a-number. *)
Definition _calculateProgress (now : Qc) (nd : Node.t) : number :=
  match Node._startTime nd with
  | Some start => Math_min (Math_max (js_div (now - start) (Node.duration nd)) 0) 1
  | None => NaN
  end.

Definition _applyAnimation (n : nat) (nd : Node.t) (progress : number)
    (s : Timeline) : outcome unit * Timeline :=
  match Node.animator nd with
  | Some animator =>
      match Node.timing nd with
      | Some timing =>
          let s' := log (EvTiming n progress) s in
          match timing progress with
          | Returns timingProgress =>
              (animator timingProgress progress,
               log (EvAnimator n timingProgress progress) s')
          | Throws e => (Throws e, s')
          end
      | None => (animator progress progress, log (EvAnimator n progress progress) s)
      end
  | None => (Returns tt, s)
  end.

Definition _processAnimationFrame (ts : Qc) (n : nat) (s : Timeline)
    : outcome bool * Timeline :=
  match heap s !! n with
  | Some nd =>
      let progress := _calculateProgress ts nd in
      match _applyAnimation n nd progress s with
      | (Returns _, s') => (Returns (js_ge progress 1), s')
      | (Throws e, s') => (Throws e, s')
      end
  | None => (Returns false, s)
  end.

Definition _handleError (e : value) (n : nat) (s : Timeline) : Timeline :=
  let s' := upd n (Node.set_error true) s in
  match heap s' !! n ≫= Node._onError with
  | Some c => reject n c e s'
  | None => s'
  end.

Definition _tick (ts : Qc) (n : nat) (s : Timeline) : bool * Timeline :=
  match heap s !! n with
  | Some nd =>
      if Node._completed nd || Node._error nd then (true, s)
      else
        let s1 := if Node._started nd then s else _initializeAnimation n s in
        match _processAnimationFrame ts n s1 with
        | (Returns b, s2) => (b, s2)
        | (Throws e, s2) => (true, _handleError e n s2)
        end
  | None => (true, s)
  end.

(** [this._onCompleted?.()] *)
Definition fire_onCompleted (n : nat) (s : Timeline) : Timeline :=
  match heap s !! n ≫= Node._onCompleted with
  | Some c => resolve n c s
  | None => s
  end.

Definition _updateTimelineReferences (n node : nat) (s : Timeline) : Timeline :=
  let s := if bool_decide (_tailNode s = Some n) then set_tailNode (Some node) s else s in
  if bool_decide (_nextNode s = Some n) then set_nextNode (Some node) s else s.

Definition _updateNodeLinks (n node : nat) (s : Timeline) : Timeline :=
  let s := match prevOf n s with
           | Some p => upd p (Node.set_nextNode (Some node)) s
           | None => s
           end in
  match nextOf n s with
  | Some q => upd q (Node.set_prevNode (Some node)) s
  | None => s
  end.

Definition _replace (n node : nat) (s : Timeline) : Timeline :=
  let s := upd node (Node.set_prevNode (prevOf n s)) s in
  let s := upd node (Node.set_nextNode (nextOf n s)) s in
  let s := _updateTimelineReferences n node s in
  let s := _updateNodeLinks n node s in
  fire_onCompleted n s.

Definition _remove (n : nat) (s : Timeline) : Timeline :=
  let s := match prevOf n s with
           | Some p => upd p (Node.set_nextNode (nextOf n s)) s
           | None => set_nextNode (nextOf n s) s
           end in
  let s := match nextOf n s with
           | Some q => upd q (Node.set_prevNode (prevOf n s)) s
           | None => s
           end in
  let s := if bool_decide (_tailNode s = Some n) then set_tailNode (prevOf n s) s else s in
  let s := if bool_decide (_nextNode s = Some n) then set_nextNode (nextOf n s) s else s in
  fire_onCompleted n s.

Definition _complete (n : nat) (s : Timeline) : Timeline :=
  match heap s !! n with
  | Some nd =>
      if Node._completed nd then s
      else
        let s' := upd n (Node.set_completed true) s in
        match Node._subNode nd with
        | Some sub => if negb (Node._error nd) then _replace n sub s' else _remove n s'
        | None => _remove n s'
        end
  | None => s
  end.

(** The body shared by [revoke] and the loop of [_revokeSubNodes]. *)
Definition revoke_node (n : nat) (s : Timeline) : Timeline :=
  match heap s !! n with
  | Some nd =>
      if Node._completed nd then s
      else _remove n (upd n (Node.set_completed true) s)
  | None => s
  end.

(** The [while (current)] loop of [_revokeSubNodes]; [None] when the fuel
    does not suffice. *)
Fixpoint _revokeSubNodes_loop (fuel : nat) (current : option nat) (s : Timeline)
    : option Timeline :=
  match current with
  | None => Some s
  | Some cur =>
      match fuel with
      | 0 => None
      | S fuel =>
          let s' := revoke_node cur s in
          _revokeSubNodes_loop fuel (subOf cur s') s'
      end
  end.

Definition _revokeSubNodes (fuel : nat) (n : nat) (s : Timeline) : option Timeline :=
  _revokeSubNodes_loop fuel (subOf n s) s.

Definition revoke (fuel : nat) (n : nat) (s : Timeline) : option Timeline :=
  _revokeSubNodes fuel n (revoke_node n s).

(** [sub(index)] *)
Fixpoint sub (index : nat) (n : nat) (s : Timeline) : option nat :=
  match index with
  | 0 => Some n
  | S index => subOf n s ≫= λ m, sub index m s
  end.

(** ** The scheduler: [AnimationTimelineImpl] *)

Definition normalize (init : AnimationInitial) : Segment :=
  match init with
  | InitNumber d => mkSegment d None None
  | InitTuple d a f => mkSegment d a f
  | InitObject seg => seg
  end.

Definition _normalizeAnimationInitials (inits : list AnimationInitial) : list Segment :=
  map normalize inits.

Definition _createRootNode (init : Segment) (reject : nat) (s : Timeline)
    : nat * Timeline :=
  alloc (Node.new (seg_duration init) (seg_animator init) (seg_timing init)
           (Some reject) (_tailNode s)) s.

Definition _linkRootNode (rootNode : nat) (s : Timeline) : Timeline :=
  let s := match _nextNode s with
           | None => set_nextNode (Some rootNode) s
           | Some _ => s
           end in
  let s := match _tailNode s with
           | Some t => upd t (Node.set_nextNode (Some rootNode)) s
           | None => s
           end in
  set_tailNode (Some rootNode) s.

(** The [for] loop of [_createAndLinkChildNodes]; returns the last node. *)
Fixpoint linkChildNodes (currentNode : nat) (inits : list Segment) (reject : nat)
    (s : Timeline) : nat * Timeline :=
  match inits with
  | [] => (currentNode, s)
  | init :: inits =>
      let '(childNode, s) :=
        alloc (Node.new (seg_duration init) (seg_animator init) (seg_timing init)
                 (Some reject) None) s in
      let s := upd currentNode (Node.set_subNode (Some childNode)) s in
      linkChildNodes childNode inits reject s
  end.

Definition _createAndLinkChildNodes (rootNode : nat) (inits : list Segment)
    (reject resolve : nat) (s : Timeline) : Timeline :=
  let '(currentNode, s) := linkChildNodes rootNode inits reject s in
  upd currentNode (Node.set_onCompleted (Some resolve)) s.

(** [if (this._timer)]: a handle is a non-zero number. *)
Definition truthy (o : option nat) : bool :=
  match o with Some (S _) => true | _ => false end.

Definition paused (s : Timeline) : bool := AnimationClock.isPaused (_clock s).

Definition _launch (s : Timeline) : Timeline :=
  if truthy (_timer s) then s
  else
    let s := set_isPolling true s in
    let '(id, s) := requestAnimationFrame s in
    set_timer (Some id) s.

Definition start (s : Timeline) : Timeline :=
  if bool_decide (_timer s = None) && negb (paused s)
  then _launch (clock_reset s)
  else s.

Definition pause (s : Timeline) : Timeline :=
  match _timer s with
  | Some id =>
      if negb (paused s)
      then set_timer None (clock_pause (cancelAnimationFrame id s))
      else s
  | None => s
  end.

Definition resume (s : Timeline) : Timeline :=
  if paused s then _launch (clock_resume s) else s.

Definition _stopAnimation (s : Timeline) : Timeline :=
  match _timer s with
  | Some id => if truthy (Some id) then set_timer None (cancelAnimationFrame id s) else s
  | None => s
  end.

Definition _resetState (s : Timeline) : Timeline :=
  set_isPolling false (set_tailNode None (set_nextNode None (clock_reset s))).

Definition reset (s : Timeline) : Timeline := _resetState (_stopAnimation s).

Definition _cleanup (s : Timeline) : Timeline := reset (set_timer None s).

(** The chain handle [animate] returns: the root node and the deferred. *)
Record AnimationPromise := mkAnimationPromise { node : nat; promise : nat }.

(** [enqueue(...inits)]; [None] is the error thrown for an empty list. *)
Definition enqueue (inits : list AnimationInitial) (s : Timeline)
    : option (AnimationPromise * Timeline) :=
  match _normalizeAnimationInitials inits with
  | [] => None
  | first :: rest =>
      let '(d, s) := deferred s in
      let '(rootNode, s) := _createRootNode first d s in
      let s := _linkRootNode rootNode s in
      let s := _createAndLinkChildNodes rootNode rest d d s in
      let s := if negb (_isPolling s) then start s else s in
      Some (mkAnimationPromise rootNode d, s)
  end.

Definition animate := enqueue.

(** [repeat(count, ...inits)] *)

(** What [repeat] throws: the [Error] of [_validateAnimationInitials], or
    the [RangeError] of an array length that is no array length. *)
Inductive exception := EmptyInitials | RangeError.

(** [ToLength(count)], the length [Array.from] reads off [{ length: count }]:
    not-a-number and everything below 1 give 0, a fraction is cut off, and
    the result is at most 2^53 - 1. *)
Definition ToLength (count : number) : Z :=
  match count with
  | Num q => Z.min (Z.max 0 (Qnum q ÷ Z.pos (Qden q))) (2 ^ 53 - 1)
  | PosInf => 2 ^ 53 - 1
  | NegInf | NaN => 0
  end.

(** [Array.from({ length: count }, () => inits).flat()]: the array is
    created with the length read, which throws from 2^32 on. *)
Definition _createRepeatedInits (count : number) (inits : list AnimationInitial)
    : exception + list AnimationInitial :=
  let len := ToLength count in
  if decide (2 ^ 32 ≤ len)%Z then inl RangeError
  else inr (concat (replicate (Z.to_nat len) inits)).

Definition repeat (count : number) (inits : list AnimationInitial) (s : Timeline)
    : exception + (AnimationPromise * Timeline) :=
  match inits with
  | [] => inl EmptyInitials
  | _ =>
      match _createRepeatedInits count inits with
      | inl e => inl e
      | inr repeatedInits =>
          match enqueue repeatedInits s with
          | Some r => inr r
          | None => inl EmptyInitials
          end
      end
  end.

(** [nodesToComplete.add(node)] on a [Set] kept in insertion order. *)
Definition Set_add (n : nat) (set : list nat) : list nat :=
  if bool_decide (n ∈ set) then set else set ++ [n].

(** The [while (currentNode)] loop of [_processNodes]. *)
Fixpoint _processNodes_loop (fuel : nat) (ts : Qc) (currentNode : option nat)
    (nodesToComplete : list nat) (s : Timeline) : option (list nat * Timeline) :=
  match currentNode with
  | None => Some (nodesToComplete, s)
  | Some cur =>
      match fuel with
      | 0 => None
      | S fuel =>
          let '(done, s) := _tick ts cur (log (EvTick cur ts) s) in
          let nodesToComplete := if done then Set_add cur nodesToComplete else nodesToComplete in
          _processNodes_loop fuel ts (nextOf cur s) nodesToComplete s
      end
  end.

Definition _processNodes (fuel : nat) (ts : Qc) (s : Timeline)
    : option (list nat * Timeline) :=
  _processNodes_loop fuel ts (_nextNode s) [] s.

Definition _completeNodes (nodes : list nat) (s : Timeline) : Timeline :=
  foldl (λ s n, _complete n (log (EvComplete n) s)) s nodes.

Definition _poll (fuel : nat) (s : Timeline) : option (bool * Timeline) :=
  if paused s || bool_decide (_nextNode s = None) then Some (false, s)
  else
    let '(now, s) := clock_now s in
    '(nodesToComplete, s) ← _processNodes fuel now s;
    let s := match nodesToComplete with
             | [] => s
             | _ => _completeNodes nodesToComplete s
             end in
    let hasMoreNodes := bool_decide (_nextNode s ≠ None) in
    let s := if negb hasMoreNodes then set_isPolling false s else s in
    Some (hasMoreNodes, s).

(** The callback [_launch] hands to the frame driver. *)
Definition loop (fuel : nat) (s : Timeline) : option Timeline :=
  '(more, s) ← _poll fuel s;
  if (more : bool) then
    let '(id, s) := requestAnimationFrame s in Some (set_timer (Some id) s)
  else Some (_cleanup s).

(** One pulse of the frame driver: the callbacks that are due run. *)
Definition frame (fuel : nat) (s : Timeline) : option Timeline :=
  foldl (λ o _, o ≫= loop fuel) (Some (set_raf (raf_next s) [] s)) (raf_pending s).

(** ** Use of the scheduler *)

(** What a caller can do between two pulses of the frame driver, and the
    pulse itself.  [OpRevoke n] is [revoke()] on node [n]: a handle the
    caller kept, or a node obtained through [sub]. *)
Inductive op :=
| OpAnimate (inits : list AnimationInitial)
| OpFrame
| OpStart
| OpPause
| OpResume
| OpReset
| OpRevoke (n : nat).

Definition step (fuel : nat) (o : op) (s : Timeline) : option Timeline :=
  match o with
  | OpAnimate inits =>
      match enqueue inits s with
      | Some (_, s') => Some s'
      | None => Some s
      end
  | OpFrame => frame fuel s
  | OpStart => Some (start s)
  | OpPause => Some (pause s)
  | OpResume => Some (resume s)
  | OpReset => Some (reset s)
  | OpRevoke n => revoke fuel n s
  end.

Fixpoint run (fuel : nat) (ops : list op) (s : Timeline) : option Timeline :=
  match ops with
  | [] => Some s
  | o :: ops => step fuel o s ≫= run fuel ops
  end.

(** ** Observations *)

Definition is_animator_call (n : nat) (e : event) : bool :=
  match e with EvAnimator m _ _ => bool_decide (m = n) | _ => false end.

Definition is_tick (e : event) : bool :=
  match e with EvTick _ _ => true | _ => false end.

Definition is_complete (e : event) : bool :=
  match e with EvComplete _ => true | _ => false end.

(** How often the effect of node [n] was invoked. *)
Definition animator_calls (n : nat) (s : Timeline) : nat :=
  length (filter (λ e, is_animator_call n e = true) (trace s)).

(** The public getters of a node. *)
Definition error (n : nat) (s : Timeline) : option bool :=
  Node._error <$> heap s !! n.

Definition completed (n : nat) (s : Timeline) : option bool :=
  Node._completed <$> heap s !! n.

Definition started (n : nat) (s : Timeline) : option bool :=
  Node._started <$> heap s !! n.

(** ** Scenarios *)

(** A wall clock that advances ten milliseconds between two readings. *)
Definition wall10 (k : nat) : Qc := ms (10 * Z.of_nat k).

(** An effect that throws [e] whenever it is called. *)
Definition throwing (e : value) : Animator := λ _ _, Throws e.

Definition phase (d : Z) (a : Animator) : AnimationInitial :=
  InitTuple (ms d) (Some a) None.

(** Two pause and resume cycles on a fresh clock, with a reading after
    each resume. *)
Definition two_pause_cycles : list (AnimationClock.call * Qc) :=
  [ (AnimationClock.CPause, ms 10); (AnimationClock.CResume, ms 20);
    (AnimationClock.CNow, ms 30);
    (AnimationClock.CPause, ms 30); (AnimationClock.CResume, ms 40);
    (AnimationClock.CNow, ms 40) ].

(** A chain of two phases whose second effect throws; four pulses take
    it to the tick that throws. *)
Definition second_phase_throws : list op :=
  [ OpAnimate [phase 20 noop; phase 20 (throwing 7)];
    OpFrame; OpFrame; OpFrame; OpFrame ].

(** Chain A (nodes 0 and 1) and chain B (node 2) on one scheduler;
    [revoked_A] revokes the handle of A before the first pulse. *)
Definition chains_A_B : list op :=
  [ OpAnimate [phase 20 noop; phase 20 noop]; OpAnimate [phase 20 noop] ].

Definition five_frames : list op := [OpFrame; OpFrame; OpFrame; OpFrame; OpFrame].

Definition undisturbed : list op := chains_A_B ++ five_frames.

Definition revoked_A : list op := chains_A_B ++ [OpRevoke 0] ++ five_frames.

(** The calls of [reject] and of [resolve] a trace records: the node that
    called, the deferred, and the value of a rejection. *)
Definition rejections (evs : list event) : list (nat * nat * value) :=
  omap (λ ev, match ev with EvOnError n c e => Some (n, c, e) | _ => None end) evs.

Definition resolutions (evs : list event) : list (nat * nat) :=
  omap (λ ev, match ev with EvOnCompleted n c => Some (n, c) | _ => None end) evs.

(** Chain B (node 0) and chain A (nodes 1 and 2) whose first phase throws
    7; before the first pulse the caller revokes the second phase of A,
    obtained through [sub(1)], and then B. *)
Definition revoked_before_throw : list op :=
  [ OpAnimate [phase 20 noop];
    OpAnimate [phase 20 (throwing 7); phase 20 noop];
    OpRevoke 2; OpRevoke 0 ].

(** A chain whose first phase throws 7 at the first pulse; the caller
    revokes its handle afterwards. *)
Definition thrown_then_revoked : list op :=
  [ OpAnimate [phase 20 (throwing 7); phase 20 noop]; OpFrame; OpRevoke 0 ].

(** One chain of a single phase of 20 ms with effect [a], enqueued on a
    fresh scheduler, and the node it creates. *)
Definition one_chain (a : Animator) : Timeline :=
  match enqueue [phase 20 a] (createTimeline wall10) with
  | Some (_, s) => s
  | None => createTimeline wall10
  end.

Definition phase_node (a : Animator) : Node.t :=
  Node.mk (ms 20) (Some a) None (Some 0) false None false false None (Some 0)
    None None.

(** A chain of two phases of 20 ms with effects [a] and [b], enqueued on a
    fresh scheduler, and the node of its first phase. *)
Definition two_phases (a b : Animator) : Timeline :=
  match enqueue [phase 20 a; phase 20 b] (createTimeline wall10) with
  | Some (_, s) => s
  | None => createTimeline wall10
  end.

Definition first_phase_node (a : Animator) : Node.t :=
  Node.mk (ms 20) (Some a) None (Some 0) false None false false
    (Some 1) None None None.

(** ** What a tick computes *)

(** The start time a tick of [nd] works with: the latched one, or the
    reading of the clock its first tick takes. *)
Definition start_of_tick (nd : Node.t) (s : Timeline) : option Qc :=
  if Node._started nd then Node._startTime nd else Some (clock_now s).1.

Definition clamp01 (x : number) : number := Math_min (Math_max x 0) 1.

Definition rawProgress (now : Qc) (nd : Node.t) (s : Timeline) : number :=
  match start_of_tick nd s with
  | Some start => clamp01 (js_div (now - start) (Node.duration nd))
  | None => NaN
  end.

(** The first argument of the effect. *)
Definition appliedProgress (nd : Node.t) (raw : number) : outcome number :=
  match Node.timing nd with
  | Some timing => timing raw
  | None => Returns raw
  end.

(** Whether the callbacks of a tick return or throw. *)
Definition callbacks (nd : Node.t) (raw : number) : outcome unit :=
  match Node.animator nd with
  | Some animator =>
      match appliedProgress nd raw with
      | Returns x => animator x raw
      | Throws e => Throws e
      end
  | None => Returns tt
  end.

(** The calls into caller code a tick makes, in order. *)
Definition callback_calls (n : nat) (nd : Node.t) (raw : number) : list event :=
  match Node.animator nd with
  | Some _ =>
      match Node.timing nd with
      | Some timing =>
          EvTiming n raw ::
          match timing raw with
          | Returns x => [EvAnimator n x raw]
          | Throws _ => []
          end
      | None => [EvAnimator n raw raw]
      end
  | None => []
  end.

(** The report of a thrown value to the deferred of the chain. *)
Definition error_calls (n : nat) (nd : Node.t) (raw : number) : list event :=
  match callbacks nd raw, Node._onError nd with
  | Throws e, Some c => [EvOnError n c e]
  | _, _ => []
  end.

(** The state in which the callbacks of a tick of [nd] run. *)
Definition latched (n : nat) (nd : Node.t) (s : Timeline) : Timeline :=
  if Node._started nd then s else _initializeAnimation n s.

(** ** Parts of a node and of the scheduler *)

(** What the constructor and [enqueue] fix. *)
Definition static (nd : Node.t) :=
  (Node.duration nd, Node.animator nd, Node.timing nd, Node._onError nd,
   Node._subNode nd, Node._onCompleted nd).

(** The links into the list of active slots. *)
Definition links (nd : Node.t) := (Node._prevNode nd, Node._nextNode nd).

Definition same_scheduler (s s' : Timeline) : Prop :=
  _nextNode s' = _nextNode s ∧ _tailNode s' = _tailNode s ∧
  _timer s' = _timer s ∧ _clock s' = _clock s ∧ _isPolling s' = _isPolling s ∧
  raf_next s' = raf_next s ∧ raf_pending s' = raf_pending s ∧ perf s' = perf s.

Definition flags (nd : Node.t) :=
  (Node._started nd, Node._startTime nd, Node._completed nd, Node._error nd).

(** [s'] differs from [s] in links only: the list links of nodes and the
    head and tail of the scheduler. *)
Definition relinked (s s' : Timeline) : Prop :=
  (∀ m, static <$> heap s' !! m = static <$> heap s !! m) ∧
  (∀ m, flags <$> heap s' !! m = flags <$> heap s !! m) ∧
  _timer s' = _timer s ∧ _clock s' = _clock s ∧ _isPolling s' = _isPolling s ∧
  raf_next s' = raf_next s ∧ raf_pending s' = raf_pending s ∧
  perf s' = perf s ∧ perf_reads s' = perf_reads s ∧
  promises s' = promises s ∧ trace s' = trace s.

(** The assignments of [_remove] before its callback. *)
Definition unlink (n : nat) (s : Timeline) : Timeline :=
  let s := match prevOf n s with
           | Some p => upd p (Node.set_nextNode (nextOf n s)) s
           | None => set_nextNode (nextOf n s) s
           end in
  let s := match nextOf n s with
           | Some q => upd q (Node.set_prevNode (prevOf n s)) s
           | None => s
           end in
  let s := if bool_decide (_tailNode s = Some n) then set_tailNode (prevOf n s) s else s in
  if bool_decide (_nextNode s = Some n) then set_nextNode (nextOf n s) s else s.

(** The assignments of [_replace] before its callback. *)
Definition splice (n node : nat) (s : Timeline) : Timeline :=
  let s := upd node (Node.set_prevNode (prevOf n s)) s in
  let s := upd node (Node.set_nextNode (nextOf n s)) s in
  let s := _updateTimelineReferences n node s in
  _updateNodeLinks n node s.

(** The link surgery of [_complete] on a node [nd] at [n]: promotion of
    the next phase, or retirement. *)
Definition relink (n : nat) (nd : Node.t) (s : Timeline) : Timeline :=
  match Node._subNode nd with
  | Some sub => if negb (Node._error nd) then splice n sub s else unlink n s
  | None => unlink n s
  end.

(** The events a completion callback of [nd] at [n] adds. *)
Definition onCompleted_calls (n : nat) (nd : Node.t) : list event :=
  match Node._onCompleted nd with
  | Some c => [EvOnCompleted n c]
  | None => []
  end.

(** ** The list of active slots *)

(** [l] is what following [_nextNode] from [cur] visits. *)
Fixpoint list_from (s : Timeline) (cur : option nat) (l : list nat) : Prop :=
  match l with
  | [] => cur = None
  | x :: l => cur = Some x ∧ list_from s (nextOf x s) l
  end.

Definition active (s : Timeline) (l : list nat) : Prop :=
  list_from s (_nextNode s) l.

(** [l] is what following [_subNode] from [cur] visits. *)
Fixpoint chain_from (s : Timeline) (cur : option nat) (l : list nat) : Prop :=
  match l with
  | [] => cur = None
  | x :: l => cur = Some x ∧ chain_from s (subOf x s) l
  end.

(** The static chain of the handle [r]. *)
Definition static_chain (s : Timeline) (r : nat) (ch : list nat) : Prop :=
  chain_from s (Some r) ch.

Definition hd_or (l : list nat) (d : option nat) : option nat :=
  match l with [] => d | x :: _ => Some x end.

Definition last_or (l : list nat) (d : option nat) : option nat :=
  match list.last l with Some x => Some x | None => d end.

(** The nodes of [l] are linked in both directions, after [prev] and
    before [next]. *)
Fixpoint dlseg (h : list Node.t) (prev : option nat) (l : list nat)
    (next : option nat) : Prop :=
  match l with
  | [] => True
  | x :: l =>
      ∃ nd, h !! x = Some nd ∧ Node._prevNode nd = prev ∧
            Node._nextNode nd = hd_or l next ∧ dlseg h (Some x) l next
  end.

(** The scheduler holds the doubly linked list [l]. *)
Definition dlist (s : Timeline) (l : list nat) : Prop :=
  NoDup l ∧ _nextNode s = head l ∧ _tailNode s = list.last l ∧
  dlseg (heap s) None l None.

(** ** The pass of a sweep over a list *)

Fixpoint tick_all (ts : Qc) (l : list nat) (done : list nat) (s : Timeline)
    : list nat * Timeline :=
  match l with
  | [] => (done, s)
  | x :: l =>
      let '(b, s') := _tick ts x (log (EvTick x ts) s) in
      tick_all ts l (if b then Set_add x done else done) s'
  end.

(** A tick of [n] in [s] would be its first. *)
Definition first_tick (s : Timeline) (n : nat) : bool :=
  match heap s !! n with
  | Some nd =>
      negb (Node._completed nd || Node._error nd) && negb (Node._started nd)
  | None => false
  end.

Definition ticks_of (evs : list event) : list event :=
  filter (λ e, is_tick e = true) evs.

Definition completes_of (evs : list event) : list event :=
  filter (λ e, is_complete e = true) evs.

(** An event a tick of node [n] can add: a call of a callback of [n]. *)
Definition callback_event (n : nat) (e : event) : Prop :=
  match e with
  | EvTiming m _ | EvAnimator m _ _ | EvOnError m _ _ => m = n
  | _ => False
  end.

(** An event [_complete] on [n] can add. *)
Definition completion_event (n : nat) (e : event) : Prop :=
  match e with
  | EvOnCompleted m _ => m = n
  | _ => False
  end.

(** ** Chains on the list *)

(** The deferred a node reports to identifies its chain. *)
Definition chainOf (n : nat) (s : Timeline) : option nat :=
  heap s !! n ≫= Node._onError.

Definition callbackOf (n : nat) (s : Timeline) : option nat :=
  heap s !! n ≫= Node._onCompleted.

(** A node as the constructor left it. *)
Definition fresh (s : Timeline) (m : nat) : Prop :=
  completed m s = Some false ∧ error m s = Some false ∧
  started m s = Some false ∧ prevOf m s = None ∧ nextOf m s = None.

(** Neither the scheduler nor a list link refers to [m]. *)
Definition unreferenced (s : Timeline) (m : nat) : Prop :=
  _nextNode s ≠ Some m ∧ _tailNode s ≠ Some m ∧
  ∀ z, prevOf z s ≠ Some m ∧ nextOf z s ≠ Some m.

(** Static chains as [enqueue] builds them: a next phase is a younger node
    of the same chain with one predecessor, and a completion callback
    resolves the deferred of its own chain. *)
Definition chains_ok (s : Timeline) : Prop :=
  (∀ n m, subOf n s = Some m → n < m ∧ chainOf m s = chainOf n s) ∧
  (∀ p p' m, subOf p s = Some m → subOf p' s = Some m → p = p') ∧
  (∀ n c, callbackOf n s = Some c → chainOf n s = Some c).

(** The state of the scheduler during the second half of a sweep: [l] is
    the list, every chain has one node on it, none of them is completed,
    the later phases of their chains are untouched, and the nodes on the
    list that have erred are among [done], the nodes still to complete. *)
Definition sweeping (s : Timeline) (l done : list nat) : Prop :=
  dlist s l ∧ chains_ok s ∧
  (∀ x y, x ∈ l → y ∈ l → chainOf x s = chainOf y s → x = y) ∧
  (∀ x, x ∈ l →
     completed x s = Some false ∧ is_Some (chainOf x s) ∧
     (x ∉ done → error x s = Some false)) ∧
  (∀ x m, x ∈ l → x < m → chainOf m s = chainOf x s →
     fresh s m ∧ unreferenced s m) ∧
  NoDup done ∧ (∀ x, x ∈ done → x ∈ l).

(** The list after [_complete] on the node [nd] between [l1] and [l2]. *)
Definition completed_list (l1 : list nat) (nd : Node.t) (l2 : list nat) : list nat :=
  match Node._subNode nd, Node._error nd with
  | Some m, false => l1 ++ m :: l2
  | _, _ => l1 ++ l2
  end.

(** The state of the scheduler between two operations. *)
Definition well_formed (s : Timeline) (l : list nat) : Prop := sweeping s l [].

(** No tick can reach [m] any more: nothing refers to it and the phases
    before it are completed. *)
Definition dormant (s : Timeline) (m : nat) : Prop :=
  m < length (heap s) ∧ unreferenced s m ∧
  ∀ p, subOf p s = Some m → completed p s = Some true.

(** From [s] to [s'] the effect of [m] was not called. *)
Definition silent (m : nat) (s s' : Timeline) : Prop :=
  ∃ evs, trace s' = trace s ++ evs ∧
    Forall (λ e, is_animator_call m e = false) evs.

(** The effect of [m] will not be called again: [m] is completed, or out
    of reach of the sweep. *)
Definition quiet (s : Timeline) (m : nat) : Prop :=
  completed m s = Some true ∨ dormant s m.

(** From [s] to [s'] no node was created, the static chains are the same
    and completed nodes stay completed. *)
Definition steady (s s' : Timeline) : Prop :=
  length (heap s') = length (heap s) ∧
  (∀ k, subOf k s' = subOf k s) ∧
  (∀ k, completed k s = Some true → completed k s' = Some true).

(** [revoke] on the nodes of a static chain, one after the other. *)
Definition revoke_all (ch : list nat) (s : Timeline) : Timeline :=
  foldl (λ s n, revoke_node n s) s ch.

(** From [s] to [s'] completion callbacks ran and nothing else was
    reported: a deferred is as it was, or went from pending to resolved. *)
Definition resolving (s s' : Timeline) : Prop :=
  (∃ evs, trace s' = trace s ++ evs ∧
     Forall (λ e, ∃ n c, e = EvOnCompleted n c) evs) ∧
  ∀ k, promises s' !! k = promises s !! k ∨
       (promises s !! k = Some Pending ∧ promises s' !! k = Some Resolved).

(** ** Nodes dropped by a reset *)

(** [o] is no node (or deferred) older than the [N]-th. *)
Definition newer (N : nat) (o : option nat) : Prop := ∀ k, o = Some k → N ≤ k.

(** A node that refers to no node older than the [N]-th and to no
    deferred older than the [P]-th. *)
Definition recent (N P : nat) (nd : Node.t) : Prop :=
  newer N (Node._prevNode nd) ∧ newer N (Node._nextNode nd) ∧
  newer N (Node._subNode nd) ∧
  newer P (Node._onError nd) ∧ newer P (Node._onCompleted nd).

(** The scheduler has let go of the first [N] nodes and the first [P]
    deferreds: neither it nor a younger node refers to them. *)
Definition detached (N P : nat) (s : Timeline) : Prop :=
  N ≤ length (heap s) ∧ P ≤ length (promises s) ∧
  newer N (_nextNode s) ∧ newer N (_tailNode s) ∧
  ∀ k nd, N ≤ k → heap s !! k = Some nd → recent N P nd.

(** The node an event is about. *)
Definition node_of (e : event) : nat :=
  match e with
  | EvTick n _ | EvTiming n _ | EvAnimator n _ _ | EvComplete n
  | EvOnCompleted n _ | EvOnError n _ _ => n
  end.

(** From [s] to [s'] the first [N] nodes and the first [P] deferreds are
    as they were, and nothing happened to these nodes: no tick, no call of
    an effect or a timing, no completion, no callback. *)
Definition kept (N P : nat) (s s' : Timeline) : Prop :=
  (∀ k, k < N → heap s' !! k = heap s !! k) ∧
  (∀ c, c < P → promises s' !! c = promises s !! c) ∧
  ∃ evs, trace s' = trace s ++ evs ∧ Forall (λ e, N ≤ node_of e) evs.

(** A step from [s] to [s'] that passes these nodes and deferreds by. *)
Definition aside (N P : nat) (s s' : Timeline) : Prop :=
  detached N P s' ∧ kept N P s s'.

(** [o] is no operation on one of the first [N] nodes. *)
Definition spares (N : nat) (o : op) : Prop :=
  match o with OpRevoke n => N ≤ n | _ => True end.

(** What a caller does after a [reset]: a new chain and two pulses. *)
Definition after_reset : list op :=
  [OpAnimate [phase 20 noop]; OpFrame; OpFrame].

(** ** The states a scheduler reaches *)

(** No reference leads out of the store: nothing refers to a node that
    does not exist yet, and every node reports to an existing deferred. *)
Definition bounded (s : Timeline) : Prop :=
  (∀ m, length (heap s) ≤ m → unreferenced s m) ∧
  (∀ k m, subOf k s = Some m → m < length (heap s)) ∧
  (∀ k c, chainOf k s = Some c → c < length (promises s)).

(** The frame driver holds no callback, or the one of the subscription of
    a running scheduler. *)
Definition subscribed (s : Timeline) : Prop :=
  0 < raf_next s ∧
  (raf_pending s = [] ∨
   (paused s = false ∧ raf_pending s = [Nat.pred (raf_next s)] ∧
    _timer s = Some (Nat.pred (raf_next s)) ∧ 1 < raf_next s)).

(** The deferred of every chain on the list [l] is pending. *)
Definition pending_on (s : Timeline) (l : list nat) : Prop :=
  ∀ x c, x ∈ l → chainOf x s = Some c → promises s !! c = Some Pending.

(** Only the last phase of a chain has a completion callback. *)
Definition terminal_only (s : Timeline) : Prop :=
  ∀ n c, callbackOf n s = Some c → subOf n s = None.

(** The states of a scheduler nothing was revoked on. *)
Definition sound (s : Timeline) : Prop :=
  (∃ l, well_formed s l ∧ pending_on s l) ∧
  terminal_only s ∧ bounded s ∧ subscribed s.

(** [o] is no revocation. *)
Definition gentle (o : op) : Prop :=
  match o with OpRevoke _ => False | _ => True end.

(** The nodes the operations [ops] create. *)
Definition nodes_of (ops : list op) : nat :=
  sum_list (map (λ o, match o with OpAnimate inits => length inits | _ => 0 end) ops).

(** A node of a chain that reports to [d], as [enqueue] leaves it. *)
Definition chain_node (d : nat) (prev sub cb : option nat) (nd : Node.t) : Prop :=
  Node._onError nd = Some d ∧ Node._started nd = false ∧
  Node._completed nd = false ∧ Node._error nd = false ∧
  Node._prevNode nd = prev ∧ Node._nextNode nd = None ∧
  Node._subNode nd = sub ∧ Node._onCompleted nd = cb.

(** ** The life of a node and of a deferred *)

(** The node [nd'] is [nd] later in its life: what the constructor and
    [enqueue] fixed is the same, a flag that was set is set, and a latched
    start time is kept. *)
Definition later (nd nd' : Node.t) : Prop :=
  static nd' = static nd ∧
  (Node._started nd = true →
     Node._started nd' = true ∧ Node._startTime nd' = Node._startTime nd) ∧
  (Node._completed nd = true → Node._completed nd' = true) ∧
  (Node._error nd = true → Node._error nd' = true).

(** From [s] to [s'] every node and every deferred is still there, every
    node is later in its life, a settled deferred is as it was, and the
    trace was extended. *)
Definition grown (s s' : Timeline) : Prop :=
  (∀ k nd, heap s !! k = Some nd →
     ∃ nd', heap s' !! k = Some nd' ∧ later nd nd') ∧
  (∀ c p, promises s !! c = Some p →
     ∃ p', promises s' !! c = Some p' ∧ (p ≠ Pending → p' = p)) ∧
  ∃ evs, trace s' = trace s ++ evs.

(** A chain of two phases whose second effect throws, after the sweep in
    which it throws. *)
Definition second_phase_thrown : Timeline :=
  match run 10 second_phase_throws (createTimeline wall10) with
  | Some s => s
  | None => createTimeline wall10
  end.

(** ** The list after a sweep *)

(** Whether the tick of a sweep at the time [ts] that left the node [x] as
    it is in [s] returned true: the node erred, or its progress reached 1.
    A tick of a node that is not in the store returns true. *)
Definition ended (ts : Qc) (s : Timeline) (x : nat) : bool :=
  match heap s !! x with
  | Some nd => Node._error nd || js_ge (_calculateProgress ts nd) 1
  | None => true
  end.

(** What is at the place of the node [x] of the list after that sweep: [x]
    itself when its tick returned false; otherwise its next phase, or
    nothing when it has none or erred. *)
Definition successor (ts : Qc) (s : Timeline) (x : nat) : list nat :=
  if ended ts s x then
    match subOf x s, error x s with
    | Some m, Some false => [m]
    | _, _ => []
    end
  else [x].

(** ** What [animate], [repeat] and [delay] create *)

(** The segment a node was created for. *)
Definition segment (nd : Node.t) : Segment :=
  mkSegment (Node.duration nd) (Node.animator nd) (Node.timing nd).

(** [animation(duration, animator, timing)] *)
Definition animation (duration : Qc) (animator : option Animator)
    (timing : option TimingFunction) : AnimationInitial :=
  InitObject (mkSegment duration animator timing).

(** [delay(duration)] *)
Definition delay (duration : Qc) (s : Timeline)
    : option (AnimationPromise * Timeline) :=
  enqueue [animation duration None None] s.


(** ** [revoke(node, deep)] of the scheduler *)

(** The method of [AnimationTimelineImpl], apart from [revoke()] of a
    node.  Every loop runs at most [fuel] times; [None] when that does not
    suffice. *)
Module AnimationTimelineImpl.

(** The [while (subNode)] loop of [_searchInSubNodes]. *)
Fixpoint _searchInSubNodes_loop (fuel n : nat) (subNode : option nat)
    (targetNode : nat) (s : Timeline) : option (bool * Timeline) :=
  match subNode with
  | None => Some (false, s)
  | Some sn =>
      match n with
      | 0 => None
      | S n =>
          if bool_decide (sn = targetNode)
          then s' ← revoke fuel sn s; Some (true, s')
          else _searchInSubNodes_loop fuel n (subOf sn s) targetNode s
      end
  end.

Definition _searchInSubNodes (fuel : nat) (node targetNode : nat) (s : Timeline)
    : option (bool * Timeline) :=
  _searchInSubNodes_loop fuel fuel (subOf node s) targetNode s.

(** [currentNode.nextNode]: a node has the field [_nextNode] and no
    property [nextNode], so the read yields [undefined]. *)
Definition nextNode (currentNode : nat) (s : Timeline) : option nat := None.

(** The [while (currentNode)] loop of [_findAndRevokeNode]. *)
Fixpoint _findAndRevokeNode_loop (fuel n : nat) (currentNode : option nat)
    (targetNode : nat) (deep : bool) (s : Timeline) : option (bool * Timeline) :=
  match currentNode with
  | None => Some (false, s)
  | Some cur =>
      match n with
      | 0 => None
      | S n =>
          if bool_decide (cur = targetNode)
          then s' ← revoke fuel cur s; Some (true, s')
          else if deep then
            '(found, s') ← _searchInSubNodes fuel cur targetNode s;
            if (found : bool) then Some (true, s')
            else _findAndRevokeNode_loop fuel n (nextNode cur s') targetNode deep s'
          else _findAndRevokeNode_loop fuel n (nextNode cur s) targetNode deep s
      end
  end.

Definition _findAndRevokeNode (fuel : nat) (targetNode : nat) (deep : bool)
    (s : Timeline) : option (bool * Timeline) :=
  _findAndRevokeNode_loop fuel fuel (_nextNode s) targetNode deep s.

(** [revoke(node, deep)].  A reference into the store is a node of this
    scheduler, so the guard of the method lets it pass. *)
Definition revoke (fuel : nat) (node : nat) (deep : bool) (s : Timeline)
    : option (bool * Timeline) :=
  _findAndRevokeNode fuel node deep s.

End AnimationTimelineImpl.

(** Chain A (nodes 0 and 1) and chain B (node 2) on one scheduler, before
    the first pulse. *)
Definition two_chains : Timeline :=
  match run 10 chains_A_B (createTimeline wall10) with
  | Some s => s
  | None => createTimeline wall10
  end.

(** ** A scheduler with work is subscribed *)

(** The flags of the scheduler agree with the frame driver: a paused
    scheduler is polling and holds no handle; one that is not polling
    holds no handle; the callback of an unpaused polling scheduler is
    with the frame driver; a scheduler with a node on its list is
    polling; and a handle is a positive number. *)
Definition live (s : Timeline) : Prop :=
  (paused s = true → _isPolling s = true ∧ _timer s = None) ∧
  (_isPolling s = false → _timer s = None) ∧
  (paused s = false → _isPolling s = true → raf_pending s ≠ []) ∧
  (_nextNode s ≠ None → _isPolling s = true) ∧
  (∀ id, _timer s = Some id → 0 < id).

(** ** What the state of a deferred tells *)

(** Chains as [enqueue] lays them out in the store: the next phase of a
    node is the node created right after it, and a node with a younger
    node of its chain has a next phase. *)
Definition laid_out (s : Timeline) : Prop :=
  (∀ n m, subOf n s = Some m → m = S n) ∧
  (∀ n m c, n < m → chainOf n s = Some c → chainOf m s = Some c →
     is_Some (subOf n s)).

(** The deferreds agree with the flags of the nodes: the chain of an
    errored node is rejected; a rejected chain has an errored node; every
    node of a resolved chain is completed and free of errors; and so are
    the phases before a node of the list [l]. *)
Definition told (s : Timeline) (l : list nat) : Prop :=
  (∀ n, error n s = Some true →
     ∃ c e, chainOf n s = Some c ∧ promises s !! c = Some (Rejected e)) ∧
  (∀ c e, promises s !! c = Some (Rejected e) →
     ∃ n, chainOf n s = Some c ∧ error n s = Some true) ∧
  (∀ c n, promises s !! c = Some Resolved → chainOf n s = Some c →
     completed n s = Some true ∧ error n s = Some false) ∧
  (∀ x n, x ∈ l → n < x → chainOf n s = chainOf x s →
     completed n s = Some true ∧ error n s = Some false).
(** The deferreds tell what happened to their chains, in the states of a
    scheduler nothing was revoked on. *)
Definition telling (s : Timeline) : Prop :=
  sound s ∧ laid_out s ∧ ∃ l, active s l ∧ told s l.

(** ** Chains that come to an end *)









(** ** One phase after the other *)

(** A phase that was started follows a phase that is completed and did
    not err. *)
Definition sequenced (s : Timeline) : Prop :=
  ∀ n m, subOf n s = Some m → started m s = Some true →
    completed n s = Some true ∧ error n s = Some false.



(** * Properties *)

(** ** The virtual clock *)

Lemma clock_pause_paused wall c :
  AnimationClock._isPaused c = true → AnimationClock.pause wall c = c.
Proof. unfold AnimationClock.pause. by intros ->. Qed.

Lemma clock_resume_running wall c :
  AnimationClock._isPaused c = false → AnimationClock.resume wall c = c.
Proof. unfold AnimationClock.resume. by intros ->. Qed.

(** A reading taken while paused is the value frozen by [pause]. *)
Lemma clock_now_frozen w1 w c :
  AnimationClock._isPaused c = false →
  AnimationClock.now w (AnimationClock.pause w1 c) = AnimationClock.now w1 c.
Proof. unfold AnimationClock.pause, AnimationClock.now. by intros ->. Qed.

(** After [pause] at [w1] and [resume] at [w2] a reading at [w] is the
    frozen value plus the wall time since [w2], minus the offset the clock
    had before: the reading continues from the frozen value only when that
    offset was zero. *)
Lemma clock_now_after_resume w1 w2 w c :
  AnimationClock._isPaused c = false →
  AnimationClock.now w (AnimationClock.resume w2 (AnimationClock.pause w1 c))
  = (AnimationClock.now w1 c + (w - w2) - AnimationClock._offset c)%Qc.
Proof.
  unfold AnimationClock.pause, AnimationClock.resume, AnimationClock.now.
  intros ->. simpl. ring.
Qed.

(** C8: two pause and resume cycles.  The reading at wall time 30 is 20; the
    clock is then paused for the wall interval from 30 to 40, so the reading
    at wall time 40 should be 20 again.  The code returns 10. *)
Theorem C8_second_resume_rewinds :
  (AnimationClock.session two_pause_cycles AnimationClock.init).1 = [ms 20; ms 10].
Proof.
  cbn [AnimationClock.session two_pause_cycles fst].
  apply (f_equal2 cons); [|apply (f_equal2 cons); [|done]];
    apply Qc_is_canon; reflexivity.
Qed.

(** ** Concrete runs *)

(** C1: the second phase of a chain (node 1) throws 7.  Node 1 is flagged
    and the chain is rejected with 7, but the handle (node 0) still reports
    no error: the [reject] given to a child node does not touch the handle. *)
Theorem C1_handle_misses_descendant_error :
  (run 10 second_phase_throws (createTimeline wall10)
     ≫= λ s, Some (error 1 s, promises s, error 0 s))
  = Some (Some true, [Rejected 7], Some false).
Proof. vm_compute. reflexivity. Qed.

(** C2: chain B alone on the list after A is revoked.  Without the revoke
    the effect of B (node 2) runs three times and B resolves; after
    [revoke()] on the handle of the two-phase chain A the head of the list
    is lost, the effect of B never runs and B stays pending. *)
Theorem C2_revoke_drops_other_chain :
  (run 10 undisturbed (createTimeline wall10)
     ≫= λ s, Some (animator_calls 2 s, promises s !! 1))
  = Some (3, Some Resolved) ∧
  (run 10 (chains_A_B ++ [OpRevoke 0]) (createTimeline wall10)
     ≫= λ s, Some (_nextNode s, completed 2 s))
  = Some (None, Some false) ∧
  (run 10 revoked_A (createTimeline wall10)
     ≫= λ s, Some (animator_calls 2 s, promises s !! 1))
  = Some (0, Some Pending).
Proof. vm_compute. done. Qed.

(** ** Pausing the scheduler *)

(** C9, as stated, fails on an idle scheduler: nothing is subscribed, and
    [pause] leaves the clock running. *)
Lemma C9_idle_pause_keeps_clock_running :
  let s := createTimeline wall10 in
  paused s = false ∧ _timer s = None ∧ paused (pause s) = false.
Proof. done. Qed.

(** C9, amended: [pause] changes nothing when the scheduler is paused or
    has no subscription; with a subscription [id] on a running scheduler it
    cancels [id], forgets it and pauses the clock at the current reading. *)
Theorem C9_pause (s : Timeline) :
  ((paused s = true ∨ _timer s = None) → pause s = s) ∧
  (∀ id, paused s = false → _timer s = Some id →
     _timer (pause s) = None ∧
     (id ∉ raf_pending (pause s)) ∧
     paused (pause s) = true ∧
     _clock (pause s) = AnimationClock.pause (perf s (perf_reads s)) (_clock s) ∧
     AnimationClock.now 0 (_clock (pause s))
       = AnimationClock.now (perf s (perf_reads s)) (_clock s) ∧
     heap (pause s) = heap s ∧ _nextNode (pause s) = _nextNode s ∧
     _tailNode (pause s) = _tailNode s ∧ promises (pause s) = promises s ∧
     trace (pause s) = trace s).
Proof.
  unfold pause, paused, AnimationClock.isPaused. split.
  - intros [H | H]; rewrite H; [by destruct (_timer s) | done].
  - intros id Hp Ht. rewrite Ht, Hp. simpl.
    unfold clock_pause. simpl. rewrite Hp. simpl.
    repeat split; try done.
    + rewrite list_elem_of_filter. tauto.
    + unfold AnimationClock.pause. by rewrite Hp.
    + unfold AnimationClock.pause, AnimationClock.now. by rewrite Hp.
Qed.

Lemma C9_pause_witness :
  let s := start (createTimeline wall10) in
  _timer (pause s) = None ∧ paused (pause s) = true.
Proof.
  intros s.
  destruct (C9_pause s) as [_ H].
  destruct (H 1 eq_refl eq_refl) as (H1 & _ & H3 & _).
  exact (conj H1 H3).
Defined.


(** ** Store and trace *)

Lemma heap_upd n f s m :
  heap (upd n f s) !! m = if decide (n = m) then f <$> heap s !! n else heap s !! m.
Proof. apply list_lookup_alter. Qed.

Lemma heap_upd_eq n f s : heap (upd n f s) !! n = f <$> heap s !! n.
Proof. apply list_lookup_alter_eq. Qed.

Lemma heap_upd_ne n f s m : n ≠ m → heap (upd n f s) !! m = heap s !! m.
Proof. apply list_lookup_alter_ne. Qed.

Lemma set_trace_id s : set_trace (trace s) s = s.
Proof. by destruct s. Qed.

Lemma clamp01_bounds x q : clamp01 x = Num q → (0 ≤ q ∧ q ≤ 1)%Qc.
Proof.
  unfold clamp01, Math_min, Math_max.
  destruct x as [p| | |]; intros [= <-]; repeat case_decide; split; try done.
  all: try (by apply Qclt_le_weak, Qcnot_le_lt).
Qed.


Lemma tick_done ts n nd s :
  heap s !! n = Some nd →
  Node._completed nd || Node._error nd = true → _tick ts n s = (true, s).
Proof. intros H Hd. unfold _tick. by rewrite H, Hd. Qed.

Lemma processAnimationFrame_spec ts n nd s :
  heap s !! n = Some nd →
  let raw := _calculateProgress ts nd in
  _processAnimationFrame ts n s
  = (match callbacks nd raw with
     | Returns _ => Returns (js_ge raw 1)
     | Throws e => Throws e
     end,
     set_trace (trace s ++ callback_calls n nd raw) s).
Proof.
  intros H raw. unfold _processAnimationFrame. rewrite H. fold raw.
  unfold _applyAnimation, callbacks, appliedProgress, callback_calls, log.
  destruct (Node.animator nd) as [a|]; simpl.
  - destruct (Node.timing nd) as [f|]; simpl.
    + destruct (f raw) as [x|e]; simpl.
      * rewrite <- app_assoc. simpl. by destruct (a x raw).
      * done.
    + by destruct (a raw raw).
  - by rewrite app_nil_r, set_trace_id.
Qed.

Lemma latched_lookup n nd s :
  heap s !! n = Some nd →
  ∃ nd', heap (latched n nd s) !! n = Some nd' ∧
    Node._started nd' = true ∧
    (Node._started nd = true → nd' = nd) ∧
    Node._startTime nd' = start_of_tick nd s ∧
    Node.duration nd' = Node.duration nd ∧ Node.animator nd' = Node.animator nd ∧
    Node.timing nd' = Node.timing nd ∧ Node._onError nd' = Node._onError nd ∧
    Node._completed nd' = Node._completed nd ∧ Node._error nd' = Node._error nd ∧
    Node._subNode nd' = Node._subNode nd ∧ Node._onCompleted nd' = Node._onCompleted nd ∧
    Node._prevNode nd' = Node._prevNode nd ∧ Node._nextNode nd' = Node._nextNode nd.
Proof.
  intros H. unfold latched, start_of_tick.
  destruct (Node._started nd) eqn:Hs.
  - exists nd. by rewrite Hs.
  - unfold _initializeAnimation, clock_now.
    destruct (AnimationClock._isPaused (_clock s)); simpl;
      rewrite list_lookup_alter_eq, H; simpl; eexists; split; try done.
Qed.

Lemma latched_scalars n nd s :
  let s' := latched n nd s in
  trace s' = trace s ∧ promises s' = promises s ∧
  _nextNode s' = _nextNode s ∧ _tailNode s' = _tailNode s ∧
  _timer s' = _timer s ∧ _clock s' = _clock s ∧ _isPolling s' = _isPolling s ∧
  raf_next s' = raf_next s ∧ raf_pending s' = raf_pending s ∧ perf s' = perf s ∧
  perf_reads s' =
    (if Node._started nd || paused s then perf_reads s else S (perf_reads s)).
Proof.
  unfold latched, _initializeAnimation, clock_now, paused, AnimationClock.isPaused.
  destruct (Node._started nd); [done|].
  by destruct (AnimationClock._isPaused (_clock s)).
Qed.

Lemma tick_unfold ts n nd s :
  heap s !! n = Some nd →
  Node._completed nd || Node._error nd = false →
  let raw := rawProgress ts nd s in
  let s2 := set_trace (trace s ++ callback_calls n nd raw) (latched n nd s) in
  _tick ts n s
  = match callbacks nd raw with
    | Returns _ => (js_ge raw 1, s2)
    | Throws e => (true, _handleError e n s2)
    end.
Proof.
  intros H Hd raw s2. unfold _tick. rewrite H, Hd.
  fold (latched n nd s).
  destruct (latched_lookup n nd s H)
    as (nd' & H' & _ & _ & Hst & Hdu & Ha & Hf & _).
  rewrite (processAnimationFrame_spec _ _ _ _ H').
  assert (_calculateProgress ts nd' = raw) as ->.
  { unfold _calculateProgress, raw, rawProgress. rewrite Hst, Hdu. done. }
  assert (callbacks nd' raw = callbacks nd raw) as ->.
  { unfold callbacks, appliedProgress. by rewrite Ha, Hf. }
  assert (callback_calls n nd' raw = callback_calls n nd raw) as ->.
  { unfold callback_calls. by rewrite Ha, Hf. }
  destruct (latched_scalars n nd s) as (-> & _).
  by destruct (callbacks nd raw).
Qed.

Lemma handleError_spec e n nd s :
  heap s !! n = Some nd →
  let s' := _handleError e n s in
  heap s' = alter (Node.set_error true) n (heap s) ∧
  trace s' = trace s ++ match Node._onError nd with
                        | Some c => [EvOnError n c e]
                        | None => []
                        end ∧
  promises s' = match Node._onError nd with
                | Some c => alter (settle (Rejected e)) c (promises s)
                | None => promises s
                end ∧
  _nextNode s' = _nextNode s ∧ _tailNode s' = _tailNode s ∧
  _timer s' = _timer s ∧ _clock s' = _clock s ∧ _isPolling s' = _isPolling s ∧
  raf_next s' = raf_next s ∧ raf_pending s' = raf_pending s ∧ perf s' = perf s ∧
  perf_reads s' = perf_reads s.
Proof.
  intros H. unfold _handleError. rewrite heap_upd_eq, H. simpl.
  destruct (Node._onError nd); simpl; by rewrite ?app_nil_r.
Qed.

(** C5, as stated, fails when a callback throws: the effect of the node
    throws at raw progress 0, and the tick returns true. *)
Lemma C5_throwing_effect_returns_true :
  let s := one_chain (throwing 7) in
  let nd := phase_node (throwing 7) in
  heap s !! 0 = Some nd ∧
  Node._completed nd || Node._error nd = false ∧
  js_ge (rawProgress (ms 0) nd s) 1 = false ∧
  (_tick (ms 0) 0 s).1 = true.
Proof. vm_compute. done. Qed.

(** What a tick does. *)
Lemma tick_spec ts n nd s :
  heap s !! n = Some nd →
  let r := _tick ts n s in
  let raw := rawProgress ts nd s in
  if Node._completed nd || Node._error nd then r = (true, s)
  else
    Node._started <$> heap r.2 !! n = Some true ∧
    Node._startTime <$> heap r.2 !! n = Some (start_of_tick nd s) ∧
    (∀ q, raw = Num q → (0 ≤ q ∧ q ≤ 1)%Qc) ∧
    trace r.2 = trace s ++ callback_calls n nd raw ++ error_calls n nd raw ∧
    match callbacks nd raw with
    | Returns _ => r.1 = js_ge raw 1 ∧ Node._error <$> heap r.2 !! n = Some false
    | Throws e => r.1 = true ∧ Node._error <$> heap r.2 !! n = Some true
    end.
Proof.
  intros H r raw. subst r.
  destruct (Node._completed nd || Node._error nd) eqn:Hd; [by apply (tick_done _ _ nd)|].
  assert (∀ q, raw = Num q → (0 ≤ q ∧ q ≤ 1)%Qc) as Hb.
  { intros q. unfold raw, rawProgress. destruct (start_of_tick nd s); [|done].
    apply clamp01_bounds. }
  rewrite (tick_unfold _ _ _ _ H Hd). fold raw.
  destruct (latched_lookup n nd s H)
    as (nd' & H' & Hs' & _ & Hst & _ & _ & _ & Hoe & _ & He & _).
  destruct (latched_scalars n nd s) as (Htr & _).
  apply orb_false_iff in Hd as [_ He0].
  unfold error_calls.
  destruct (callbacks nd raw) as [[]|e]; simpl.
  - rewrite H'. simpl. rewrite Hs', Hst, He, He0, ?Htr, app_nil_r. done.
  - set (s2 := set_trace _ _).
    assert (heap s2 !! n = Some nd') as H2 by done.
    destruct (handleError_spec e n nd' s2 H2) as (-> & -> & _).
    rewrite list_lookup_alter_eq, H2. simpl. rewrite Hs', Hst, Hoe, ?Htr.
    split_and!; try done. by rewrite app_assoc.
Qed.


Lemma tick_heap ts n s :
  ∃ g, heap (_tick ts n s).2 = alter g n (heap s) ∧
    ∀ nd, static (g nd) = static nd ∧ links (g nd) = links nd ∧
          Node._completed (g nd) = Node._completed nd.
Proof.
  destruct (heap s !! n) as [nd|] eqn:H; cycle 1.
  { unfold _tick. rewrite H. exists id. by rewrite list_alter_id. }
  destruct (Node._completed nd || Node._error nd) eqn:Hd.
  { rewrite (tick_done _ _ _ _ H Hd). exists id. by rewrite list_alter_id. }
  rewrite (tick_unfold _ _ _ _ H Hd).
  assert (∃ g, heap (latched n nd s) = alter g n (heap s) ∧
    ∀ nd, static (g nd) = static nd ∧ links (g nd) = links nd ∧
          Node._completed (g nd) = Node._completed nd) as (g & Hg & Hgp).
  { unfold latched, _initializeAnimation, clock_now.
    destruct (Node._started nd); [exists id; by rewrite list_alter_id|].
    destruct (AnimationClock._isPaused (_clock s)); simpl; by eexists. }
  destruct (callbacks nd _) as [[]|e]; simpl; [by exists g|].
  set (s2 := set_trace _ _).
  destruct (heap s2 !! n) as [nd2|] eqn:H2.
  - destruct (handleError_spec e n nd2 s2 H2) as (-> & _).
    exists (Node.set_error true ∘ g). split.
    + unfold s2. simpl. by rewrite Hg, list_alter_alter_eq.
    + intros x. destruct (Hgp x) as (? & ? & ?). by simpl.
  - unfold s2 in H2. simpl in H2.
    destruct (latched_lookup n nd s H) as (? & ? & _). congruence.
Qed.

Lemma tick_scalars ts n s :
  same_scheduler s (_tick ts n s).2 ∧
  length (heap (_tick ts n s).2) = length (heap s).
Proof.
  split; [|destruct (tick_heap ts n s) as (g & -> & _); apply length_alter].
  destruct (heap s !! n) as [nd|] eqn:H; cycle 1.
  { unfold _tick. by rewrite H. }
  destruct (Node._completed nd || Node._error nd) eqn:Hd.
  { by rewrite (tick_done _ _ _ _ H Hd). }
  rewrite (tick_unfold _ _ _ _ H Hd).
  destruct (latched_scalars n nd s) as (? & ? & ? & ? & ? & ? & ? & ? & ? & ? & ?).
  destruct (latched_lookup n nd s H) as (nd' & H' & _).
  unfold same_scheduler.
  destruct (callbacks nd _) as [[]|e]; simpl; [done|].
  set (s2 := set_trace _ _).
  destruct (handleError_spec e n nd' s2 H')
    as (_ & _ & _ & -> & -> & -> & -> & -> & -> & -> & -> & _).
  done.
Qed.

(** ** Link surgery *)

Lemma relinked_refl s : relinked s s.
Proof. by repeat split. Qed.

Lemma relinked_trans s1 s2 s3 : relinked s1 s2 → relinked s2 s3 → relinked s1 s3.
Proof.
  intros (?&?&?&?&?&?&?&?&?&?&?) (?&?&?&?&?&?&?&?&?&?&?).
  split_and!; try congruence; intros m; etrans; eauto.
Qed.

Lemma fmap_lookup_alter {B} (f : Node.t → B) g n (h : list Node.t) m :
  (∀ nd, f (g nd) = f nd) → f <$> alter g n h !! m = f <$> h !! m.
Proof.
  intros Hg. rewrite list_lookup_alter. case_decide; [subst|done].
  destruct (h !! m); simpl; by rewrite ?Hg.
Qed.

Lemma relinked_upd_next p v s : relinked s (upd p (Node.set_nextNode v) s).
Proof. split_and!; try done; intros m; by apply fmap_lookup_alter. Qed.

Lemma relinked_upd_prev p v s : relinked s (upd p (Node.set_prevNode v) s).
Proof. split_and!; try done; intros m; by apply fmap_lookup_alter. Qed.

Lemma relinked_set_nextNode v s : relinked s (set_nextNode v s).
Proof. by split_and!. Qed.

Lemma relinked_set_tailNode v s : relinked s (set_tailNode v s).
Proof. by split_and!. Qed.

Ltac relink :=
  repeat first
    [ apply relinked_refl
    | eapply relinked_trans;
      [| first [ apply relinked_upd_next | apply relinked_upd_prev
               | apply relinked_set_nextNode | apply relinked_set_tailNode ] ] ].

Lemma relinked_unlink n s : relinked s (unlink n s).
Proof. unfold unlink. cbv zeta. repeat case_match; relink. Qed.

Lemma relinked_splice n m s : relinked s (splice n m s).
Proof.
  unfold splice, _updateNodeLinks, _updateTimelineReferences. cbv zeta.
  repeat case_match; relink.
Qed.

Lemma remove_unlink n s : _remove n s = fire_onCompleted n (unlink n s).
Proof. reflexivity. Qed.

Lemma replace_splice n m s : _replace n m s = fire_onCompleted n (splice n m s).
Proof. reflexivity. Qed.

Lemma fire_onCompleted_spec n s :
  let s' := fire_onCompleted n s in
  let cb := heap s !! n ≫= Node._onCompleted in
  heap s' = heap s ∧ same_scheduler s s' ∧ perf_reads s' = perf_reads s ∧
  trace s' = trace s ++ match cb with Some c => [EvOnCompleted n c] | None => [] end ∧
  promises s' = match cb with
                | Some c => alter (settle Resolved) c (promises s)
                | None => promises s
                end.
Proof.
  unfold fire_onCompleted, same_scheduler.
  destruct (heap s !! n ≫= Node._onCompleted); simpl; by rewrite ?app_nil_r.
Qed.

(** ** Doubly linked segments *)

Lemma hd_or_app l1 l2 d : hd_or (l1 ++ l2) d = hd_or l1 (hd_or l2 d).
Proof. by destruct l1. Qed.

Lemma last_or_cons x l d : last_or (x :: l) d = last_or l (Some x).
Proof.
  unfold last_or. destruct l as [|y l]; [done|].
  rewrite last_cons_cons. destruct (list.last (y :: l)) eqn:E; [done|].
  by apply last_None in E.
Qed.

Lemma last_or_snoc l x d : last_or (l ++ [x]) d = Some x.
Proof. unfold last_or. by rewrite last_snoc. Qed.

Lemma hd_or_None l : hd_or l None = head l.
Proof. by destruct l. Qed.

Lemma last_or_None l : last_or l None = list.last l.
Proof. unfold last_or. by destruct (list.last l). Qed.

Lemma dlseg_app h p l1 l2 nx :
  dlseg h p (l1 ++ l2) nx ↔
  dlseg h p l1 (hd_or l2 nx) ∧ dlseg h (last_or l1 p) l2 nx.
Proof.
  revert p. induction l1 as [|x l1 IH]; intros p; simpl.
  - unfold last_or. simpl. tauto.
  - rewrite last_or_cons, hd_or_app. split.
    + intros (nd & ? & ? & ? & Hr). apply IH in Hr as [??]. eauto 10.
    + intros [(nd & ? & ? & ? & Hr) ?]. exists nd. split_and!; try done.
      apply IH. done.
Qed.

Lemma dlseg_ext h h' p l nx :
  (∀ x, x ∈ l → links <$> h' !! x = links <$> h !! x) →
  dlseg h p l nx → dlseg h' p l nx.
Proof.
  revert p. induction l as [|x l IH]; intros p Hl; simpl; [done|].
  intros (nd & Hx & ? & ? & Hr).
  pose proof (Hl x ltac:(left)) as E. rewrite Hx in E.
  destruct (h' !! x) as [nd'|]; [|done]. injection E as E1 E2.
  exists nd'. split_and!; try congruence.
  apply IH; [|done]. intros y Hy. apply Hl. by right.
Qed.

Lemma dlseg_lookup h p l nx x :
  dlseg h p l nx → x ∈ l → is_Some (h !! x).
Proof.
  revert p. induction l as [|y l IH]; intros p; simpl; [by intros _ ?%elem_of_nil|].
  intros (nd & Hx & ? & ? & Hr) [->|?]%elem_of_cons; eauto.
Qed.

Lemma dlseg_set_next_last h p l x nx nx' :
  x ∉ l → dlseg h p (l ++ [x]) nx →
  dlseg (alter (Node.set_nextNode nx') x h) p (l ++ [x]) nx'.
Proof.
  intros Hx. rewrite !dlseg_app. simpl. intros [H1 (nd & Hnd & ? & ? & _)].
  split.
  - eapply dlseg_ext; [|done]. intros y Hy.
    rewrite list_lookup_alter_ne; [done|]. by intros ->.
  - rewrite list_lookup_alter_eq, Hnd. simpl. eauto.
Qed.

Lemma dlseg_set_prev_first h p p' l x nx :
  x ∉ l → dlseg h p (x :: l) nx →
  dlseg (alter (Node.set_prevNode p') x h) p' (x :: l) nx.
Proof.
  intros Hx. simpl. intros (nd & Hnd & ? & ? & Hr).
  rewrite list_lookup_alter_eq, Hnd. simpl. eexists. split_and!; try done.
  eapply dlseg_ext; [|done]. intros y Hy.
  rewrite list_lookup_alter_ne; [done|]. by intros ->.
Qed.

(** The links of a node of the list. *)
Lemma dlseg_middle h p l1 n l2 nx :
  dlseg h p (l1 ++ n :: l2) nx →
  ∃ nd, h !! n = Some nd ∧ Node._prevNode nd = last_or l1 p ∧
        Node._nextNode nd = hd_or l2 nx.
Proof. rewrite dlseg_app. simpl. intros [_ (nd & ? & ? & ? & _)]. eauto. Qed.

Lemma prevOf_upd_ne p f n s : p ≠ n → prevOf n (upd p f s) = prevOf n s.
Proof. intros. unfold prevOf. by rewrite heap_upd_ne. Qed.

Lemma nextOf_upd_ne p f n s : p ≠ n → nextOf n (upd p f s) = nextOf n s.
Proof. intros. unfold nextOf. by rewrite heap_upd_ne. Qed.

(** What [unlink] does to a node whose neighbours are other nodes. *)
Lemma unlink_explicit n s :
  prevOf n s ≠ Some n → nextOf n s ≠ Some n →
  let P := prevOf n s in
  let Q := nextOf n s in
  heap (unlink n s)
  = match Q with Some q => alter (Node.set_prevNode P) q | None => id end
      (match P with Some p => alter (Node.set_nextNode Q) p | None => id end (heap s)) ∧
  _nextNode (unlink n s)
  = match P with
    | None => Q
    | Some _ => if bool_decide (_nextNode s = Some n) then Q else _nextNode s
    end ∧
  _tailNode (unlink n s)
  = if bool_decide (_tailNode s = Some n) then P else _tailNode s.
Proof.
  intros HP HQ P Q. subst P Q. unfold unlink, prevOf, nextOf in *. cbv zeta.
  destruct (heap s !! n) as [nd|] eqn:Hn; simpl in *.
  - destruct (Node._prevNode nd) as [p|] eqn:EP;
      destruct (Node._nextNode nd) as [q|] eqn:EQ; simpl.
    all: repeat first
      [ rewrite list_lookup_alter_ne by congruence
      | rewrite Hn
      | rewrite EP
      | rewrite EQ
      | progress simpl ].
    all: repeat case_bool_decide; simpl; try done; try congruence.
    all: rewrite ?list_lookup_alter_ne by congruence; rewrite ?Hn; simpl; rewrite ?EQ; done.
  - rewrite ?Hn. simpl. rewrite ?Hn. simpl.
    repeat case_bool_decide; simpl in *; rewrite ?Hn; simpl; try done;
      congruence.
Qed.

Lemma splice_explicit n m s :
  m ≠ n → prevOf n s ≠ Some n →
  let P := prevOf n s in
  let Q := nextOf n s in
  heap (splice n m s)
  = match Q with Some q => alter (Node.set_prevNode (Some m)) q | None => id end
      (match P with Some p => alter (Node.set_nextNode (Some m)) p | None => id end
         (alter (Node.set_nextNode Q) m (alter (Node.set_prevNode P) m (heap s)))) ∧
  _nextNode (splice n m s)
  = (if bool_decide (_nextNode s = Some n) then Some m else _nextNode s) ∧
  _tailNode (splice n m s)
  = (if bool_decide (_tailNode s = Some n) then Some m else _tailNode s).
Proof.
  intros Hm HP P Q. subst P Q.
  unfold splice, _updateNodeLinks, _updateTimelineReferences, prevOf, nextOf in *.
  cbv zeta. simpl.
  rewrite !(list_lookup_alter_ne _ _ m n) by done.
  destruct (heap s !! n) as [nd|] eqn:Hn; simpl in *.
  - destruct (Node._prevNode nd) as [p|] eqn:EP;
      destruct (Node._nextNode nd) as [q|] eqn:EQ; simpl.
    all: repeat case_bool_decide; simpl.
    all: repeat first
      [ rewrite list_lookup_alter_ne by congruence
      | rewrite Hn
      | rewrite EP
      | rewrite EQ
      | progress simpl ]; done.
  - repeat case_bool_decide; simpl; rewrite ?list_lookup_alter_ne, ?Hn by done;
      simpl; rewrite ?list_lookup_alter_ne, ?Hn by done; done.
Qed.

Lemma NoDup_middle (l1 l2 : list nat) n :
  NoDup (l1 ++ n :: l2) →
  (n ∉ l1) ∧ (n ∉ l2) ∧ NoDup (l1 ++ l2) ∧ (∀ x, x ∈ l1 → x ∉ l2).
Proof.
  intros H. apply list.NoDup_app in H as (N1 & D & N2).
  apply list.NoDup_cons in N2 as [N N2].
  split_and!; try done.
  - intros Hn. apply (D n Hn). by left.
  - apply list.NoDup_app. split_and!; try done.
    intros x Hx Hx2. apply (D x Hx). by right.
  - intros x Hx Hx2. apply (D x Hx). by right.
Qed.

Lemma last_or_ne (l : list nat) n : n ∉ l → last_or l None ≠ Some n.
Proof.
  intros Hn. unfold last_or. destruct (list.last l) as [x|] eqn:E; [|done].
  apply last_Some in E as [l' ->]. intros [= ->]. apply Hn.
  apply elem_of_app. right. by left.
Qed.

Lemma hd_or_ne (l : list nat) n : n ∉ l → hd_or l None ≠ Some n.
Proof. destruct l; [done|]. simpl. intros Hn [= ->]. apply Hn. by left. Qed.

Lemma last_middle (l1 l2 : list nat) n :
  n ∉ l2 →
  (if bool_decide (list.last (l1 ++ n :: l2) = Some n)
   then last_or l1 None else list.last (l1 ++ n :: l2))
  = list.last (l1 ++ l2).
Proof.
  intros Hn. rewrite last_app_cons.
  destruct l2 as [|y l2] using rev_ind.
  - simpl. rewrite bool_decide_true by done. by rewrite app_nil_r, last_or_None.
  - clear IHl2. rewrite app_comm_cons, !app_assoc, !last_snoc.
    rewrite bool_decide_false; [done|]. intros [= ->]. apply Hn.
    apply elem_of_app. right. by left.
Qed.

Lemma head_middle (l1 l2 : list nat) n :
  n ∉ l1 →
  match last_or l1 None with
  | None => hd_or l2 None
  | Some _ => if bool_decide (head (l1 ++ n :: l2) = Some n)
              then hd_or l2 None else head (l1 ++ n :: l2)
  end = head (l1 ++ l2).
Proof.
  intros Hn. destruct l1 as [|x l1]; simpl.
  - by rewrite hd_or_None.
  - rewrite last_or_cons. unfold last_or.
    rewrite bool_decide_false.
    + by destruct (list.last l1).
    + intros [= ->]. apply Hn. by left.
Qed.

Lemma dlseg_alter_notin h p l nx f i :
  i ∉ l → dlseg h p l nx → dlseg (alter f i h) p l nx.
Proof.
  intros Hi. apply dlseg_ext. intros x Hx.
  rewrite list_lookup_alter_ne; [done|]. by intros ->.
Qed.

Lemma dlist_links s l1 n l2 :
  dlist s (l1 ++ n :: l2) →
  prevOf n s = last_or l1 None ∧ nextOf n s = hd_or l2 None ∧
  prevOf n s ≠ Some n ∧ nextOf n s ≠ Some n.
Proof.
  intros (ND & _ & _ & Hseg).
  apply NoDup_middle in ND as (N1 & N2 & _).
  apply dlseg_middle in Hseg as (nd & Hn & HP & HQ).
  unfold prevOf, nextOf. rewrite Hn. simpl. rewrite HP, HQ.
  split_and!; try done; [by apply last_or_ne | by apply hd_or_ne].
Qed.

Lemma dlist_unlink s l1 n l2 :
  dlist s (l1 ++ n :: l2) → dlist (unlink n s) (l1 ++ l2).
Proof.
  intros Hd. destruct (dlist_links _ _ _ _ Hd) as (HP & HQ & HPn & HQn).
  destruct (unlink_explicit n s HPn HQn) as (Hheap & Hhead & Htail).
  destruct Hd as (ND & Hh & Ht & Hseg).
  apply NoDup_middle in ND as (N1 & N2 & ND & Dj).
  rewrite HP, HQ in *.
  split_and!; [done| | |].
  - rewrite Hhead, Hh. by apply head_middle.
  - rewrite Htail, Ht. by apply last_middle.
  - rewrite Hheap. apply dlseg_app in Hseg as [S1 S2]. simpl in S2.
    destruct S2 as (nd & _ & _ & _ & S2).
    apply dlseg_app. split.
    + destruct l1 as [|p l1 _] using rev_ind; [done|].
      rewrite last_or_snoc.
      assert (p ∉ l1).
      { intros Hin. apply list.NoDup_app in ND as [ND _].
        apply list.NoDup_app in ND as (_ & D & _). apply (D p Hin). by left. }
      assert (dlseg (alter (Node.set_nextNode (hd_or l2 None)) p (heap s)) None
                (l1 ++ [p]) (hd_or l2 None)) as S by by eapply dlseg_set_next_last.
      destruct l2 as [|q l2]; [done|]. simpl.
      apply dlseg_alter_notin; [|done].
      intros Hq. apply (Dj q Hq). by left.
    + destruct l2 as [|q l2]; [done|]. simpl hd_or.
      apply (dlseg_set_prev_first _ (Some n)).
      { apply list.NoDup_app in ND as (_ & _ & ND). by apply list.NoDup_cons in ND as []. }
      destruct (last_or l1 None) as [p|] eqn:E; [|done].
      apply dlseg_alter_notin; [|done].
      unfold last_or in E. destruct (list.last l1) as [p'|] eqn:E'; [|done].
      injection E as ->. apply last_Some in E' as [l' ->].
      apply Dj, elem_of_app. right. by left.
Qed.

Lemma dlist_splice s l1 n l2 m :
  dlist s (l1 ++ n :: l2) → m ∉ l1 ++ n :: l2 → is_Some (heap s !! m) →
  dlist (splice n m s) (l1 ++ m :: l2).
Proof.
  intros Hd Hm [md Hmd].
  destruct (dlist_links _ _ _ _ Hd) as (HP & HQ & HPn & HQn).
  apply not_elem_of_app in Hm as [Hm1 Hm2].
  apply not_elem_of_cons in Hm2 as [Hmn Hm2].
  destruct (splice_explicit n m s Hmn HPn) as (Hheap & Hhead & Htail).
  destruct Hd as (ND & Hh & Ht & Hseg).
  rewrite HP, HQ in *.
  pose proof (NoDup_middle _ _ _ ND) as (N1 & N2 & ND' & Dj).
  split_and!.
  - apply list.NoDup_app in ND as (? & D & ND). apply list.NoDup_cons in ND as [? ?].
    apply list.NoDup_app. split_and!; [done| |].
    + intros x Hx [->|?]%elem_of_cons; [done|]. by apply (Dj x).
    + by apply list.NoDup_cons.
  - rewrite Hhead, Hh. destruct l1 as [|x l1]; simpl.
    + by rewrite bool_decide_true.
    + rewrite bool_decide_false; [done|]. intros [= ->]. apply N1. by left.
  - rewrite Htail, Ht, !last_app_cons.
    destruct l2 as [|y l2 _] using rev_ind; simpl.
    + by rewrite bool_decide_true.
    + rewrite !app_comm_cons, !last_snoc.
      rewrite bool_decide_false; [done|]. intros [= ->]. apply N2.
      apply elem_of_app. right. by left.
  - rewrite Hheap. apply dlseg_app in Hseg as [S1 S2]. simpl in S2.
    destruct S2 as (nd & _ & _ & _ & S2).
    set (h1 := alter (Node.set_nextNode (hd_or l2 None)) m
                 (alter (Node.set_prevNode (last_or l1 None)) m (heap s))).
    assert (dlseg h1 None l1 (Some n)) as S1'.
    { unfold h1. apply dlseg_alter_notin; [done|]. by apply dlseg_alter_notin. }
    assert (dlseg h1 (Some n) l2 None) as S2'.
    { unfold h1. apply dlseg_alter_notin; [done|]. by apply dlseg_alter_notin. }
    assert (∃ md', h1 !! m = Some md' ∧ Node._prevNode md' = last_or l1 None ∧
              Node._nextNode md' = hd_or l2 None) as (md' & Hmd' & Hp' & Hn').
    { unfold h1. rewrite !list_lookup_alter_eq, Hmd. simpl. eauto. }
    clearbody h1.
    set (h2 := match last_or l1 None with
               | Some p => alter (Node.set_nextNode (Some m)) p
               | None => id
               end h1).
    assert (dlseg h2 None l1 (Some m) ∧ dlseg h2 (Some n) l2 None ∧
            ∃ md', h2 !! m = Some md' ∧ Node._prevNode md' = last_or l1 None ∧
              Node._nextNode md' = hd_or l2 None) as (S1'' & S2'' & md'' & Hmd'' & Hp'' & Hn'').
    { unfold h2. destruct l1 as [|p l1 _] using rev_ind.
      - unfold last_or. simpl. eauto 10.
      - rewrite last_or_snoc in *.
        assert (p ∉ l1).
        { intros Hin. apply list.NoDup_app in ND' as [ND' _].
          apply list.NoDup_app in ND' as (_ & D & _). apply (D p Hin). by left. }
        assert (p ≠ m).
        { intros ->. apply Hm1, elem_of_app. right. by left. }
        split_and!.
        + by eapply dlseg_set_next_last.
        + apply dlseg_alter_notin; [|done]. apply Dj, elem_of_app. right. by left.
        + rewrite list_lookup_alter_ne by done. eauto. }
    clearbody h2. clear S1' S2' Hmd' Hp' Hn' md' h1.
    apply dlseg_app. split.
    + destruct l2 as [|q l2]; [done|]. simpl.
      apply dlseg_alter_notin; [|done]. intros Hq. apply (Dj q Hq). by left.
    + simpl. destruct l2 as [|q l2]; simpl in *.
      * eauto 10.
      * assert (q ≠ m) by (intros ->; apply Hm2; by left).
        rewrite list_lookup_alter_ne by done.
        exists md''. split_and!; try done.
        apply (dlseg_set_prev_first _ (Some n)); [|done].
        apply list.NoDup_app in ND' as (_ & _ & ND'). by apply list.NoDup_cons in ND' as [].
Qed.

Lemma dlist_ext s s' l :
  (∀ m, links <$> heap s' !! m = links <$> heap s !! m) →
  _nextNode s' = _nextNode s → _tailNode s' = _tailNode s →
  dlist s l → dlist s' l.
Proof.
  intros Hl Hh Ht (ND & ? & ? & Hseg). split_and!; try congruence.
  eapply dlseg_ext; [|done]. auto.
Qed.

Lemma complete_unfold n nd s :
  heap s !! n = Some nd → Node._completed nd = false →
  _complete n s
  = fire_onCompleted n (relink n nd (upd n (Node.set_completed true) s)).
Proof.
  intros H Hc. unfold _complete, relink. rewrite H, Hc.
  destruct (Node._subNode nd); [destruct (Node._error nd)|]; done.
Qed.

Lemma complete_done n nd s :
  heap s !! n = Some nd → Node._completed nd = true → _complete n s = s.
Proof. intros H Hc. unfold _complete. by rewrite H, Hc. Qed.

Lemma relinked_relink n nd s : relinked s (relink n nd s).
Proof.
  unfold relink. repeat case_match;
    auto using relinked_splice, relinked_unlink.
Qed.

(** The fields of a node after [_complete]: only links and [_completed]
    can differ. *)
Lemma complete_node n s m :
  static <$> heap (_complete n s) !! m = static <$> heap s !! m ∧
  Node._started <$> heap (_complete n s) !! m = Node._started <$> heap s !! m ∧
  Node._startTime <$> heap (_complete n s) !! m = Node._startTime <$> heap s !! m ∧
  Node._error <$> heap (_complete n s) !! m = Node._error <$> heap s !! m ∧
  Node._completed <$> heap (_complete n s) !! m
  = (if decide (n = m) then (λ _, true) <$> heap s !! m
     else Node._completed <$> heap s !! m).
Proof.
  destruct (heap s !! n) as [nd|] eqn:H; cycle 1.
  { unfold _complete. rewrite H. split_and!; try done.
    case_decide; [subst; by rewrite H|done]. }
  destruct (Node._completed nd) eqn:Hc.
  { rewrite (complete_done _ _ _ H Hc). split_and!; try done.
    case_decide; [subst; by rewrite H; simpl; rewrite Hc|done]. }
  rewrite (complete_unfold _ _ _ H Hc).
  destruct (fire_onCompleted_spec n
    (relink n nd (upd n (Node.set_completed true) s))) as (-> & _).
  destruct (relinked_relink n nd (upd n (Node.set_completed true) s))
    as (Hst & Hfl & _).
  assert (∀ {B} (f : _ → B) x, (∀ a b, flags a = flags b → f a = f b) →
    f <$> heap (relink n nd (upd n (Node.set_completed true) s)) !! x
    = f <$> heap (upd n (Node.set_completed true) s) !! x) as Hf.
  { intros B f x Hfe. specialize (Hfl x).
    destruct (heap (relink _ _ _) !! x), (heap (upd _ _ _) !! x); simpl in *;
      try done. f_equal. apply Hfe. congruence. }
  rewrite Hst. split_and!.
  - by apply fmap_lookup_alter.
  - rewrite Hf by (by intros [] [] [=]). by apply fmap_lookup_alter.
  - rewrite Hf by (by intros [] [] [=]). by apply fmap_lookup_alter.
  - rewrite Hf by (by intros [] [] [=]). by apply fmap_lookup_alter.
  - rewrite Hf by (by intros [] [] [=]).
    rewrite heap_upd. case_decide; [subst|done].
    by destruct (heap s !! m).
Qed.

Lemma complete_scalars n s :
  let s' := _complete n s in
  _timer s' = _timer s ∧ _clock s' = _clock s ∧ _isPolling s' = _isPolling s ∧
  raf_next s' = raf_next s ∧ raf_pending s' = raf_pending s ∧
  perf s' = perf s ∧ perf_reads s' = perf_reads s.
Proof.
  destruct (heap s !! n) as [nd|] eqn:H; cycle 1.
  { unfold _complete. by rewrite H. }
  destruct (Node._completed nd) eqn:Hc.
  { by rewrite (complete_done _ _ _ H Hc). }
  rewrite (complete_unfold _ _ _ H Hc). simpl.
  set (s1 := relink _ _ _).
  destruct (fire_onCompleted_spec n s1)
    as (_ & (_&_&F1&F2&F3&F4&F5&F6) & F7 & _).
  destruct (relinked_relink n nd (upd n (Node.set_completed true) s))
    as (_ & _ & R1 & R2 & R3 & R4 & R5 & R6 & R7 & _).
  fold s1 in R1, R2, R3, R4, R5, R6, R7.
  rewrite F1, F2, F3, F4, F5, F6, F7, R1, R2, R3, R4, R5, R6, R7. done.
Qed.

Lemma complete_calls n nd s :
  heap s !! n = Some nd → Node._completed nd = false →
  trace (_complete n s) = trace s ++ onCompleted_calls n nd ∧
  promises (_complete n s)
  = match Node._onCompleted nd with
    | Some c => alter (settle Resolved) c (promises s)
    | None => promises s
    end.
Proof.
  intros H Hc. rewrite (complete_unfold _ _ _ H Hc).
  set (s0 := upd n (Node.set_completed true) s).
  destruct (relinked_relink n nd s0) as (Hst & _ & _ & _ & _ & _ & _ & _ & _ & Hp & Ht).
  destruct (fire_onCompleted_spec n (relink n nd s0)) as (_ & _ & _ & -> & ->).
  rewrite Hp, Ht.
  assert (heap (relink n nd s0) !! n ≫= Node._onCompleted = Node._onCompleted nd)
    as ->; [|done].
  specialize (Hst n). unfold s0 in Hst at 2.
  rewrite heap_upd_eq, H in Hst. simpl in Hst.
  destruct (heap (relink n nd s0) !! n); [|done].
  simpl in *. by injection Hst as _ _ _ _ _ ->.
Qed.

Lemma dlist_snoc_next s (l1 : list nat) p m l2 :
  dlist s ((l1 ++ [p]) ++ m :: l2) → nextOf p s = Some m.
Proof.
  rewrite <- app_assoc. simpl. intros Hd.
  by destruct (dlist_links _ _ _ _ Hd) as (_ & -> & _).
Qed.

Lemma dlist_cons_prev s (l1 : list nat) q m l2 :
  dlist s (l1 ++ m :: q :: l2) → prevOf q s = Some m.
Proof.
  change (l1 ++ m :: q :: l2) with (l1 ++ [m] ++ q :: l2).
  rewrite app_assoc. intros Hd.
  destruct (dlist_links _ _ _ _ Hd) as (-> & _). by rewrite last_or_snoc.
Qed.

(** What [_complete] does to a node of the list. *)
Lemma complete_spec s l1 n l2 nd :
  dlist s (l1 ++ n :: l2) →
  heap s !! n = Some nd →
  Node._completed nd = false →
  (∀ m, Node._subNode nd = Some m → (m ∉ l1 ++ n :: l2) ∧ is_Some (heap s !! m)) →
  let s' := _complete n s in
  completed n s' = Some true ∧
  match Node._subNode nd, Node._error nd with
  | Some m, false =>
      dlist s' (l1 ++ m :: l2) ∧
      prevOf m s' = prevOf n s ∧ nextOf m s' = nextOf n s ∧
      (_nextNode s = Some n → _nextNode s' = Some m) ∧
      (_tailNode s = Some n → _tailNode s' = Some m) ∧
      (∀ p, prevOf n s = Some p → nextOf p s' = Some m) ∧
      (∀ q, nextOf n s = Some q → prevOf q s' = Some m)
  | _, _ =>
      dlist s' (l1 ++ l2) ∧
      (_nextNode s = Some n → _nextNode s' = nextOf n s) ∧
      (_tailNode s = Some n → _tailNode s' = prevOf n s) ∧
      trace s' = trace s ++ onCompleted_calls n nd
  end ∧
  (∀ c, promises s' !! c ≠ promises s !! c →
     Node._onCompleted nd = Some c ∧ EvOnCompleted n c ∈ trace s' ∧
     promises s !! c = Some Pending ∧ promises s' !! c = Some Resolved).
Proof.
  intros Hd H Hc Hsub s'.
  destruct (complete_node n s n) as (_ & _ & _ & _ & Hcn).
  destruct (complete_calls n nd s H Hc) as (Htr & Hpr).
  fold s' in Hcn, Htr, Hpr.
  split_and!.
  - unfold completed. rewrite Hcn, decide_True, H by done. done.
  - set (s0 := upd n (Node.set_completed true) s).
    assert (dlist s0 (l1 ++ n :: l2)) as Hd0.
    { eapply dlist_ext; [| | |done]; try done.
      intros m. by apply fmap_lookup_alter. }
    assert (∀ s1, dlist s1 = dlist (fire_onCompleted n s1)) as Hfire.
    { intros s1. destruct (fire_onCompleted_spec n s1) as (E1 & (E2 & E3 & _) & _).
      unfold dlist. by rewrite E1, E2, E3. }
    destruct (dlist_links _ _ _ _ Hd) as (HP & HQ & _).
    assert (s' = fire_onCompleted n (unlink n s0) →
      dlist s' (l1 ++ l2) ∧
      (_nextNode s = Some n → _nextNode s' = nextOf n s) ∧
      (_tailNode s = Some n → _tailNode s' = prevOf n s) ∧
      trace s' = trace s ++ onCompleted_calls n nd) as Hretire.
    { intros Es'. rewrite Es' in *. clear Es'.
      apply dlist_unlink in Hd0. rewrite Hfire in Hd0.
      destruct Hd as (ND & Hh & Ht & _).
      apply NoDup_middle in ND as (N1 & N2 & _).
      pose proof Hd0 as (_ & Hh' & Ht' & _). split_and!; [done| | |].
      - intros Hn. rewrite Hh', HQ. rewrite Hh in Hn.
        destruct l1 as [|x l1]; [by rewrite hd_or_None|].
        injection Hn as ->. destruct N1. by left.
      - intros Hn. rewrite Ht', HP. rewrite Ht in Hn.
        rewrite last_app_cons in Hn.
        destruct l2 as [|y l2 _] using rev_ind.
        + by rewrite app_nil_r, last_or_None.
        + rewrite app_comm_cons, last_snoc in Hn. injection Hn as ->.
          destruct N2. apply elem_of_app. right. by left.
      - done. }
    assert (s' = fire_onCompleted n (relink n nd s0)) as Es'
      by apply (complete_unfold _ _ _ H Hc).
    unfold relink in Es'.
    destruct (Node._subNode nd) as [m|] eqn:Hm; cycle 1.
    { by apply Hretire. }
    destruct (Node._error nd) eqn:He.
    { by apply Hretire. }
    simpl in Es'. clear Hretire. rewrite Es'.
    destruct (Hsub m eq_refl) as [Hml Hmh].
    assert (dlist (fire_onCompleted n (splice n m s0)) (l1 ++ m :: l2)) as Hd'.
    { rewrite <- Hfire. apply dlist_splice; try done.
      unfold s0. rewrite heap_upd_ne; [done|].
      intros ->. apply Hml, elem_of_app. right. by left. }
    destruct (dlist_links _ _ _ _ Hd') as (HP' & HQ' & _).
    destruct Hd as (ND & Hh & Ht & _).
    pose proof (NoDup_middle _ _ _ ND) as (N1 & N2 & _).
    split_and!; try done.
    + congruence.
    + congruence.
    + intros Hn. destruct Hd' as (_ & -> & _). rewrite Hh in Hn.
      destruct l1 as [|x l1]; [done|].
      injection Hn as ->. destruct N1. by left.
    + intros Hn. destruct Hd' as (_ & _ & -> & _). rewrite Ht in Hn.
      rewrite last_app_cons in *.
      destruct l2 as [|y l2 _] using rev_ind; [done|].
      rewrite app_comm_cons, last_snoc in Hn. injection Hn as ->.
      destruct N2. apply elem_of_app. right. by left.
    + intros p Hp. rewrite HP in Hp. unfold last_or in Hp.
      destruct (list.last l1) as [p'|] eqn:E; [|done]. injection Hp as ->.
      apply last_Some in E as [l' ->]. by eapply dlist_snoc_next.
    + intros q Hq. rewrite HQ in Hq. destruct l2 as [|q' l2]; [done|].
      injection Hq as ->. by eapply dlist_cons_prev.
  - intros c Hne. rewrite Hpr in Hne.
    destruct (Node._onCompleted nd) as [c'|] eqn:Hoc; [|done].
    destruct (decide (c' = c)) as [->|]; cycle 1.
    { by rewrite list_lookup_alter_ne in Hne. }
    rewrite list_lookup_alter_eq in Hne.
    rewrite Hpr, list_lookup_alter_eq, Htr. unfold onCompleted_calls. rewrite Hoc.
    destruct (promises s !! c) as [[| |e]|]; simpl in *; try done.
    split_and!; try done. apply elem_of_app. right. by left.
Qed.


(** ** The pass of the sweep *)

Lemma tick_links ts n s m :
  links <$> heap (_tick ts n s).2 !! m = links <$> heap s !! m.
Proof.
  destruct (tick_heap ts n s) as (g & -> & Hg).
  apply fmap_lookup_alter. intros nd. by destruct (Hg nd) as (_ & ? & _).
Qed.

Lemma nextOf_links s s' m :
  links <$> heap s' !! m = links <$> heap s !! m → nextOf m s' = nextOf m s.
Proof.
  unfold nextOf. intros E.
  destruct (heap s' !! m), (heap s !! m); simpl in *; try done.
  by injection E as _ ->.
Qed.

Lemma prevOf_links s s' m :
  links <$> heap s' !! m = links <$> heap s !! m → prevOf m s' = prevOf m s.
Proof.
  unfold prevOf. intros E.
  destruct (heap s' !! m), (heap s !! m); simpl in *; try done.
  by injection E as -> _.
Qed.

Lemma list_from_ext s s' cur l :
  (∀ m, nextOf m s' = nextOf m s) → list_from s cur l → list_from s' cur l.
Proof.
  intros E. revert cur. induction l as [|x l IH]; intros cur; simpl; [done|].
  intros [-> Hl]. split; [done|]. rewrite E. by apply IH.
Qed.

Lemma list_from_inj s cur l l' :
  list_from s cur l → list_from s cur l' → l = l'.
Proof.
  revert cur l'. induction l as [|x l IH]; intros cur [|y l']; simpl.
  - done.
  - by intros -> [? _].
  - by intros [-> _] ?.
  - intros [-> H1] [[= <-] H2]. f_equal. eauto.
Qed.

Lemma list_from_app s cur l1 l2 :
  list_from s cur (l1 ++ l2) → ∃ cur', list_from s cur' l2.
Proof.
  revert cur. induction l1 as [|x l1 IH]; intros cur; simpl; [eauto|].
  intros [_ H]. eauto.
Qed.

Lemma list_from_NoDup s cur l : list_from s cur l → NoDup l.
Proof.
  revert cur. induction l as [|x l IH]; intros cur; [constructor|].
  intros [-> H]. apply list.NoDup_cons. split; [|eauto].
  intros [l1 [l2 ->]]%list_elem_of_split.
  destruct (list_from_app _ _ _ _ H) as [cur' H']. simpl in H'.
  destruct H' as [-> H'].
  pose proof (list_from_inj _ _ _ _ H H') as E.
  apply (f_equal length) in E. rewrite length_app in E. simpl in E. lia.
Qed.

Lemma dlseg_list_from s p l :
  dlseg (heap s) p l None → list_from s (hd_or l None) l.
Proof.
  revert p. induction l as [|x l IH]; intros p; simpl; [done|].
  intros (nd & Hx & _ & Hn & Hr). split; [done|].
  unfold nextOf. rewrite Hx. simpl. rewrite Hn. eauto.
Qed.

Lemma dlist_active s l : dlist s l → active s l.
Proof.
  intros (_ & Hh & _ & Hseg). unfold active. rewrite Hh, <- hd_or_None.
  by eapply dlseg_list_from.
Qed.

Lemma processNodes_loop_list fuel ts s cur l done :
  list_from s cur l → length l < fuel →
  _processNodes_loop fuel ts cur done s = Some (tick_all ts l done s).
Proof.
  revert fuel s cur done. induction l as [|x l IH]; intros fuel s cur done.
  - simpl. intros -> _. by destruct fuel.
  - simpl. intros [-> Hl] Hf. destruct fuel as [|fuel]; [lia|]. simpl.
    destruct (_tick ts x (log (EvTick x ts) s)) as [b s'] eqn:E.
    assert (∀ m, nextOf m s' = nextOf m s) as En.
    { intros m. apply nextOf_links.
      replace s' with (_tick ts x (log (EvTick x ts) s)).2 by by rewrite E.
      exact (tick_links ts x (log (EvTick x ts) s) m). }
    rewrite En. apply IH; [|lia]. by apply list_from_ext with s.
Qed.

Lemma tick_trace ts n s :
  ∃ evs, trace (_tick ts n s).2 = trace s ++ evs ∧ Forall (callback_event n) evs.
Proof.
  destruct (heap s !! n) as [nd|] eqn:H; cycle 1.
  { unfold _tick. rewrite H. exists []. by rewrite app_nil_r. }
  destruct (Node._completed nd || Node._error nd) eqn:Hd.
  { rewrite (tick_done _ _ _ _ H Hd). exists []. by rewrite app_nil_r. }
  rewrite (tick_unfold _ _ _ _ H Hd).
  set (raw := rawProgress ts nd s).
  assert (Forall (callback_event n) (callback_calls n nd raw)) as Hcc.
  { unfold callback_calls. repeat case_match; repeat constructor. }
  destruct (latched_lookup n nd s H) as (nd' & H' & _).
  destruct (callbacks nd raw) as [[]|e]; simpl; [eauto|].
  set (s2 := set_trace _ _).
  destruct (handleError_spec e n nd' s2 H') as (_ & -> & _). simpl.
  rewrite <- app_assoc. eexists. split; [done|].
  apply list.Forall_app. split; [done|]. case_match; repeat constructor.
Qed.

Lemma tick_reads ts n s :
  perf_reads (_tick ts n s).2
  = perf_reads s + (if first_tick s n && negb (paused s) then 1 else 0).
Proof.
  unfold first_tick.
  destruct (heap s !! n) as [nd|] eqn:H; cycle 1.
  { unfold _tick. rewrite H. simpl. lia. }
  destruct (Node._completed nd || Node._error nd) eqn:Hd.
  { rewrite (tick_done _ _ _ _ H Hd). simpl. lia. }
  rewrite (tick_unfold _ _ _ _ H Hd).
  destruct (latched_scalars n nd s) as (_&_&_&_&_&_&_&_&_&_& Hr).
  destruct (latched_lookup n nd s H) as (nd' & H' & _).
  assert (∀ b, perf_reads (match callbacks nd (rawProgress ts nd s) with
    | Returns _ => (b, set_trace (trace s ++ callback_calls n nd (rawProgress ts nd s))
                         (latched n nd s))
    | Throws e => (true, _handleError e n
                     (set_trace (trace s ++ callback_calls n nd (rawProgress ts nd s))
                         (latched n nd s)))
    end).2 = perf_reads (latched n nd s)) as ->.
  { intros b. destruct (callbacks nd _) as [[]|e]; simpl; [done|].
    set (s2 := set_trace _ _).
    by destruct (handleError_spec e n nd' s2 H') as (_&_&_&_&_&_&_&_&_&_&_& ->). }
  rewrite Hr. simpl. destruct (Node._started nd), (paused s); simpl; lia.
Qed.

Lemma tick_other ts n s m : n ≠ m → heap (_tick ts n s).2 !! m = heap s !! m.
Proof.
  intros. destruct (tick_heap ts n s) as (g & -> & _).
  by apply list_lookup_alter_ne.
Qed.

Lemma filter_ext_in {A} (P Q : A → Prop) `{∀ x, Decision (P x)}
    `{∀ x, Decision (Q x)} (l : list A) :
  (∀ x, x ∈ l → (P x ↔ Q x)) → filter P l = filter Q l.
Proof.
  induction l as [|x l IH]; intros E; [done|].
  rewrite !list.filter_cons, IH by (intros y Hy; apply E; by right).
  destruct (decide (P x)), (decide (Q x)); try done;
    exfalso; pose proof (E x ltac:(left)); tauto.
Qed.

Lemma tick_all_trace ts l done s :
  ∃ evs, trace (tick_all ts l done s).2 = trace s ++ evs ∧
    ticks_of evs = map (λ x, EvTick x ts) l ∧ completes_of evs = [].
Proof.
  revert done s. induction l as [|x l IH]; intros done s; simpl.
  { exists []. by rewrite app_nil_r. }
  destruct (_tick ts x (log (EvTick x ts) s)) as [b s'] eqn:E.
  destruct (tick_trace ts x (log (EvTick x ts) s)) as (ev1 & Ht1 & Hf1).
  rewrite E in Ht1. simpl in Ht1.
  destruct (IH (if b then Set_add x done else done) s') as (ev2 & -> & Ht2 & Hc2).
  rewrite Ht1, <- !app_assoc. eexists. split; [done|].
  assert (ticks_of ev1 = [] ∧ completes_of ev1 = []) as [T1 C1].
  { clear -Hf1. induction Hf1 as [|e ev He _ [IH1 IH2]]; [done|].
    unfold ticks_of, completes_of in *. rewrite !list.filter_cons, IH1, IH2.
    by destruct e. }
  unfold ticks_of, completes_of in *.
  rewrite !list.filter_app, T1, C1, Ht2, Hc2. done.
Qed.

Lemma tick_all_reads ts l done s :
  NoDup l → paused s = false →
  perf_reads (tick_all ts l done s).2
  = perf_reads s + length (filter (λ x, first_tick s x = true) l).
Proof.
  revert done s. induction l as [|x l IH]; intros done s ND Hp; simpl; [lia|].
  apply list.NoDup_cons in ND as [Hx ND].
  destruct (_tick ts x (log (EvTick x ts) s)) as [b s'] eqn:E.
  assert (s' = (_tick ts x (log (EvTick x ts) s)).2) as Es' by by rewrite E.
  rewrite IH; [|done|]; cycle 1.
  { destruct (tick_scalars ts x (log (EvTick x ts) s)) as [(_&_&_& Hc &_) _].
    rewrite <- Es' in Hc. unfold paused. by rewrite Hc. }
  pose proof (tick_reads ts x (log (EvTick x ts) s)) as Hr.
  rewrite <- Es' in Hr. rewrite Hr.
  change (paused (log (EvTick x ts) s)) with (paused s). rewrite Hp.
  change (first_tick (log (EvTick x ts) s) x) with (first_tick s x).
  rewrite andb_true_r, list.filter_cons.
  assert (filter (λ y, first_tick s' y = true) l
          = filter (λ y, first_tick s y = true) l) as ->.
  { apply filter_ext_in. intros y Hy.
    unfold first_tick. rewrite Es', tick_other; [done|]. by intros ->. }
  destruct (first_tick s x); simpl; lia.
Qed.

Lemma same_scheduler_refl s : same_scheduler s s.
Proof. by repeat split. Qed.

Lemma same_scheduler_trans s1 s2 s3 :
  same_scheduler s1 s2 → same_scheduler s2 s3 → same_scheduler s1 s3.
Proof.
  intros (?&?&?&?&?&?&?&?) (?&?&?&?&?&?&?&?). split_and!; congruence.
Qed.

Lemma tick_all_scalars ts l done s :
  same_scheduler s (tick_all ts l done s).2.
Proof.
  revert done s. induction l as [|x l IH]; intros done s; simpl.
  { apply same_scheduler_refl. }
  destruct (_tick ts x (log (EvTick x ts) s)) as [b s'] eqn:E.
  eapply same_scheduler_trans; [|apply IH].
  destruct (tick_scalars ts x (log (EvTick x ts) s)) as [Hs _].
  by rewrite E in Hs.
Qed.

Lemma complete_trace n s :
  ∃ evs, trace (_complete n s) = trace s ++ evs ∧
    Forall (completion_event n) evs.
Proof.
  destruct (heap s !! n) as [nd|] eqn:H; cycle 1.
  { unfold _complete. rewrite H. exists []. by rewrite app_nil_r. }
  destruct (Node._completed nd) eqn:Hc.
  { rewrite (complete_done _ _ _ H Hc). exists []. by rewrite app_nil_r. }
  destruct (complete_calls n nd s H Hc) as [-> _]. eexists. split; [done|].
  unfold onCompleted_calls. case_match; repeat constructor.
Qed.

Lemma completeNodes_cons n done s :
  _completeNodes (n :: done) s
  = _completeNodes done (_complete n (log (EvComplete n) s)).
Proof. done. Qed.

Lemma completeNodes_trace done s :
  ∃ evs, trace (_completeNodes done s) = trace s ++ evs ∧
    ticks_of evs = [] ∧ completes_of evs = map EvComplete done.
Proof.
  revert s. induction done as [|n done IH]; intros s.
  { exists []. by rewrite app_nil_r. }
  rewrite completeNodes_cons.
  destruct (IH (_complete n (log (EvComplete n) s))) as (ev2 & -> & T2 & C2).
  destruct (complete_trace n (log (EvComplete n) s)) as (ev1 & -> & Hf1).
  simpl. rewrite <- !app_assoc. eexists. split; [done|].
  assert (ticks_of ev1 = [] ∧ completes_of ev1 = []) as [T1 C1].
  { clear -Hf1. induction Hf1 as [|e ev He _ [IH1 IH2]]; [done|].
    unfold ticks_of, completes_of in *. rewrite !list.filter_cons, IH1, IH2.
    by destruct e. }
  unfold ticks_of, completes_of in *. simpl.
  rewrite !list.filter_cons, !list.filter_app, T1, C1, T2, C2. done.
Qed.

Lemma completeNodes_scalars done s :
  let s' := _completeNodes done s in
  _timer s' = _timer s ∧ _clock s' = _clock s ∧ _isPolling s' = _isPolling s ∧
  raf_next s' = raf_next s ∧ raf_pending s' = raf_pending s ∧
  perf s' = perf s ∧ perf_reads s' = perf_reads s.
Proof.
  cbv zeta. revert s. induction done as [|n done IH]; intros s; [done|].
  rewrite completeNodes_cons.
  destruct (IH (_complete n (log (EvComplete n) s))) as (->&->&->&->&->&->&->).
  apply (complete_scalars n (log (EvComplete n) s)).
Qed.

Lemma cleanup_spec s :
  let s' := _cleanup s in
  _timer s' = None ∧ _nextNode s' = None ∧ _tailNode s' = None ∧
  _isPolling s' = false ∧ _clock s' = AnimationClock.init ∧
  raf_next s' = raf_next s ∧ raf_pending s' = raf_pending s ∧
  heap s' = heap s ∧ promises s' = promises s ∧ trace s' = trace s ∧
  perf_reads s' = perf_reads s.
Proof. done. Qed.

Lemma clock_now_running s :
  paused s = false →
  clock_now s = (AnimationClock.now (perf s (perf_reads s)) (_clock s),
                 set_perf_reads (S (perf_reads s)) s).
Proof.
  unfold clock_now, paused, AnimationClock.isPaused. by intros ->.
Qed.

(** What a sweep does. *)
Lemma sweep_spec s l fuel :
  paused s = false → active s l → length l < fuel →
  let now := AnimationClock.now (perf s (perf_reads s)) (_clock s) in
  let s0 := match l with [] => s | _ => (clock_now s).2 end in
  ∃ done s1 evT evC,
    let s2 := _completeNodes done s1 in
    tick_all now l [] s0 = (done, s1) ∧
    trace s1 = trace s ++ evT ∧
    ticks_of evT = map (λ x, EvTick x now) l ∧ completes_of evT = [] ∧
    trace s2 = trace s1 ++ evC ∧
    ticks_of evC = [] ∧ completes_of evC = map EvComplete done ∧
    perf_reads s2
    = perf_reads s + match l with [] => 0 | _ => 1 end
      + length (filter (λ x, first_tick s x = true) l) ∧
    match _nextNode s2 with
    | None =>
        loop fuel s = Some (_cleanup s2) ∧
        _timer (_cleanup s2) = None ∧
        raf_pending (_cleanup s2) = raf_pending s ∧
        _clock (_cleanup s2) = AnimationClock.init ∧
        _nextNode (_cleanup s2) = None ∧ _tailNode (_cleanup s2) = None
    | Some _ =>
        loop fuel s
        = Some (set_timer (Some (raf_next s)) (requestAnimationFrame s2).2)
    end.
Proof.
  intros Hp Ha Hf now s0.
  destruct (tick_all now l [] s0) as [done s1] eqn:E.
  assert (s1 = (tick_all now l [] s0).2) as Es1 by by rewrite E.
  destruct (tick_all_trace now l [] s0) as (evT & HtT & TT & CT).
  destruct (completeNodes_trace done s1) as (evC & HtC & TC & CC).
  rewrite <- Es1 in HtT.
  assert (trace s0 = trace s ∧ paused s0 = false ∧ heap s0 = heap s ∧
          same_scheduler s s0 ∧
          perf_reads s0 = perf_reads s + match l with [] => 0 | _ => 1 end)
    as (Htr0 & Hp0 & Hh0 & Hs0 & Hr0).
  { unfold s0. destruct l.
    - split_and!; try done; try apply same_scheduler_refl; lia.
    - rewrite clock_now_running by done. simpl.
      split_and!; try done; try apply same_scheduler_refl; lia. }
  exists done, s1, evT, evC. simpl.
  destruct (completeNodes_scalars done s1) as (C1&C2&C3&C4&C5&C6&C7).
  pose proof (tick_all_scalars now l [] s0) as T. rewrite <- Es1 in T.
  pose proof (same_scheduler_trans _ _ _ Hs0 T) as (T1&T2&T3&T4&T5&T6&T7&T8).
  split_and!; try done.
  - by rewrite HtT, Htr0.
  - rewrite C7, Es1, tick_all_reads, Hr0; [| |done].
    + do 2 f_equal. apply filter_ext_in. intros x _.
      unfold first_tick. by rewrite Hh0.
    + by eapply list_from_NoDup.
  - unfold loop, _poll. rewrite Hp. simpl.
    destruct l as [|x l].
    + simpl in Ha, E. injection E as <- <-. red in Ha. simpl in Ha.
      rewrite Ha. rewrite bool_decide_true by done. simpl.
      subst s0. by rewrite Ha.
    + pose proof Ha as Ha'. red in Ha'. simpl in Ha'. destruct Ha' as [Hh _].
      rewrite Hh. rewrite bool_decide_false by done.
      rewrite clock_now_running by done. simpl.
      unfold _processNodes. simpl _nextNode. rewrite Hh.
      rewrite (processNodes_loop_list fuel now _ _ (x :: l)); [| |done];
        cycle 1.
      { red in Ha. rewrite Hh in Ha. by apply list_from_ext with s. }
      unfold s0 in E. rewrite clock_now_running in E by done. cbn [snd] in E.
      fold now. rewrite E. simpl.
      assert (match done with [] => s1 | _ => _completeNodes done s1 end
              = _completeNodes done s1) as -> by by destruct done.
      destruct (_nextNode (_completeNodes done s1)) eqn:Hn.
      * rewrite bool_decide_true by done. simpl.
        unfold requestAnimationFrame. simpl. by rewrite C4, T6.
      * rewrite bool_decide_false by (by intros []). simpl.
        split_and!; try done. by rewrite C5, T7.
Qed.


(** ** Views of the store *)

Lemma static_view s s' k :
  static <$> heap s' !! k = static <$> heap s !! k →
  subOf k s' = subOf k s ∧ chainOf k s' = chainOf k s ∧
  callbackOf k s' = callbackOf k s.
Proof.
  unfold subOf, chainOf, callbackOf. intros E.
  destruct (heap s' !! k), (heap s !! k); simpl in *; try done.
  by injection E as _ _ _ -> -> ->.
Qed.

Lemma tick_view ts x s :
  let s' := (_tick ts x s).2 in
  (∀ k, subOf k s' = subOf k s ∧ chainOf k s' = chainOf k s ∧
        callbackOf k s' = callbackOf k s ∧
        prevOf k s' = prevOf k s ∧ nextOf k s' = nextOf k s ∧
        completed k s' = completed k s) ∧
  (∀ k, k ≠ x → heap s' !! k = heap s !! k) ∧
  _nextNode s' = _nextNode s ∧ _tailNode s' = _tailNode s.
Proof.
  intros s'. subst s'.
  destruct (tick_heap ts x s) as (g & Hh & Hg).
  destruct (tick_scalars ts x s) as [(? & ? & _) _].
  split_and!; try done.
  - intros k.
    assert (static <$> heap (_tick ts x s).2 !! k = static <$> heap s !! k) as Hs.
    { rewrite Hh. apply fmap_lookup_alter. intros nd. by destruct (Hg nd). }
    destruct (static_view _ _ _ Hs) as (? & ? & ?).
    pose proof (tick_links ts x s k) as Hl.
    split_and!; try done.
    + by apply prevOf_links.
    + by apply nextOf_links.
    + unfold completed. rewrite Hh. apply fmap_lookup_alter.
      intros nd. by destruct (Hg nd) as (_ & _ & ?).
  - intros k Hk. by apply tick_other.
Qed.

Lemma complete_view n s :
  let s' := _complete n s in
  (∀ k, subOf k s' = subOf k s ∧ chainOf k s' = chainOf k s ∧
        callbackOf k s' = callbackOf k s ∧
        error k s' = error k s ∧ started k s' = started k s) ∧
  (∀ k, k ≠ n → completed k s' = completed k s) ∧
  (is_Some (heap s !! n) → completed n s' = Some true).
Proof.
  intros s'. subst s'. split_and!.
  - intros k. destruct (complete_node n s k) as (Hs & ? & _ & ? & _).
    destruct (static_view _ _ _ Hs) as (? & ? & ?). done.
  - intros k Hk. destruct (complete_node n s k) as (_ & _ & _ & _ & Hc).
    unfold completed. rewrite Hc. by rewrite decide_False.
  - intros [nd Hnd]. destruct (complete_node n s n) as (_ & _ & _ & _ & Hc).
    unfold completed. rewrite Hc, decide_True, Hnd by done. done.
Qed.

Lemma chains_ok_view s s' :
  (∀ k, subOf k s' = subOf k s ∧ chainOf k s' = chainOf k s ∧
        callbackOf k s' = callbackOf k s) →
  chains_ok s → chains_ok s'.
Proof.
  intros E (H1 & H2 & H3). split_and!.
  - intros n m Hs. destruct (E n) as (En & Ec & _). rewrite En in Hs.
    destruct (E m) as (_ & -> & _). rewrite Ec. eauto.
  - intros p p' m Hp Hp'. destruct (E p) as (Ep & _), (E p') as (Ep' & _).
    rewrite Ep in Hp. rewrite Ep' in Hp'. eauto.
  - intros n c Hc. destruct (E n) as (_ & -> & Ecb). rewrite Ecb in Hc. eauto.
Qed.

(** ** References *)

Lemma unreferenced_view s s' m :
  (∀ k, prevOf k s' = prevOf k s ∧ nextOf k s' = nextOf k s) →
  _nextNode s' = _nextNode s → _tailNode s' = _tailNode s →
  unreferenced s m → unreferenced s' m.
Proof.
  intros E Hh Ht (? & ? & Hz). split_and!; try congruence.
  intros z. destruct (E z) as [-> ->]. apply Hz.
Qed.

Lemma prevOf_upd p f n s :
  prevOf n (upd p f s)
  = if decide (p = n) then heap s !! n ≫= λ nd, Node._prevNode (f nd)
    else prevOf n s.
Proof.
  unfold prevOf. rewrite heap_upd. case_decide; [subst|done].
  by destruct (heap s !! n).
Qed.

Lemma nextOf_upd p f n s :
  nextOf n (upd p f s)
  = if decide (p = n) then heap s !! n ≫= λ nd, Node._nextNode (f nd)
    else nextOf n s.
Proof.
  unfold nextOf. rewrite heap_upd. case_decide; [subst|done].
  by destruct (heap s !! n).
Qed.

Lemma unreferenced_upd_next p v s m :
  v ≠ Some m → unreferenced s m → unreferenced (upd p (Node.set_nextNode v) s) m.
Proof.
  intros Hv (? & ? & Hz). split_and!; try done. intros z.
  rewrite prevOf_upd, nextOf_upd. destruct (Hz z) as [Hp Hn].
  case_decide; [subst|done]. unfold prevOf in Hp.
  destruct (heap s !! z); simpl in *; done.
Qed.

Lemma unreferenced_upd_prev p v s m :
  v ≠ Some m → unreferenced s m → unreferenced (upd p (Node.set_prevNode v) s) m.
Proof.
  intros Hv (? & ? & Hz). split_and!; try done. intros z.
  rewrite prevOf_upd, nextOf_upd. destruct (Hz z) as [Hp Hn].
  case_decide; [subst|done]. unfold nextOf in Hn.
  destruct (heap s !! z); simpl in *; done.
Qed.

Lemma unreferenced_set_nextNode v s m :
  v ≠ Some m → unreferenced s m → unreferenced (set_nextNode v s) m.
Proof. intros Hv (? & ? & Hz). by split_and!. Qed.

Lemma unreferenced_set_tailNode v s m :
  v ≠ Some m → unreferenced s m → unreferenced (set_tailNode v s) m.
Proof. intros Hv (? & ? & Hz). by split_and!. Qed.

Lemma unreferenced_prevOf s m z : unreferenced s m → prevOf z s ≠ Some m.
Proof. intros (_ & _ & Hz). apply Hz. Qed.

Lemma unreferenced_nextOf s m z : unreferenced s m → nextOf z s ≠ Some m.
Proof. intros (_ & _ & Hz). apply Hz. Qed.

Ltac unref :=
  repeat first
    [ assumption
    | apply unreferenced_upd_next; [by eauto using unreferenced_nextOf, unreferenced_prevOf|]
    | apply unreferenced_upd_prev; [by eauto using unreferenced_nextOf, unreferenced_prevOf|]
    | apply unreferenced_set_nextNode; [by eauto using unreferenced_nextOf, unreferenced_prevOf|]
    | apply unreferenced_set_tailNode; [by eauto using unreferenced_nextOf, unreferenced_prevOf|] ].

Lemma unreferenced_unlink n s m : unreferenced s m → unreferenced (unlink n s) m.
Proof.
  intros H. unfold unlink.
  set (s1 := match prevOf n s with Some p => _ | None => _ end).
  assert (unreferenced s1 m) as H1.
  { unfold s1. case_match; unref. }
  clearbody s1. cbv zeta.
  set (s2 := match nextOf n s1 with Some q => _ | None => _ end).
  assert (unreferenced s2 m) as H2.
  { unfold s2. case_match; unref. }
  clearbody s2.
  set (s3 := if bool_decide (_tailNode s2 = Some n) then _ else _).
  assert (unreferenced s3 m) as H3.
  { unfold s3. case_match; unref. }
  clearbody s3. case_match; unref.
Qed.

Lemma unreferenced_splice n node s m :
  node ≠ m → unreferenced s m → unreferenced (splice n node s) m.
Proof.
  intros Hm H. unfold splice.
  set (s1 := upd node (Node.set_prevNode (prevOf n s)) s).
  assert (unreferenced s1 m) as H1 by (unfold s1; unref).
  clearbody s1. cbv zeta.
  set (s2 := upd node (Node.set_nextNode (nextOf n s1)) s1).
  assert (unreferenced s2 m) as H2 by (unfold s2; unref).
  clearbody s2.
  assert (Some node ≠ Some m) as Hm' by congruence.
  set (s3 := _updateTimelineReferences n node s2).
  assert (unreferenced s3 m) as H3.
  { unfold s3, _updateTimelineReferences. cbv zeta.
    repeat case_match;
      repeat first [assumption | apply unreferenced_set_nextNode; [done|]
                   | apply unreferenced_set_tailNode; [done|]]. }
  clearbody s3. unfold _updateNodeLinks.
  set (s4 := match prevOf n s3 with Some p => _ | None => _ end).
  assert (unreferenced s4 m) as H4.
  { unfold s4. case_match; [by apply unreferenced_upd_next|done]. }
  clearbody s4. cbv zeta. case_match; [by apply unreferenced_upd_prev|done].
Qed.

Lemma unreferenced_fire n s m :
  unreferenced s m → unreferenced (fire_onCompleted n s) m.
Proof.
  destruct (fire_onCompleted_spec n s) as (Hh & (? & ? & _) & _).
  apply unreferenced_view; [|done..].
  intros k. unfold prevOf, nextOf. by rewrite Hh.
Qed.

Lemma unreferenced_upd_flags n f s m :
  (∀ nd, links (f nd) = links nd) →
  unreferenced s m → unreferenced (upd n f s) m.
Proof.
  intros Hf. apply unreferenced_view; [|done..].
  intros k. split; [apply prevOf_links|apply nextOf_links];
    by apply fmap_lookup_alter.
Qed.

(** [_complete] creates a reference to the next phase of its node only,
    and only when it promotes. *)
Lemma unreferenced_complete n s m :
  (completed n s = Some false → error n s = Some false → subOf n s ≠ Some m) →
  unreferenced s m → unreferenced (_complete n s) m.
Proof.
  intros Hsub H.
  destruct (heap s !! n) as [nd|] eqn:Hn; cycle 1.
  { unfold _complete. by rewrite Hn. }
  destruct (Node._completed nd) eqn:Hc.
  { by rewrite (complete_done _ _ _ Hn Hc). }
  rewrite (complete_unfold _ _ _ Hn Hc). apply unreferenced_fire.
  assert (unreferenced (upd n (Node.set_completed true) s) m) as H0
    by by apply unreferenced_upd_flags.
  unfold relink. destruct (Node._subNode nd) as [sub|] eqn:Hs;
    [destruct (Node._error nd) eqn:He|]; simpl;
    try by apply unreferenced_unlink.
  apply unreferenced_splice; [|done].
  intros ->. apply Hsub.
  - unfold completed. by rewrite Hn; simpl; rewrite Hc.
  - unfold error. by rewrite Hn; simpl; rewrite He.
  - unfold subOf. by rewrite Hn.
Qed.

(** ** The first half of a sweep keeps the invariant *)

Lemma tick_error_reported ts x s :
  error x (_tick ts x s).2 = Some true → (_tick ts x s).1 = true.
Proof.
  unfold error.
  destruct (heap s !! x) as [nd|] eqn:H; cycle 1.
  { unfold _tick. by rewrite H. }
  pose proof (tick_spec ts x nd s H) as Ht. cbv zeta in Ht.
  destruct (Node._completed nd || Node._error nd) eqn:Hd.
  { by rewrite Ht. }
  destruct Ht as (_ & _ & _ & _ & Ht).
  destruct (callbacks nd _); destruct Ht as [Hr He]; [|done].
  rewrite He. done.
Qed.

Lemma Set_add_NoDup x done : NoDup done → NoDup (Set_add x done).
Proof.
  intros ND. unfold Set_add. case_bool_decide; [done|].
  apply list.NoDup_app. split_and!; [done| |apply NoDup_singleton].
  intros y Hy ->%list_elem_of_singleton. done.
Qed.

Lemma Set_add_elem x y done : y ∈ Set_add x done ↔ y = x ∨ y ∈ done.
Proof.
  unfold Set_add. case_bool_decide.
  - split; [tauto|]. intros [->|]; done.
  - rewrite elem_of_app, list_elem_of_singleton. tauto.
Qed.

Lemma fresh_view s s' m :
  heap s' !! m = heap s !! m → fresh s m → fresh s' m.
Proof.
  unfold fresh, completed, error, started, prevOf, nextOf. by intros ->.
Qed.

Lemma tick_sweeping ts x s l done :
  x ∈ l → sweeping s l done →
  let r := _tick ts x s in
  sweeping r.2 l (if r.1 then Set_add x done else done).
Proof.
  intros Hx (Hd & Hc & H3 & H4 & H5 & ND & Hsub) r.
  destruct (tick_view ts x s) as (Hv & Ho & Hh & Ht). fold r in Hv, Ho, Hh, Ht.
  split_and!.
  - eapply dlist_ext; [| | |done]; try done.
    intros m. apply tick_links.
  - eapply chains_ok_view; [|done]. intros k.
    destruct (Hv k) as (? & ? & ? & _). done.
  - intros a b Ha Hb. destruct (Hv a) as (_ & -> & _), (Hv b) as (_ & -> & _). eauto.
  - intros a Ha. destruct (Hv a) as (_ & -> & _ & _ & _ & ->).
    destruct (H4 a Ha) as (? & ? & He). split_and!; try done.
    intros Hnd. destruct (decide (a = x)) as [->|Hax].
    + destruct (r.1) eqn:Hr.
      { destruct Hnd. apply Set_add_elem. by left. }
      pose proof (tick_error_reported ts x s) as Hrep. fold r in Hrep.
      destruct (error x r.2) as [[]|] eqn:He'.
      * rewrite Hrep in Hr; done.
      * done.
      * specialize (He Hnd). unfold error in He, He'.
        destruct (tick_heap ts x s) as (g & Hg & _). fold r in Hg.
        rewrite Hg, list_lookup_alter_eq in He'.
        destruct (heap s !! x); done.
    + unfold error. rewrite Ho by done. apply He.
      intros Hin. apply Hnd. destruct (r.1); [|done].
      apply Set_add_elem. by right.
  - intros a m Ha Ham Hch.
    destruct (Hv a) as (_ & Ea & _), (Hv m) as (_ & Em & _).
    rewrite Ea, Em in Hch. destruct (H5 a m Ha Ham Hch) as [Hf Hu].
    assert (m ≠ x).
    { intros ->. assert (x = a) by (apply H3; done). lia. }
    split.
    + apply fresh_view with s; [|done]. by apply Ho.
    + eapply unreferenced_view; [| | |done]; try done.
      intros k. by destruct (Hv k) as (_ & _ & _ & ? & ? & _).
  - destruct (r.1); [by apply Set_add_NoDup|done].
  - intros a Ha. destruct (r.1); [|by apply Hsub].
    apply Set_add_elem in Ha as [->|]; [done|by apply Hsub].
Qed.

Lemma tick_all_sweeping ts l0 l done s :
  (∀ x, x ∈ l → x ∈ l0) → sweeping s l0 done →
  sweeping (tick_all ts l done s).2 l0 (tick_all ts l done s).1.
Proof.
  revert done s. induction l as [|x l IH]; intros dn s Hl Hs; [done|].
  simpl. destruct (_tick ts x (log (EvTick x ts) s)) as [b s'] eqn:E.
  apply IH; [intros y Hy; apply Hl; by right|].
  assert (sweeping (log (EvTick x ts) s) l0 dn) as Hs' by done.
  pose proof (tick_sweeping ts x _ l0 dn (Hl x ltac:(left)) Hs') as H.
  cbv zeta in H. by rewrite E in H.
Qed.

(** ** The second half of a sweep keeps the invariant *)

Lemma unlink_other n s k :
  prevOf n s ≠ Some n → nextOf n s ≠ Some n →
  prevOf n s ≠ Some k → nextOf n s ≠ Some k →
  heap (unlink n s) !! k = heap s !! k.
Proof.
  intros HP HQ HPk HQk.
  destruct (unlink_explicit n s HP HQ) as (-> & _).
  destruct (nextOf n s) as [q|], (prevOf n s) as [p|]; simpl;
    rewrite ?list_lookup_alter_ne by congruence; done.
Qed.

Lemma splice_other n m s k :
  m ≠ n → prevOf n s ≠ Some n →
  k ≠ m → prevOf n s ≠ Some k → nextOf n s ≠ Some k →
  heap (splice n m s) !! k = heap s !! k.
Proof.
  intros Hm HP Hk HPk HQk.
  destruct (splice_explicit n m s Hm HP) as (-> & _).
  destruct (nextOf n s) as [q|], (prevOf n s) as [p|]; simpl;
    rewrite ?list_lookup_alter_ne by congruence; done.
Qed.

Lemma last_or_elem (l : list nat) k : last_or l None = Some k → k ∈ l.
Proof.
  unfold last_or. destruct (list.last l) as [x|] eqn:E; [|done].
  intros [= ->]. apply last_Some in E as [l' ->].
  apply elem_of_app. right. by left.
Qed.

Lemma hd_or_elem (l : list nat) k : hd_or l None = Some k → k ∈ l.
Proof. destruct l; [done|]. intros [= ->]. by left. Qed.

(** [_complete] on a node of the list touches that node, its next phase
    and its neighbours on the list. *)
Lemma complete_other s l1 n l2 k :
  dlist s (l1 ++ n :: l2) → k ∉ l1 ++ n :: l2 →
  subOf n s ≠ Some k → subOf n s ≠ Some n →
  heap (_complete n s) !! k = heap s !! k.
Proof.
  intros Hd Hk Hsub Hsubn.
  destruct (heap s !! n) as [nd|] eqn:Hn; cycle 1.
  { unfold _complete. by rewrite Hn. }
  destruct (Node._completed nd) eqn:Hc.
  { by rewrite (complete_done _ _ _ Hn Hc). }
  rewrite (complete_unfold _ _ _ Hn Hc).
  destruct (fire_onCompleted_spec n
    (relink n nd (upd n (Node.set_completed true) s))) as (-> & _).
  set (s0 := upd n (Node.set_completed true) s).
  assert (dlist s0 (l1 ++ n :: l2)) as Hd0.
  { eapply dlist_ext; [| | |done]; try done.
    intros m. by apply fmap_lookup_alter. }
  destruct (dlist_links _ _ _ _ Hd0) as (HP & HQ & HPn & HQn).
  apply not_elem_of_app in Hk as [Hk1 Hk2].
  apply not_elem_of_cons in Hk2 as [Hkn Hk2].
  assert (prevOf n s0 ≠ Some k) as HPk.
  { rewrite HP. intros E. by apply last_or_elem in E. }
  assert (nextOf n s0 ≠ Some k) as HQk.
  { rewrite HQ. intros E. by apply hd_or_elem in E. }
  assert (heap s0 !! k = heap s !! k) as <-.
  { unfold s0. by rewrite heap_upd_ne. }
  unfold relink.
  destruct (Node._subNode nd) as [m|] eqn:Hm;
    [destruct (Node._error nd)|]; simpl; try by apply unlink_other.
  apply splice_other; try done.
  - intros ->. unfold subOf in Hsubn. rewrite Hn in Hsubn. simpl in Hsubn.
    congruence.
  - intros ->. unfold subOf in Hsub. rewrite Hn in Hsub. simpl in Hsub. congruence.
Qed.

Lemma sweeping_head s l n dn :
  sweeping s l (n :: dn) →
  ∃ l1 l2 nd, l = l1 ++ n :: l2 ∧ heap s !! n = Some nd ∧
    Node._completed nd = false ∧
    (∀ m, Node._subNode nd = Some m →
       n < m ∧ chainOf m s = chainOf n s ∧ (m ∉ l1 ++ n :: l2) ∧
       fresh s m ∧ unreferenced s m).
Proof.
  intros (Hd & (Hc1 & Hc2 & Hc3) & H3 & H4 & H5 & ND & Hsub).
  assert (n ∈ l) as Hn by (apply Hsub; by left).
  destruct (list_elem_of_split _ _ Hn) as (l1 & l2 & ->).
  destruct (H4 n Hn) as (Hcn & Hch & _). unfold completed in Hcn.
  destruct (heap s !! n) as [nd|] eqn:Hnd; [|done].
  injection Hcn as Hcn. exists l1, l2, nd. split_and!; try done.
  intros m Hm.
  assert (subOf n s = Some m) as Hs by (unfold subOf; by rewrite Hnd).
  destruct (Hc1 n m Hs) as [Hlt Hcm].
  destruct (H5 n m Hn Hlt Hcm) as [Hf Hu]. split_and!; try done.
  intros Hin. assert (m = n) by (by apply H3). lia.
Qed.

Lemma completed_list_elem l1 nd l2 n a :
  n ∉ l1 → n ∉ l2 → a ∈ completed_list l1 nd l2 →
  (a ∈ l1 ++ n :: l2 ∧ a ≠ n) ∨
  (Node._subNode nd = Some a ∧ Node._error nd = false).
Proof.
  intros N1 N2. unfold completed_list.
  destruct (Node._subNode nd) as [m|]; [destruct (Node._error nd)|];
    rewrite !elem_of_app, ?elem_of_cons; intros Ha.
  - left. destruct Ha; split; try tauto; by intros ->.
  - destruct Ha as [?|[->|?]]; [left|by right|left]; split; try tauto;
      by intros ->.
  - left. destruct Ha; split; try tauto; by intros ->.
Qed.

Lemma complete_sweeping s l n dn :
  sweeping s l (n :: dn) →
  ∃ l1 l2 nd, l = l1 ++ n :: l2 ∧ heap s !! n = Some nd ∧
    sweeping (_complete n s) (completed_list l1 nd l2) dn.
Proof.
  intros Hsw.
  destruct (sweeping_head _ _ _ _ Hsw) as (l1 & l2 & nd & -> & Hnd & Hcn & Hm).
  exists l1, l2, nd. split_and!; try done.
  destruct Hsw as (Hd & Hc & H3 & H4 & H5 & ND & Hsub).
  apply list.NoDup_cons in ND as [Hndn ND].
  pose proof Hd as (NDl & _).
  pose proof (NoDup_middle _ _ _ NDl) as (N1 & N2 & NDl' & Dj).
  destruct (complete_view n s) as (Hv & Hvc & Hvn).
  assert (subOf n s = Node._subNode nd) as Hsubn
    by (unfold subOf; by rewrite Hnd).
  assert (error n s = Some (Node._error nd)) as Herrn
    by (unfold error; by rewrite Hnd).
  assert (dlist (_complete n s) (completed_list l1 nd l2)) as Hd'.
  { assert (∀ m, Node._subNode nd = Some m →
              (m ∉ l1 ++ n :: l2) ∧ is_Some (heap s !! m)) as Hm'.
    { intros m Hs. destruct (Hm m Hs) as (_ & _ & ? & (Hf & _) & _).
      split; [done|]. unfold completed in Hf. by destruct (heap s !! m). }
    destruct (complete_spec s l1 n l2 nd Hd Hnd Hcn Hm') as (_ & Hl & _).
    unfold completed_list.
    destruct (Node._subNode nd) as [m|]; [destruct (Node._error nd)|];
      by destruct Hl as [? _]. }
  (* where a node of the new list comes from *)
  assert (∀ a, a ∈ completed_list l1 nd l2 →
            (a ∈ l1 ++ n :: l2 ∧ a ≠ n) ∨
            (Node._subNode nd = Some a ∧ Node._error nd = false)) as Horigin.
  { intros a. by apply completed_list_elem. }
  (* the node of the old list with the same chain *)
  assert (∀ a, a ∈ completed_list l1 nd l2 →
            ∃ a0, a0 ∈ l1 ++ n :: l2 ∧ a0 ≤ a ∧ chainOf a s = chainOf a0 s ∧
                  (a0 = n → a ≠ n ∧ subOf n s = Some a ∧ Node._error nd = false))
    as Hsource.
  { intros a Ha. destruct (Horigin a Ha) as [[Hin Hne]|[Hs He]].
    - exists a. split_and!; try done; lia.
    - destruct (Hm a Hs) as (? & ? & ? & _). exists n.
      split_and!; [by apply elem_of_app; right; left|lia|done|].
      intros _. split_and!; [lia|congruence|done]. }
  split_and!; try done.
  - eapply chains_ok_view; [|done]. intros k. by destruct (Hv k) as (?&?&?&_).
  - intros a b Ha Hb. destruct (Hv a) as (_&->&_), (Hv b) as (_&->&_).
    intros Hch.
    destruct (Hsource a Ha) as (a0 & Ha0 & _ & Eca & Hna).
    destruct (Hsource b Hb) as (b0 & Hb0 & _ & Ecb & Hnb).
    assert (a0 = b0) as <- by (apply H3; congruence).
    destruct (Horigin a Ha) as [[Hain Hane]|[Hsa Hea]],
             (Horigin b Hb) as [[Hbin Hbne]|[Hsb Heb]].
    + apply H3; done.
    + destruct (Hm b Hsb) as (_ & Hcb & _).
      assert (a = n) by (apply H3; [done|by apply elem_of_app; right; left|congruence]).
      done.
    + destruct (Hm a Hsa) as (_ & Hca & _).
      assert (b = n) by (apply H3; [done|by apply elem_of_app; right; left|congruence]).
      done.
    + congruence.
  - intros a Ha. destruct (Hv a) as (_&->&_&->&_).
    destruct (Horigin a Ha) as [[Hain Hane]|[Hsa Hea]].
    + rewrite Hvc by done. destruct (H4 a Hain) as (? & ? & He).
      split_and!; try done. intros Hnd'. apply He.
      by intros [->|?]%elem_of_cons.
    + destruct (Hm a Hsa) as (Hlt & Hca & Hnin & (Hf1 & Hf2 & _) & _).
      rewrite Hvc by lia. split_and!; try done.
      rewrite Hca. destruct (H4 n) as (_ & ? & _); [|done].
      apply elem_of_app. right. by left.
  - intros a m Ha Ham Hch.
    destruct (Hv a) as (_&Ea&_), (Hv m) as (_&Em&_). rewrite Ea, Em in Hch.
    destruct (Hsource a Ha) as (a0 & Ha0 & Hle & Eca & Hna).
    assert (a0 < m) as Hlt by lia.
    assert (chainOf m s = chainOf a0 s) as Hch0 by congruence.
    destruct (H5 a0 m Ha0 Hlt Hch0) as [Hf Hu].
    assert (m ∉ l1 ++ n :: l2) as Hmin.
    { intros Hin. assert (m = a0) by (by apply H3). lia. }
    assert (subOf n s ≠ Some m) as Hsm.
    { intros Hs. rewrite Hsubn in Hs. destruct (Hm m Hs) as (_ & Hcm & _).
      assert (a0 = n) as ->.
      { apply H3; [done|by apply elem_of_app; right; left|congruence]. }
      destruct (Hna eq_refl) as (? & Hsa & _). rewrite Hsubn in Hsa.
      assert (a = m) by congruence. lia. }
    split.
    + apply fresh_view with s; [|done].
      apply (complete_other s l1 n l2); try done.
      rewrite Hsubn. intros Hs. destruct (Hm n Hs). lia.
    + apply unreferenced_complete; [|done]. by intros _ _.
  - intros a Ha. assert (a ∈ l1 ++ n :: l2) as Hin by (apply Hsub; by right).
    assert (a ≠ n) by (by intros ->).
    unfold completed_list.
    apply elem_of_app in Hin as [?|[?|?]%elem_of_cons]; [|done|].
    + destruct (Node._subNode nd); [destruct (Node._error nd)|];
        apply elem_of_app; by left.
    + destruct (Node._subNode nd); [destruct (Node._error nd)|];
        apply elem_of_app; right; [done|by right|done].
Qed.

Lemma completeNodes_sweeping dn s l :
  sweeping s l dn →
  ∃ l', well_formed (_completeNodes dn s) l' ∧
    (∀ c, (∀ y, y ∈ l → chainOf y s = Some c →
             y ∈ dn ∧ (error y s = Some true ∨ subOf y s = None)) →
          ∀ y, y ∈ l' → chainOf y (_completeNodes dn s) ≠ Some c) ∧
    (∀ y, y ∈ l' → ∃ x, x ∈ l ∧ chainOf x s = chainOf y (_completeNodes dn s)).
Proof.
  revert s l. induction dn as [|n dn IH]; intros s l Hsw.
  { exists l. split_and!; [done| |].
    - intros c Hc y Hy Hch. destruct (Hc y Hy Hch) as [[]%elem_of_nil _].
    - intros y Hy. by exists y. }
  rewrite completeNodes_cons.
  set (s0 := log (EvComplete n) s).
  assert (sweeping s0 l (n :: dn)) as Hsw0 by done.
  destruct (complete_sweeping _ _ _ _ Hsw0) as (l1 & l2 & nd & -> & Hnd & Hsw1).
  destruct (IH _ _ Hsw1) as (l' & Hwf & Hgone & Horig).
  change (heap s0 !! n) with (heap s !! n) in Hnd.
  destruct Hsw as (Hd & (Hc1 & _) & H3 & H4 & H5 & ND & Hsub).
  pose proof Hd as (NDl & _).
  pose proof (NoDup_middle _ _ _ NDl) as (N1 & N2 & _).
  destruct (complete_view n s0) as (Hv & _).
  assert (subOf n s = Node._subNode nd) as Hsn by (unfold subOf; by rewrite Hnd).
  exists l'. split_and!; [done| |].
  - intros c Hc. apply Hgone.
    intros y Hy. destruct (Hv y) as (-> & -> & _ & -> & _).
    change (chainOf y s0) with (chainOf y s). change (error y s0) with (error y s).
    change (subOf y s0) with (subOf y s).
    intros Hch.
    destruct (completed_list_elem _ _ _ n _ N1 N2 Hy) as [[Hin Hne]|[Hs He]].
    + destruct (Hc y Hin Hch) as [[->|?]%elem_of_cons ?]; done.
    + assert (subOf n s = Some y) as Hsy by congruence.
      destruct (Hc1 n y Hsy) as [_ Hcy].
      destruct (Hc n) as [_ [Hen|Hen]];
        [by apply elem_of_app; right; left|congruence| |congruence].
      unfold error in Hen. rewrite Hnd in Hen. simpl in Hen. congruence.
  - intros y Hy. destruct (Horig y Hy) as (x & Hx & <-).
    destruct (Hv x) as (_ & -> & _). change (chainOf x s0) with (chainOf x s).
    destruct (completed_list_elem _ _ _ n _ N1 N2 Hx) as [[Hin Hne]|[Hs He]].
    + by exists x.
    + exists n. split; [by apply elem_of_app; right; left|].
      symmetry. apply Hc1. congruence.
Qed.

(** ** Effects that are never called again *)

Lemma silent_refl m s : silent m s s.
Proof. exists []. by rewrite app_nil_r. Qed.

Lemma silent_trans m s1 s2 s3 : silent m s1 s2 → silent m s2 s3 → silent m s1 s3.
Proof.
  intros (e1 & E1 & F1) (e2 & E2 & F2). exists (e1 ++ e2).
  rewrite E2, E1, app_assoc. split; [done|]. by apply list.Forall_app.
Qed.

Lemma silent_calls m s s' : silent m s s' → animator_calls m s' = animator_calls m s.
Proof.
  intros (evs & E & F). unfold animator_calls. rewrite E, list.filter_app, length_app.
  assert (filter (λ e, is_animator_call m e = true) evs = []) as ->; [|simpl; lia].
  clear E. induction F as [|e evs He _ IH]; [done|].
  rewrite list.filter_cons, IH. case_decide; congruence.
Qed.

Lemma silent_same m s s' : trace s' = trace s → silent m s s'.
Proof. intros E. exists []. by rewrite app_nil_r. Qed.

Lemma silent_log m e s : is_animator_call m e = false → silent m s (log e s).
Proof. intros He. exists [e]. split; [done|]. by repeat constructor. Qed.

Lemma silent_tick m ts x s :
  x ≠ m ∨ completed m s = Some true → silent m s (_tick ts x s).2.
Proof.
  intros Hx. destruct (decide (x = m)) as [->|Hne].
  - destruct Hx as [?|Hc]; [done|]. unfold completed in Hc.
    destruct (heap s !! m) as [nd|] eqn:Hnd; [|done]. injection Hc as Hc.
    rewrite (tick_done _ _ nd); [apply silent_refl|done|by rewrite Hc].
  - destruct (tick_trace ts x s) as (evs & E & F). exists evs. split; [done|].
    apply (list.Forall_impl _ _ _ F). intros [] He; simpl in *; try done.
    subst. by rewrite bool_decide_false.
Qed.

Lemma silent_complete m n s : silent m s (_complete n s).
Proof.
  destruct (complete_trace n s) as (evs & E & F). exists evs. split; [done|].
  apply (list.Forall_impl _ _ _ F). by intros [].
Qed.

Lemma silent_fire m n s : silent m s (fire_onCompleted n s).
Proof.
  destruct (fire_onCompleted_spec n s) as (_ & _ & _ & E & _).
  eexists. split; [done|]. case_match; by repeat constructor.
Qed.

Lemma revoke_node_unfold n nd s :
  heap s !! n = Some nd → Node._completed nd = false →
  revoke_node n s
  = fire_onCompleted n (unlink n (upd n (Node.set_completed true) s)).
Proof. intros H Hc. unfold revoke_node. by rewrite H, Hc. Qed.

Lemma revoke_node_done n s :
  completed n s ≠ Some false → revoke_node n s = s.
Proof.
  unfold completed, revoke_node. destruct (heap s !! n) as [nd|]; [|done].
  simpl. by destruct (Node._completed nd).
Qed.

Lemma silent_revoke_node m n s : silent m s (revoke_node n s).
Proof.
  destruct (heap s !! n) as [nd|] eqn:H; cycle 1.
  { unfold revoke_node. rewrite H. apply silent_refl. }
  destruct (Node._completed nd) eqn:Hc.
  { unfold revoke_node. rewrite H, Hc. apply silent_refl. }
  rewrite (revoke_node_unfold _ _ _ H Hc).
  eapply silent_trans; [|apply silent_fire].
  apply silent_same.
  destruct (relinked_unlink n (upd n (Node.set_completed true) s))
    as (_&_&_&_&_&_&_&_&_&_& ->). done.
Qed.

Lemma steady_refl s : steady s s.
Proof. by split_and!. Qed.

Lemma steady_trans s1 s2 s3 : steady s1 s2 → steady s2 s3 → steady s1 s3.
Proof.
  intros (L1 & S1 & C1) (L2 & S2 & C2). split_and!; [congruence| |by auto].
  intros k. by rewrite S2, S1.
Qed.

Lemma steady_heap s s' : heap s' = heap s → steady s s'.
Proof. unfold steady, subOf, completed. by intros ->. Qed.

Lemma static_view_length s s' :
  (∀ k, static <$> heap s' !! k = static <$> heap s !! k) →
  length (heap s') = length (heap s).
Proof.
  intros E. apply Nat.le_antisymm; apply Nat.nlt_ge; intros Hlt.
  - apply lookup_lt_is_Some_2 in Hlt as [x Hx].
    specialize (E (length (heap s))). rewrite Hx in E.
    rewrite lookup_ge_None_2 in E by lia. done.
  - apply lookup_lt_is_Some_2 in Hlt as [x Hx].
    specialize (E (length (heap s'))). rewrite Hx in E.
    rewrite lookup_ge_None_2 in E by lia. done.
Qed.

Lemma steady_tick ts x s : steady s (_tick ts x s).2.
Proof.
  destruct (tick_view ts x s) as (Hv & _). split_and!.
  - apply tick_scalars.
  - intros k. by destruct (Hv k) as (? & _).
  - intros k. by destruct (Hv k) as (_&_&_&_&_& ->).
Qed.

Lemma steady_complete n s : steady s (_complete n s).
Proof.
  destruct (complete_view n s) as (Hv & Hc & Hn). split_and!.
  - apply static_view_length. intros k. by destruct (complete_node n s k).
  - intros k. by destruct (Hv k) as (? & _).
  - intros k Hk. destruct (decide (k = n)) as [->|]; [|by rewrite Hc].
    apply Hn. unfold completed in Hk. by destruct (heap s !! n).
Qed.

Lemma revoke_node_view n s k :
  static <$> heap (revoke_node n s) !! k = static <$> heap s !! k ∧
  Node._completed <$> heap (revoke_node n s) !! k
  = (if decide (n = k) then (λ _, true) <$> heap s !! k
     else Node._completed <$> heap s !! k).
Proof.
  destruct (heap s !! n) as [nd|] eqn:H; cycle 1.
  { unfold revoke_node. rewrite H. split; [done|].
    case_decide; [subst; by rewrite H|done]. }
  destruct (Node._completed nd) eqn:Hc.
  { unfold revoke_node. rewrite H, Hc. split; [done|].
    case_decide; [subst; by rewrite H; simpl; rewrite Hc|done]. }
  rewrite (revoke_node_unfold _ _ _ H Hc).
  set (s0 := upd n (Node.set_completed true) s).
  destruct (fire_onCompleted_spec n (unlink n s0)) as (-> & _).
  destruct (relinked_unlink n s0) as (Hst & Hfl & _).
  rewrite Hst. split; [by apply fmap_lookup_alter|].
  assert (Node._completed <$> heap (unlink n s0) !! k
          = Node._completed <$> heap s0 !! k) as ->.
  { specialize (Hfl k).
    destruct (heap (unlink n s0) !! k), (heap s0 !! k); simpl in *; try done.
    by injection Hfl as _ _ -> _. }
  unfold s0. rewrite heap_upd. case_decide; [subst|done].
  by destruct (heap s !! k).
Qed.

Lemma steady_revoke_node n s : steady s (revoke_node n s).
Proof.
  split_and!.
  - apply static_view_length. intros k. by destruct (revoke_node_view n s k).
  - intros k. destruct (revoke_node_view n s k) as [Hs _].
    by destruct (static_view _ _ _ Hs).
  - intros k. unfold completed. destruct (revoke_node_view n s k) as [_ ->].
    case_decide; [|done]. destruct (heap s !! k); done.
Qed.

Lemma unreferenced_revoke_node n s m :
  unreferenced s m → unreferenced (revoke_node n s) m.
Proof.
  intros H. destruct (heap s !! n) as [nd|] eqn:Hn; cycle 1.
  { unfold revoke_node. by rewrite Hn. }
  destruct (Node._completed nd) eqn:Hc.
  { unfold revoke_node. by rewrite Hn, Hc. }
  rewrite (revoke_node_unfold _ _ _ Hn Hc).
  apply unreferenced_fire, unreferenced_unlink. by apply unreferenced_upd_flags.
Qed.

Lemma dormant_steady s s' m :
  steady s s' → unreferenced s' m → dormant s m → dormant s' m.
Proof.
  intros (L & S & C) Hu (Hl & _ & Hp). split_and!; [lia|done|].
  intros p. rewrite S. auto.
Qed.

Lemma quiet_steady s s' m :
  steady s s' → (dormant s m → unreferenced s' m) → quiet s m → quiet s' m.
Proof.
  intros Hst Hu [Hc|Hd]; [left; by apply Hst|].
  right. eapply dormant_steady; eauto.
Qed.

Lemma quiet_tick ts x s m :
  quiet s m → (dormant s m → x ≠ m) →
  quiet (_tick ts x s).2 m ∧ silent m s (_tick ts x s).2.
Proof.
  intros Hq Hx. split.
  - eapply quiet_steady; [apply steady_tick| |done].
    intros (_ & Hu & _). destruct (tick_view ts x s) as (Hv & _ & ? & ?).
    eapply unreferenced_view; [| | |done]; try done.
    intros k. by destruct (Hv k) as (_&_&_&?&?&_).
  - apply silent_tick. destruct Hq as [?|Hd]; [by right|left; auto].
Qed.

Lemma quiet_complete n s m :
  quiet s m → quiet (_complete n s) m ∧ silent m s (_complete n s).
Proof.
  intros Hq. split; [|apply silent_complete].
  eapply quiet_steady; [apply steady_complete| |done].
  intros (_ & Hu & Hp). apply unreferenced_complete; [|done].
  intros Hc _ Hs. specialize (Hp n Hs). congruence.
Qed.

Lemma quiet_revoke_node n s m :
  quiet s m → quiet (revoke_node n s) m ∧ silent m s (revoke_node n s).
Proof.
  intros Hq. split; [|apply silent_revoke_node].
  eapply quiet_steady; [apply steady_revoke_node| |done].
  intros (_ & Hu & _). by apply unreferenced_revoke_node.
Qed.

Lemma quiet_heap s s' m :
  heap s' = heap s →
  _nextNode s' = _nextNode s ∨ _nextNode s' = None →
  _tailNode s' = _tailNode s ∨ _tailNode s' = None →
  quiet s m → quiet s' m.
Proof.
  intros Hh Hn Ht. apply quiet_steady; [by apply steady_heap|].
  intros (_ & (? & ? & Hz) & _). split_and!.
  - destruct Hn as [->| ->]; done.
  - destruct Ht as [->| ->]; done.
  - intros z. unfold prevOf, nextOf. rewrite Hh. apply Hz.
Qed.

Lemma quiet_log e s m : quiet s m → quiet (log e s) m.
Proof. done. Qed.

Lemma dormant_head s m : dormant s m → _nextNode s ≠ Some m.
Proof. by intros (_ & (? & _) & _). Qed.

Lemma dormant_next s m x : dormant s m → nextOf x s ≠ Some m.
Proof. intros (_ & (_ & _ & Hz) & _). apply Hz. Qed.

Lemma processNodes_loop_quiet m fuel ts cur dn s r :
  quiet s m → (dormant s m → cur ≠ Some m) →
  _processNodes_loop fuel ts cur dn s = Some r →
  quiet r.2 m ∧ silent m s r.2.
Proof.
  revert cur dn s. induction fuel as [|fuel IH]; intros cur dn s Hq Hcur.
  { destruct cur; [done|]. intros [= <-]. split; [done|apply silent_refl]. }
  destruct cur as [x|]; cycle 1.
  { intros [= <-]. split; [done|apply silent_refl]. }
  simpl. destruct (_tick ts x (log (EvTick x ts) s)) as [b s2] eqn:E.
  assert (quiet s2 m ∧ silent m (log (EvTick x ts) s) s2) as [Hq2 Hs2].
  { replace s2 with (_tick ts x (log (EvTick x ts) s)).2 by by rewrite E.
    apply quiet_tick; [done|]. intros Hd. specialize (Hcur Hd). congruence. }
  intros Hr. destruct (IH _ _ _ Hq2 (λ Hd, dormant_next _ _ x Hd) Hr) as [? ?].
  split; [done|]. eapply silent_trans; [|done].
  eapply silent_trans; [|done]. by apply silent_log.
Qed.

Lemma completeNodes_quiet m dn s :
  quiet s m → quiet (_completeNodes dn s) m ∧ silent m s (_completeNodes dn s).
Proof.
  revert s. induction dn as [|n dn IH]; intros s Hq.
  { split; [done|apply silent_refl]. }
  rewrite completeNodes_cons.
  destruct (quiet_complete n (log (EvComplete n) s) m Hq) as [Hq1 Hs1].
  destruct (IH _ Hq1) as [? ?]. split; [done|].
  eapply silent_trans; [|done]. eapply silent_trans; [|done]. by apply silent_log.
Qed.

Lemma poll_quiet m fuel s r :
  quiet s m → _poll fuel s = Some r → quiet r.2 m ∧ silent m s r.2.
Proof.
  intros Hq. unfold _poll.
  destruct (paused s || bool_decide (_nextNode s = None)).
  { intros [= <-]. split; [done|apply silent_refl]. }
  destruct (clock_now s) as [now s0] eqn:E0.
  assert (heap s0 = heap s ∧ _nextNode s0 = _nextNode s ∧
          _tailNode s0 = _tailNode s ∧ trace s0 = trace s) as (Hh & Hn & Ht & Htr).
  { unfold clock_now in E0. destruct (AnimationClock._isPaused (_clock s));
      injection E0 as _ <-; done. }
  assert (quiet s0 m) as Hq0 by (eapply quiet_heap; eauto).
  unfold _processNodes.
  destruct (_processNodes_loop fuel now (_nextNode s0) [] s0) as [[dn s1]|] eqn:E1;
    [|done].
  destruct (processNodes_loop_quiet m _ _ _ _ _ _ Hq0 (dormant_head _ _) E1)
    as [Hq1 Hs1]. simpl in Hq1, Hs1. simpl.
  set (s2 := match dn with [] => s1 | _ => _completeNodes dn s1 end).
  assert (quiet s2 m ∧ silent m s1 s2) as [Hq2 Hs2].
  { unfold s2. destruct dn; [split; [done|apply silent_refl]|].
    by apply completeNodes_quiet. }
  intros [= <-]. simpl.
  assert (silent m s s2) as Hs.
  { eapply silent_trans; [|done]. eapply silent_trans; [|done].
    by apply silent_same. }
  destruct (negb (bool_decide (_nextNode s2 ≠ None))); [|done].
  split; [by eapply quiet_heap; eauto|done].
Qed.

Lemma loop_quiet m fuel s s' :
  quiet s m → loop fuel s = Some s' → quiet s' m ∧ silent m s s'.
Proof.
  intros Hq. unfold loop.
  destruct (_poll fuel s) as [[more s1]|] eqn:E; [|done].
  destruct (poll_quiet m _ _ _ Hq E) as [Hq1 Hs1]. simpl in *.
  destruct more; intros [= <-].
  - split; [by eapply quiet_heap; eauto|done].
  - split; [eapply quiet_heap; [| | |done]; eauto|done].
Qed.

Lemma frame_quiet m fuel s s' :
  quiet s m → frame fuel s = Some s' → quiet s' m ∧ silent m s s'.
Proof.
  unfold frame. intros Hq.
  assert (quiet (set_raf (raf_next s) [] s) m) as Hq0 by done.
  assert (silent m s (set_raf (raf_next s) [] s)) as Hs0 by by apply silent_same.
  revert Hq0 Hs0. generalize (set_raf (raf_next s) [] s) as s0.
  generalize (raf_pending s) as ids. clear Hq.
  induction ids as [|id ids IH]; intros s0 Hq0 Hs0; simpl.
  { intros [= <-]. done. }
  destruct (loop fuel s0) as [s1|] eqn:E; cycle 1.
  { simpl. intros H. exfalso. clear -H.
    induction ids as [|? ids IH]; [done|]. by apply IH. }
  simpl. destruct (loop_quiet m _ _ _ Hq0 E) as [Hq1 Hs1].
  apply IH; [done|]. by eapply silent_trans.
Qed.

Lemma revokeSubNodes_loop_quiet m fuel cur s s' :
  quiet s m → _revokeSubNodes_loop fuel cur s = Some s' →
  quiet s' m ∧ silent m s s'.
Proof.
  revert cur s. induction fuel as [|fuel IH]; intros cur s Hq.
  { destruct cur; [done|]. intros [= <-]. split; [done|apply silent_refl]. }
  destruct cur as [x|]; cycle 1.
  { intros [= <-]. split; [done|apply silent_refl]. }
  simpl. destruct (quiet_revoke_node x s m Hq) as [Hq1 Hs1].
  intros Hr. destruct (IH _ _ Hq1 Hr) as [? ?]. split; [done|].
  by eapply silent_trans.
Qed.

Lemma revoke_quiet m fuel n s s' :
  quiet s m → revoke fuel n s = Some s' → quiet s' m ∧ silent m s s'.
Proof.
  unfold revoke, _revokeSubNodes. intros Hq Hr.
  destruct (quiet_revoke_node n s m Hq) as [Hq1 Hs1].
  destruct (revokeSubNodes_loop_quiet m _ _ _ _ Hq1 Hr) as [? ?].
  split; [done|]. by eapply silent_trans.
Qed.

Lemma quiet_lt s m : quiet s m → m < length (heap s).
Proof.
  intros [Hc|(? & _)]; [|done]. unfold completed in Hc.
  apply lookup_lt_is_Some. by destruct (heap s !! m).
Qed.

Lemma quiet_alloc nd s m :
  (dormant s m → Node._prevNode nd ≠ Some m ∧ Node._nextNode nd ≠ Some m ∧
                 Node._subNode nd ≠ Some m) →
  quiet s m → quiet (alloc nd s).2 m.
Proof.
  intros Hnd Hq. pose proof (quiet_lt _ _ Hq) as Hlt.
  assert (∀ k, heap (alloc nd s).2 !! k
               = if decide (k < length (heap s)) then heap s !! k
                 else if decide (k = length (heap s)) then Some nd else None) as Hk.
  { intros k. simpl. case_decide; [by apply lookup_app_l|].
    case_decide; [subst; by rewrite list_lookup_middle|].
    apply lookup_ge_None_2. rewrite length_app. simpl. lia. }
  destruct Hq as [Hc|Hd]; [left|right].
  - unfold completed. by rewrite Hk, decide_True.
  - destruct (Hnd Hd) as (Hp & Hn & Hs).
    destruct Hd as (_ & (Hh & Ht & Hz) & Hpar). split_and!.
    + simpl. rewrite length_app. lia.
    + split_and!; try done. intros z. unfold prevOf, nextOf. rewrite Hk.
      repeat case_decide; [apply Hz|done|done].
    + intros p. unfold subOf, completed. rewrite !Hk.
      repeat case_decide; [apply Hpar|done|done].
Qed.

Lemma quiet_upd_sub cur child s m :
  child ≠ m → quiet s m →
  quiet (upd cur (Node.set_subNode (Some child)) s) m.
Proof.
  intros Hne [Hc|(Hl & Hu & Hpar)]; [left|right].
  - unfold completed in *. rewrite <- Hc. by apply fmap_lookup_alter.
  - split_and!.
    + simpl. by rewrite length_alter.
    + by apply unreferenced_upd_flags.
    + intros p Hp.
      assert (completed p (upd cur (Node.set_subNode (Some child)) s)
              = completed p s) as -> by by apply fmap_lookup_alter.
      apply Hpar. unfold subOf in *. rewrite heap_upd in Hp.
      case_decide; [subst|done].
      destruct (heap s !! p); simpl in *; congruence.
Qed.

Lemma quiet_upd_callback n c s m :
  quiet s m → quiet (upd n (Node.set_onCompleted c) s) m.
Proof.
  apply quiet_steady.
  - split_and!.
    + simpl. by rewrite length_alter.
    + intros k. unfold subOf. rewrite heap_upd. case_decide; [subst|done].
      by destruct (heap s !! k).
    + intros k Hk. unfold completed in *. rewrite <- Hk.
      by apply fmap_lookup_alter.
  - intros (_ & Hu & _). by apply unreferenced_upd_flags.
Qed.

Lemma quiet_upd_next t v s m :
  (dormant s m → v ≠ Some m) →
  quiet s m → quiet (upd t (Node.set_nextNode v) s) m.
Proof.
  intros Hv. apply quiet_steady.
  - split_and!.
    + simpl. by rewrite length_alter.
    + intros k. unfold subOf. rewrite heap_upd. case_decide; [subst|done].
      by destruct (heap s !! k).
    + intros k Hk. unfold completed in *. rewrite <- Hk.
      by apply fmap_lookup_alter.
  - intros Hd. pose proof Hd as (_ & Hu & _). apply unreferenced_upd_next; auto.
Qed.

Lemma quiet_set_nextNode v s m :
  (dormant s m → v ≠ Some m) → quiet s m → quiet (set_nextNode v s) m.
Proof.
  intros Hv. apply quiet_steady; [by apply steady_heap|].
  intros Hd. pose proof Hd as (_ & Hu & _). apply unreferenced_set_nextNode; auto.
Qed.

Lemma quiet_set_tailNode v s m :
  (dormant s m → v ≠ Some m) → quiet s m → quiet (set_tailNode v s) m.
Proof.
  intros Hv. apply quiet_steady; [by apply steady_heap|].
  intros Hd. pose proof Hd as (_ & Hu & _). apply unreferenced_set_tailNode; auto.
Qed.


Lemma linkChildNodes_quiet inits : ∀ cur d s m,
  quiet s m →
  quiet (linkChildNodes cur inits d s).2 m ∧
  trace (linkChildNodes cur inits d s).2 = trace s.
Proof.
  induction inits as [|init inits IH]; intros cur d s m Hq; [done|].
  simpl. pose proof (quiet_lt _ _ Hq) as Hlt.
  set (nd := Node.new _ _ _ _ _).
  assert (quiet (alloc nd s).2 m) as Hq1 by by apply quiet_alloc.
  assert (quiet (upd cur (Node.set_subNode (Some (length (heap s))))
                   (set_heap (heap s ++ [nd]) s)) m) as Hq2.
  { apply quiet_upd_sub; [lia|done]. }
  destruct (IH (length (heap s)) d _ m Hq2) as [? Htr]. split; [done|].
  by rewrite Htr.
Qed.

Lemma launch_heap s :
  heap (_launch s) = heap s ∧ _nextNode (_launch s) = _nextNode s ∧
  _tailNode (_launch s) = _tailNode s ∧ trace (_launch s) = trace s ∧
  promises (_launch s) = promises s.
Proof. unfold _launch. by destruct (truthy (_timer s)). Qed.

Lemma start_heap s :
  heap (start s) = heap s ∧ _nextNode (start s) = _nextNode s ∧
  _tailNode (start s) = _tailNode s ∧ trace (start s) = trace s ∧
  promises (start s) = promises s.
Proof.
  unfold start. destruct (_ && _); [|done].
  apply (launch_heap (clock_reset s)).
Qed.

Lemma pause_heap s :
  heap (pause s) = heap s ∧ _nextNode (pause s) = _nextNode s ∧
  _tailNode (pause s) = _tailNode s ∧ trace (pause s) = trace s ∧
  promises (pause s) = promises s.
Proof.
  unfold pause. destruct (_timer s); [|done]. destruct (negb (paused s)); [|done].
  unfold clock_pause. simpl. by destruct (AnimationClock._isPaused (_clock s)).
Qed.

Lemma resume_heap s :
  heap (resume s) = heap s ∧ _nextNode (resume s) = _nextNode s ∧
  _tailNode (resume s) = _tailNode s ∧ trace (resume s) = trace s ∧
  promises (resume s) = promises s.
Proof.
  unfold resume. destruct (paused s) eqn:Hp; [|done].
  destruct (launch_heap (clock_resume s)) as (-> & -> & -> & -> & ->).
  unfold clock_resume. by destruct (AnimationClock._isPaused (_clock s)).
Qed.

Lemma reset_heap s :
  heap (reset s) = heap s ∧ _nextNode (reset s) = None ∧
  _tailNode (reset s) = None ∧ trace (reset s) = trace s ∧
  promises (reset s) = promises s.
Proof.
  unfold reset, _stopAnimation.
  destruct (_timer s) as [[|id]|]; done.
Qed.

Lemma enqueue_quiet inits s h s' m :
  quiet s m → enqueue inits s = Some (h, s') →
  quiet s' m ∧ silent m s s'.
Proof.
  intros Hq. unfold enqueue.
  destruct (_normalizeAnimationInitials inits) as [|first rest]; [done|].
  simpl. pose proof (quiet_lt _ _ Hq) as Hlt.
  set (d := length (promises s)).
  set (s1 := set_promises (promises s ++ [Pending]) s).
  set (nd := Node.new _ _ _ _ _).
  set (root := length (heap s)).
  assert (quiet s1 m) as Hq1 by done.
  assert (quiet (alloc nd s1).2 m) as Hq2.
  { apply quiet_alloc; [|done]. intros (_ & (_ & ? & _) & _). done. }
  simpl in Hq2. set (s2 := set_heap (heap s ++ [nd]) s1) in *.
  assert (quiet (_linkRootNode root s2) m) as Hq3.
  { unfold _linkRootNode.
    apply quiet_set_tailNode; [intros _ [=]; lia|].
    set (s2' := match _nextNode s2 with None => _ | Some _ => s2 end).
    assert (quiet s2' m) as Hq2'.
    { unfold s2'. destruct (_nextNode s2); [done|].
      apply quiet_set_nextNode; [intros _ [=]; lia|done]. }
    clearbody s2'. destruct (_tailNode s2'); [|done].
    apply quiet_upd_next; [intros _ [=]; lia|done]. }
  assert (trace (_linkRootNode root s2) = trace s) as Htr3.
  { unfold _linkRootNode, s2, s1. simpl.
    destruct (_nextNode s); simpl; destruct (_tailNode s); done. }
  unfold _createAndLinkChildNodes.
  destruct (linkChildNodes_quiet rest root d (_linkRootNode root s2) m Hq3)
    as [Hq4 Htr4].
  destruct (linkChildNodes root rest d (_linkRootNode root s2)) as [cur s4].
  simpl in Hq4, Htr4.
  set (s5 := upd cur (Node.set_onCompleted (Some d)) s4).
  assert (quiet s5 m) as Hq5 by by apply quiet_upd_callback.
  assert (trace s5 = trace s) as Htr5.
  { change (trace s5) with (trace s4). by rewrite Htr4. }
  intros [= _ <-]. destruct (negb (_isPolling s4)).
  - destruct (start_heap s5) as (Hh & Hn & Ht & Htr & _). split.
    + apply (quiet_heap s5); [done|by left|by left|done].
    + apply silent_same. congruence.
  - split; [done|by apply silent_same].
Qed.

Lemma step_quiet m fuel o s s' :
  quiet s m → step fuel o s = Some s' → quiet s' m ∧ silent m s s'.
Proof.
  intros Hq. destruct o; simpl.
  - destruct (enqueue inits s) as [[h s1]|] eqn:E; intros [= <-].
    + by eapply enqueue_quiet.
    + split; [done|apply silent_refl].
  - by apply frame_quiet.
  - intros [= <-]. destruct (start_heap s) as (Hh & Hn & Ht & Htr & _). split.
    + apply (quiet_heap s); [done|by left|by left|done].
    + by apply silent_same.
  - intros [= <-]. destruct (pause_heap s) as (Hh & Hn & Ht & Htr & _). split.
    + apply (quiet_heap s); [done|by left|by left|done].
    + by apply silent_same.
  - intros [= <-]. destruct (resume_heap s) as (Hh & Hn & Ht & Htr & _). split.
    + apply (quiet_heap s); [done|by left|by left|done].
    + by apply silent_same.
  - intros [= <-]. destruct (reset_heap s) as (Hh & Hn & Ht & Htr & _). split.
    + apply (quiet_heap s); [done|by right|by right|done].
    + by apply silent_same.
  - by apply revoke_quiet.
Qed.

(** Once a node is completed, or out of reach of the sweep, its effect is
    not called again, whatever the scheduler is used for. *)
Lemma run_quiet m fuel ops s s' :
  quiet s m → run fuel ops s = Some s' →
  quiet s' m ∧ animator_calls m s' = animator_calls m s.
Proof.
  revert s. induction ops as [|o ops IH]; intros s Hq; simpl.
  { by intros [= <-]. }
  destruct (step fuel o s) as [s1|] eqn:E; [|done]. simpl.
  destruct (step_quiet m _ _ _ _ Hq E) as [Hq1 Hs1]. intros Hr.
  destruct (IH _ Hq1 Hr) as [? ->]. split; [done|]. by apply silent_calls.
Qed.

(** ** A whole sweep keeps the invariant *)

(** The invariant looks at the store, the head and the tail only. *)
Lemma sweeping_ext s s' l dn :
  heap s' = heap s → _nextNode s' = _nextNode s → _tailNode s' = _tailNode s →
  sweeping s l dn → sweeping s' l dn.
Proof.
  destruct s, s'. simpl. intros -> -> -> H. exact H.
Qed.

Lemma tick_all_app ts l1 l2 dn s :
  tick_all ts (l1 ++ l2) dn s
  = tick_all ts l2 (tick_all ts l1 dn s).1 (tick_all ts l1 dn s).2.
Proof.
  revert dn s. induction l1 as [|x l1 IH]; intros dn s; [done|].
  simpl. destruct (_tick ts x (log (EvTick x ts) s)) as [b s1]. apply IH.
Qed.

Lemma tick_all_view ts l dn s :
  let s' := (tick_all ts l dn s).2 in
  (∀ k, subOf k s' = subOf k s ∧ chainOf k s' = chainOf k s ∧
        callbackOf k s' = callbackOf k s ∧
        prevOf k s' = prevOf k s ∧ nextOf k s' = nextOf k s ∧
        completed k s' = completed k s) ∧
  (∀ k, k ∉ l → heap s' !! k = heap s !! k) ∧
  _nextNode s' = _nextNode s ∧ _tailNode s' = _tailNode s.
Proof.
  revert dn s. induction l as [|x l IH]; intros dn s; [done|].
  simpl. pose proof (tick_view ts x (log (EvTick x ts) s)) as Hv.
  destruct (_tick ts x (log (EvTick x ts) s)) as [b s1]. simpl in Hv.
  destruct Hv as (Hk & Ho & Hh & Ht).
  destruct (IH (if b then Set_add x dn else dn) s1) as (Hk' & Ho' & Hh' & Ht').
  split; [|split; [|split]].
  - intros k. destruct (Hk k) as (? & ? & ? & ? & ? & ?).
    destruct (Hk' k) as (? & ? & ? & ? & ? & ?).
    repeat split; etrans; eauto.
  - intros k Hn. apply not_elem_of_cons in Hn as [? ?].
    rewrite Ho' by done. by apply Ho.
  - by rewrite Hh'.
  - by rewrite Ht'.
Qed.

Lemma tick_all_mono ts l dn s y :
  y ∈ dn → y ∈ (tick_all ts l dn s).1.
Proof.
  revert dn s. induction l as [|x l IH]; intros dn s Hy; [done|].
  simpl. destruct (_tick ts x (log (EvTick x ts) s)) as [b s1].
  apply IH. destruct b; [|done]. by apply Set_add_elem; right.
Qed.

(** A tick whose callbacks throw. *)
Lemma tick_throws ts n nd s e :
  heap s !! n = Some nd → Node._completed nd || Node._error nd = false →
  callbacks nd (rawProgress ts nd s) = Throws e →
  let r := _tick ts n s in
  r.1 = true ∧ error n r.2 = Some true ∧
  (∀ c, Node._onError nd = Some c → EvOnError n c e ∈ trace r.2) ∧
  promises r.2 = match Node._onError nd with
                 | Some c => alter (settle (Rejected e)) c (promises s)
                 | None => promises s
                 end.
Proof.
  intros Hn Hd Hc. cbv zeta. rewrite (tick_unfold ts n nd s Hn Hd). cbv zeta.
  rewrite Hc. simpl.
  destruct (latched_lookup n nd s Hn) as (nd' & Hn' & _ & _ & _ & _ & _ & _ & Ho & _).
  destruct (latched_scalars n nd s) as (_ & Hp & _).
  set (s2 := set_trace _ _).
  assert (heap s2 !! n = Some nd') as Hn2 by done.
  destruct (handleError_spec e n nd' s2 Hn2) as (Hh & Ht & Hpr & _).
  rewrite Ho in Ht, Hpr. split; [done|]. split; [|split].
  - unfold error. rewrite Hh, list_lookup_alter_eq, Hn2. done.
  - intros c Hoc. rewrite Ht, Hoc. apply elem_of_app. right. by left.
  - rewrite Hpr. unfold s2. simpl. by rewrite Hp.
Qed.

(** A tick settles the deferred of its own chain only. *)
Lemma tick_promises ts y s c :
  chainOf y s ≠ Some c → promises (_tick ts y s).2 !! c = promises s !! c.
Proof.
  intros Hc. destruct (heap s !! y) as [nd|] eqn:Hy; cycle 1.
  { unfold _tick. by rewrite Hy. }
  destruct (Node._completed nd || Node._error nd) eqn:Hd.
  { by rewrite (tick_done _ _ nd). }
  destruct (callbacks nd (rawProgress ts nd s)) as [u|e] eqn:Hcb.
  - rewrite (tick_unfold ts y nd s Hy Hd). cbv zeta. rewrite Hcb. simpl.
    destruct (latched_scalars y nd s) as (_ & Hp & _). by rewrite Hp.
  - destruct (tick_throws ts y nd s e Hy Hd Hcb) as (_ & _ & _ & Hp).
    rewrite Hp. unfold chainOf in Hc. rewrite Hy in Hc. simpl in Hc.
    destruct (Node._onError nd) as [c'|]; [|done].
    apply list_lookup_alter_ne. congruence.
Qed.

Lemma tick_all_promises ts l dn s c :
  (∀ y, y ∈ l → chainOf y s ≠ Some c) →
  promises (tick_all ts l dn s).2 !! c = promises s !! c.
Proof.
  revert dn s. induction l as [|x l IH]; intros dn s Hc; [done|].
  simpl. pose proof (tick_view ts x (log (EvTick x ts) s)) as Hv.
  pose proof (tick_promises ts x (log (EvTick x ts) s) c) as Hp.
  destruct (_tick ts x (log (EvTick x ts) s)) as [b s1]. simpl in Hv, Hp.
  destruct Hv as (Hk & _). rewrite IH.
  - apply Hp. apply Hc. by left.
  - intros y Hy. destruct (Hk y) as (_ & -> & _). apply Hc. by right.
Qed.

(** A settled deferred stays as it is. *)
Lemma settle_settled v p : p ≠ Pending → settle v p = p.
Proof. by destruct p. Qed.

Lemma alter_settled v c (ps : list settled) k p :
  ps !! k = Some p → p ≠ Pending → alter (settle v) c ps !! k = Some p.
Proof.
  intros Hk Hp. destruct (decide (c = k)) as [->|Hne].
  - rewrite list_lookup_alter_eq, Hk. simpl. by rewrite settle_settled.
  - by rewrite list_lookup_alter_ne.
Qed.

Lemma complete_settled n s k p :
  promises s !! k = Some p → p ≠ Pending →
  promises (_complete n s) !! k = Some p.
Proof.
  intros Hk Hp. destruct (heap s !! n) as [nd|] eqn:Hn; cycle 1.
  { unfold _complete. by rewrite Hn. }
  destruct (Node._completed nd) eqn:Hc.
  { by rewrite (complete_done _ _ _ Hn Hc). }
  destruct (complete_calls n nd s Hn Hc) as [_ ->].
  destruct (Node._onCompleted nd); [|done]. by apply alter_settled.
Qed.

Lemma completeNodes_settled dn s k p :
  promises s !! k = Some p → p ≠ Pending →
  promises (_completeNodes dn s) !! k = Some p.
Proof.
  revert s. induction dn as [|n dn IH]; intros s Hk Hp; [done|].
  rewrite completeNodes_cons. apply IH; [|done].
  by apply (complete_settled n (log (EvComplete n) s)).
Qed.

Lemma tick_settled ts n s k p :
  promises s !! k = Some p → p ≠ Pending →
  promises (_tick ts n s).2 !! k = Some p.
Proof.
  intros Hk Hp. destruct (heap s !! n) as [nd|] eqn:Hy; cycle 1.
  { unfold _tick. by rewrite Hy. }
  destruct (Node._completed nd || Node._error nd) eqn:Hd.
  { by rewrite (tick_done _ _ nd). }
  destruct (callbacks nd (rawProgress ts nd s)) as [u|e] eqn:Hcb.
  - rewrite (tick_unfold ts n nd s Hy Hd). cbv zeta. rewrite Hcb. simpl.
    destruct (latched_scalars n nd s) as (_ & Hq & _). by rewrite Hq.
  - destruct (tick_throws ts n nd s e Hy Hd Hcb) as (_ & _ & _ & Hq).
    rewrite Hq. destruct (Node._onError nd); [|done]. by apply alter_settled.
Qed.

Lemma tick_all_settled ts l dn s k p :
  promises s !! k = Some p → p ≠ Pending →
  promises (tick_all ts l dn s).2 !! k = Some p.
Proof.
  revert dn s. induction l as [|x l IH]; intros dn s Hk Hp; [done|].
  simpl. pose proof (tick_settled ts x (log (EvTick x ts) s) k p Hk Hp) as Hq.
  destruct (_tick ts x (log (EvTick x ts) s)) as [b s1]. by apply IH.
Qed.

(** The flags of the nodes after the second half of a sweep. *)
Lemma completeNodes_view dn s :
  let s' := _completeNodes dn s in
  (∀ k, subOf k s' = subOf k s ∧ chainOf k s' = chainOf k s ∧
        callbackOf k s' = callbackOf k s ∧
        error k s' = error k s ∧ started k s' = started k s) ∧
  (∀ k, k ∈ dn → is_Some (heap s !! k) → completed k s' = Some true) ∧
  (∀ k, completed k s = Some true → completed k s' = Some true).
Proof.
  revert s. induction dn as [|n dn IH]; intros s.
  { split; [done|]. split; [|done]. intros k Hk. by apply elem_of_nil in Hk. }
  rewrite completeNodes_cons.
  destruct (IH (_complete n (log (EvComplete n) s))) as (Hk & Hd & Hm).
  destruct (complete_view n (log (EvComplete n) s)) as (Hk' & Ho' & Hn').
  pose proof (steady_complete n (log (EvComplete n) s)) as (_ & _ & Hst).
  split; [|split].
  - intros k. destruct (Hk k) as (-> & -> & -> & -> & ->). apply Hk'.
  - intros k Hin Hs. apply elem_of_cons in Hin as [->|Hin].
    + apply Hm. by apply Hn'.
    + apply Hd; [done|]. 
      destruct (Hk' k) as (_ & _ & _ & He & _). unfold error in He.
      destruct Hs as [nd Hs]. change (heap (log (EvComplete n) s)) with (heap s) in He.
      rewrite Hs in He. simpl in He.
      destruct (heap (_complete n (log (EvComplete n) s)) !! k); [done|done].
  - intros k Hc. apply Hm, Hst. done.
Qed.

Lemma completeNodes_completed dn s k :
  k ∉ dn → completed k (_completeNodes dn s) = completed k s.
Proof.
  revert s. induction dn as [|n dn IH]; intros s Hk; [done|].
  apply not_elem_of_cons in Hk as [Hne Hk].
  rewrite completeNodes_cons, IH by done.
  destruct (complete_view n (log (EvComplete n) s)) as (_ & Ho & _).
  by rewrite Ho.
Qed.

Lemma completeNodes_trace_ext dn s e :
  e ∈ trace s → e ∈ trace (_completeNodes dn s).
Proof.
  intros He. destruct (completeNodes_trace dn s) as (evs & -> & _).
  apply elem_of_app. by left.
Qed.

Lemma tick_all_trace_ext ts l dn s e :
  e ∈ trace s → e ∈ trace (tick_all ts l dn s).2.
Proof.
  intros He. destruct (tick_all_trace ts l dn s) as (evs & -> & _).
  apply elem_of_app. by left.
Qed.

Lemma tick_all_silent m ts l dn s :
  m ∉ l → silent m s (tick_all ts l dn s).2.
Proof.
  revert dn s. induction l as [|x l IH]; intros dn s Hm; [apply silent_refl|].
  apply not_elem_of_cons in Hm as [Hne Hm]. simpl.
  pose proof (silent_tick m ts x (log (EvTick x ts) s)) as Hs.
  destruct (_tick ts x (log (EvTick x ts) s)) as [b s1]. simpl in Hs.
  eapply silent_trans; [|by apply IH].
  eapply silent_trans; [|apply Hs; left; congruence].
  by apply silent_log.
Qed.

Lemma completeNodes_silent m dn s : silent m s (_completeNodes dn s).
Proof.
  revert s. induction dn as [|n dn IH]; intros s; [apply silent_refl|].
  rewrite completeNodes_cons. eapply silent_trans; [|apply IH].
  eapply silent_trans; [by apply (silent_log m (EvComplete n))|].
  apply silent_complete.
Qed.

Lemma completeNodes_unreferenced dn s m :
  (∀ n, n ∈ dn → completed n s = Some false → error n s = Some false →
        subOf n s ≠ Some m) →
  unreferenced s m → unreferenced (_completeNodes dn s) m.
Proof.
  revert s. induction dn as [|n dn IH]; intros s Hc Hu; [done|].
  rewrite completeNodes_cons.
  destruct (complete_view n (log (EvComplete n) s)) as (Hk & Ho & Hn).
  apply IH.
  - intros k Hin Hcp He. destruct (Hk k) as (-> & _ & _ & He' & _).
    rewrite He' in He. apply (Hc k); [by right| |done].
    destruct (decide (k = n)) as [->|Hne].
    + destruct (heap s !! n) as [nd|] eqn:Hnd.
      * rewrite Hn in Hcp by done. done.
      * unfold _complete in Hcp. simpl in Hcp. by rewrite Hnd in Hcp.
    + by rewrite Ho in Hcp.
  - apply unreferenced_complete; [|done]. apply Hc. by left.
Qed.

(** A sweep of a scheduler at rest leaves it at rest; a chain whose node
    on the list erred in the sweep has left the list. *)
Lemma loop_well_formed s l fuel :
  well_formed s l → paused s = false → length l < fuel →
  let now := AnimationClock.now (perf s (perf_reads s)) (_clock s) in
  let s0 := match l with [] => s | _ => (clock_now s).2 end in
  let r := tick_all now l [] s0 in
  let s2 := _completeNodes r.1 r.2 in
  ∃ s' l', loop fuel s = Some s' ∧ well_formed s' l' ∧ paused s' = false ∧
    heap s' = heap s2 ∧ trace s' = trace s2 ∧ promises s' = promises s2 ∧
    _nextNode s' = _nextNode s2 ∧ _tailNode s' = _tailNode s2 ∧
    sweeping r.2 l r.1 ∧
    (∀ c, (∀ y, y ∈ l → chainOf y s = Some c →
             y ∈ r.1 ∧ (error y r.2 = Some true ∨ subOf y s = None)) →
          ∀ y, y ∈ l' → chainOf y s' ≠ Some c) ∧
    (∀ y, y ∈ l' → ∃ x, x ∈ l ∧ chainOf x s = chainOf y s').
Proof.
  intros W Hp Hf now s0 r s2.
  assert (active s l) as Ha by (apply dlist_active, W).
  destruct (sweep_spec s l fuel Hp Ha Hf) as (dn & s1 & evT & evC & Hs).
  cbv zeta in Hs. destruct Hs as (Ht & _ & _ & _ & _ & _ & _ & _ & Hl).
  fold now s0 in Ht. assert (r = (dn, s1)) as Hr by done.
  assert (heap s0 = heap s ∧ _nextNode s0 = _nextNode s ∧
          _tailNode s0 = _tailNode s) as (H0 & H0n & H0t).
  { unfold s0. destruct l; [done|]. unfold clock_now, paused, AnimationClock.isPaused in *.
    rewrite Hp. done. }
  assert (sweeping s0 l []) as W0 by by apply (sweeping_ext s).
  pose proof (tick_all_sweeping now l l [] s0 (λ x H, H) W0) as W1.
  fold r in W1.
  destruct (completeNodes_sweeping r.1 r.2 l W1) as (l' & W2 & Hch & Hor).
  fold s2 in W2, Hch, Hor.
  destruct (tick_all_view now l [] s0) as (Hv & _). fold r in Hv.
  destruct (completeNodes_scalars r.1 r.2) as (_ & Hck & _). fold s2 in Hck.
  destruct (tick_all_scalars now l [] s0) as (_ & _ & _ & Hck1 & _). fold r in Hck1.
  assert (_clock s0 = _clock s) as Hck0.
  { unfold s0. destruct l; [done|]. unfold clock_now, paused, AnimationClock.isPaused in *.
    rewrite Hp. done. }
  assert (∀ y, subOf y r.2 = subOf y s ∧ chainOf y r.2 = chainOf y s) as Hst.
  { intros y. destruct (Hv y) as (-> & -> & _).
    unfold subOf, chainOf. by rewrite H0. }
  assert (∀ c, (∀ y, y ∈ l → chainOf y s = Some c →
                 y ∈ r.1 ∧ (error y r.2 = Some true ∨ subOf y s = None)) →
          ∀ y, y ∈ l' → chainOf y s2 ≠ Some c) as Hch'.
  { intros c Hc. apply Hch. intros y Hy Hcy.
    destruct (Hst y) as [-> Ec]. apply Hc; [done|]. by rewrite <- Ec. }
  assert (∀ y, y ∈ l' → ∃ x, x ∈ l ∧ chainOf x s = chainOf y s2) as Hor'.
  { intros y Hy. destruct (Hor y Hy) as (x & Hx & <-). exists x.
    by destruct (Hst x) as [_ ->]. }
  assert (s2 = _completeNodes dn s1) as Hs2 by (unfold s2; by rewrite Hr).
  rewrite <- Hs2 in Hl. clearbody s2. clear Hs2.
  destruct (_nextNode s2) as [h|] eqn:Hh.
  - eexists _, l'. split; [exact Hl|]. split; [|split].
    + by apply (sweeping_ext s2).
    + unfold paused. simpl. rewrite Hck, Hck1, Hck0. exact Hp.
    + split_and!; done.
  - destruct Hl as (Hl & _ & _ & Hc & Hn & Htl).
    destruct (cleanup_spec s2) as (_ & _ & _ & _ & _ & _ & _ & Hhp & Hpr & Htr & _).
    assert (l' = []) as ->.
    { destruct W2 as ((_ & Hd & _) & _). rewrite Hh in Hd. by destruct l'. }
    assert (_tailNode s2 = None) as Htl2.
    { destruct W2 as ((_ & _ & Hd & _) & _). done. }
    eexists _, []. split; [exact Hl|]. split; [|split].
    + apply (sweeping_ext s2); [done|congruence|congruence|done].
    + unfold paused. by rewrite Hc.
    + split_and!; try done; congruence.
Qed.

(** The reading of the clock a sweep starts with changes no part of the
    scheduler but the count of readings. *)
Lemma clock_now_view s :
  paused s = false →
  let s0 := (clock_now s).2 in
  heap s0 = heap s ∧ _nextNode s0 = _nextNode s ∧ _tailNode s0 = _tailNode s ∧
  trace s0 = trace s ∧ promises s0 = promises s.
Proof.
  intros Hp. unfold clock_now, paused, AnimationClock.isPaused in *.
  by rewrite Hp.
Qed.

(** ** A phase that throws *)

Lemma rawProgress_log ts nd e s :
  rawProgress ts nd (log e s) = rawProgress ts nd s.
Proof.
  unfold rawProgress, start_of_tick, clock_now. simpl.
  by destruct (AnimationClock._isPaused (_clock s)).
Qed.

Lemma throw_spec s l1 x l2 nd c e fuel :
  well_formed s (l1 ++ x :: l2) →
  paused s = false →
  length (l1 ++ x :: l2) < fuel →
  heap s !! x = Some nd →
  Node._onError nd = Some c →
  promises s !! c = Some Pending →
  let now := AnimationClock.now (perf s (perf_reads s)) (_clock s) in
  let sx := (tick_all now l1 [] (clock_now s).2).2 in
  callbacks nd (rawProgress now nd sx) = Throws e →
  (_tick now x (log (EvTick x now) sx)).1 = true ∧
  ∃ s' l',
    loop fuel s = Some s' ∧
    error x s' = Some true ∧ completed x s' = Some true ∧
    EvOnError x c e ∈ trace s' ∧
    promises s' !! c = Some (Rejected e) ∧
    well_formed s' l' ∧ paused s' = false ∧
    (x ∉ l') ∧ (∀ y, y ∈ l' → chainOf y s' ≠ Some c) ∧
    (∀ m, subOf x s = Some m →
       (m ∉ l') ∧ completed m s' = Some false ∧ quiet s' m ∧
       animator_calls m s' = animator_calls m s).
Proof.
  intros W Hp Hf Hx Hoc Hpc now sx Hthrow.
  set (l := l1 ++ x :: l2) in *.
  destruct (loop_well_formed s l fuel W Hp Hf)
    as (s' & l' & Hloop & W' & Hp' & Hh' & Ht' & Hpr' & Hn' & Htl' & W1 & Hch & _).
  fold now in W1, Hch, Hh', Ht', Hpr', Hn', Htl'.
  assert (match l with [] => s | _ => (clock_now s).2 end = (clock_now s).2) as E0.
  { unfold l. by destruct l1. }
  rewrite E0 in *. clear E0.
  set (s0 := (clock_now s).2) in *.
  destruct (clock_now_view s Hp) as (H0 & H0n & H0t & H0tr & H0p). fold s0 in H0, H0n, H0t, H0tr, H0p.
  set (r := tick_all now l [] s0) in *.
  set (s2 := _completeNodes r.1 r.2) in *.
  (* the invariant at the start *)
  destruct W as (Hdl & Hok & Huniq & Hfl & Hyoung & _ & _).
  assert (x ∈ l) as Hxl by (apply elem_of_app; right; by left).
  assert (NoDup l) as Hnd by apply Hdl.
  assert ((x ∉ l1) ∧ (x ∉ l2)) as [Hx1 Hx2].
  { unfold l in Hnd. apply list.NoDup_app in Hnd as (_ & Hd & Hnd).
    apply list.NoDup_cons in Hnd as [? _]. split; [|done].
    intros Hin. apply (Hd x Hin). by left. }
  assert (chainOf x s = Some c) as Hcx.
  { unfold chainOf. by rewrite Hx. }
  destruct (Hfl x Hxl) as (Hcp & _ & Her). specialize (Her (not_elem_of_nil x)).
  assert (Node._completed nd || Node._error nd = false) as Hd.
  { unfold completed, error in Hcp, Her. rewrite Hx in Hcp, Her.
    simpl in Hcp, Her. injection Hcp as ->. by injection Her as ->. }
  (* the static parts stay *)
  assert (∀ k, subOf k s0 = subOf k s ∧ chainOf k s0 = chainOf k s) as Hst0.
  { intros k. unfold subOf, chainOf. by rewrite H0. }
  destruct (tick_all_view now l [] s0) as (Hv1 & _). fold r in Hv1.
  destruct (completeNodes_view r.1 r.2) as (Hv2 & Hcd & _). fold s2 in Hv2, Hcd.
  assert (∀ k, subOf k s' = subOf k s ∧ chainOf k s' = chainOf k s) as Hst.
  { intros k. destruct (Hst0 k) as [<- <-].
    destruct (Hv1 k) as (<- & <- & _). destruct (Hv2 k) as (<- & <- & _).
    unfold subOf, chainOf. by rewrite Hh'. }
  (* the ticks before [x] *)
  destruct (tick_all_view now l1 [] s0) as (_ & Ho1 & _). fold sx in Ho1.
  assert (heap sx !! x = Some nd) as Hxs.
  { rewrite Ho1 by done. by rewrite H0. }
  assert (promises sx !! c = Some Pending) as Hps.
  { unfold sx. rewrite tick_all_promises; [by rewrite H0p|].
    intros y Hy. destruct (Hst0 y) as [_ ->]. rewrite <- Hcx. intros Hc.
    assert (y = x) as -> by (apply Huniq; [by apply elem_of_app; left|done|done]).
    done. }
  (* the tick of [x] *)
  rewrite <- (rawProgress_log now nd (EvTick x now)) in Hthrow.
  pose proof (tick_throws now x nd (log (EvTick x now) sx) e Hxs Hd Hthrow) as Hth.
  cbv zeta in Hth. rewrite Hoc in Hth. destruct Hth as (Hb & Hex & Hev & Hpx).
  specialize (Hev c eq_refl). split; [exact Hb|].
  (* the ticks after [x] *)
  assert (r = tick_all now l2 (Set_add x (tick_all now l1 [] s0).1)
              (_tick now x (log (EvTick x now) sx)).2) as Hr.
  { unfold r, l. rewrite tick_all_app. fold sx. simpl.
    destruct (_tick now x (log (EvTick x now) sx)) as [b sx'].
    simpl in Hb. by rewrite Hb. }
  set (sx' := (_tick now x (log (EvTick x now) sx)).2) in *.
  assert (x ∈ r.1) as Hxr.
  { rewrite Hr. apply tick_all_mono. apply Set_add_elem. by left. }
  assert (error x r.2 = Some true) as Hxe.
  { rewrite Hr. unfold error.
    destruct (tick_all_view now l2 (Set_add x (tick_all now l1 [] s0).1) sx')
      as (_ & Ho & _).
    by rewrite Ho. }
  assert (promises r.2 !! c = Some (Rejected e)) as Hpr.
  { rewrite Hr. apply tick_all_settled; [|done].
    fold sx' in Hpx. rewrite Hpx, list_lookup_alter_eq.
    change (promises (log (EvTick x now) sx)) with (promises sx).
    by rewrite Hps. }
  assert (EvOnError x c e ∈ trace r.2) as Htr.
  { rewrite Hr. by apply tick_all_trace_ext. }
  (* the chain has left the list *)
  assert (∀ y, y ∈ l' → chainOf y s' ≠ Some c) as Hgone.
  { apply Hch. intros y Hy Hc.
    assert (y = x) as -> by (apply Huniq; [done|done|congruence]).
    split; [done|by left]. }
  exists s', l'. split; [exact Hloop|].
  assert (is_Some (heap r.2 !! x)) as Hxr2.
  { unfold error in Hxe. destruct (heap r.2 !! x); [by eexists|done]. }
  split_and!.
  - transitivity (error x s2); [unfold error; by rewrite Hh'|].
    destruct (Hv2 x) as (_ & _ & _ & -> & _). done.
  - unfold completed. rewrite Hh'. by apply Hcd.
  - rewrite Ht'. by apply completeNodes_trace_ext.
  - rewrite Hpr'. by apply completeNodes_settled.
  - exact W'.
  - exact Hp'.
  - intros Hin. apply (Hgone x Hin). destruct (Hst x) as [_ ->]. done.
  - exact Hgone.
  - intros m Hm.
    destruct Hok as (Hsub & Hinj & _). destruct (Hsub x m Hm) as [Hlt Hcm].
    assert (m ∉ l) as Hml.
    { intros Hin. assert (m = x) as -> by (by apply Huniq). lia. }
    destruct (Hyoung x m Hxl Hlt Hcm) as [Hfr Hun].
    assert (m ∉ l') as Hml'.
    { intros Hin. apply (Hgone m Hin). destruct (Hst m) as [_ ->]. congruence. }
    assert (silent m s s') as Hsil.
    { apply (silent_trans _ _ s0); [by apply silent_same|].
      apply (silent_trans _ _ r.2); [by apply tick_all_silent|].
      apply (silent_trans _ _ s2); [apply completeNodes_silent|].
      by apply silent_same. }
    assert (unreferenced s' m) as Hun'.
    { apply (unreferenced_view s2).
      { intros k. unfold prevOf, nextOf. by rewrite Hh'. }
      { done. } { done. }
      apply completeNodes_unreferenced.
      - intros n Hn _ Hen Hsn. destruct (Hv1 n) as (Hs1 & _).
        destruct (Hst0 n) as [Hs0 _]. rewrite Hs1, Hs0 in Hsn.
        assert (n = x) as -> by by apply (Hinj _ _ m). congruence.
      - apply (unreferenced_view s0).
        { intros k. destruct (Hv1 k) as (_ & _ & _ & -> & -> & _). done. }
        { destruct (tick_all_view now l [] s0) as (_ & _ & Hhd & _). done. }
        { destruct (tick_all_view now l [] s0) as (_ & _ & _ & Htd). done. }
        apply (unreferenced_view s); [|done|done|done].
        intros k. unfold prevOf, nextOf. by rewrite H0. }
    assert (completed m s' = Some false) as Hcm'.
    { transitivity (completed m s2); [unfold completed; by rewrite Hh'|].
      unfold s2. rewrite completeNodes_completed.
      - destruct (Hv1 m) as (_ & _ & _ & _ & _ & ->).
        unfold completed. rewrite H0. apply Hfr.
      - intros Hin. apply Hml. by apply W1. }
    split_and!; [done|done| |by apply silent_calls].
    right. split_and!.
    + apply lookup_lt_is_Some. unfold completed in Hcm'.
      destruct (heap s' !! m); [by eexists|done].
    + done.
    + intros p Hps'. destruct (Hst p) as [Hsp _]. rewrite Hsp in Hps'.
      assert (p = x) as -> by by apply (Hinj _ _ m).
      unfold completed. rewrite Hh'. by apply Hcd.
Qed.

Lemma two_phases_well_formed a b : well_formed (two_phases a b) [0].
Proof.
  assert (∀ k, heap (two_phases a b) !! S (S k) = None) as Hnone by done.
  split_and!.
  - split_and!; [apply NoDup_singleton|done|done|].
    simpl. eexists. split_and!; done.
  - split_and!.
    + intros [|[|n]] m; unfold subOf, chainOf.
      * intros [= <-]. split; [lia|done].
      * discriminate.
      * rewrite Hnone. discriminate.
    + intros [|[|p]] [|[|p']] m; unfold subOf; try rewrite !Hnone; try done.
    + intros [|[|n]] c; unfold callbackOf, chainOf; try rewrite !Hnone; try done.
  - intros x y Hx Hy _. apply list_elem_of_singleton in Hx, Hy. congruence.
  - intros x Hx. apply list_elem_of_singleton in Hx as ->. split_and!; try done.
  - intros x [|[|m]] Hx Hlt; apply list_elem_of_singleton in Hx as ->; [lia| |].
    + intros _. split; [done|]. split_and!; [done|done|].
      intros [|[|z]]; unfold prevOf, nextOf; try rewrite !Hnone; done.
    + unfold chainOf. rewrite Hnone. discriminate.
  - apply NoDup_nil_2.
  - intros x Hx. by apply elem_of_nil in Hx.
Qed.

(** ** Revocation *)

Lemma chain_from_view s s' cur ch :
  (∀ k, subOf k s' = subOf k s) → chain_from s cur ch → chain_from s' cur ch.
Proof.
  intros Hv. revert cur. induction ch as [|x ch IH]; intros cur; [done|].
  simpl. intros [-> H]. split; [done|]. rewrite Hv. by apply IH.
Qed.

Lemma chain_from_app s cur l1 x l2 :
  chain_from s cur (l1 ++ x :: l2) → chain_from s (Some x) (x :: l2).
Proof.
  revert cur. induction l1 as [|a l1 IH]; intros cur.
  - simpl. intros [-> H]. done.
  - simpl. intros [-> H]. by apply (IH _ H).
Qed.

(** Along a static chain the nodes get younger and report to one deferred. *)
Lemma chain_from_younger s a ch m :
  chains_ok s → chain_from s (Some a) (a :: ch) → m ∈ ch →
  a < m ∧ chainOf m s = chainOf a s.
Proof.
  intros (Hsub & _ & _). revert a. induction ch as [|x ch IH]; intros a.
  { intros _ Hin. by apply elem_of_nil in Hin. }
  simpl. intros (_ & Hx & Hch) Hin.
  destruct (Hsub a x Hx) as [Hlt Hc].
  apply elem_of_cons in Hin as [->|Hin]; [done|].
  destruct (IH x) as [Hlt' Hc']; [by split|done|].
  split; [lia|congruence].
Qed.

Lemma chain_from_NoDup s cur ch :
  chains_ok s → chain_from s cur ch → NoDup ch.
Proof.
  intros Hok. revert cur. induction ch as [|x ch IH]; intros cur.
  { intros _. apply NoDup_nil_2. }
  intros Hch. assert (cur = Some x) as -> by apply Hch.
  apply NoDup_cons_2.
  - intros Hin. destruct (chain_from_younger s x ch x Hok Hch Hin). lia.
  - destruct Hch as [_ Hch]. by apply (IH _ Hch).
Qed.

Lemma revokeSubNodes_loop_chain fuel cur ch s :
  chain_from s cur ch → length ch < fuel →
  _revokeSubNodes_loop fuel cur s = Some (revoke_all ch s).
Proof.
  revert fuel cur s. induction ch as [|x ch IH]; intros fuel cur s.
  { simpl. intros -> _. by destruct fuel. }
  simpl. intros [-> Hch] Hf. destruct fuel as [|fuel]; [lia|]. simpl.
  destruct (steady_revoke_node x s) as (_ & Hsub & _).
  apply IH; [|lia]. rewrite Hsub. by apply (chain_from_view s).
Qed.

Lemma revoke_chain fuel r ch s :
  static_chain s r ch → length ch < fuel →
  revoke fuel r s = Some (revoke_all ch s).
Proof.
  unfold static_chain. destruct ch as [|x ch]; [done|].
  simpl. intros [[= <-] Hch] Hf.
  unfold revoke, _revokeSubNodes.
  destruct (steady_revoke_node r s) as (_ & Hsub & _).
  apply (revokeSubNodes_loop_chain fuel _ ch); [|lia].
  rewrite Hsub. by apply (chain_from_view s).
Qed.

Lemma revoke_all_app l1 l2 s :
  revoke_all (l1 ++ l2) s = revoke_all l2 (revoke_all l1 s).
Proof. apply foldl_app. Qed.

Lemma revoke_all_done ch s :
  (∀ n, n ∈ ch → completed n s = Some true) → revoke_all ch s = s.
Proof.
  induction ch as [|x ch IH]; intros H; [done|].
  simpl. rewrite revoke_node_done.
  - apply IH. intros n Hn. apply H. by right.
  - rewrite H by by left. done.
Qed.

Lemma revoke_node_error n s k : error k (revoke_node n s) = error k s.
Proof.
  destruct (heap s !! n) as [nd|] eqn:H; cycle 1.
  { unfold revoke_node. by rewrite H. }
  destruct (Node._completed nd) eqn:Hc.
  { unfold revoke_node. by rewrite H, Hc. }
  rewrite (revoke_node_unfold _ _ _ H Hc).
  set (s0 := upd n (Node.set_completed true) s).
  unfold error.
  destruct (fire_onCompleted_spec n (unlink n s0)) as (-> & _).
  destruct (relinked_unlink n s0) as (_ & Hfl & _).
  assert (Node._error <$> heap (unlink n s0) !! k
          = Node._error <$> heap s0 !! k) as ->.
  { specialize (Hfl k).
    destruct (heap (unlink n s0) !! k), (heap s0 !! k); simpl in *; try done.
    by injection Hfl as _ _ _ ->. }
  unfold s0. rewrite heap_upd. case_decide; [subst|done].
  by destruct (heap s !! k).
Qed.

Lemma revoke_all_view ch s k :
  static <$> heap (revoke_all ch s) !! k = static <$> heap s !! k ∧
  error k (revoke_all ch s) = error k s ∧
  (k ∉ ch → completed k (revoke_all ch s) = completed k s) ∧
  (k ∈ ch → is_Some (heap s !! k) → completed k (revoke_all ch s) = Some true).
Proof.
  revert s. induction ch as [|x ch IH]; intros s.
  { split_and!; try done. intros Hin. by apply elem_of_nil in Hin. }
  simpl. destruct (IH (revoke_node x s)) as (Hst & He & Hno & Hin).
  destruct (revoke_node_view x s k) as [Hst1 Hc1].
  destruct (steady_revoke_node x s) as (_ & _ & Hmono).
  split_and!.
  - by rewrite Hst, Hst1.
  - by rewrite He, revoke_node_error.
  - intros Hk. apply not_elem_of_cons in Hk as [Hne Hk].
    rewrite Hno by done. unfold completed. rewrite Hc1.
    by rewrite decide_False by congruence.
  - intros Hk [nd Hnd].
    assert (is_Some (heap (revoke_node x s) !! k)) as Hs.
    { destruct (heap (revoke_node x s) !! k); [by eexists|].
      rewrite Hnd in Hst1. done. }
    destruct (decide (k ∈ ch)) as [Hkc|Hkc]; [by apply Hin|].
    apply elem_of_cons in Hk as [->|Hk]; [|done].
    rewrite Hno by done. unfold completed. rewrite Hc1.
    rewrite decide_True by done. by rewrite Hnd.
Qed.

Lemma silent_revoke_all m ch s : silent m s (revoke_all ch s).
Proof.
  revert s. induction ch as [|x ch IH]; intros s; [apply silent_refl|].
  simpl. eapply silent_trans; [apply silent_revoke_node|apply IH].
Qed.

(** *** Deferreds *)

Lemma resolving_refl s : resolving s s.
Proof.
  split; [|by left]. exists []. split; [by rewrite app_nil_r|done].
Qed.

Lemma resolving_trans s1 s2 s3 :
  resolving s1 s2 → resolving s2 s3 → resolving s1 s3.
Proof.
  intros [(e1 & E1 & F1) P1] [(e2 & E2 & F2) P2]. split.
  - exists (e1 ++ e2). split; [by rewrite E2, E1, app_assoc|].
    by apply list.Forall_app.
  - intros k. destruct (P1 k) as [H1|[H1 H1']], (P2 k) as [H2|[H2 H2']].
    + left. congruence.
    + right. split; congruence.
    + right. split; congruence.
    + congruence.
Qed.

Lemma resolving_fire n s : resolving s (fire_onCompleted n s).
Proof.
  destruct (fire_onCompleted_spec n s) as (_ & _ & _ & Ht & Hp).
  split.
  - eexists. split; [exact Ht|]. destruct (heap s !! n ≫= Node._onCompleted).
    + repeat constructor. by eexists _, _.
    + constructor.
  - intros k. rewrite Hp. destruct (heap s !! n ≫= Node._onCompleted) as [c|]; [|by left].
    destruct (decide (c = k)) as [->|Hne]; [|left; by apply list_lookup_alter_ne].
    rewrite list_lookup_alter_eq. destruct (promises s !! k) as [[]|]; simpl; auto.
Qed.

Lemma resolving_same s s' :
  trace s' = trace s → promises s' = promises s → resolving s s'.
Proof.
  intros Ht Hp. split; [|left; by rewrite Hp].
  exists []. split; [by rewrite app_nil_r|done].
Qed.

Lemma resolving_revoke_node n s : resolving s (revoke_node n s).
Proof.
  destruct (heap s !! n) as [nd|] eqn:H; cycle 1.
  { unfold revoke_node. rewrite H. apply resolving_refl. }
  destruct (Node._completed nd) eqn:Hc.
  { unfold revoke_node. rewrite H, Hc. apply resolving_refl. }
  rewrite (revoke_node_unfold _ _ _ H Hc).
  eapply resolving_trans; [|apply resolving_fire].
  destruct (relinked_unlink n (upd n (Node.set_completed true) s))
    as (_&_&_&_&_&_&_&_&_& Hp & Ht).
  by apply resolving_same.
Qed.

Lemma resolving_revoke_all ch s : resolving s (revoke_all ch s).
Proof.
  revert s. induction ch as [|x ch IH]; intros s; [apply resolving_refl|].
  simpl. eapply resolving_trans; [apply resolving_revoke_node|apply IH].
Qed.

(** [revoke] on a node with a completion callback resolves its deferred. *)
Lemma revoke_node_resolves n c s :
  completed n s = Some false → callbackOf n s = Some c →
  EvOnCompleted n c ∈ trace (revoke_node n s) ∧
  promises (revoke_node n s) !! c = settle Resolved <$> promises s !! c.
Proof.
  unfold completed, callbackOf. intros Hc Hcb.
  destruct (heap s !! n) as [nd|] eqn:H; [|done].
  simpl in *. injection Hc as Hc.
  rewrite (revoke_node_unfold _ _ _ H Hc).
  set (s0 := unlink n (upd n (Node.set_completed true) s)).
  destruct (relinked_unlink n (upd n (Node.set_completed true) s))
    as (Hst &_&_&_&_&_&_&_&_& Hp & Ht). fold s0 in Hst, Hp, Ht.
  destruct (fire_onCompleted_spec n s0) as (_ & _ & _ & Ht' & Hp').
  assert (heap s0 !! n ≫= Node._onCompleted = Some c) as Hcb0.
  { specialize (Hst n). rewrite heap_upd_eq, H in Hst. simpl in Hst.
    destruct (heap s0 !! n) as [nd0|]; [|done]. simpl in *.
    injection Hst as _ _ _ _ _ ->. done. }
  rewrite Hcb0 in Ht', Hp'. split.
  - rewrite Ht'. apply elem_of_app. right. by left.
  - rewrite Hp', list_lookup_alter_eq. by rewrite Hp.
Qed.

(** *** The list *)

Lemma links_completed n s :
  prevOf n (upd n (Node.set_completed true) s) = prevOf n s ∧
  nextOf n (upd n (Node.set_completed true) s) = nextOf n s.
Proof.
  rewrite prevOf_upd, nextOf_upd, !decide_True by done.
  unfold prevOf, nextOf. by destruct (heap s !! n).
Qed.

Lemma revoke_node_listed s l1 y l2 :
  dlist s (l1 ++ y :: l2) → completed y s = Some false →
  dlist (revoke_node y s) (l1 ++ l2).
Proof.
  intros Hd Hc. unfold completed in Hc.
  destruct (heap s !! y) as [nd|] eqn:H; [|done].
  simpl in Hc. injection Hc as Hc.
  rewrite (revoke_node_unfold _ _ _ H Hc).
  set (s0 := upd y (Node.set_completed true) s).
  destruct (fire_onCompleted_spec y (unlink y s0)) as (Hh & (Hn & Ht & _) & _).
  apply (dlist_ext (unlink y s0)); [by rewrite Hh|done|done|].
  apply dlist_unlink. apply (dlist_ext s); [|done|done|done].
  intros m. unfold s0. rewrite heap_upd. case_decide; [subst|done].
  by rewrite H.
Qed.

Lemma revoke_node_other n s k :
  k ≠ n → prevOf n s ≠ Some n → nextOf n s ≠ Some n →
  prevOf n s ≠ Some k → nextOf n s ≠ Some k →
  heap (revoke_node n s) !! k = heap s !! k.
Proof.
  intros Hne Hpn Hnn Hpk Hnk.
  destruct (heap s !! n) as [nd|] eqn:H; cycle 1.
  { unfold revoke_node. by rewrite H. }
  destruct (Node._completed nd) eqn:Hc.
  { unfold revoke_node. by rewrite H, Hc. }
  rewrite (revoke_node_unfold _ _ _ H Hc).
  set (s0 := upd n (Node.set_completed true) s).
  destruct (fire_onCompleted_spec n (unlink n s0)) as (-> & _).
  destruct (links_completed n s) as [Ep En]. fold s0 in Ep, En.
  rewrite unlink_other by (rewrite ?Ep, ?En; done).
  unfold s0. by rewrite heap_upd_ne.
Qed.

(** [revoke] on a node that was never on the list empties the list. *)
Lemma revoke_node_fresh m s :
  fresh s m → unreferenced s m →
  _nextNode (revoke_node m s) = None ∧
  _tailNode (revoke_node m s) = _tailNode s.
Proof.
  intros (Hc & _ & _ & Hp & Hn) (_ & Ht & _). unfold completed in Hc.
  destruct (heap s !! m) as [nd|] eqn:H; [|done].
  simpl in Hc. injection Hc as Hc.
  rewrite (revoke_node_unfold _ _ _ H Hc).
  set (s0 := upd m (Node.set_completed true) s).
  destruct (fire_onCompleted_spec m (unlink m s0)) as (_ & (-> & -> & _) & _).
  destruct (links_completed m s) as [Ep En]. fold s0 in Ep, En.
  destruct (unlink_explicit m s0) as (_ & Hhd & Htl).
  { by rewrite Ep, Hp. } { by rewrite En, Hn. }
  rewrite Hhd, Htl, Ep, En, Hp, Hn. split; [done|].
  rewrite bool_decide_false; done.
Qed.

Lemma revoke_all_fresh post s :
  post ≠ [] → NoDup post →
  (∀ m, m ∈ post → fresh s m ∧ unreferenced s m) →
  _nextNode (revoke_all post s) = None.
Proof.
  revert s. induction post as [|m post IH]; intros s Hne Hnd Hf; [done|].
  simpl. apply list.NoDup_cons in Hnd as [Hm Hnd].
  destruct (Hf m) as [Hfm Hum]; [by left|].
  destruct post as [|m' post'].
  { simpl. by apply revoke_node_fresh. }
  apply IH; [done|done|].
  intros k Hk. destruct (Hf k) as [Hfk Huk]; [by right|].
  split; [|by apply unreferenced_revoke_node].
  apply (fresh_view s); [|done].
  destruct Hfm as (_ & _ & _ & Hp & Hn).
  apply revoke_node_other; rewrite ?Hp, ?Hn; try done.
  intros ->. done.
Qed.

Lemma last_snoc_inv {A} (l : list A) x :
  list.last l = Some x → ∃ q, l = q ++ [x].
Proof.
  induction l as [|a l IH] using rev_ind; [done|].
  rewrite last_snoc. intros [= ->]. by exists l.
Qed.

Lemma revoke_spec s l1 y l2 r pre post t c fuel :
  well_formed s (l1 ++ y :: l2) →
  static_chain s r (pre ++ y :: post) →
  (∀ n, n ∈ pre → completed n s = Some true) →
  list.last (y :: post) = Some t →
  callbackOf t s = Some c →
  promises s !! c = Some Pending →
  length (pre ++ y :: post) < fuel →
  ∃ s' l',
    revoke fuel r s = Some s' ∧
    (∀ n, n ∈ pre ++ y :: post → completed n s' = Some true) ∧
    (∀ n, (n ∉ pre ++ y :: post) → completed n s' = completed n s) ∧
    (∀ n, error n s' = error n s) ∧
    active s' l' ∧
    (∀ n, n ∈ l' → n ∈ l1 ++ l2 ∧ (n ∉ pre ++ y :: post)) ∧
    (post = [] → l' = l1 ++ l2) ∧
    resolving s s' ∧
    EvOnCompleted t c ∈ trace s' ∧
    promises s' !! c = Some Resolved ∧
    (∀ m, silent m s s').
Proof.
  intros W Hch Hpre Hlast Hcb Hpc Hf.
  set (ch := pre ++ y :: post) in *.
  destruct W as (Hdl & Hok & Huniq & Hfl & Hyoung & _ & _).
  assert (y ∈ l1 ++ y :: l2) as Hyl by (apply elem_of_app; right; by left).
  destruct (Hfl y Hyl) as (Hcy & _ & _).
  assert (NoDup ch) as Hnd by by apply (chain_from_NoDup s (Some r)).
  assert (chain_from s (Some y) (y :: post)) as Hchy
    by by apply (chain_from_app s (Some r) pre).
  assert (∀ m, m ∈ post → y < m ∧ chainOf m s = chainOf y s) as Hyg.
  { intros m Hm. by apply (chain_from_younger s y post). }
  assert (∀ m, m ∈ post → fresh s m ∧ unreferenced s m) as Hfr.
  { intros m Hm. destruct (Hyg m Hm). by apply (Hyoung y). }
  assert (∀ n, n ∈ ch → is_Some (heap s !! n)) as Hsome.
  { intros n Hn. apply elem_of_app in Hn as [Hn|Hn].
    - specialize (Hpre n Hn). unfold completed in Hpre.
      destruct (heap s !! n); [by eexists|done].
    - apply elem_of_cons in Hn as [->|Hn].
      + unfold completed in Hcy. destruct (heap s !! y); [by eexists|done].
      + destruct (Hfr n Hn) as [(Hc & _) _]. unfold completed in Hc.
        destruct (heap s !! n); [by eexists|done]. }
  exists (revoke_all ch s), (match post with [] => l1 ++ l2 | _ => [] end).
  split; [by apply revoke_chain|].
  (* in steps *)
  assert (revoke_all ch s = revoke_all post (revoke_node y s)) as Es.
  { unfold ch. rewrite revoke_all_app, (revoke_all_done pre) by done. done. }
  set (s1 := revoke_node y s) in *.
  assert (dlist s1 (l1 ++ l2)) as Hdl1 by by apply revoke_node_listed.
  destruct (dlist_links s l1 y l2 Hdl) as (_ & _ & Hpy & Hny).
  assert (∀ m, m ∈ post → fresh s1 m ∧ unreferenced s1 m) as Hfr1.
  { intros m Hm. destruct (Hfr m Hm) as [Hfm Hum].
    split; [|by apply unreferenced_revoke_node].
    apply (fresh_view s); [|done].
    destruct Hum as (_ & _ & Hz). destruct (Hz y) as [? ?].
    apply revoke_node_other; try done.
    intros ->. destruct (Hyg y Hm). lia. }
  (* the terminal node *)
  destruct (last_snoc_inv _ _ Hlast) as (q & Hq).
  assert (ch = (pre ++ q) ++ [t]) as Ech.
  { unfold ch. by rewrite Hq, app_assoc. }
  set (sq := revoke_all (pre ++ q) s).
  assert (revoke_all ch s = revoke_node t sq) as Et.
  { rewrite Ech, revoke_all_app. done. }
  assert (t ∉ pre ++ q) as Htq.
  { rewrite Ech in Hnd. apply list.NoDup_app in Hnd as (_ & Hd & _).
    intros Hin. apply (Hd t Hin). by left. }
  assert (t ∈ y :: post) as Hty.
  { rewrite Hq. apply elem_of_app. right. by left. }
  assert (completed t s = Some false) as Hct.
  { apply elem_of_cons in Hty as [->|Hin]; [done|]. apply (Hfr t Hin). }
  destruct (revoke_all_view (pre ++ q) s t) as (Hstq & _ & Hcq & _).
  fold sq in Hstq, Hcq.
  destruct (revoke_node_resolves t c sq) as [Hev Hprom].
  { by rewrite Hcq. }
  { destruct (static_view _ _ _ Hstq) as (_ & _ & ->). done. }
  pose proof (resolving_revoke_all (pre ++ q) s) as [_ Hrq]. fold sq in Hrq.
  split_and!.
  - intros n Hn. by apply revoke_all_view; [|apply Hsome].
  - intros n Hn. by apply revoke_all_view.
  - intros n. apply revoke_all_view.
  - rewrite Es. destruct post as [|m post'].
    + simpl. by apply dlist_active.
    + unfold active. rewrite revoke_all_fresh; [done|done| |done].
      apply list.NoDup_app in Hnd as (_ & _ & Hnd).
      by apply list.NoDup_cons in Hnd as [_ Hnd].
  - intros n Hn.
    assert (n ∈ l1 ++ l2) as Hnl.
    { destruct post; [done|]. by apply elem_of_nil in Hn. }
    split; [done|].
    assert (n ∈ l1 ++ y :: l2) as Hnl'.
    { apply elem_of_app in Hnl as [?|?]; apply elem_of_app; [by left|].
      right. by right. }
    assert (n ≠ y) as Hne.
    { intros ->. destruct Hdl as (Hndl & _).
      apply NoDup_middle in Hndl as (H1 & H2 & _).
      apply elem_of_app in Hnl as [?|?]; done. }
    intros Hin. apply elem_of_app in Hin as [Hin|Hin].
    + destruct (Hfl n Hnl') as (Hcn & _). rewrite (Hpre n Hin) in Hcn. done.
    + apply elem_of_cons in Hin as [->|Hin]; [done|].
      destruct (Hyg n Hin) as [Hlt Hc].
      assert (n = y) as -> by (by apply Huniq). lia.
  - by intros ->.
  - apply resolving_revoke_all.
  - by rewrite Et.
  - rewrite Et, Hprom. destruct (Hrq c) as [->|[_ ->]]; [by rewrite Hpc|done].
  - intros m. apply silent_revoke_all.
Qed.

(** [revoke] on the handle of a chain whose last phase is not completed
    and whose deferred is pending, in any state of the scheduler. *)
Lemma revoke_chain_spec s r ch t c fuel :
  static_chain s r ch → NoDup ch →
  (∀ n, n ∈ ch → is_Some (heap s !! n)) →
  list.last ch = Some t → completed t s = Some false →
  callbackOf t s = Some c → promises s !! c = Some Pending →
  length ch < fuel →
  let s' := revoke_all ch s in
  revoke fuel r s = Some s' ∧
  (∀ n, n ∈ ch → completed n s' = Some true) ∧
  (∀ n, (n ∉ ch) → completed n s' = completed n s) ∧
  (∀ n, error n s' = error n s) ∧
  resolving s s' ∧
  EvOnCompleted t c ∈ trace s' ∧
  promises s' !! c = Some Resolved ∧
  (∀ m, silent m s s').
Proof.
  intros Hch Hnd Hsome Hlast Hct Hcb Hpc Hf s'. unfold s'.
  destruct (last_snoc_inv _ _ Hlast) as (q & ->).
  set (sq := revoke_all q s).
  assert (revoke_all (q ++ [t]) s = revoke_node t sq) as Et
    by by rewrite revoke_all_app.
  assert (t ∉ q) as Htq.
  { apply list.NoDup_app in Hnd as (_ & Hd & _).
    intros Hin. apply (Hd t Hin). by left. }
  destruct (revoke_all_view q s t) as (Hstq & _ & Hcq & _).
  fold sq in Hstq, Hcq.
  destruct (revoke_node_resolves t c sq) as [Hev Hprom].
  { by rewrite Hcq. }
  { destruct (static_view _ _ _ Hstq) as (_ & _ & ->). done. }
  pose proof (resolving_revoke_all q s) as [_ Hrq]. fold sq in Hrq.
  split_and!.
  - by apply revoke_chain.
  - intros n Hn. by apply revoke_all_view; [|apply Hsome].
  - intros n Hn. by apply revoke_all_view.
  - intros n. apply revoke_all_view.
  - apply resolving_revoke_all.
  - by rewrite Et.
  - rewrite Et, Hprom. destruct (Hrq c) as [->|[_ ->]]; [by rewrite Hpc|done].
  - intros m. apply silent_revoke_all.
Qed.

(** ** Nodes the scheduler has let go of *)

Lemma newer_None N : newer N None.
Proof. by intros k. Qed.

Lemma newer_Some N k : N ≤ k → newer N (Some k).
Proof. by intros H j [= <-]. Qed.

Section detached.
Variables N P : nat.

Lemma trace_same s s' :
  trace s' = trace s →
  ∃ evs, trace s' = trace s ++ evs ∧ Forall (λ e, N ≤ node_of e) evs.
Proof. intros ->. exists []. by rewrite app_nil_r. Qed.

Lemma aside_refl s : detached N P s → aside N P s s.
Proof.
  intros D. split; [done|]. unfold kept.
  split_and!; [done|done|by apply trace_same].
Qed.

Lemma aside_trans s1 s2 s3 :
  aside N P s1 s2 → aside N P s2 s3 → aside N P s1 s3.
Proof.
  intros [_ (H1 & P1 & e1 & E1 & F1)] [D (H2 & P2 & e2 & E2 & F2)].
  split; [done|]. split_and!.
  - intros k Hk. by rewrite H2, H1.
  - intros c Hc. by rewrite P2, P1.
  - exists (e1 ++ e2). split; [by rewrite E2, E1, app_assoc|].
    by apply list.Forall_app.
Qed.

(** A step that leaves store and deferreds alone. *)
Lemma aside_same s s' :
  detached N P s → heap s' = heap s → promises s' = promises s →
  trace s' = trace s →
  newer N (_nextNode s') → newer N (_tailNode s') → aside N P s s'.
Proof.
  intros (Hl & Hp & _ & _ & Hr) Hh Hpr Htr Hn Ht. split.
  - unfold detached. rewrite Hh, Hpr. done.
  - split_and!; [intros; by rewrite Hh|intros; by rewrite Hpr|].
    by apply trace_same.
Qed.

(** An event about a younger node. *)
Lemma log_aside e s : detached N P s → N ≤ node_of e → aside N P s (log e s).
Proof.
  intros D He. split; [done|]. split_and!; [done|done|].
  exists [e]. split; [done|]. by constructor.
Qed.

(** An assignment to a field of a younger node. *)
Lemma aside_upd k f s :
  detached N P s → N ≤ k →
  (∀ nd, recent N P nd → recent N P (f nd)) →
  aside N P s (upd k f s).
Proof.
  intros (Hl & Hp & Hn & Ht & Hr) Hk Hf. split.
  - split_and!; try done.
    + simpl. by rewrite length_alter.
    + intros j nd Hj. simpl. destruct (decide (k = j)) as [->|Hne].
      * rewrite list_lookup_alter_eq. destruct (heap s !! j) as [nd0|] eqn:E; [|done].
        intros [= <-]. apply Hf. by apply (Hr j).
      * rewrite list_lookup_alter_ne by done. by apply Hr.
  - split_and!; [|done|by apply trace_same].
    intros j Hj. simpl. apply list_lookup_alter_ne. lia.
Qed.

(** A deferred younger than the [P]-th settles. *)
Lemma aside_settle v c s :
  detached N P s → P ≤ c →
  aside N P s (set_promises (alter (settle v) c (promises s)) s).
Proof.
  intros (Hl & Hp & Hn & Ht & Hr) Hc. split.
  - split_and!; try done. simpl. by rewrite length_alter.
  - split_and!; [done| |by apply trace_same].
    intros j Hj. simpl. apply list_lookup_alter_ne. lia.
Qed.

Lemma aside_deferred s :
  detached N P s → aside N P s (deferred s).2 ∧ P ≤ (deferred s).1.
Proof.
  intros (Hl & Hp & Hn & Ht & Hr). split; [split|done].
  - split_and!; try done. simpl. rewrite length_app. lia.
  - split_and!; [done| |by apply trace_same].
    intros j Hj. simpl. apply lookup_app_l. lia.
Qed.

Lemma aside_alloc nd s :
  detached N P s → recent N P nd →
  aside N P s (alloc nd s).2 ∧ N ≤ (alloc nd s).1.
Proof.
  intros (Hl & Hp & Hn & Ht & Hr) Hnd. split; [split|done].
  - split_and!; try done.
    + simpl. rewrite length_app. lia.
    + intros j nd' Hj. simpl. intros Hlk.
      apply lookup_app_Some in Hlk as [Hlk|[_ Hlk]]; [by apply (Hr j)|].
      apply list_lookup_singleton_Some in Hlk as [_ <-]. done.
  - split_and!; [|done|by apply trace_same].
    intros j Hj. simpl. apply lookup_app_l. lia.
Qed.

Lemma detached_links s n :
  detached N P s → N ≤ n →
  newer N (prevOf n s) ∧ newer N (nextOf n s) ∧ newer N (subOf n s) ∧
  newer P (chainOf n s) ∧ newer P (callbackOf n s).
Proof.
  intros (_ & _ & _ & _ & Hr) Hn.
  unfold prevOf, nextOf, subOf, chainOf, callbackOf.
  destruct (heap s !! n) as [nd|] eqn:E; [|by split_and!].
  by apply (Hr n).
Qed.

Ltac same D :=
  apply aside_same;
  [ exact D | done | done | done
  | first [done | apply newer_None | simpl; apply D]
  | first [done | apply newer_None | simpl; apply D] ].

Lemma recent_flags f :
  (∀ nd, links (f nd) = links nd ∧ static (f nd) = static nd) →
  ∀ nd, recent N P nd → recent N P (f nd).
Proof.
  intros Hf nd. destruct (Hf nd) as [Hl Hs]. unfold links, static in *.
  unfold recent. injection Hl as -> ->. injection Hs as _ _ _ -> -> ->. done.
Qed.

Lemma recent_set_next v nd :
  newer N v → recent N P nd → recent N P (Node.set_nextNode v nd).
Proof. intros Hv (?&?&?&?&?). by split_and!. Qed.

Lemma recent_set_prev v nd :
  newer N v → recent N P nd → recent N P (Node.set_prevNode v nd).
Proof. intros Hv (?&?&?&?&?). by split_and!. Qed.

Lemma recent_set_sub v nd :
  newer N v → recent N P nd → recent N P (Node.set_subNode v nd).
Proof. intros Hv (?&?&?&?&?). by split_and!. Qed.

Lemma recent_set_callback v nd :
  newer P v → recent N P nd → recent N P (Node.set_onCompleted v nd).
Proof. intros Hv (?&?&?&?&?). by split_and!. Qed.

Lemma clock_now_aside s : detached N P s → aside N P s (clock_now s).2.
Proof.
  intros D. unfold clock_now.
  destruct (AnimationClock._isPaused (_clock s)); simpl; same D.
Qed.

Lemma initializeAnimation_aside n s :
  detached N P s → N ≤ n → aside N P s (_initializeAnimation n s).
Proof.
  intros D Hn. unfold _initializeAnimation.
  pose proof (clock_now_aside s D) as H1.
  destruct (clock_now s) as [t s1]. simpl in H1.
  eapply aside_trans; [exact H1|].
  apply aside_upd; [apply H1|done|]. by apply recent_flags.
Qed.

Lemma applyAnimation_aside n nd p s :
  detached N P s → N ≤ n → aside N P s (_applyAnimation n nd p s).2.
Proof.
  intros D Hn. unfold _applyAnimation.
  destruct (Node.animator nd); [|by apply aside_refl].
  destruct (Node.timing nd) as [timing|]; cycle 1.
  { simpl. by apply log_aside. }
  cbv zeta. pose proof (log_aside (EvTiming n p) s D Hn) as H1.
  destruct (timing p); simpl; [|done].
  eapply aside_trans; [exact H1|]. apply log_aside; [apply H1|done].
Qed.

Lemma processAnimationFrame_aside ts n s :
  detached N P s → N ≤ n → aside N P s (_processAnimationFrame ts n s).2.
Proof.
  intros D Hn. unfold _processAnimationFrame.
  destruct (heap s !! n) as [nd|]; [|by apply aside_refl].
  pose proof (applyAnimation_aside n nd (_calculateProgress ts nd) s D Hn) as H.
  by destruct (_applyAnimation n nd (_calculateProgress ts nd) s) as [[] ?].
Qed.

Lemma handleError_aside e n s :
  detached N P s → N ≤ n → aside N P s (_handleError e n s).
Proof.
  intros D Hn. unfold _handleError. cbv zeta.
  assert (aside N P s (upd n (Node.set_error true) s)) as H1.
  { apply aside_upd; [done|done|]. by apply recent_flags. }
  destruct (detached_links _ n (proj1 H1) Hn) as (_ & _ & _ & Hc & _).
  unfold chainOf in Hc.
  destruct (heap (upd n (Node.set_error true) s) !! n ≫= Node._onError) as [c|];
    [|done].
  eapply aside_trans; [exact H1|]. unfold reject.
  assert (aside N P (upd n (Node.set_error true) s)
            (log (EvOnError n c e) (upd n (Node.set_error true) s))) as H2
    by (apply log_aside; [apply H1|done]).
  eapply aside_trans; [exact H2|].
  apply (aside_settle _ _ (log (EvOnError n c e) (upd n (Node.set_error true) s)));
    [apply H2|by apply Hc].
Qed.

Lemma tick_aside ts n s :
  detached N P s → N ≤ n → aside N P s (_tick ts n s).2.
Proof.
  intros D Hn. unfold _tick.
  destruct (heap s !! n) as [nd|]; [|by apply aside_refl].
  destruct (Node._completed nd || Node._error nd); [by apply aside_refl|].
  cbv zeta.
  assert (aside N P s (if Node._started nd then s else _initializeAnimation n s))
    as H1.
  { destruct (Node._started nd); [by apply aside_refl|].
    by apply initializeAnimation_aside. }
  set (s1 := if Node._started nd then s else _initializeAnimation n s) in *.
  pose proof (processAnimationFrame_aside ts n s1 (proj1 H1) Hn) as H2.
  destruct (_processAnimationFrame ts n s1) as [[b|e] s2]; simpl in *.
  - by eapply aside_trans.
  - eapply aside_trans; [exact H1|]. eapply aside_trans; [exact H2|].
    apply handleError_aside; [apply H2|done].
Qed.

Lemma fire_onCompleted_aside n s :
  detached N P s → N ≤ n → aside N P s (fire_onCompleted n s).
Proof.
  intros D Hn. unfold fire_onCompleted.
  destruct (detached_links _ n D Hn) as (_ & _ & _ & _ & Hc).
  unfold callbackOf in Hc.
  destruct (heap s !! n ≫= Node._onCompleted) as [c|]; [|by apply aside_refl].
  unfold resolve.
  assert (aside N P s (log (EvOnCompleted n c) s)) as H1 by by apply log_aside.
  eapply aside_trans; [exact H1|].
  apply (aside_settle _ _ (log (EvOnCompleted n c) s)); [apply H1|by apply Hc].
Qed.

Lemma set_nextNode_aside v s :
  detached N P s → newer N v → aside N P s (set_nextNode v s).
Proof. intros D Hv. same D. Qed.

Lemma set_tailNode_aside v s :
  detached N P s → newer N v → aside N P s (set_tailNode v s).
Proof. intros D Hv. same D. Qed.

Lemma upd_next_aside p v s :
  detached N P s → N ≤ p → newer N v →
  aside N P s (upd p (Node.set_nextNode v) s).
Proof. intros D Hp Hv. apply aside_upd; [done|done|]. intros nd. by apply recent_set_next. Qed.

Lemma upd_prev_aside p v s :
  detached N P s → N ≤ p → newer N v →
  aside N P s (upd p (Node.set_prevNode v) s).
Proof. intros D Hp Hv. apply aside_upd; [done|done|]. intros nd. by apply recent_set_prev. Qed.

Lemma unlink_aside n s :
  detached N P s → N ≤ n → aside N P s (unlink n s).
Proof.
  intros D Hn. unfold unlink. cbv zeta.
  destruct (detached_links _ n D Hn) as (Hp & Hx & _).
  assert (aside N P s
            match prevOf n s with
            | Some p => upd p (Node.set_nextNode (nextOf n s)) s
            | None => set_nextNode (nextOf n s) s
            end) as H1.
  { destruct (prevOf n s) as [p|] eqn:E.
    - apply upd_next_aside; [done|by apply Hp|done].
    - by apply set_nextNode_aside. }
  set (s1 := match prevOf n s with Some p => _ | None => _ end) in *.
  destruct (detached_links _ n (proj1 H1) Hn) as (Hp1 & Hx1 & _).
  assert (aside N P s1
            match nextOf n s1 with
            | Some q => upd q (Node.set_prevNode (prevOf n s1)) s1
            | None => s1
            end) as H2.
  { destruct (nextOf n s1) as [q|] eqn:E; [|apply aside_refl, H1].
    apply upd_prev_aside; [apply H1|by apply Hx1|done]. }
  set (s2 := match nextOf n s1 with Some q => _ | None => _ end) in *.
  destruct (detached_links _ n (proj1 H2) Hn) as (Hp2 & Hx2 & _).
  assert (aside N P s2
            (if bool_decide (_tailNode s2 = Some n)
             then set_tailNode (prevOf n s2) s2 else s2)) as H3.
  { case_bool_decide; [|apply aside_refl, H2].
    apply set_tailNode_aside; [apply H2|done]. }
  set (s3 := if bool_decide (_tailNode s2 = Some n) then _ else _) in *.
  destruct (detached_links _ n (proj1 H3) Hn) as (Hp3 & Hx3 & _).
  eapply aside_trans; [exact H1|]. eapply aside_trans; [exact H2|].
  eapply aside_trans; [exact H3|].
  case_bool_decide; [|apply aside_refl, H3].
  apply set_nextNode_aside; [apply H3|done].
Qed.

Lemma splice_aside n m s :
  detached N P s → N ≤ n → N ≤ m → aside N P s (splice n m s).
Proof.
  intros D Hn Hm. unfold splice. cbv zeta.
  destruct (detached_links _ n D Hn) as (Hp & Hx & _).
  assert (aside N P s (upd m (Node.set_prevNode (prevOf n s)) s)) as H1
    by by apply upd_prev_aside.
  set (s1 := upd m (Node.set_prevNode (prevOf n s)) s) in *.
  destruct (detached_links _ n (proj1 H1) Hn) as (Hp1 & Hx1 & _).
  assert (aside N P s1 (upd m (Node.set_nextNode (nextOf n s1)) s1)) as H2
    by (apply upd_next_aside; [apply H1|done|done]).
  set (s2 := upd m (Node.set_nextNode (nextOf n s1)) s1) in *.
  assert (aside N P s2 (_updateTimelineReferences n m s2)) as H3.
  { unfold _updateTimelineReferences. cbv zeta.
    assert (aside N P s2 (if bool_decide (_tailNode s2 = Some n)
                          then set_tailNode (Some m) s2 else s2)) as H.
    { case_bool_decide; [|apply aside_refl, H2].
      apply set_tailNode_aside; [apply H2|by apply newer_Some]. }
    set (s2' := if bool_decide (_tailNode s2 = Some n) then _ else _) in *.
    eapply aside_trans; [exact H|].
    case_bool_decide; [|apply aside_refl, H].
    apply set_nextNode_aside; [apply H|by apply newer_Some]. }
  set (s3 := _updateTimelineReferences n m s2) in *.
  eapply aside_trans; [exact H1|]. eapply aside_trans; [exact H2|].
  eapply aside_trans; [exact H3|].
  unfold _updateNodeLinks. cbv zeta.
  destruct (detached_links _ n (proj1 H3) Hn) as (Hp3 & Hx3 & _).
  assert (aside N P s3 match prevOf n s3 with
                       | Some p => upd p (Node.set_nextNode (Some m)) s3
                       | None => s3
                       end) as H4.
  { destruct (prevOf n s3) as [p|] eqn:E; [|apply aside_refl, H3].
    apply upd_next_aside; [apply H3|by apply Hp3|by apply newer_Some]. }
  set (s4 := match prevOf n s3 with Some p => _ | None => _ end) in *.
  eapply aside_trans; [exact H4|].
  destruct (detached_links _ n (proj1 H4) Hn) as (Hp4 & Hx4 & _).
  destruct (nextOf n s4) as [q|] eqn:E; [|apply aside_refl, H4].
  apply upd_prev_aside; [apply H4|by apply Hx4|by apply newer_Some].
Qed.

Lemma complete_aside n s :
  detached N P s → N ≤ n → aside N P s (_complete n s).
Proof.
  intros D Hn. unfold _complete.
  destruct (heap s !! n) as [nd|] eqn:E; [|by apply aside_refl].
  destruct (Node._completed nd); [by apply aside_refl|]. cbv zeta.
  assert (aside N P s (upd n (Node.set_completed true) s)) as H1.
  { apply aside_upd; [done|done|]. by apply recent_flags. }
  set (s1 := upd n (Node.set_completed true) s) in *.
  eapply aside_trans; [exact H1|].
  assert (aside N P s1 (_remove n s1)) as Hrem.
  { rewrite remove_unlink.
    pose proof (unlink_aside n s1 (proj1 H1) Hn) as H2.
    eapply aside_trans; [exact H2|].
    apply fire_onCompleted_aside; [apply H2|done]. }
  destruct (Node._subNode nd) as [m|] eqn:Es; [|done].
  destruct (negb (Node._error nd)); [|done].
  assert (N ≤ m) as Hm.
  { destruct D as (_ & _ & _ & _ & Hr).
    destruct (Hr n nd Hn E) as (_ & _ & Hs & _). by apply Hs. }
  rewrite replace_splice.
  pose proof (splice_aside n m s1 (proj1 H1) Hn Hm) as H2.
  eapply aside_trans; [exact H2|].
  apply fire_onCompleted_aside; [apply H2|done].
Qed.

Lemma revoke_node_aside n s :
  detached N P s → N ≤ n → aside N P s (revoke_node n s).
Proof.
  intros D Hn. unfold revoke_node.
  destruct (heap s !! n) as [nd|] eqn:E; [|by apply aside_refl].
  destruct (Node._completed nd); [by apply aside_refl|].
  assert (aside N P s (upd n (Node.set_completed true) s)) as H1.
  { apply aside_upd; [done|done|]. by apply recent_flags. }
  eapply aside_trans; [exact H1|]. rewrite remove_unlink.
  pose proof (unlink_aside n _ (proj1 H1) Hn) as H2.
  eapply aside_trans; [exact H2|].
  apply fire_onCompleted_aside; [apply H2|done].
Qed.

Lemma revokeSubNodes_loop_aside fuel cur s s' :
  detached N P s → newer N cur →
  _revokeSubNodes_loop fuel cur s = Some s' → aside N P s s'.
Proof.
  revert cur s. induction fuel as [|fuel IH]; intros cur s D Hc.
  { destruct cur; [done|]. intros [= <-]. by apply aside_refl. }
  destruct cur as [x|]; cycle 1.
  { intros [= <-]. by apply aside_refl. }
  simpl. assert (N ≤ x) as Hx by by apply Hc.
  pose proof (revoke_node_aside x s D Hx) as H1. intros Hr.
  eapply aside_trans; [exact H1|].
  refine (IH _ _ (proj1 H1) _ Hr).
  by destruct (detached_links _ x (proj1 H1) Hx) as (_ & _ & Hs & _).
Qed.

Lemma revoke_aside fuel n s s' :
  detached N P s → N ≤ n → revoke fuel n s = Some s' → aside N P s s'.
Proof.
  intros D Hn. unfold revoke, _revokeSubNodes.
  pose proof (revoke_node_aside n s D Hn) as H1. intros Hr.
  eapply aside_trans; [exact H1|].
  refine (revokeSubNodes_loop_aside _ _ _ _ (proj1 H1) _ Hr).
  by destruct (detached_links _ n (proj1 H1) Hn) as (_ & _ & Hs & _).
Qed.

Lemma processNodes_loop_aside fuel ts cur dn s r :
  detached N P s → newer N cur → Forall (λ n, N ≤ n) dn →
  _processNodes_loop fuel ts cur dn s = Some r →
  aside N P s r.2 ∧ Forall (λ n, N ≤ n) r.1.
Proof.
  revert cur dn s. induction fuel as [|fuel IH]; intros cur dn s D Hc Hdn.
  { destruct cur; [done|]. intros [= <-]. split; [by apply aside_refl|done]. }
  destruct cur as [x|]; cycle 1.
  { intros [= <-]. split; [by apply aside_refl|done]. }
  simpl. assert (N ≤ x) as Hx by by apply Hc.
  pose proof (log_aside (EvTick x ts) s D Hx) as H0.
  pose proof (tick_aside ts x _ (proj1 H0) Hx) as H1.
  destruct (_tick ts x (log (EvTick x ts) s)) as [b s1]. simpl in H1.
  intros Hr.
  assert (newer N (nextOf x s1)) as Hnx
    by by destruct (detached_links _ x (proj1 H1) Hx) as (_ & ? & _).
  assert (Forall (λ n, N ≤ n) (if b then Set_add x dn else dn)) as Hdn'.
  { destruct b; [|done]. unfold Set_add. case_bool_decide; [done|].
    apply list.Forall_app. split; [done|by constructor]. }
  destruct (IH _ _ _ (proj1 H1) Hnx Hdn' Hr) as [H2 Hf].
  split; [|done]. eapply aside_trans; [exact H0|]. by eapply aside_trans.
Qed.

Lemma completeNodes_aside dn s :
  detached N P s → Forall (λ n, N ≤ n) dn → aside N P s (_completeNodes dn s).
Proof.
  revert s. induction dn as [|n dn IH]; intros s D Hdn; [by apply aside_refl|].
  rewrite completeNodes_cons. apply list.Forall_cons in Hdn as [Hn Hdn].
  pose proof (log_aside (EvComplete n) s D Hn) as H0.
  pose proof (complete_aside n _ (proj1 H0) Hn) as H1.
  eapply aside_trans; [exact H0|]. eapply aside_trans; [exact H1|].
  apply IH; [apply H1|done].
Qed.

Lemma poll_aside fuel s r :
  detached N P s → _poll fuel s = Some r → aside N P s r.2.
Proof.
  intros D. unfold _poll.
  destruct (paused s || bool_decide (_nextNode s = None)).
  { intros [= <-]. by apply aside_refl. }
  pose proof (clock_now_aside s D) as H0.
  destruct (clock_now s) as [now s0]. simpl in H0.
  unfold _processNodes.
  destruct (_processNodes_loop fuel now (_nextNode s0) [] s0) as [[dn s1]|] eqn:E1;
    [|done].
  assert (newer N (_nextNode s0)) as Hhd by apply H0.
  destruct (processNodes_loop_aside _ _ _ _ _ _ (proj1 H0) Hhd
              (Forall_nil_2 _) E1) as [H1 Hdn].
  simpl in H1, Hdn. simpl.
  set (s2 := match dn with [] => s1 | _ => _completeNodes dn s1 end).
  assert (aside N P s1 s2) as H2.
  { unfold s2. destruct dn; [apply aside_refl, H1|].
    apply completeNodes_aside; [apply H1|done]. }
  intros [= <-]. simpl.
  eapply aside_trans; [exact H0|]. eapply aside_trans; [exact H1|].
  eapply aside_trans; [exact H2|].
  destruct (negb (bool_decide (_nextNode s2 ≠ None))); [|apply aside_refl, H2].
  same (proj1 H2).
Qed.

Lemma reset_aside s : detached N P s → aside N P s (reset s).
Proof.
  intros D. destruct (reset_heap s) as (Hh & Hn & Ht & Htr & Hp).
  apply aside_same; [done|done|done|done| |]; rewrite ?Hn, ?Ht; apply newer_None.
Qed.

Lemma start_aside s : detached N P s → aside N P s (start s).
Proof.
  intros D. destruct (start_heap s) as (Hh & Hn & Ht & Htr & Hp).
  apply aside_same; [done|done|done|done| |]; rewrite ?Hn, ?Ht; apply D.
Qed.

Lemma pause_aside s : detached N P s → aside N P s (pause s).
Proof.
  intros D. destruct (pause_heap s) as (Hh & Hn & Ht & Htr & Hp).
  apply aside_same; [done|done|done|done| |]; rewrite ?Hn, ?Ht; apply D.
Qed.

Lemma resume_aside s : detached N P s → aside N P s (resume s).
Proof.
  intros D. destruct (resume_heap s) as (Hh & Hn & Ht & Htr & Hp).
  apply aside_same; [done|done|done|done| |]; rewrite ?Hn, ?Ht; apply D.
Qed.

Lemma loop_aside fuel s s' :
  detached N P s → loop fuel s = Some s' → aside N P s s'.
Proof.
  intros D. unfold loop.
  destruct (_poll fuel s) as [[more s1]|] eqn:E; [|done].
  pose proof (poll_aside _ _ _ D E) as H1. simpl in *.
  destruct more; intros [= <-].
  - eapply aside_trans; [exact H1|]. same (proj1 H1).
  - eapply aside_trans; [exact H1|]. unfold _cleanup.
    assert (aside N P s1 (set_timer None s1)) as H2 by same (proj1 H1).
    eapply aside_trans; [exact H2|]. apply reset_aside, H2.
Qed.

Lemma frame_aside fuel s s' :
  detached N P s → frame fuel s = Some s' → aside N P s s'.
Proof.
  unfold frame. intros D.
  assert (aside N P s (set_raf (raf_next s) [] s)) as H0 by same D.
  revert H0. generalize (set_raf (raf_next s) [] s) as s0.
  generalize (raf_pending s) as ids.
  induction ids as [|id ids IH]; intros s0 H0; simpl.
  { by intros [= <-]. }
  destruct (loop fuel s0) as [s1|] eqn:E; cycle 1.
  { simpl. intros H. exfalso. clear -H.
    induction ids as [|? ids IH]; [done|]. by apply IH. }
  simpl. pose proof (loop_aside _ _ _ (proj1 H0) E) as H1.
  apply IH. by eapply aside_trans.
Qed.

Lemma recent_new d a f c prev :
  newer P (Some c) → newer N prev →
  recent N P (Node.new d a f (Some c) prev).
Proof. intros Hc Hp. split_and!; try done; apply newer_None. Qed.

Lemma linkChildNodes_aside inits : ∀ cur d s,
  detached N P s → N ≤ cur → P ≤ d →
  aside N P s (linkChildNodes cur inits d s).2 ∧
  N ≤ (linkChildNodes cur inits d s).1.
Proof.
  induction inits as [|init inits IH]; intros cur d s D Hc Hd.
  { split; [by apply aside_refl|done]. }
  simpl. set (nd := Node.new _ _ _ _ _).
  destruct (aside_alloc nd s D) as [H1 Hn].
  { apply recent_new; [by apply newer_Some|apply newer_None]. }
  simpl in H1, Hn.
  assert (aside N P (set_heap (heap s ++ [nd]) s)
            (upd cur (Node.set_subNode (Some (length (heap s))))
               (set_heap (heap s ++ [nd]) s))) as H2.
  { apply aside_upd; [apply H1|done|].
    intros nd'. apply recent_set_sub. by apply newer_Some. }
  destruct (IH (length (heap s)) d _ (proj1 H2) Hn Hd) as [H3 Hl].
  split; [|done]. eapply aside_trans; [exact H1|]. by eapply aside_trans.
Qed.

Lemma enqueue_aside inits s h s' :
  detached N P s → enqueue inits s = Some (h, s') → aside N P s s'.
Proof.
  intros D. unfold enqueue.
  destruct (_normalizeAnimationInitials inits) as [|first rest]; [done|].
  destruct (aside_deferred s D) as [H1 Hd].
  destruct (deferred s) as [d s1]. simpl in H1, Hd.
  unfold _createRootNode.
  set (nd := Node.new _ _ _ _ _).
  destruct (aside_alloc nd s1 (proj1 H1)) as [H2 Hroot].
  { apply recent_new; [by apply newer_Some|apply H1]. }
  destruct (alloc nd s1) as [root s2]. simpl in H2, Hroot.
  assert (aside N P s2 (_linkRootNode root s2)) as H3.
  { unfold _linkRootNode. cbv zeta.
    assert (aside N P s2 match _nextNode s2 with
                         | None => set_nextNode (Some root) s2
                         | Some _ => s2
                         end) as Ha.
    { destruct (_nextNode s2); [apply aside_refl, H2|].
      apply set_nextNode_aside; [apply H2|by apply newer_Some]. }
    set (sa := match _nextNode s2 with None => _ | Some _ => s2 end) in *.
    assert (aside N P sa match _tailNode sa with
                         | Some t => upd t (Node.set_nextNode (Some root)) sa
                         | None => sa
                         end) as Hb.
    { destruct (_tailNode sa) as [t|] eqn:Et; [|apply aside_refl, Ha].
      apply upd_next_aside; [apply Ha| |by apply newer_Some].
      destruct Ha as [(_ & _ & _ & Ht & _) _]. by apply Ht. }
    set (sb := match _tailNode sa with Some t => _ | None => sa end) in *.
    eapply aside_trans; [exact Ha|]. eapply aside_trans; [exact Hb|].
    apply set_tailNode_aside; [apply Hb|by apply newer_Some]. }
  set (s3 := _linkRootNode root s2) in *.
  unfold _createAndLinkChildNodes.
  destruct (linkChildNodes_aside rest root d s3 (proj1 H3) Hroot Hd) as [H4 Hcur].
  destruct (linkChildNodes root rest d s3) as [cur s4]. simpl in H4, Hcur.
  assert (aside N P s4 (upd cur (Node.set_onCompleted (Some d)) s4)) as H5.
  { apply aside_upd; [apply H4|done|].
    intros nd'. apply recent_set_callback. by apply newer_Some. }
  set (s5 := upd cur (Node.set_onCompleted (Some d)) s4) in *.
  assert (aside N P s s5) as H.
  { eapply aside_trans; [exact H1|]. eapply aside_trans; [exact H2|].
    eapply aside_trans; [exact H3|]. by eapply aside_trans. }
  assert (∀ b : bool, aside N P s (if b then start s5 else s5)) as Hb.
  { intros []; [|exact H]. eapply aside_trans; [exact H|]. apply start_aside, H. }
  intros [= _ <-]. apply Hb.
Qed.

Lemma step_aside fuel o s s' :
  detached N P s → spares N o → step fuel o s = Some s' → aside N P s s'.
Proof.
  intros D Ho. destruct o; simpl.
  - destruct (enqueue inits s) as [[h s1]|] eqn:E; intros [= <-].
    + by eapply enqueue_aside.
    + by apply aside_refl.
  - by apply frame_aside.
  - intros [= <-]. by apply start_aside.
  - intros [= <-]. by apply pause_aside.
  - intros [= <-]. by apply resume_aside.
  - intros [= <-]. by apply reset_aside.
  - by apply revoke_aside.
Qed.

Lemma run_aside fuel ops s s' :
  detached N P s → Forall (spares N) ops → run fuel ops s = Some s' →
  aside N P s s'.
Proof.
  revert s. induction ops as [|o ops IH]; intros s D Ho; simpl.
  { intros [= <-]. by apply aside_refl. }
  apply list.Forall_cons in Ho as [Ho Hops].
  destruct (step fuel o s) as [s1|] eqn:E; [|done]. simpl.
  pose proof (step_aside _ _ _ _ D Ho E) as H1. intros Hr.
  eapply aside_trans; [exact H1|]. by apply IH; [apply H1|..].
Qed.

End detached.

(** After [reset] the scheduler has let go of every node and deferred. *)
Lemma reset_detached s :
  detached (length (heap s)) (length (promises s)) (reset s).
Proof.
  destruct (reset_heap s) as (Hh & Hn & Ht & _ & Hp).
  unfold detached. rewrite Hh, Hn, Ht, Hp. split_and!; try done.
  intros k nd Hk Hlk. apply lookup_lt_Some in Hlk. lia.
Qed.

(** ** The states a scheduler reaches *)

Lemma tick_promises_length ts n s :
  length (promises (_tick ts n s).2) = length (promises s).
Proof.
  destruct (heap s !! n) as [nd|] eqn:Hy; cycle 1.
  { unfold _tick. by rewrite Hy. }
  destruct (Node._completed nd || Node._error nd) eqn:Hd.
  { by rewrite (tick_done _ _ nd). }
  destruct (callbacks nd (rawProgress ts nd s)) as [u|e] eqn:Hcb.
  - rewrite (tick_unfold ts n nd s Hy Hd). cbv zeta. rewrite Hcb. simpl.
    destruct (latched_scalars n nd s) as (_ & Hq & _). by rewrite Hq.
  - destruct (tick_throws ts n nd s e Hy Hd Hcb) as (_ & _ & _ & Hq).
    rewrite Hq. destruct (Node._onError nd); [|done]. by rewrite length_alter.
Qed.

Lemma tick_all_lengths ts l dn s :
  length (heap (tick_all ts l dn s).2) = length (heap s) ∧
  length (promises (tick_all ts l dn s).2) = length (promises s).
Proof.
  revert dn s. induction l as [|x l IH]; intros dn s; [done|].
  simpl. pose proof (tick_scalars ts x (log (EvTick x ts) s)) as [_ Hh].
  pose proof (tick_promises_length ts x (log (EvTick x ts) s)) as Hp.
  destruct (_tick ts x (log (EvTick x ts) s)) as [b s1]. simpl in *.
  destruct (IH (if b then Set_add x dn else dn) s1) as [-> ->]. done.
Qed.

Lemma complete_lengths n s :
  length (heap (_complete n s)) = length (heap s) ∧
  length (promises (_complete n s)) = length (promises s).
Proof.
  split; [apply steady_complete|].
  destruct (heap s !! n) as [nd|] eqn:Hn; cycle 1.
  { unfold _complete. by rewrite Hn. }
  destruct (Node._completed nd) eqn:Hc.
  { by rewrite (complete_done _ _ _ Hn Hc). }
  destruct (complete_calls n nd s Hn Hc) as [_ ->].
  destruct (Node._onCompleted nd); [|done]. by rewrite length_alter.
Qed.

Lemma completeNodes_lengths dn s :
  length (heap (_completeNodes dn s)) = length (heap s) ∧
  length (promises (_completeNodes dn s)) = length (promises s).
Proof.
  revert s. induction dn as [|n dn IH]; intros s; [done|].
  rewrite completeNodes_cons.
  destruct (IH (_complete n (log (EvComplete n) s))) as [-> ->].
  apply (complete_lengths n (log (EvComplete n) s)).
Qed.

Lemma bounded_ext s s' :
  heap s' = heap s → length (promises s') = length (promises s) →
  _nextNode s' = _nextNode s ∨ _nextNode s' = None →
  _tailNode s' = _tailNode s ∨ _tailNode s' = None →
  bounded s → bounded s'.
Proof.
  intros Hh Hp Hn Ht (Hu & Hs & Hc). split_and!.
  - intros m Hm. rewrite Hh in Hm. destruct (Hu m Hm) as (Hhd & Htl & Hz).
    split_and!.
    + destruct Hn as [->| ->]; done.
    + destruct Ht as [->| ->]; done.
    + intros z. unfold prevOf, nextOf. rewrite Hh. apply Hz.
  - intros k m. unfold subOf. rewrite Hh. apply Hs.
  - intros k c. unfold chainOf. rewrite Hh, Hp. apply Hc.
Qed.

(** A sweep keeps the references within the store. *)
Lemma loop_bounded s l fuel s' :
  well_formed s l → bounded s → paused s = false → length l < fuel →
  loop fuel s = Some s' →
  bounded s' ∧ length (heap s') = length (heap s).
Proof.
  intros W (Hu & Hs & Hc) Hp Hf Hloop.
  destruct (loop_well_formed s l fuel W Hp Hf)
    as (s'' & l' & Hloop' & _ & _ & Hh & _ & Hpr & Hn & Ht & _).
  rewrite Hloop in Hloop'. injection Hloop' as <-.
  set (now := AnimationClock.now (perf s (perf_reads s)) (_clock s)) in *.
  set (s0 := match l with [] => s | _ => (clock_now s).2 end) in *.
  assert (heap s0 = heap s ∧ promises s0 = promises s ∧
          _nextNode s0 = _nextNode s ∧ _tailNode s0 = _tailNode s)
    as (H0 & H0p & H0n & H0t).
  { unfold s0. destruct l; [done|].
    by destruct (clock_now_view s Hp) as (? & ? & ? & _ & ?). }
  set (r := tick_all now l [] s0) in *.
  set (s2 := _completeNodes r.1 r.2) in *.
  destruct (tick_all_view now l [] s0) as (Hv1 & _ & Hn1 & Ht1).
  destruct (tick_all_lengths now l [] s0) as [Hl1 Hlp1].
  destruct (completeNodes_view r.1 r.2) as (Hv2 & _).
  destruct (completeNodes_lengths r.1 r.2) as [Hl2 Hlp2].
  fold r in Hv1, Hn1, Ht1, Hl1, Hlp1. fold s2 in Hv2, Hl2, Hlp2.
  assert (length (heap s') = length (heap s)) as Hlen.
  { by rewrite Hh, Hl2, Hl1, H0. }
  assert (∀ k, subOf k s' = subOf k s ∧ chainOf k s' = chainOf k s) as Hst.
  { intros k. destruct (Hv1 k) as (E1 & E2 & _). destruct (Hv2 k) as (E3 & E4 & _).
    unfold subOf, chainOf in *. rewrite Hh, E3, E4, E1, E2, H0. done. }
  split; [|done]. split_and!.
  - intros m Hm. rewrite Hlen in Hm.
    apply (unreferenced_view s2).
    { intros k. unfold prevOf, nextOf. by rewrite Hh. }
    { done. } { done. }
    apply completeNodes_unreferenced.
    + intros n _ _ _ Hsn. destruct (Hv1 n) as (E1 & _). rewrite E1 in Hsn.
      unfold subOf in Hsn. rewrite H0 in Hsn. apply Hs in Hsn. lia.
    + apply (unreferenced_view s0).
      { intros k. destruct (Hv1 k) as (_ & _ & _ & -> & -> & _). done. }
      { done. } { done. }
      apply (unreferenced_view s); [|done|done|by apply Hu].
      intros k. unfold prevOf, nextOf. by rewrite H0.
  - intros k m. destruct (Hst k) as [-> _]. rewrite Hlen. apply Hs.
  - intros k c. destruct (Hst k) as [_ ->].
    rewrite Hpr, Hlp2, Hlp1, H0p. apply Hc.
Qed.

(** A tick settles a deferred only by throwing. *)
Lemma tick_promise_cases ts x s c :
  promises (_tick ts x s).2 !! c = promises s !! c ∨
  (chainOf x s = Some c ∧ (_tick ts x s).1 = true ∧
   error x (_tick ts x s).2 = Some true).
Proof.
  destruct (heap s !! x) as [nd|] eqn:Hy; cycle 1.
  { left. unfold _tick. by rewrite Hy. }
  destruct (Node._completed nd || Node._error nd) eqn:Hd.
  { left. by rewrite (tick_done _ _ nd). }
  destruct (callbacks nd (rawProgress ts nd s)) as [u|e] eqn:Hcb.
  - left. rewrite (tick_unfold ts x nd s Hy Hd). cbv zeta. rewrite Hcb. simpl.
    destruct (latched_scalars x nd s) as (_ & Hq & _). by rewrite Hq.
  - destruct (tick_throws ts x nd s e Hy Hd Hcb) as (Hb & He & _ & Hq).
    unfold chainOf. rewrite Hy. simpl.
    destruct (Node._onError nd) as [c'|]; [|left; by rewrite Hq].
    destruct (decide (c' = c)) as [->|Hne]; [by right|].
    left. rewrite Hq. by apply list_lookup_alter_ne.
Qed.

Lemma tick_all_promise_cases ts l dn s c :
  NoDup l →
  promises (tick_all ts l dn s).2 !! c = promises s !! c ∨
  ∃ z, z ∈ l ∧ chainOf z s = Some c ∧ z ∈ (tick_all ts l dn s).1 ∧
       error z (tick_all ts l dn s).2 = Some true.
Proof.
  revert dn s. induction l as [|x l IH]; intros dn s Hnd; [by left|].
  apply list.NoDup_cons in Hnd as [Hx Hnd]. simpl.
  pose proof (tick_promise_cases ts x (log (EvTick x ts) s) c) as Hc.
  pose proof (tick_view ts x (log (EvTick x ts) s)) as (Hv & _).
  destruct (_tick ts x (log (EvTick x ts) s)) as [b s1]. simpl in Hc, Hv.
  destruct Hc as [Hc|(Hch & -> & He)].
  - destruct (IH (if b then Set_add x dn else dn) s1 Hnd)
      as [E|(z & Hz & Hcz & Hin & Hez)].
    + left. by rewrite E, Hc.
    + right. exists z. split_and!; [by right| |done|done].
      rewrite <- Hcz. by destruct (Hv z) as (_ & -> & _).
  - right. exists x. split_and!; [by left|done| |].
    + apply tick_all_mono. apply Set_add_elem. by left.
    + unfold error.
      destruct (tick_all_view ts l (Set_add x dn) s1) as (_ & Ho & _).
      by rewrite Ho.
Qed.

(** [_complete] settles a deferred only through a completion callback. *)
Lemma complete_promise_cases n s c :
  promises (_complete n s) !! c = promises s !! c ∨ callbackOf n s = Some c.
Proof.
  destruct (heap s !! n) as [nd|] eqn:Hn; cycle 1.
  { left. unfold _complete. by rewrite Hn. }
  destruct (Node._completed nd) eqn:Hc.
  { left. by rewrite (complete_done _ _ _ Hn Hc). }
  destruct (complete_calls n nd s Hn Hc) as [_ ->].
  unfold callbackOf. rewrite Hn. simpl.
  destruct (Node._onCompleted nd) as [c'|]; [|by left].
  destruct (decide (c' = c)) as [->|Hne]; [by right|].
  left. by apply list_lookup_alter_ne.
Qed.

Lemma completeNodes_promise_cases dn s c :
  promises (_completeNodes dn s) !! c = promises s !! c ∨
  ∃ n, n ∈ dn ∧ callbackOf n s = Some c.
Proof.
  revert s. induction dn as [|n dn IH]; intros s; [by left|].
  rewrite completeNodes_cons.
  destruct (complete_view n (log (EvComplete n) s)) as (Hv & _).
  destruct (complete_promise_cases n (log (EvComplete n) s) c) as [E|E].
  - destruct (IH (_complete n (log (EvComplete n) s))) as [E'|(k & Hk & Hc)].
    + left. by rewrite E', E.
    + right. exists k. split; [by right|].
      rewrite <- Hc. by destruct (Hv k) as (_ & _ & -> & _).
  - right. exists n. split; [by left|done].
Qed.

(** After a sweep the deferred of a chain on the list is pending, unless
    the node of the chain erred or was its last phase and is among the
    nodes completed. *)
Lemma sweep_pending s l c x :
  well_formed s l → terminal_only s → pending_on s l → paused s = false →
  x ∈ l → chainOf x s = Some c →
  let now := AnimationClock.now (perf s (perf_reads s)) (_clock s) in
  let s0 := match l with [] => s | _ => (clock_now s).2 end in
  let r := tick_all now l [] s0 in
  promises (_completeNodes r.1 r.2) !! c = Some Pending ∨
  (x ∈ r.1 ∧ (error x r.2 = Some true ∨ subOf x s = None)).
Proof.
  intros W Hterm Hpend Hp Hx Hcx now s0 r.
  assert (heap s0 = heap s ∧ promises s0 = promises s ∧
          _nextNode s0 = _nextNode s ∧ _tailNode s0 = _tailNode s)
    as (H0 & H0p & H0n & H0t).
  { unfold s0. destruct l; [done|].
    by destruct (clock_now_view s Hp) as (? & ? & ? & _ & ?). }
  assert (sweeping s0 l []) as W0 by by apply (sweeping_ext s).
  pose proof (tick_all_sweeping now l l [] s0 (λ x H, H) W0) as W1.
  fold r in W1.
  destruct W as ((Hnd & _) & (_ & _ & Hcb) & Huniq & _).
  destruct (tick_all_view now l [] s0) as (Hv & _). fold r in Hv.
  assert (∀ k, chainOf k r.2 = chainOf k s ∧ callbackOf k r.2 = callbackOf k s)
    as Hst.
  { intros k. destruct (Hv k) as (_ & -> & -> & _).
    unfold chainOf, callbackOf. by rewrite H0. }
  destruct (tick_all_promise_cases now l [] s0 c Hnd) as [E|(z & Hz & Hcz & Hin & Hez)].
  - fold r in E.
    destruct (completeNodes_promise_cases r.1 r.2 c) as [E'|(n & Hn & Hc)].
    + left. rewrite E', E, H0p. by apply (Hpend x).
    + right. destruct (Hst n) as [_ Ec]. rewrite Ec in Hc.
      assert (n ∈ l) as Hnl by by apply W1.
      assert (n = x) as ->.
      { apply Huniq; [done|done|]. rewrite Hcx. by apply Hcb. }
      split; [done|]. right. by apply (Hterm x c).
  - right. fold r in Hin, Hez.
    assert (z = x) as ->.
    { apply Huniq; [done|done|]. rewrite Hcx, <- Hcz.
      unfold chainOf. by rewrite H0. }
    split; [done|by left].
Qed.

(** What a sweep does to the subscription. *)
Lemma loop_driver s l fuel s' :
  paused s = false → active s l → length l < fuel → loop fuel s = Some s' →
  (_timer s' = None ∧ raf_pending s' = raf_pending s ∧
   raf_next s' = raf_next s) ∨
  (_timer s' = Some (raf_next s) ∧
   raf_pending s' = raf_pending s ++ [raf_next s] ∧
   raf_next s' = S (raf_next s)).
Proof.
  intros Hp Ha Hf Hloop.
  destruct (sweep_spec s l fuel Hp Ha Hf) as (dn & s1 & evT & evC & Hs).
  cbv zeta in Hs. destruct Hs as (Ht & _ & _ & _ & _ & _ & _ & _ & Hl).
  set (s0 := match l with [] => s | _ => (clock_now s).2 end) in *.
  assert (raf_next s0 = raf_next s ∧ raf_pending s0 = raf_pending s) as [E0 E0'].
  { unfold s0. destruct l; [done|]. unfold clock_now, paused, AnimationClock.isPaused in *.
    by rewrite Hp. }
  pose proof (tick_all_scalars (AnimationClock.now (perf s (perf_reads s)) (_clock s))
                l [] s0) as (_ & _ & _ & _ & _ & E1 & E1' & _).
  rewrite Ht in E1, E1'. simpl in E1, E1'.
  destruct (completeNodes_scalars dn s1) as (_ & _ & _ & E2 & E2' & _).
  destruct (_nextNode (_completeNodes dn s1)).
  - rewrite Hloop in Hl. injection Hl as ->. right. simpl.
    rewrite E2, E2', E1, E1', E0, E0'. done.
  - destruct Hl as (Hl & Htm & Hpd & _). rewrite Hloop in Hl. injection Hl as ->.
    left. split_and!; [done|done|].
    destruct (cleanup_spec (_completeNodes dn s1)) as (_ & _ & _ & _ & _ & -> & _).
    by rewrite E2, E1, E0.
Qed.

(** *** What [enqueue] builds *)

Lemma linkChildNodes_spec inits : ∀ cur d s,
  cur < length (heap s) →
  let r := linkChildNodes cur inits d s in
  let N := length (heap s) in
  r.1 = match inits with [] => cur | _ => N + length inits - 1 end ∧
  length (heap r.2) = N + length inits ∧
  (∀ k, k < N → k ≠ cur → heap r.2 !! k = heap s !! k) ∧
  heap r.2 !! cur
  = match inits with [] => id | _ => Node.set_subNode (Some N) end
      <$> heap s !! cur ∧
  (∀ i, i < length inits →
     ∃ nd, heap r.2 !! (N + i) = Some nd ∧
       chain_node d None
         (if decide (S i < length inits) then Some (N + S i) else None) None nd) ∧
  promises r.2 = promises s ∧ _nextNode r.2 = _nextNode s ∧
  _tailNode r.2 = _tailNode s ∧ _timer r.2 = _timer s ∧
  _clock r.2 = _clock s ∧ _isPolling r.2 = _isPolling s ∧
  raf_next r.2 = raf_next s ∧ raf_pending r.2 = raf_pending s ∧
  trace r.2 = trace s.
Proof.
  induction inits as [|init inits IH]; intros cur d s Hcur.
  { simpl. split_and!; try done; try lia.
    by destruct (heap s !! cur). }
  cbn [linkChildNodes alloc]. cbv zeta.
  set (N := length (heap s)).
  set (child := Node.new _ _ _ _ _).
  set (s1 := upd cur (Node.set_subNode (Some N)) (set_heap (heap s ++ [child]) s)).
  assert (length (heap s1) = S N) as Hl1.
  { unfold s1. simpl. rewrite length_alter, length_app. simpl. fold N. lia. }
  assert (∀ k, k < N → k ≠ cur → heap s1 !! k = heap s !! k) as Ho1.
  { intros k Hk Hne. unfold s1. simpl.
    rewrite list_lookup_alter_ne by done. by apply lookup_app_l. }
  assert (heap s1 !! cur = Node.set_subNode (Some N) <$> heap s !! cur) as Hc1.
  { unfold s1. simpl. rewrite list_lookup_alter_eq. by rewrite lookup_app_l. }
  assert (heap s1 !! N = Some child) as Hn1.
  { unfold s1. simpl. rewrite list_lookup_alter_ne by (fold N in Hcur; lia).
    rewrite lookup_app_r by (fold N; lia). fold N. by rewrite Nat.sub_diag. }
  destruct (IH N d s1) as (Hr & Hlen & Hoth & Hat & Hnew & Hrest).
  { rewrite Hl1. lia. }
  rewrite Hl1 in Hr, Hlen, Hoth, Hnew.
  split_and!.
  - rewrite Hr. simpl. destruct inits; simpl; lia.
  - rewrite Hlen. simpl. lia.
  - intros k Hk Hne. rewrite Hoth by lia. by apply Ho1.
  - rewrite Hoth by (fold N in Hcur; lia). done.
  - intros i Hi. destruct i as [|i].
    + rewrite Nat.add_0_r, Hat, Hn1. simpl in *.
      destruct inits as [|init' inits]; simpl.
      * eexists. split; [done|]. by split_and!.
      * eexists. split; [done|].
        split_and!; try done. simpl. f_equal. lia.
    + simpl in Hi. destruct (Hnew i) as (nd & Hnd & Hch); [lia|].
      exists nd. replace (N + S i) with (S N + i) by lia. split; [done|].
      simpl. destruct Hch as (?&?&?&?&?&?&Hsub&?). split_and!; try done.
      rewrite Hsub. repeat case_decide; try lia; try done. f_equal. lia.
  - by destruct Hrest as (-> & _).
  - by destruct Hrest as (_ & -> & _).
  - by destruct Hrest as (_ & _ & -> & _).
  - by destruct Hrest as (_ & _ & _ & -> & _).
  - by destruct Hrest as (_ & _ & _ & _ & -> & _).
  - by destruct Hrest as (_ & _ & _ & _ & _ & -> & _).
  - by destruct Hrest as (_ & _ & _ & _ & _ & _ & -> & _).
  - by destruct Hrest as (_ & _ & _ & _ & _ & _ & _ & -> & _).
  - by destruct Hrest as (_ & _ & _ & _ & _ & _ & _ & _ & ->).
Qed.

Lemma chain_node_callback d prev sub cb c nd :
  chain_node d prev sub cb nd →
  chain_node d prev sub c (Node.set_onCompleted c nd).
Proof. intros (?&?&?&?&?&?&?&?). by split_and!. Qed.

Lemma enqueue_spec inits s h s' :
  (∀ t, _tailNode s = Some t → t < length (heap s)) →
  enqueue inits s = Some (h, s') →
  let N := length (heap s) in
  let d := length (promises s) in
  ∃ K s5, length inits = S K ∧ node h = N ∧ promise h = d ∧
    s' = (if negb (_isPolling s5) then start s5 else s5) ∧
    promises s5 = promises s ++ [Pending] ∧
    length (heap s5) = N + S K ∧
    (∀ k, k < N →
       heap s5 !! k
       = match _tailNode s with
         | Some t => alter (Node.set_nextNode (Some N)) t (heap s) !! k
         | None => heap s !! k
         end) ∧
    (∀ i, i ≤ K →
       ∃ nd, heap s5 !! (N + i) = Some nd ∧
         chain_node d (if decide (i = 0) then _tailNode s else None)
           (if decide (i < K) then Some (N + S i) else None)
           (if decide (i = K) then Some d else None) nd) ∧
    _nextNode s5 = match _nextNode s with None => Some N | o => o end ∧
    _tailNode s5 = Some N ∧
    _timer s5 = _timer s ∧ _clock s5 = _clock s ∧
    _isPolling s5 = _isPolling s ∧ raf_next s5 = raf_next s ∧
    raf_pending s5 = raf_pending s ∧ trace s5 = trace s.
Proof.
  intros Htail Henq N d. revert Henq.
  unfold enqueue, _normalizeAnimationInitials.
  destruct inits as [|first0 rest0]; [done|].
  cbn [map]. set (first := normalize first0). set (rest := map normalize rest0).
  cbn [deferred _createRootNode alloc]. cbv zeta. fold N d.
  set (s1 := set_promises (promises s ++ [Pending]) s).
  set (nd0 := Node.new _ _ _ _ _).
  set (s2 := set_heap (heap s1 ++ [nd0]) s1).
  set (s3 := _linkRootNode (length (heap s1)) s2).
  change (length (heap s1)) with N in *.
  assert (length (heap s3) = S N) as Hl3.
  { unfold s3, _linkRootNode. cbv zeta. simpl.
    destruct (_nextNode s); simpl; destruct (_tailNode s); simpl;
      rewrite ?length_alter, length_app; simpl; fold N; lia. }
  assert (∀ k, k < N →
            heap s3 !! k
            = match _tailNode s with
              | Some t => alter (Node.set_nextNode (Some N)) t (heap s) !! k
              | None => heap s !! k
              end) as Ho3.
  { intros k Hk. unfold s3, _linkRootNode. cbv zeta. simpl.
    destruct (_nextNode s); simpl; destruct (_tailNode s) as [t|] eqn:Et; simpl;
      try (rewrite lookup_app_l by done; done).
    all: destruct (decide (t = k)) as [->|Hne];
      [rewrite !list_lookup_alter_eq, lookup_app_l by done; done
      |rewrite !list_lookup_alter_ne, lookup_app_l by done; done]. }
  assert (heap s3 !! N = Some nd0) as Hn3.
  { unfold s3, _linkRootNode. cbv zeta. simpl.
    destruct (_nextNode s); simpl; destruct (_tailNode s) as [t|] eqn:Et; simpl;
      rewrite ?list_lookup_alter_ne by (specialize (Htail t eq_refl); fold N in Htail; lia);
      rewrite lookup_app_r by (fold N; lia); fold N; by rewrite Nat.sub_diag. }
  assert (promises s3 = promises s ++ [Pending] ∧
          _nextNode s3 = match _nextNode s with None => Some N | o => o end ∧
          _tailNode s3 = Some N ∧ _timer s3 = _timer s ∧ _clock s3 = _clock s ∧
          _isPolling s3 = _isPolling s ∧ raf_next s3 = raf_next s ∧
          raf_pending s3 = raf_pending s ∧ trace s3 = trace s) as Hsc3.
  { unfold s3, _linkRootNode. cbv zeta. simpl.
    destruct (_nextNode s) eqn:En; simpl; destruct (_tailNode s); simpl;
      rewrite ?En; done. }
  unfold _createAndLinkChildNodes.
  destruct (linkChildNodes_spec rest N d s3) as (Hr & Hlen & Hoth & Hat & Hnew & Hsc).
  { rewrite Hl3. lia. }
  rewrite Hl3 in Hr, Hlen, Hoth, Hnew, Hat.
  destruct (linkChildNodes N rest d s3) as [cur s4]. simpl in *.
  set (K := length rest) in *.
  assert (cur = N + K) as ->.
  { rewrite Hr. unfold K. destruct rest; simpl; lia. }
  set (s5 := upd (N + K) (Node.set_onCompleted (Some d)) s4).
  intros [= <- <-].
  exists K, s5.
  destruct Hsc as (E1 & E2 & E3 & E4 & E5 & E6 & E7 & E8 & E9).
  destruct Hsc3 as (F1 & F2 & F3 & F4 & F5 & F6 & F7 & F8 & F9).
  split_and!; try done; try (simpl; congruence).
  - unfold K, rest. by rewrite length_map.
  - simpl. rewrite length_alter, Hlen. lia.
  - intros k Hk. simpl. rewrite list_lookup_alter_ne by lia.
    rewrite Hoth by lia. by apply Ho3.
  - intros i Hi. simpl.
    assert (∃ nd, heap s4 !! (N + i) = Some nd ∧
              chain_node d (if decide (i = 0) then _tailNode s else None)
                (if decide (i < K) then Some (N + S i) else None) None nd)
      as (nd & Hnd & Hch).
    { destruct i as [|i].
      - rewrite Nat.add_0_r, Hat, Hn3.
        destruct rest as [|r0 rest']; simpl.
        + eexists. split; [done|]. by split_and!.
        + eexists. split; [done|]. split_and!; try done.
          simpl. f_equal. lia.
      - destruct (Hnew i) as (nd & Hnd & Hch); [lia|].
        exists nd. replace (N + S i) with (S N + i) by lia. split; [done|].
        destruct Hch as (?&?&?&?&?&?&Hsub&?). split_and!; try done.
        rewrite Hsub. repeat case_decide; try lia; try done. f_equal. lia. }
    destruct (decide (i = K)) as [->|Hne].
    + rewrite list_lookup_alter_eq, Hnd. eexists. split; [done|].
      by apply (chain_node_callback _ _ _ None).
    + rewrite list_lookup_alter_ne by lia. by exists nd.
Qed.

Lemma bounded_tail s t : bounded s → _tailNode s = Some t → t < length (heap s).
Proof.
  intros (Hu & _) Ht. destruct (decide (t < length (heap s))); [done|].
  destruct (Hu t) as (_ & Hn & _); [lia|]. done.
Qed.

Lemma bounded_head s t : bounded s → _nextNode s = Some t → t < length (heap s).
Proof.
  intros (Hu & _) Ht. destruct (decide (t < length (heap s))); [done|].
  destruct (Hu t) as (Hn & _); [lia|]. done.
Qed.

Lemma bounded_links s z m :
  bounded s → prevOf z s = Some m ∨ nextOf z s = Some m → m < length (heap s).
Proof.
  intros (Hu & _) Hm. destruct (decide (m < length (heap s))); [done|].
  destruct (Hu m) as (_ & _ & Hz); [lia|]. destruct (Hz z). by destruct Hm.
Qed.

Lemma dlist_lt s l x : dlist s l → x ∈ l → x < length (heap s).
Proof.
  intros (_ & _ & _ & Hd) Hx. apply lookup_lt_is_Some.
  by apply (dlseg_lookup _ _ _ _ _ Hd).
Qed.

Lemma last_or_last (l : list nat) : last_or l None = list.last l.
Proof. unfold last_or. by destruct (list.last l). Qed.

(** The state [enqueue] builds, before it starts the scheduler. *)
Section enqueued.
Variables (s s5 : Timeline) (K : nat) (l : list nat).
Let N := length (heap s).
Let d := length (promises s).
Hypothesis W : well_formed s l.
Hypothesis B : bounded s.
Hypothesis Hprom : promises s5 = promises s ++ [Pending].
Hypothesis Hlen : length (heap s5) = N + S K.
Hypothesis Hold : ∀ k, k < N →
  heap s5 !! k
  = match _tailNode s with
    | Some t => alter (Node.set_nextNode (Some N)) t (heap s) !! k
    | None => heap s !! k
    end.
Hypothesis Hnew : ∀ i, i ≤ K →
  ∃ nd, heap s5 !! (N + i) = Some nd ∧
    chain_node d (if decide (i = 0) then _tailNode s else None)
      (if decide (i < K) then Some (N + S i) else None)
      (if decide (i = K) then Some d else None) nd.
Hypothesis Hhead :
  _nextNode s5 = match _nextNode s with None => Some N | o => o end.
Hypothesis Htail : _tailNode s5 = Some N.

Lemma enqueued_old k :
  k < N →
  static <$> heap s5 !! k = static <$> heap s !! k ∧
  flags <$> heap s5 !! k = flags <$> heap s !! k ∧
  prevOf k s5 = prevOf k s ∧
  (nextOf k s5 = nextOf k s ∨ (_tailNode s = Some k ∧ nextOf k s5 = Some N)) ∧
  (_tailNode s ≠ Some k → heap s5 !! k = heap s !! k).
Proof using All.
  intros Hk. unfold prevOf, nextOf. rewrite (Hold k Hk).
  destruct (_tailNode s) as [t|]; [|split_and!; try done; by left].
  destruct (decide (t = k)) as [->|Hne].
  - rewrite list_lookup_alter_eq. destruct (heap s !! k) as [nd|] eqn:E; simpl.
    + split_and!; try done. by right.
    + split_and!; try done. by left.
  - rewrite list_lookup_alter_ne by done. split_and!; try done. by left.
Qed.

Lemma enqueued_old_view k :
  k < N →
  subOf k s5 = subOf k s ∧ chainOf k s5 = chainOf k s ∧
  callbackOf k s5 = callbackOf k s ∧ completed k s5 = completed k s ∧
  error k s5 = error k s.
Proof using All.
  intros Hk. destruct (enqueued_old k Hk) as (Hs & Hf & _).
  destruct (static_view _ _ _ Hs) as (-> & -> & ->).
  unfold completed, error.
  destruct (heap s5 !! k), (heap s !! k); simpl in *; try done.
  by injection Hf as _ _ -> ->.
Qed.

Lemma enqueued_new k :
  N ≤ k →
  (k ≤ N + K ∧ chainOf k s5 = Some d ∧
   completed k s5 = Some false ∧ error k s5 = Some false ∧
   started k s5 = Some false ∧ nextOf k s5 = None ∧
   prevOf k s5 = (if decide (k = N) then _tailNode s else None) ∧
   subOf k s5 = (if decide (k < N + K) then Some (S k) else None) ∧
   callbackOf k s5 = (if decide (k = N + K) then Some d else None)) ∨
  (N + K < k ∧ heap s5 !! k = None).
Proof using All.
  intros Hk. destruct (decide (k ≤ N + K)) as [Hle|Hgt]; cycle 1.
  { right. split; [lia|]. apply lookup_ge_None. lia. }
  left. destruct (Hnew (k - N)) as (nd & Hnd & Hch); [lia|].
  replace (N + (k - N)) with k in Hnd by lia.
  destruct Hch as (Hoe & Hst & Hco & Her & Hpr & Hnx & Hsu & Hcb).
  unfold chainOf, completed, error, started, prevOf, nextOf, subOf, callbackOf.
  rewrite Hnd. simpl. rewrite Hoe, Hst, Hco, Her, Hnx, Hsu, Hcb, Hpr.
  split_and!; try done; repeat case_decide; try lia; try done.
  all: f_equal; lia.
Qed.

Lemma enqueued_unreferenced m :
  m ≠ N → (m < N → unreferenced s m) → unreferenced s5 m.
Proof using All.
  intros Hne Hm.
  assert (unreferenced s m) as (Uh & Ut & Uz).
  { destruct (decide (m < N)); [by apply Hm|]. apply B. unfold N in *. lia. }
  split_and!.
  - rewrite Hhead. destruct (_nextNode s); [done|]. congruence.
  - rewrite Htail. congruence.
  - intros z. destruct (Uz z) as [Up Un].
    destruct (decide (z < N)) as [Hz|Hz].
    + destruct (enqueued_old z Hz) as (_ & _ & -> & [-> |[_ ->]] & _);
        split; try done; congruence.
    + destruct (enqueued_new z) as [(_ & _ & _ & _ & _ & -> & -> & _)|[_ E]];
        [lia| |].
      * split; [|done]. case_decide; done.
      * unfold prevOf, nextOf. by rewrite E.
Qed.

Lemma enqueued_dlist : dlist s5 (l ++ [N]).
Proof using All.
  destruct W as ((Hnd & Hh & Ht & Hd) & _).
  assert (∀ x, x ∈ l → x < N) as Hlt.
  { intros x Hx. by apply (dlist_lt s l); [apply W|]. }
  split_and!.
  - apply list.NoDup_app. split_and!; [done| |apply NoDup_singleton].
    intros x Hx Hin. apply list_elem_of_singleton in Hin as ->.
    specialize (Hlt N Hx). lia.
  - rewrite Hhead, Hh. by destruct l.
  - by rewrite Htail, last_snoc.
  - apply dlseg_app. split.
    + simpl. destruct l as [|t l0 _] using rev_ind; [done|].
      rewrite last_snoc in Ht.
      apply (dlseg_ext (alter (Node.set_nextNode (Some N)) t (heap s))).
      * intros x Hx. rewrite (Hold x (Hlt x Hx)), Ht. done.
      * apply (dlseg_set_next_last _ _ _ _ None); [|done].
        apply list.NoDup_app in Hnd as (_ & Hnd & _). intros Hin.
        apply (Hnd t Hin). by left.
    + destruct (Hnew 0) as (nd & Hnd0 & Hch); [lia|].
      rewrite Nat.add_0_r in Hnd0. destruct Hch as (_ & _ & _ & _ & Hp & Hn & _).
      rewrite decide_True in Hp by done.
      simpl. exists nd. split_and!; try done.
      by rewrite last_or_last, <- Ht.
Qed.

Lemma enqueued_chains_ok : chains_ok s5.
Proof using All.
  destruct W as (_ & (Hsub & Hinj & Hcb) & _). destruct B as (_ & Bs & Bc).
  assert (∀ k m, subOf k s5 = Some m → (k < N ∧ subOf k s = Some m ∧ m < N) ∨
                                        (N ≤ k ∧ m = S k ∧ k < N + K)) as Hcases.
  { intros k m Hs. destruct (decide (k < N)) as [Hk|Hk].
    - left. destruct (enqueued_old_view k Hk) as (E & _). rewrite E in Hs.
      split_and!; [done|done|]. by apply (Bs k).
    - right. destruct (enqueued_new k) as [(_ & _ & _ & _ & _ & _ & _ & E & _)|[_ E]];
        [lia| |].
      + rewrite E in Hs. case_decide; [|done]. injection Hs as <-. lia.
      + unfold subOf in Hs. by rewrite E in Hs. }
  assert (∀ k, N ≤ k → k ≤ N + K → chainOf k s5 = Some d) as Hcn.
  { intros k H1 H2.
    destruct (enqueued_new k) as [(_ & E & _)|[? _]]; [lia|done|lia]. }
  split_and!.
  - intros n m Hs. destruct (Hcases n m Hs) as [(Hn & Hs' & Hm)|(Hn & -> & Hlt)].
    + destruct (enqueued_old_view n Hn) as (_ & -> & _).
      destruct (enqueued_old_view m Hm) as (_ & -> & _). by apply Hsub.
    + split; [lia|]. rewrite !Hcn by lia. done.
  - intros p p' m Hp Hp'.
    destruct (Hcases p m Hp) as [(Hn & Hs & Hm)|(Hn & E & Hlt)],
             (Hcases p' m Hp') as [(Hn' & Hs' & Hm')|(Hn' & E' & Hlt')];
      try lia.
    by apply (Hinj p p' m).
  - intros n c Hc. destruct (decide (n < N)) as [Hn|Hn].
    + destruct (enqueued_old_view n Hn) as (_ & -> & E & _). rewrite E in Hc.
      by apply Hcb.
    + destruct (enqueued_new n) as [(_ & -> & _ & _ & _ & _ & _ & _ & E)|[_ E]];
        [lia| |].
      * rewrite E in Hc. by case_decide.
      * unfold callbackOf in Hc. by rewrite E in Hc.
Qed.

Lemma enqueued_well_formed : well_formed s5 (l ++ [N]).
Proof using All.
  pose proof enqueued_dlist as Hdl. pose proof enqueued_chains_ok as Hok.
  destruct W as (Wd & _ & Huniq & Hfl & Hyoung & _).
  destruct B as (Bu & Bs & Bc).
  assert (∀ x, x ∈ l → x < N) as Hlt.
  { intros x Hx. by apply (dlist_lt s l). }
  assert (∀ x, x ∈ l → ∃ c, chainOf x s5 = Some c ∧ chainOf x s = Some c ∧ c < d)
    as Hcl.
  { intros x Hx. destruct (Hfl x Hx) as (_ & [c Hc] & _). exists c.
    destruct (enqueued_old_view x (Hlt x Hx)) as (_ & -> & _).
    split_and!; [done|done|]. by apply (Bc x). }
  assert (chainOf N s5 = Some d) as HcN.
  { destruct (enqueued_new N) as [(_ & E & _)|[? _]]; [lia|done|lia]. }
  split_and!; try done.
  - intros x y Hx Hy Hc.
    apply elem_of_app in Hx as [Hx|Hx], Hy as [Hy|Hy];
      rewrite ?list_elem_of_singleton in *; subst.
    + apply Huniq; [done|done|].
      destruct (enqueued_old_view x (Hlt x Hx)) as (_ & <- & _).
      destruct (enqueued_old_view y (Hlt y Hy)) as (_ & <- & _). done.
    + destruct (Hcl x Hx) as (c & E & _ & Hc'). rewrite E, HcN in Hc.
      injection Hc as ->. lia.
    + destruct (Hcl y Hy) as (c & E & _ & Hc'). rewrite E, HcN in Hc.
      injection Hc as <-. lia.
    + done.
  - intros x Hx. apply elem_of_app in Hx as [Hx|Hx].
    + destruct (Hfl x Hx) as (Hc & Hs & He).
      destruct (enqueued_old_view x (Hlt x Hx)) as (_ & -> & _ & -> & ->). done.
    + apply list_elem_of_singleton in Hx as ->.
      destruct (enqueued_new N) as [(_ & -> & -> & -> & _)|[? _]]; [lia| |lia].
      split_and!; [done|by eexists|done].
  - intros x m Hx Hxm Hc.
    assert (m < N → chainOf m s = chainOf m s5) as Hmold.
    { intros Hm. by destruct (enqueued_old_view m Hm) as (_ & -> & _). }
    assert (is_Some (chainOf m s5)) as Hsome.
    { rewrite Hc. apply elem_of_app in Hx as [Hx|Hx].
      - destruct (Hcl x Hx) as (c & -> & _). by eexists.
      - apply list_elem_of_singleton in Hx as ->. rewrite HcN. by eexists. }
    assert (N ≤ m → chainOf m s5 = Some d ∧ (m ≠ N → fresh s5 m)) as Hmnew.
    { intros Hm.
      destruct (enqueued_new m) as [(_ & Ec & E1 & E2 & E3 & E4 & E5 & _)|[_ E]];
        [done| |].
      - split; [done|]. intros Hne. rewrite decide_False in E5 by done.
        by split_and!.
      - unfold chainOf in Hsome. rewrite E in Hsome. by destruct Hsome. }
    apply elem_of_app in Hx as [Hx|Hx].
    + destruct (Hcl x Hx) as (c & Ex & Ex' & Hcd). rewrite Ex in Hc.
      destruct (decide (m < N)) as [Hm|Hm].
      * destruct (Hyoung x m Hx Hxm) as [Hfr Hun].
        { rewrite Hmold by done. congruence. }
        split; [|apply enqueued_unreferenced; [lia|done]].
        apply (fresh_view s); [|done].
        destruct (enqueued_old m Hm) as (_ & _ & _ & _ & E). apply E.
        apply Hun.
      * destruct Hmnew as [E _]; [lia|]. rewrite E in Hc. injection Hc as <-. lia.
    + apply list_elem_of_singleton in Hx as ->.
      destruct Hmnew as [_ Hfr]; [lia|]. split; [apply Hfr; lia|].
      apply enqueued_unreferenced; lia.
  - apply NoDup_nil_2.
  - intros x Hx. by apply elem_of_nil in Hx.
Qed.

Lemma enqueued_bounded : bounded s5.
Proof using All.
  destruct B as (Bu & Bs & Bc). split_and!.
  - intros m Hm. rewrite Hlen in Hm. apply enqueued_unreferenced; lia.
  - intros k m Hs. rewrite Hlen. destruct (decide (k < N)) as [Hk|Hk].
    + destruct (enqueued_old_view k Hk) as (E & _). rewrite E in Hs.
      apply Bs in Hs. fold N in Hs. lia.
    + destruct (enqueued_new k) as [(_ & _ & _ & _ & _ & _ & _ & E & _)|[_ E]];
        [lia| |].
      * rewrite E in Hs. case_decide; [|done]. injection Hs as <-. lia.
      * unfold subOf in Hs. by rewrite E in Hs.
  - intros k c Hc. rewrite Hprom, length_app. simpl.
    destruct (decide (k < N)) as [Hk|Hk].
    + destruct (enqueued_old_view k Hk) as (_ & E & _). rewrite E in Hc.
      apply Bc in Hc. lia.
    + destruct (enqueued_new k) as [(_ & E & _)|[_ E]]; [lia| |].
      * rewrite E in Hc. injection Hc as <-. fold d. lia.
      * unfold chainOf in Hc. by rewrite E in Hc.
Qed.

Lemma enqueued_pending : pending_on s l → pending_on s5 (l ++ [N]).
Proof using All.
  intros Hpend x c Hx Hc. rewrite Hprom.
  destruct B as (_ & _ & Bc).
  apply elem_of_app in Hx as [Hx|Hx].
  - assert (x < N) as Hlt by (by apply (dlist_lt s l); [apply W|]).
    destruct (enqueued_old_view x Hlt) as (_ & E & _). rewrite E in Hc.
    rewrite lookup_app_l by by apply (Bc x). by apply (Hpend x).
  - apply list_elem_of_singleton in Hx as ->.
    destruct (enqueued_new N) as [(_ & E & _)|[? _]]; [lia| |lia].
    rewrite E in Hc. injection Hc as <-.
    rewrite lookup_app_r by done. fold d. by rewrite Nat.sub_diag.
Qed.

Lemma enqueued_terminal : terminal_only s → terminal_only s5.
Proof using All.
  intros Hterm n c Hc. destruct (decide (n < N)) as [Hn|Hn].
  - destruct (enqueued_old_view n Hn) as (-> & _ & E & _). rewrite E in Hc.
    by apply (Hterm n c).
  - destruct (enqueued_new n) as [(_ & _ & _ & _ & _ & _ & _ & -> & E)|[_ E]];
      [lia| |].
    + rewrite E in Hc. repeat case_decide; try done; lia.
    + unfold subOf. by rewrite E.
Qed.

End enqueued.

Lemma subscribed_ext s s' :
  raf_next s' = raf_next s → raf_pending s' = raf_pending s →
  _clock s' = _clock s → _timer s' = _timer s →
  subscribed s → subscribed s'.
Proof.
  unfold subscribed, paused. by intros -> -> -> ->.
Qed.

Lemma subscribed_idle s :
  0 < raf_next s → raf_pending s = [] → subscribed s.
Proof. intros ? ?. split; [done|by left]. Qed.

Lemma launch_subscribed s :
  paused s = false → 0 < raf_next s → raf_pending s = [] →
  subscribed (_launch s).
Proof.
  intros Hp Hn Hpd. unfold _launch.
  destruct (truthy (_timer s)); [by apply subscribed_idle|].
  split; [simpl; lia|]. right. simpl. rewrite Hpd. split_and!; try done. lia.
Qed.

Lemma subscribed_timer s :
  subscribed s → _timer s = None → raf_pending s = [].
Proof. intros [_ [?|(_ & _ & Ht & _)]] Hn; [done|congruence]. Qed.

Lemma subscribed_paused s :
  subscribed s → paused s = true → raf_pending s = [].
Proof. intros [_ [?|(Hp & _)]] Hn; [done|congruence]. Qed.

Lemma start_subscribed s : subscribed s → subscribed (start s).
Proof.
  intros Hs. unfold start.
  destruct (bool_decide (_timer s = None)) eqn:Ht; [|done].
  destruct (negb (paused s)) eqn:Hp; [|done]. simpl.
  apply bool_decide_eq_true in Ht.
  apply launch_subscribed;
    [reflexivity|exact (proj1 Hs)|exact (subscribed_timer s Hs Ht)].
Qed.

Lemma filter_self (id : nat) : filter (λ i, i ≠ id) [id] = [].
Proof. rewrite filter_cons_False; [done|]. intros H. by apply H. Qed.

Lemma pause_subscribed s : subscribed s → subscribed (pause s).
Proof.
  intros Hs. unfold pause. destruct (_timer s) as [id|] eqn:Ht; [|done].
  destruct (negb (paused s)) eqn:Hp; [|done].
  apply subscribed_idle.
  - unfold clock_pause. simpl.
    destruct (AnimationClock._isPaused (_clock s)); simpl; apply Hs.
  - assert (raf_pending (cancelAnimationFrame id s) = []) as E.
    { destruct Hs as [_ [Hpd|(_ & Hpd & Ht' & Hn)]]; simpl; rewrite Hpd; [done|].
      rewrite Ht in Ht'. injection Ht' as ->. apply filter_self. }
    unfold clock_pause. simpl in *.
    destruct (AnimationClock._isPaused (_clock s)); simpl; done.
Qed.

Lemma resume_subscribed s : subscribed s → subscribed (resume s).
Proof.
  intros Hs. unfold resume. destruct (paused s) eqn:Hp; [|done].
  pose proof (subscribed_paused s Hs Hp) as Hpd.
  unfold paused, AnimationClock.isPaused in Hp.
  apply launch_subscribed; unfold clock_resume, paused; rewrite Hp; simpl;
    [|exact (proj1 Hs)|exact Hpd].
  unfold AnimationClock.resume. by rewrite Hp.
Qed.

Lemma reset_subscribed s : subscribed s → subscribed (reset s).
Proof.
  intros Hs. apply subscribed_idle.
  - unfold reset, _stopAnimation. destruct (_timer s) as [[|id]|]; simpl; apply Hs.
  - unfold reset, _stopAnimation.
    destruct (_timer s) as [id|] eqn:Ht; cycle 1.
    { simpl. by apply subscribed_timer. }
    destruct Hs as [_ [Hpd|(_ & Hpd & Ht' & Hn)]].
    + destruct id; simpl; rewrite Hpd; done.
    + rewrite Ht in Ht'. injection Ht' as ->.
      destruct (Nat.pred (raf_next s)) as [|id] eqn:E; [lia|].
      simpl. rewrite Hpd. apply filter_self.
Qed.

Lemma NoDup_lt_length (l : list nat) n :
  NoDup l → (∀ x, x ∈ l → x < n) → length l ≤ n.
Proof.
  intros Hnd Hlt. transitivity (length (seq 0 n)); [|by rewrite length_seq].
  apply submseteq_length, NoDup_submseteq; [done|].
  intros x Hx. apply elem_of_seq. specialize (Hlt x Hx). lia.
Qed.

Lemma well_formed_length s l : well_formed s l → length l ≤ length (heap s).
Proof.
  intros W. apply NoDup_lt_length; [apply W|].
  intros x Hx. by apply (dlist_lt s l); [apply W|].
Qed.

Lemma well_formed_nil s :
  chains_ok s → _nextNode s = None → _tailNode s = None → well_formed s [].
Proof.
  intros Hok Hn Ht. unfold well_formed, sweeping. split_and!.
  - unfold dlist. split_and!; [apply NoDup_nil_2|done|done|done].
  - done.
  - intros x y Hx. by apply elem_of_nil in Hx.
  - intros x Hx. by apply elem_of_nil in Hx.
  - intros x m Hx. by apply elem_of_nil in Hx.
  - apply NoDup_nil_2.
  - intros x Hx. by apply elem_of_nil in Hx.
Qed.

(** A step that leaves store, list and deferreds alone. *)
Lemma sound_ext s s' :
  heap s' = heap s → promises s' = promises s →
  _nextNode s' = _nextNode s → _tailNode s' = _tailNode s →
  subscribed s' → sound s → sound s'.
Proof.
  intros Hh Hp Hn Ht S' ((l & W & Pd) & T & B & _). split_and!; [| | |done].
  - exists l. split; [by apply (sweeping_ext s)|].
    intros x c. unfold chainOf. rewrite Hh, Hp. apply Pd.
  - intros n c. unfold callbackOf, subOf. rewrite Hh. apply T.
  - apply (bounded_ext s); [done|by rewrite Hp|by left|by left|done].
Qed.

Lemma start_sound s : sound s → sound (start s).
Proof.
  intros S. destruct (start_heap s) as (Hh & Hn & Ht & _ & Hp).
  apply (sound_ext s); try done. apply start_subscribed, S.
Qed.

Lemma pause_sound s : sound s → sound (pause s).
Proof.
  intros S. destruct (pause_heap s) as (Hh & Hn & Ht & _ & Hp).
  apply (sound_ext s); try done. apply pause_subscribed, S.
Qed.

Lemma resume_sound s : sound s → sound (resume s).
Proof.
  intros S. destruct (resume_heap s) as (Hh & Hn & Ht & _ & Hp).
  apply (sound_ext s); try done. apply resume_subscribed, S.
Qed.

Lemma reset_sound s : sound s → sound (reset s).
Proof.
  intros ((l & W & Pd) & T & B & S).
  destruct (reset_heap s) as (Hh & Hn & Ht & _ & Hp).
  split_and!; [| | |by apply reset_subscribed].
  - exists []. split.
    + destruct W as (_ & Hok & _). apply well_formed_nil; [|done|done].
      apply (chains_ok_view s); [|done]. intros k.
      unfold subOf, chainOf, callbackOf. by rewrite Hh.
    + intros x c Hx. by apply elem_of_nil in Hx.
  - intros n c. unfold callbackOf, subOf. rewrite Hh. apply T.
  - apply (bounded_ext s); [done|by rewrite Hp|by right|by right|done].
Qed.

Lemma enqueue_sound inits s h s' :
  sound s → enqueue inits s = Some (h, s') →
  sound s' ∧ length (heap s') = length (heap s) + length inits.
Proof.
  intros ((l & W & Pd) & T & B & S) Henq.
  destruct (enqueue_spec inits s h s' (λ t, bounded_tail s t B) Henq)
    as (K & s5 & HK & _ & _ & -> & Hprom & Hlen & Hold & Hnew & Hhead & Htail
        & Htm & Hck & Hpo & Hrn & Hrp & _).
  pose proof (enqueued_well_formed s s5 K l W B Hprom Hlen Hold Hnew Hhead Htail)
    as W5.
  pose proof (enqueued_bounded s s5 K l W B Hprom Hlen Hold Hnew Hhead Htail)
    as B5.
  pose proof (enqueued_pending s s5 K l W B Hprom Hlen Hold Hnew Hhead Htail Pd)
    as P5.
  pose proof (enqueued_terminal s s5 K l W B Hprom Hlen Hold Hnew Hhead Htail T)
    as T5.
  assert (sound s5) as S5.
  { split_and!; [by eexists|done|done|by apply (subscribed_ext s)]. }
  destruct (negb (_isPolling s5)).
  - split; [by apply start_sound|].
    destruct (start_heap s5) as (-> & _). by rewrite Hlen, HK.
  - split; [done|by rewrite Hlen, HK].
Qed.

Lemma loop_sound fuel s :
  sound s → paused s = false → raf_pending s = [] → length (heap s) < fuel →
  ∃ s', loop fuel s = Some s' ∧ sound s' ∧ length (heap s') = length (heap s).
Proof.
  intros ((l & W & Pd) & T & B & S) Hp Hpd Hf.
  pose proof (well_formed_length s l W) as Hl.
  destruct (loop_well_formed s l fuel W Hp ltac:(lia))
    as (s' & l' & Hloop & W' & Hp' & Hh & _ & Hpr & _ & _ & _ & Hch & Hor).
  destruct (loop_bounded s l fuel s' W B Hp ltac:(lia) Hloop) as [B' Hlen].
  exists s'. split_and!; try done. split_and!; [exists l'; split; [done|]| |done|].
  - intros y c Hy Hc. destruct (Hor y Hy) as (x & Hx & Hcx). rewrite Hc in Hcx.
    destruct (sweep_pending s l c x W T Pd Hp Hx Hcx) as [E|[Hin Hgone]].
    + by rewrite Hpr.
    + exfalso. refine (Hch c _ y Hy Hc).
      intros y0 Hy0 Hc0.
      assert (y0 = x) as ->; [|done].
      destruct W as (_ & _ & Huniq & _). apply Huniq; [done|done|congruence].
  - intros n c Hc.
    set (now := AnimationClock.now (perf s (perf_reads s)) (_clock s)) in *.
    set (s0 := match l with [] => s | _ => (clock_now s).2 end) in *.
    set (r := tick_all now l [] s0) in *.
    assert (heap s0 = heap s) as H0.
    { unfold s0. destruct l; [done|]. by destruct (clock_now_view s Hp). }
    destruct (tick_all_view now l [] s0) as (Hv1 & _). fold r in Hv1.
    destruct (completeNodes_view r.1 r.2) as (Hv2 & _).
    destruct (Hv1 n) as (E1 & _ & E1' & _). destruct (Hv2 n) as (E2 & _ & E2' & _).
    unfold callbackOf, subOf in *. rewrite Hh in *. rewrite E2' in Hc.
    rewrite E1' in Hc. rewrite E2, E1. rewrite H0 in *. by apply (T n c).
  - destruct (loop_driver s l fuel s' Hp (dlist_active _ _ (proj1 W)) ltac:(lia) Hloop)
      as [(Ht & Hq & Hn)|(Ht & Hq & Hn)].
    + apply subscribed_idle; [rewrite Hn; apply S|congruence].
    + split; [lia|]. right. rewrite Hq, Hpd, Hn, Ht. simpl.
      destruct S as [S _]. split_and!; try done. lia.
Qed.

Lemma frame_sound fuel s :
  sound s → length (heap s) < fuel →
  ∃ s', frame fuel s = Some s' ∧ sound s' ∧ length (heap s') = length (heap s).
Proof.
  intros S Hf. unfold frame.
  set (s0 := set_raf (raf_next s) [] s).
  assert (sound s0) as S0.
  { apply (sound_ext s); try done. apply subscribed_idle; [apply S|done]. }
  destruct S as (_ & _ & _ & _ & [Hpd|(Hp & Hpd & _)]); rewrite Hpd; simpl.
  - by exists s0.
  - destruct (loop_sound fuel s0 S0 Hp eq_refl Hf) as (s' & -> & ? & ?).
    by exists s'.
Qed.

Lemma step_sound fuel o s :
  sound s → gentle o → length (heap s) < fuel →
  ∃ s', step fuel o s = Some s' ∧ sound s' ∧
    length (heap s') ≤ length (heap s) + nodes_of [o].
Proof.
  intros S Ho Hf.
  destruct o as [inits| | | | | |n]; simpl; try done.
  - destruct (enqueue inits s) as [[h s']|] eqn:E.
    + destruct (enqueue_sound inits s h s' S E) as [S' Hl].
      exists s'. split_and!; [done|done|]. unfold nodes_of. simpl. lia.
    + exists s. split_and!; [done|done|lia].
  - destruct (frame_sound fuel s S Hf) as (s' & -> & ? & Hl).
    exists s'. split_and!; [done|done|lia].
  - exists (start s). split_and!; [done|by apply start_sound|].
    destruct (start_heap s) as (-> & _). lia.
  - exists (pause s). split_and!; [done|by apply pause_sound|].
    destruct (pause_heap s) as (-> & _). lia.
  - exists (resume s). split_and!; [done|by apply resume_sound|].
    destruct (resume_heap s) as (-> & _). lia.
  - exists (reset s). split_and!; [done|by apply reset_sound|].
    destruct (reset_heap s) as (-> & _). lia.
Qed.

Lemma nodes_of_cons o ops : nodes_of (o :: ops) = nodes_of [o] + nodes_of ops.
Proof. unfold nodes_of. simpl. lia. Qed.

(** Whatever is done to a scheduler, short of [revoke], leaves it in a
    state of this kind, and every operation returns when the fuel covers
    the nodes there can be. *)
Lemma run_sound fuel ops s :
  sound s → Forall gentle ops → length (heap s) + nodes_of ops < fuel →
  ∃ s', run fuel ops s = Some s' ∧ sound s' ∧
    length (heap s') ≤ length (heap s) + nodes_of ops.
Proof.
  revert s. induction ops as [|o ops IH]; intros s S Ho Hf.
  { exists s. split_and!; [done|done|lia]. }
  apply list.Forall_cons in Ho as [Ho Hops]. rewrite nodes_of_cons in *.
  destruct (step_sound fuel o s S Ho ltac:(lia)) as (s1 & E & S1 & Hl1).
  destruct (IH s1 S1 Hops ltac:(lia)) as (s' & Hr & S' & Hl').
  exists s'. simpl. rewrite E. simpl. split_and!; [done|done|lia].
Qed.

Lemma createTimeline_sound wall : sound (createTimeline wall).
Proof.
  split_and!.
  - exists []. split; [|intros x c Hx; by apply elem_of_nil in Hx].
    apply well_formed_nil; [|done|done].
    split_and!; intros ? ?; unfold subOf, callbackOf; simpl; done.
  - intros n c. unfold callbackOf. simpl. done.
  - split_and!.
    + intros m _. split_and!; [done|done|].
      intros z. unfold prevOf, nextOf. simpl. done.
    + intros k m. unfold subOf. simpl. done.
    + intros k c. unfold chainOf. simpl. done.
  - apply subscribed_idle; simpl; [lia|done].
Qed.

(** ** The claims on ticks, completion and sweeps *)

(** C5, amended: a tick of a completed or errored node returns true and
    leaves the state as it is.  Any other tick leaves the node started with
    the start time latched (the one it had, or the reading of the clock the
    first tick takes); the raw progress is [(now - start) / duration]
    clamped to [0, 1]; the effect, when present, is called with the result
    of the timing (or the raw progress when there is none) and the raw
    progress, unless the timing throws; the tick returns whether the raw
    progress is at least 1 when the callbacks return, and true, with the
    error flag set, when one of them throws. *)
Theorem C5_tick ts n nd s :
  heap s !! n = Some nd →
  let r := _tick ts n s in
  let raw := rawProgress ts nd s in
  if Node._completed nd || Node._error nd then r = (true, s)
  else
    Node._started <$> heap r.2 !! n = Some true ∧
    Node._startTime <$> heap r.2 !! n = Some (start_of_tick nd s) ∧
    (∀ q, raw = Num q → (0 ≤ q ∧ q ≤ 1)%Qc) ∧
    trace r.2 = trace s ++ callback_calls n nd raw ++ error_calls n nd raw ∧
    match callbacks nd raw with
    | Returns _ => r.1 = js_ge raw 1 ∧ Node._error <$> heap r.2 !! n = Some false
    | Throws e => r.1 = true ∧ Node._error <$> heap r.2 !! n = Some true
    end.
Proof. exact (tick_spec ts n nd s). Qed.

(** C4: [_complete] on a node [n] of the list that is not completed yet.
    With a next phase [m] and no error, [m] takes the place of [n]: it gets
    the neighbour links of [n], and head, tail and the neighbours' links
    that referred to [n] refer to [m].  Otherwise [n] is unlinked and
    nothing takes its place, and the completion callback of [n] fires when
    it has one.  A deferred changes only by that callback, from pending to
    resolved. *)
Theorem C4_complete s l1 n l2 nd :
  dlist s (l1 ++ n :: l2) →
  heap s !! n = Some nd →
  Node._completed nd = false →
  (∀ m, Node._subNode nd = Some m → (m ∉ l1 ++ n :: l2) ∧ is_Some (heap s !! m)) →
  let s' := _complete n s in
  completed n s' = Some true ∧
  match Node._subNode nd, Node._error nd with
  | Some m, false =>
      dlist s' (l1 ++ m :: l2) ∧
      prevOf m s' = prevOf n s ∧ nextOf m s' = nextOf n s ∧
      (_nextNode s = Some n → _nextNode s' = Some m) ∧
      (_tailNode s = Some n → _tailNode s' = Some m) ∧
      (∀ p, prevOf n s = Some p → nextOf p s' = Some m) ∧
      (∀ q, nextOf n s = Some q → prevOf q s' = Some m)
  | _, _ =>
      dlist s' (l1 ++ l2) ∧
      (_nextNode s = Some n → _nextNode s' = nextOf n s) ∧
      (_tailNode s = Some n → _tailNode s' = prevOf n s) ∧
      trace s' = trace s ++ onCompleted_calls n nd
  end ∧
  (∀ c, promises s' !! c ≠ promises s !! c →
     Node._onCompleted nd = Some c ∧ EvOnCompleted n c ∈ trace s' ∧
     promises s !! c = Some Pending ∧ promises s' !! c = Some Resolved).
Proof. exact (complete_spec s l1 n l2 nd). Qed.

(** C3, amended: a sweep of a running scheduler whose list is [l].  For an
    empty list the clock is not read; otherwise the sweep reads the clock
    once for [now], and a node ticked for the first time reads it once more
    to latch its start.  Every node of [l] is ticked with [now], in order;
    [_complete] is called on the collected nodes after all ticks; when the
    list is empty afterwards the scheduler drops its subscription and
    resets clock and list, otherwise it subscribes again. *)
Theorem C3_sweep s l fuel :
  paused s = false → active s l → length l < fuel →
  let now := AnimationClock.now (perf s (perf_reads s)) (_clock s) in
  let s0 := match l with [] => s | _ => (clock_now s).2 end in
  ∃ done s1 evT evC,
    let s2 := _completeNodes done s1 in
    tick_all now l [] s0 = (done, s1) ∧
    trace s1 = trace s ++ evT ∧
    ticks_of evT = map (λ x, EvTick x now) l ∧ completes_of evT = [] ∧
    trace s2 = trace s1 ++ evC ∧
    ticks_of evC = [] ∧ completes_of evC = map EvComplete done ∧
    perf_reads s2
    = perf_reads s + match l with [] => 0 | _ => 1 end
      + length (filter (λ x, first_tick s x = true) l) ∧
    match _nextNode s2 with
    | None =>
        loop fuel s = Some (_cleanup s2) ∧
        _timer (_cleanup s2) = None ∧
        raf_pending (_cleanup s2) = raf_pending s ∧
        _clock (_cleanup s2) = AnimationClock.init ∧
        _nextNode (_cleanup s2) = None ∧ _tailNode (_cleanup s2) = None
    | Some _ =>
        loop fuel s
        = Some (set_timer (Some (raf_next s)) (requestAnimationFrame s2).2)
    end.
Proof. exact (sweep_spec s l fuel). Qed.

(** C3, as stated, fails on the first sweep of a chain: the sweep reads the
    clock for its time value and the first tick reads it again. *)
Lemma C3_first_sweep_reads_clock_twice :
  let s := one_chain noop in
  paused s = false ∧ active s [0] ∧ perf_reads s = 0 ∧
  (_poll 2 s ≫= λ r, Some (r.1, perf_reads r.2)) = Some (true, 2).
Proof. vm_compute. done. Qed.

Lemma C3_sweep_witness : ∃ s', loop 2 (one_chain noop) = Some s'.
Proof.
  destruct (C3_sweep (one_chain noop) [0] 2 eq_refl (conj eq_refl eq_refl)
              ltac:(simpl; lia)) as (done & s1 & evT & evC & H).
  cbv zeta in H. destruct H as (_ & _ & _ & _ & _ & _ & _ & _ & H).
  destruct (_nextNode (_completeNodes done s1)).
  - eexists. exact H.
  - eexists. exact (proj1 H).
Defined.

Lemma C4_complete_witness :
  completed 0 (_complete 0 (one_chain noop)) = Some true.
Proof.
  apply (C4_complete (one_chain noop) [] 0 [] (phase_node noop)).
  - split_and!; [apply NoDup_singleton|done|done|].
    simpl. eexists. split_and!; done.
  - reflexivity.
  - reflexivity.
  - intros m. discriminate.
Defined.

Lemma C5_tick_witness :
  trace (_tick (ms 0) 0 (one_chain noop)).2
  = trace (one_chain noop)
    ++ callback_calls 0 (phase_node noop)
         (rawProgress (ms 0) (phase_node noop) (one_chain noop))
    ++ error_calls 0 (phase_node noop)
         (rawProgress (ms 0) (phase_node noop) (one_chain noop)).
Proof.
  pose proof (C5_tick (ms 0) 0 (phase_node noop) (one_chain noop) eq_refl) as H.
  exact (proj1 (proj2 (proj2 (proj2 H)))).
Defined.

(** ** The claim on a phase that throws *)

(** C6, amended: a sweep in which the effect or the timing of the node [x]
    on the list throws [e], the deferred of its chain being pending.  The tick
    returns true and the sweep returns; afterwards the error flag of [x] is
    set, the deferred is rejected with [e], [x] is completed and off the
    list and its next phase [m] has not taken its place; the effect of [m] is
    not called in that sweep nor by anything done to the scheduler later;
    and no node of the chain is on the list, after this sweep and after the
    next one.  The scheduler is taken in a well formed state with the
    deferred pending, as every state reached without [revoke] is
    ([run_sound]). *)
Theorem C6_throwing_phase s l1 x l2 nd c e fuel :
  well_formed s (l1 ++ x :: l2) →
  paused s = false →
  length (l1 ++ x :: l2) < fuel →
  heap s !! x = Some nd →
  Node._onError nd = Some c →
  promises s !! c = Some Pending →
  let now := AnimationClock.now (perf s (perf_reads s)) (_clock s) in
  let sx := (tick_all now l1 [] (clock_now s).2).2 in
  callbacks nd (rawProgress now nd sx) = Throws e →
  (_tick now x (log (EvTick x now) sx)).1 = true ∧
  ∃ s' l',
    loop fuel s = Some s' ∧ active s' l' ∧
    error x s' = Some true ∧ completed x s' = Some true ∧
    EvOnError x c e ∈ trace s' ∧
    promises s' !! c = Some (Rejected e) ∧
    (x ∉ l') ∧ (∀ y, y ∈ l' → chainOf y s' ≠ Some c) ∧
    (∀ m, subOf x s = Some m →
       (m ∉ l') ∧ completed m s' = Some false ∧
       ∀ fuel' ops s'', run fuel' ops s' = Some s'' →
         animator_calls m s'' = animator_calls m s) ∧
    (∀ fuel', length l' < fuel' →
       ∃ s'' l'', loop fuel' s' = Some s'' ∧ active s'' l'' ∧
         ∀ y, y ∈ l'' → chainOf y s'' ≠ Some c).
Proof.
  intros W Hp Hf Hx Hoc Hpc now sx Hthrow.
  destruct (throw_spec s l1 x l2 nd c e fuel W Hp Hf Hx Hoc Hpc Hthrow)
    as (Hb & s' & l' & Hloop & He & Hc & Hev & Hrej & W' & Hp' & Hxl & Hgone & Hm).
  split; [exact Hb|]. exists s', l'. split_and!; try done.
  - apply dlist_active, W'.
  - intros m Hsub. destruct (Hm m Hsub) as (Hml & Hcm & Hq & Hcalls).
    split_and!; [done|done|]. intros fuel' ops s'' Hrun.
    destruct (run_quiet m fuel' ops s' s'' Hq Hrun) as [_ ->]. done.
  - intros fuel' Hf'.
    destruct (loop_well_formed s' l' fuel' W' Hp' Hf')
      as (s'' & l'' & Hloop' & W'' & _ & _ & _ & _ & _ & _ & _ & Hch & _).
    exists s'', l''. split_and!; [done|apply dlist_active, W''|].
    apply Hch. intros y Hy Hcy. by destruct (Hgone y Hy).
Qed.

Lemma C6_throwing_phase_witness :
  ∃ s', loop 2 (two_phases (throwing 7) noop) = Some s' ∧
    error 0 s' = Some true ∧ promises s' !! 0 = Some (Rejected 7).
Proof.
  destruct (C6_throwing_phase (two_phases (throwing 7) noop) [] 0 []
              (first_phase_node (throwing 7)) 0 7 2
              (two_phases_well_formed _ _) eq_refl ltac:(simpl; lia)
              eq_refl eq_refl eq_refl eq_refl)
    as (_ & s' & l' & Hloop & _ & He & _ & _ & Hrej & _).
  exists s'. split_and!; done.
Defined.

(** C6, as stated, fails for a chain whose deferred is settled already.
    The caller revokes the second phase of chain A and then chain B: the
    first call resolves the deferred of A and clears the head of the list,
    the second one puts the first phase of A (node 1) at the head again.
    At the next pulse that phase throws 7: its error flag is set, it is
    completed and [reject] is called with 7, but the deferred of A is not
    rejected, it stays resolved. *)
Lemma C6_throw_on_resolved_chain_is_not_rejected :
  (run 10 revoked_before_throw (createTimeline wall10) ≫= λ s,
     Some (_nextNode s, completed 1 s, promises s !! 1))
  = Some (Some 1, Some false, Some Resolved) ∧
  (run 10 (revoked_before_throw ++ [OpFrame]) (createTimeline wall10) ≫= λ s,
     Some (error 1 s, completed 1 s, rejections (trace s), promises s !! 1))
  = Some (Some true, Some true, [(1, 1, 7)], Some Resolved).
Proof. vm_compute. done. Qed.

(** ** The claim on revocation *)

(** C7, amended: [revoke] on the handle [r] of the chain [ch] whose last
    phase [t] is not completed and whose deferred [c] is pending.  The call returns;
    every node of the chain is completed and no other node changes its
    flag; no error flag changes; the completion callback of [t] runs and
    the deferred is resolved; nothing is rejected and nothing but
    completion callbacks runs; the effect of no phase of the chain is
    called, in the revocation or by anything done to the scheduler later.
    When the scheduler is well formed, with the node [y] of the chain on
    its list and the phases before [y] completed, no node of the chain is
    on the list afterwards; when [y] is the last phase the other chains
    stay on the list, and what happens to them otherwise is the subject of
    C2. *)
Theorem C7_revoke s r ch t c fuel :
  static_chain s r ch → NoDup ch →
  (∀ n, n ∈ ch → is_Some (heap s !! n)) →
  list.last ch = Some t → completed t s = Some false →
  callbackOf t s = Some c → promises s !! c = Some Pending →
  length ch < fuel →
  ∃ s',
    revoke fuel r s = Some s' ∧
    (∀ n, n ∈ ch → completed n s' = Some true) ∧
    (∀ n, (n ∉ ch) → completed n s' = completed n s) ∧
    (∀ n, error n s' = error n s) ∧
    resolving s s' ∧
    EvOnCompleted t c ∈ trace s' ∧
    promises s' !! c = Some Resolved ∧
    (∀ m fuel' ops s'', m ∈ ch → run fuel' ops s' = Some s'' →
       animator_calls m s'' = animator_calls m s) ∧
    (∀ l1 y l2 pre post,
       well_formed s (l1 ++ y :: l2) → ch = pre ++ y :: post →
       (∀ n, n ∈ pre → completed n s = Some true) →
       ∃ l', active s' l' ∧
         (∀ n, n ∈ l' → n ∈ l1 ++ l2 ∧ (n ∉ ch)) ∧
         (post = [] → l' = l1 ++ l2)).
Proof.
  intros Hch Hnd Hsome Hlast Hct Hcb Hpc Hf.
  destruct (revoke_chain_spec s r ch t c fuel Hch Hnd Hsome Hlast Hct Hcb Hpc Hf)
    as (Hr & Hc & Hco & He & Hres & Hev & Hp & Hsil).
  exists (revoke_all ch s). split_and!; try done.
  - intros m fuel' ops s'' Hm Hrun.
    destruct (run_quiet m fuel' ops (revoke_all ch s) s'') as [_ ->]; [|done|].
    + left. by apply Hc.
    + apply silent_calls, Hsil.
  - intros l1 y l2 pre post W -> Hpre.
    assert (list.last (y :: post) = Some t) as Hlast'.
    { rewrite last_app in Hlast.
      destruct (list.last (y :: post)) as [z|] eqn:E; [done|].
      rewrite last_cons in E. by destruct (list.last post). }
    destruct (revoke_spec s l1 y l2 r pre post t c fuel W Hch Hpre Hlast' Hcb Hpc Hf)
      as (s' & l' & Hr' & _ & _ & _ & Ha & Hl & Hl' & _).
    rewrite Hr in Hr'. injection Hr' as <-. by exists l'.
Qed.

Lemma C7_revoke_witness :
  ∃ s', revoke 3 0 (two_phases noop noop) = Some s' ∧
    promises s' !! 0 = Some Resolved ∧
    ∀ fuel ops s'', run fuel ops s' = Some s'' →
      animator_calls 1 s'' = animator_calls 1 (two_phases noop noop).
Proof.
  assert (NoDup [0; 1]) as Hnd.
  { apply NoDup_cons_2; [|apply NoDup_singleton].
    intros H. apply list_elem_of_singleton in H. discriminate. }
  assert (∀ n, n ∈ [0; 1] → is_Some (heap (two_phases noop noop) !! n)) as Hsome.
  { intros n Hn. apply elem_of_cons in Hn as [->|Hn]; [by eexists|].
    apply list_elem_of_singleton in Hn as ->. by eexists. }
  destruct (C7_revoke (two_phases noop noop) 0 [0; 1] 1 0 3
              (conj eq_refl (conj eq_refl eq_refl)) Hnd Hsome
              eq_refl eq_refl eq_refl eq_refl ltac:(simpl; lia))
    as (s' & Hr & _ & _ & _ & _ & _ & Hp & Hq & _).
  exists s'. split_and!; [done|done|].
  intros fuel ops s'' Hrun. apply (Hq 1 fuel ops s''); [|done].
  apply elem_of_cons. right. apply elem_of_cons. by left.
Defined.

(** C7, as stated, fails for a chain one of whose phases erred.  The first
    phase throws 7 at the first pulse and the deferred is rejected with 7,
    the second phase being left not completed.  [revoke] on the handle
    then completes the second phase and runs its completion callback,
    which calls [resolve]; the deferred does not resolve, it stays
    rejected with 7. *)
Lemma C7_revoke_after_error_stays_rejected :
  (run 10 (take 2 thrown_then_revoked) (createTimeline wall10) ≫= λ s,
     Some (completed 1 s, resolutions (trace s), promises s !! 0))
  = Some (Some false, [], Some (Rejected 7)) ∧
  (run 10 thrown_then_revoked (createTimeline wall10) ≫= λ s,
     Some (completed 1 s, resolutions (trace s), promises s !! 0))
  = Some (Some true, [(1, 0)], Some (Rejected 7)).
Proof. vm_compute. done. Qed.

(** ** The claim on reset *)

(** C10, amended: [reset] runs no callback and changes neither a node nor
    a deferred; it empties the list.  Whatever is done to the scheduler
    afterwards, short of [revoke] on one of the nodes that existed at the
    reset, these nodes and the deferreds that existed stay as they were,
    and every later event is about a younger node: a chain that was on the
    list is not ticked, completed, resolved or rejected any more. *)
Theorem C10_reset s fuel ops s' :
  Forall (spares (length (heap s))) ops →
  run fuel ops (reset s) = Some s' →
  heap (reset s) = heap s ∧ promises (reset s) = promises s ∧
  trace (reset s) = trace s ∧
  _nextNode (reset s) = None ∧ _tailNode (reset s) = None ∧
  (∀ k, k < length (heap s) → heap s' !! k = heap s !! k) ∧
  (∀ c, c < length (promises s) → promises s' !! c = promises s !! c) ∧
  ∃ evs, trace s' = trace s ++ evs ∧
    Forall (λ e, length (heap s) ≤ node_of e) evs.
Proof.
  intros Hops Hrun.
  destruct (reset_heap s) as (Hh & Hn & Ht & Htr & Hp).
  destruct (run_aside _ _ fuel ops (reset s) s' (reset_detached s) Hops Hrun)
    as (_ & Hk & Hc & evs & Hev & Hf).
  split_and!; try done.
  - intros k Hlt. by rewrite Hk, Hh.
  - intros c Hlt. by rewrite Hc, Hp.
  - exists evs. by rewrite Hev, Htr.
Qed.

(** C10, as stated, fails: a caller that kept the handle of a chain the
    reset dropped can revoke it, and the completion callback of the chain
    resolves its deferred. *)
Lemma C10_revoke_after_reset_resolves :
  let s := one_chain noop in
  active s [0] ∧ promises s !! 0 = Some Pending ∧
  (run 2 [OpReset] s ≫= λ s', promises s' !! 0) = Some Pending ∧
  (run 2 [OpReset; OpRevoke 0] s ≫= λ s', promises s' !! 0) = Some Resolved.
Proof. vm_compute. done. Qed.

Lemma C10_reset_witness :
  (run 3 after_reset (reset (one_chain noop)) ≫= λ s', promises s' !! 0)
  = Some Pending.
Proof.
  destruct (run 3 after_reset (reset (one_chain noop))) as [s'|] eqn:E;
    [|vm_compute in E; discriminate].
  assert (Forall (spares (length (heap (one_chain noop)))) after_reset) as Hops
    by (repeat constructor).
  destruct (C10_reset (one_chain noop) 3 after_reset s' Hops E)
    as (_ & _ & _ & _ & _ & _ & Hp & _).
  simpl. rewrite Hp; [reflexivity|]. vm_compute. lia.
Defined.

(** ** The reachable states *)

(** X1: every state a fresh scheduler reaches by [animate], frame pulses,
    [start], [pause], [resume] and [reset] is sound: the list is well
    formed, every chain has one node on it, the deferreds of the chains on
    the list are pending, and the frame driver holds at most the callback
    of a running scheduler.  With fuel for the nodes created every
    operation returns. *)
Theorem reachable_states_sound wall fuel ops :
  Forall gentle ops → nodes_of ops < fuel →
  ∃ s', run fuel ops (createTimeline wall) = Some s' ∧ sound s'.
Proof.
  intros Ho Hf.
  destruct (run_sound fuel ops (createTimeline wall) (createTimeline_sound wall)
              Ho Hf) as (s' & Hr & S & _).
  by exists s'.
Qed.

Lemma reachable_states_sound_witness :
  ∃ s', run 10 undisturbed (createTimeline wall10) = Some s' ∧ sound s'.
Proof.
  apply (reachable_states_sound wall10 10 undisturbed).
  - repeat (apply Forall_cons_2; [exact I|]). apply Forall_nil_2.
  - vm_compute. lia.
Defined.

(** ** The life of a node and of a deferred *)

Lemma later_refl nd : later nd nd.
Proof. by split_and!. Qed.

Lemma later_trans n1 n2 n3 : later n1 n2 → later n2 n3 → later n1 n3.
Proof.
  intros (S1 & T1 & C1 & E1) (S2 & T2 & C2 & E2). split_and!.
  - congruence.
  - intros H. destruct (T1 H) as [H1 H1']. destruct (T2 H1) as [H2 H2'].
    split; congruence.
  - auto.
  - auto.
Qed.

(** An assignment to a list link. *)
Lemma later_links f nd :
  static (f nd) = static nd → flags (f nd) = flags nd → later nd (f nd).
Proof.
  unfold flags. intros Hs Hf. injection Hf as H1 H2 H3 H4.
  split_and!; [done|intros; split; congruence|congruence|congruence].
Qed.

Lemma grown_refl s : grown s s.
Proof.
  split_and!.
  - intros k nd H. exists nd. split; [done|apply later_refl].
  - intros c p H. by exists p.
  - exists []. by rewrite app_nil_r.
Qed.

Lemma grown_trans s1 s2 s3 : grown s1 s2 → grown s2 s3 → grown s1 s3.
Proof.
  intros (H1 & P1 & e1 & E1) (H2 & P2 & e2 & E2). split_and!.
  - intros k nd Hk. destruct (H1 k nd Hk) as (n2 & Hk2 & L1).
    destruct (H2 k n2 Hk2) as (n3 & Hk3 & L2).
    exists n3. split; [done|]. by eapply later_trans.
  - intros c p Hc. destruct (P1 c p Hc) as (p2 & Hc2 & F1).
    destruct (P2 c p2 Hc2) as (p3 & Hc3 & F2).
    exists p3. split; [done|]. intros Hp.
    rewrite F2; rewrite F1; done.
  - exists (e1 ++ e2). by rewrite E2, E1, app_assoc.
Qed.

(** A step that leaves store, deferreds and trace alone. *)
Lemma grown_same s s' :
  heap s' = heap s → promises s' = promises s → trace s' = trace s →
  grown s s'.
Proof.
  intros Hh Hp Ht. unfold grown. rewrite Hh, Hp, Ht. apply grown_refl.
Qed.

Lemma grown_log e s : grown s (log e s).
Proof.
  destruct (grown_refl s) as (H & P & _). split_and!; [done|done|].
  by exists [e].
Qed.

(** An assignment to a field of a node. *)
Lemma grown_upd k f s :
  (∀ nd, heap s !! k = Some nd → later nd (f nd)) → grown s (upd k f s).
Proof.
  intros Hf. destruct (grown_refl s) as (_ & P & T). split_and!; [|done|done].
  intros j nd Hj. simpl. destruct (decide (k = j)) as [->|Hne].
  - rewrite list_lookup_alter_eq, Hj. simpl. exists (f nd). split; [done|].
    by apply Hf.
  - rewrite list_lookup_alter_ne by done. exists nd. split; [done|apply later_refl].
Qed.

Lemma settle_final v p : p ≠ Pending → settle v p = p.
Proof. by destruct p. Qed.

(** A deferred is settled. *)
Lemma grown_settle v c s :
  grown s (set_promises (alter (settle v) c (promises s)) s).
Proof.
  destruct (grown_refl s) as (H & _ & T). split_and!; [done| |done].
  intros j p Hj. simpl. destruct (decide (c = j)) as [->|Hne].
  - rewrite list_lookup_alter_eq, Hj. simpl. exists (settle v p).
    split; [done|]. apply settle_final.
  - rewrite list_lookup_alter_ne by done. by exists p.
Qed.

Lemma grown_deferred s : grown s (deferred s).2.
Proof.
  destruct (grown_refl s) as (H & _ & T). split_and!; [done| |done].
  intros j p Hj. simpl. exists p. split; [|done].
  by apply lookup_app_l_Some.
Qed.

Lemma grown_alloc nd s : grown s (alloc nd s).2.
Proof.
  destruct (grown_refl s) as (_ & P & T). split_and!; [|done|done].
  intros j nd' Hj. simpl. exists nd'. split; [|apply later_refl].
  by apply lookup_app_l_Some.
Qed.

Lemma grown_relinked s s' : relinked s s' → grown s s'.
Proof.
  intros (Hs & Hf & _ & _ & _ & _ & _ & _ & _ & Hp & Ht). split_and!.
  - intros k nd Hk. specialize (Hs k). specialize (Hf k).
    rewrite Hk in Hs, Hf. destruct (heap s' !! k) as [nd'|]; [|done].
    exists nd'. split; [done|]. simpl in Hs, Hf.
    apply (later_links (λ _, nd')); congruence.
  - intros c p Hc. exists p. by rewrite Hp.
  - exists []. by rewrite Ht, app_nil_r.
Qed.

Lemma grown_clock_now s : grown s (clock_now s).2.
Proof.
  unfold clock_now. destruct (AnimationClock._isPaused (_clock s)); by apply grown_same.
Qed.

Lemma grown_resolve n c s : grown s (resolve n c s).
Proof.
  unfold resolve. eapply grown_trans; [apply (grown_log (EvOnCompleted n c))|].
  apply (grown_settle Resolved c (log (EvOnCompleted n c) s)).
Qed.

Lemma grown_reject n c e s : grown s (reject n c e s).
Proof.
  unfold reject. eapply grown_trans; [apply (grown_log (EvOnError n c e))|].
  apply (grown_settle (Rejected e) c (log (EvOnError n c e) s)).
Qed.

Lemma grown_fire n s : grown s (fire_onCompleted n s).
Proof.
  unfold fire_onCompleted.
  destruct (heap s !! n ≫= Node._onCompleted); [apply grown_resolve|apply grown_refl].
Qed.

Lemma grown_applyAnimation n nd p s : grown s (_applyAnimation n nd p s).2.
Proof.
  unfold _applyAnimation.
  destruct (Node.animator nd); [|apply grown_refl].
  destruct (Node.timing nd) as [timing|]; [|apply grown_log].
  cbv zeta. destruct (timing p); simpl; [|apply grown_log].
  eapply grown_trans; apply grown_log.
Qed.

Lemma grown_processAnimationFrame ts n s :
  grown s (_processAnimationFrame ts n s).2.
Proof.
  unfold _processAnimationFrame.
  destruct (heap s !! n) as [nd|]; [|apply grown_refl].
  pose proof (grown_applyAnimation n nd (_calculateProgress ts nd) s) as H.
  by destruct (_applyAnimation n nd (_calculateProgress ts nd) s) as [[] ?].
Qed.

Lemma grown_handleError e n s : grown s (_handleError e n s).
Proof.
  unfold _handleError. cbv zeta.
  assert (grown s (upd n (Node.set_error true) s)) as H1.
  { apply grown_upd. intros nd _. by split_and!. }
  destruct (heap (upd n (Node.set_error true) s) !! n ≫= Node._onError) as [c|];
    [|done].
  eapply grown_trans; [exact H1|]. apply grown_reject.
Qed.

Lemma grown_tick ts n s : grown s (_tick ts n s).2.
Proof.
  unfold _tick.
  destruct (heap s !! n) as [nd|] eqn:Hn; [|apply grown_refl].
  destruct (Node._completed nd || Node._error nd); [apply grown_refl|].
  cbv zeta.
  assert (grown s (if Node._started nd then s else _initializeAnimation n s))
    as H1.
  { destruct (Node._started nd) eqn:Hst; [apply grown_refl|].
    unfold _initializeAnimation.
    pose proof (grown_clock_now s) as H0.
    assert (heap (clock_now s).2 = heap s) as Hh.
    { unfold clock_now. by destruct (AnimationClock._isPaused (_clock s)). }
    destruct (clock_now s) as [t s1]. simpl in *.
    eapply grown_trans; [exact H0|]. apply grown_upd.
    intros nd'. rewrite Hh, Hn. intros [= <-].
    split_and!; try done. by rewrite Hst. }
  set (s1 := if Node._started nd then s else _initializeAnimation n s) in *.
  pose proof (grown_processAnimationFrame ts n s1) as H2.
  destruct (_processAnimationFrame ts n s1) as [[b|e] s2]; simpl in *.
  - by eapply grown_trans.
  - eapply grown_trans; [exact H1|]. eapply grown_trans; [exact H2|].
    apply grown_handleError.
Qed.

Lemma grown_set_completed n s : grown s (upd n (Node.set_completed true) s).
Proof. apply grown_upd. intros nd _. by split_and!. Qed.

Lemma grown_remove n s : grown s (_remove n s).
Proof.
  rewrite remove_unlink. eapply grown_trans; [|apply grown_fire].
  apply grown_relinked, relinked_unlink.
Qed.

Lemma grown_replace n m s : grown s (_replace n m s).
Proof.
  rewrite replace_splice. eapply grown_trans; [|apply grown_fire].
  apply grown_relinked, relinked_splice.
Qed.

Lemma grown_complete n s : grown s (_complete n s).
Proof.
  unfold _complete.
  destruct (heap s !! n) as [nd|]; [|apply grown_refl].
  destruct (Node._completed nd); [apply grown_refl|]. cbv zeta.
  eapply grown_trans; [apply grown_set_completed|].
  destruct (Node._subNode nd) as [m|]; [|apply grown_remove].
  destruct (negb (Node._error nd)); [apply grown_replace|apply grown_remove].
Qed.

Lemma grown_revoke_node n s : grown s (revoke_node n s).
Proof.
  unfold revoke_node.
  destruct (heap s !! n) as [nd|]; [|apply grown_refl].
  destruct (Node._completed nd); [apply grown_refl|].
  eapply grown_trans; [apply grown_set_completed|apply grown_remove].
Qed.

Lemma grown_revokeSubNodes_loop fuel cur s s' :
  _revokeSubNodes_loop fuel cur s = Some s' → grown s s'.
Proof.
  revert cur s. induction fuel as [|fuel IH]; intros cur s.
  { destruct cur; [done|]. intros [= <-]. apply grown_refl. }
  destruct cur as [x|]; [|intros [= <-]; apply grown_refl].
  simpl. intros Hr. eapply grown_trans; [apply grown_revoke_node|].
  by eapply IH.
Qed.

Lemma grown_revoke fuel n s s' : revoke fuel n s = Some s' → grown s s'.
Proof.
  unfold revoke, _revokeSubNodes. intros Hr.
  eapply grown_trans; [apply grown_revoke_node|].
  by eapply grown_revokeSubNodes_loop.
Qed.

Lemma grown_processNodes_loop fuel ts cur dn s r :
  _processNodes_loop fuel ts cur dn s = Some r → grown s r.2.
Proof.
  revert cur dn s. induction fuel as [|fuel IH]; intros cur dn s.
  { destruct cur; [done|]. intros [= <-]. apply grown_refl. }
  destruct cur as [x|]; [|intros [= <-]; apply grown_refl].
  simpl. pose proof (grown_tick ts x (log (EvTick x ts) s)) as H1.
  destruct (_tick ts x (log (EvTick x ts) s)) as [b s1]. simpl in H1.
  intros Hr. eapply grown_trans; [apply (grown_log (EvTick x ts))|].
  eapply grown_trans; [exact H1|]. by eapply IH.
Qed.

Lemma grown_completeNodes dn s : grown s (_completeNodes dn s).
Proof.
  revert s. induction dn as [|n dn IH]; intros s; [apply grown_refl|].
  rewrite completeNodes_cons.
  eapply grown_trans; [apply (grown_log (EvComplete n))|].
  eapply grown_trans; [apply grown_complete|apply IH].
Qed.

Lemma grown_poll fuel s r : _poll fuel s = Some r → grown s r.2.
Proof.
  unfold _poll.
  destruct (paused s || bool_decide (_nextNode s = None)).
  { intros [= <-]. apply grown_refl. }
  pose proof (grown_clock_now s) as H0.
  destruct (clock_now s) as [now s0]. simpl in H0.
  unfold _processNodes.
  destruct (_processNodes_loop fuel now (_nextNode s0) [] s0) as [[dn s1]|] eqn:E1;
    [|done].
  pose proof (grown_processNodes_loop _ _ _ _ _ _ E1) as H1. simpl in H1. simpl.
  set (s2 := match dn with [] => s1 | _ => _completeNodes dn s1 end).
  assert (grown s1 s2) as H2.
  { unfold s2. destruct dn; [apply grown_refl|apply grown_completeNodes]. }
  intros [= <-]. simpl.
  eapply grown_trans; [exact H0|]. eapply grown_trans; [exact H1|].
  eapply grown_trans; [exact H2|].
  destruct (negb (bool_decide (_nextNode s2 ≠ None))); [|apply grown_refl].
  by apply grown_same.
Qed.

Lemma grown_reset s : grown s (reset s).
Proof. destruct (reset_heap s) as (? & _ & _ & ? & ?). by apply grown_same. Qed.

Lemma grown_start s : grown s (start s).
Proof. destruct (start_heap s) as (? & _ & _ & ? & ?). by apply grown_same. Qed.

Lemma grown_pause s : grown s (pause s).
Proof. destruct (pause_heap s) as (? & _ & _ & ? & ?). by apply grown_same. Qed.

Lemma grown_resume s : grown s (resume s).
Proof. destruct (resume_heap s) as (? & _ & _ & ? & ?). by apply grown_same. Qed.

Lemma grown_loop fuel s s' : loop fuel s = Some s' → grown s s'.
Proof.
  unfold loop.
  destruct (_poll fuel s) as [[more s1]|] eqn:E; [|done].
  pose proof (grown_poll _ _ _ E) as H1. simpl in *.
  destruct more; intros [= <-].
  - eapply grown_trans; [exact H1|]. by apply grown_same.
  - eapply grown_trans; [exact H1|]. unfold _cleanup.
    eapply grown_trans; [|apply grown_reset]. by apply grown_same.
Qed.

Lemma grown_frame fuel s s' : frame fuel s = Some s' → grown s s'.
Proof.
  unfold frame.
  assert (grown s (set_raf (raf_next s) [] s)) as H0 by by apply grown_same.
  revert H0. generalize (set_raf (raf_next s) [] s) as s0.
  generalize (raf_pending s) as ids.
  induction ids as [|id ids IH]; intros s0 H0; simpl.
  { by intros [= <-]. }
  destruct (loop fuel s0) as [s1|] eqn:E; cycle 1.
  { simpl. intros H. exfalso. clear -H.
    induction ids as [|? ids IH]; [done|]. by apply IH. }
  simpl. pose proof (grown_loop _ _ _ E) as H1.
  apply IH. by eapply grown_trans.
Qed.

(** The loop of [_createAndLinkChildNodes] assigns to [cur] and to the
    nodes it creates. *)
Lemma linkChildNodes_old inits : ∀ cur d s,
  let r := linkChildNodes cur inits d s in
  (∀ k, k < length (heap s) → k ≠ cur → heap r.2 !! k = heap s !! k) ∧
  (r.1 = cur ∨ length (heap s) ≤ r.1) ∧
  length (heap s) ≤ length (heap r.2) ∧
  promises r.2 = promises s ∧ trace r.2 = trace s.
Proof.
  induction inits as [|init inits IH]; intros cur d s.
  { simpl. split_and!; [done|by left|lia|done|done]. }
  simpl. set (nd := Node.new _ _ _ _ _).
  set (s1 := upd cur _ _).
  destruct (IH (length (heap s)) d s1) as (Ho & Hr & Hl & Hp & Ht).
  assert (length (heap s1) = S (length (heap s))) as Hlen.
  { unfold s1. simpl. rewrite length_alter, length_app. simpl. lia. }
  split_and!.
  - intros k Hk Hne. rewrite Ho by lia. unfold s1. simpl.
    rewrite list_lookup_alter_ne by done. by apply lookup_app_l.
  - right. destruct Hr as [->|Hr]; lia.
  - lia.
  - by rewrite Hp.
  - by rewrite Ht.
Qed.

Lemma grown_enqueue inits s h s' :
  enqueue inits s = Some (h, s') → grown s s'.
Proof.
  unfold enqueue.
  destruct (_normalizeAnimationInitials inits) as [|first rest]; [done|].
  pose proof (grown_deferred s) as H1.
  assert (heap (deferred s).2 = heap s) as Hh1 by done.
  destruct (deferred s) as [d s1]. simpl in H1, Hh1.
  unfold _createRootNode.
  set (nd := Node.new _ _ _ _ _).
  pose proof (grown_alloc nd s1) as H2.
  assert ((alloc nd s1).1 = length (heap s) ∧
          length (heap (alloc nd s1).2) = S (length (heap s))) as [Hroot Hl2].
  { simpl. rewrite length_app, Hh1. simpl. split; [done|lia]. }
  destruct (alloc nd s1) as [root s2]. simpl in H2, Hroot, Hl2.
  assert (relinked s2 (_linkRootNode root s2)) as H3.
  { unfold _linkRootNode. cbv zeta. repeat case_match; relink. }
  set (s3 := _linkRootNode root s2) in *.
  assert (length (heap s3) = S (length (heap s))) as Hl3.
  { rewrite <- Hl2. unfold s3, _linkRootNode. cbv zeta.
    repeat case_match; simpl; by rewrite ?length_alter. }
  clearbody s3. unfold _createAndLinkChildNodes.
  destruct (linkChildNodes_old rest root d s3) as (Ho & Hr & _ & Hp & Ht).
  destruct (linkChildNodes root rest d s3) as [cur s4]. simpl in Ho, Hr, Hp, Ht.
  set (s5 := upd cur (Node.set_onCompleted (Some d)) s4) in *.
  assert (grown s s3) as H13.
  { eapply grown_trans; [exact H1|]. eapply grown_trans; [exact H2|].
    by apply grown_relinked. }
  assert (grown s s5) as H.
  { destruct H13 as (Hn3 & Hp3 & Ht3). split_and!.
    - intros k nd0 Hk. destruct (Hn3 k nd0 Hk) as (nd' & Hk' & L).
      exists nd'. split; [|done].
      apply lookup_lt_Some in Hk. unfold s5. simpl.
      rewrite list_lookup_alter_ne by lia. rewrite Ho by lia. done.
    - intros c p Hc. unfold s5. simpl. rewrite Hp. by apply Hp3.
    - unfold s5. simpl. by rewrite Ht. }
  assert (∀ b : bool, grown s (if b then start s5 else s5)) as Hb.
  { intros []; [|exact H]. eapply grown_trans; [exact H|apply grown_start]. }
  intros [= _ <-]. apply Hb.
Qed.

Lemma grown_step fuel o s s' : step fuel o s = Some s' → grown s s'.
Proof.
  destruct o; simpl.
  - destruct (enqueue inits s) as [[h s1]|] eqn:E; intros [= <-].
    + by eapply grown_enqueue.
    + apply grown_refl.
  - apply grown_frame.
  - intros [= <-]. apply grown_start.
  - intros [= <-]. apply grown_pause.
  - intros [= <-]. apply grown_resume.
  - intros [= <-]. apply grown_reset.
  - apply grown_revoke.
Qed.

Lemma grown_run fuel ops s s' : run fuel ops s = Some s' → grown s s'.
Proof.
  revert s. induction ops as [|o ops IH]; intros s; simpl.
  { intros [= <-]. apply grown_refl. }
  destruct (step fuel o s) as [s1|] eqn:E; [|done]. simpl.
  intros Hr. eapply grown_trans; [by eapply grown_step|by apply IH].
Qed.

(** X3: whatever is done to the scheduler, a node stays in the store with
    the duration, effect, timing, error callback, next phase and completion
    callback it had; its flags [started], [completed] and [error] are never
    cleared once set, and the start time of a started node is kept. *)
Theorem node_fields_fixed_flags_latched fuel ops s s' k nd :
  run fuel ops s = Some s' → heap s !! k = Some nd →
  ∃ nd', heap s' !! k = Some nd' ∧
    Node.duration nd' = Node.duration nd ∧
    Node.animator nd' = Node.animator nd ∧
    Node.timing nd' = Node.timing nd ∧
    Node._onError nd' = Node._onError nd ∧
    Node._subNode nd' = Node._subNode nd ∧
    Node._onCompleted nd' = Node._onCompleted nd ∧
    (Node._started nd = true →
       Node._started nd' = true ∧ Node._startTime nd' = Node._startTime nd) ∧
    (Node._completed nd = true → Node._completed nd' = true) ∧
    (Node._error nd = true → Node._error nd' = true).
Proof.
  intros Hr Hk. destruct (grown_run _ _ _ _ Hr) as (H & _).
  destruct (H k nd Hk) as (nd' & Hk' & Hs & Hrest).
  exists nd'. unfold static in Hs. injection Hs as H1 H2 H3 H4 H5 H6.
  destruct Hrest as (Hst & Hc & He). by split_and!.
Qed.

Lemma node_fields_fixed_flags_latched_witness :
  ∃ nd', heap second_phase_thrown !! 1 = Some nd' ∧
    Node._subNode nd' = None ∧ Node._onCompleted nd' = Some 0.
Proof.
  destruct (node_fields_fixed_flags_latched 10 (drop 1 second_phase_throws)
              (two_phases noop (throwing 7)) second_phase_thrown 1
              (Node.mk (ms 20) (Some (throwing 7)) None (Some 0) false None
                 false false None (Some 0) None None))
    as (nd' & H & _ & _ & _ & _ & Hs & Hc & _).
  - vm_compute. reflexivity.
  - vm_compute. reflexivity.
  - exists nd'. by split_and!.
Defined.

(** X4: a deferred settles at most once: once it is resolved or rejected,
    nothing that is done to the scheduler changes it. *)
Theorem settled_deferred_is_final fuel ops s s' c p :
  run fuel ops s = Some s' → promises s !! c = Some p → p ≠ Pending →
  promises s' !! c = Some p.
Proof.
  intros Hr Hc Hp. destruct (grown_run _ _ _ _ Hr) as (_ & P & _).
  destruct (P c p Hc) as (p' & Hc' & E). by rewrite Hc', E.
Qed.

Lemma settled_deferred_is_final_witness :
  (run 10 [OpRevoke 0; OpFrame; OpFrame] second_phase_thrown
     ≫= λ s', promises s' !! 0) = Some (Rejected 7).
Proof.
  destruct (run 10 [OpRevoke 0; OpFrame; OpFrame] second_phase_thrown)
    as [s'|] eqn:E; [|vm_compute in E; discriminate].
  simpl.
  apply (settled_deferred_is_final 10 [OpRevoke 0; OpFrame; OpFrame]
           second_phase_thrown s' 0 (Rejected 7) E).
  - vm_compute. reflexivity.
  - discriminate.
Defined.

(** ** Completed nodes *)

(** X2: once a node is completed, whether its phase ran to its end, erred
    or was revoked, it stays completed and its effect is never called
    again, whatever is done to the scheduler. *)
Theorem completed_node_is_left_alone fuel ops s s' m :
  completed m s = Some true → run fuel ops s = Some s' →
  completed m s' = Some true ∧ animator_calls m s' = animator_calls m s.
Proof.
  intros Hc Hr. split.
  - destruct (grown_run _ _ _ _ Hr) as (H & _).
    unfold completed in *. destruct (heap s !! m) as [nd|] eqn:E; [|done].
    destruct (H m nd E) as (nd' & -> & _ & _ & Hc' & _). simpl in *.
    injection Hc as Hc. by rewrite Hc'.
  - by destruct (run_quiet m fuel ops s s' (or_introl Hc) Hr) as [_ ->].
Qed.

Lemma completed_node_is_left_alone_witness :
  (run 10 [OpFrame; OpRevoke 0; OpAnimate [phase 20 noop]; OpFrame; OpFrame]
     second_phase_thrown ≫= λ s', Some (animator_calls 0 s'))
  = Some (animator_calls 0 second_phase_thrown).
Proof.
  destruct (run 10 [OpFrame; OpRevoke 0; OpAnimate [phase 20 noop]; OpFrame; OpFrame]
              second_phase_thrown) as [s'|] eqn:E; [|vm_compute in E; discriminate].
  simpl. f_equal.
  apply (completed_node_is_left_alone 10
           [OpFrame; OpRevoke 0; OpAnimate [phase 20 noop]; OpFrame; OpFrame]
           second_phase_thrown s' 0); [|exact E].
  vm_compute. reflexivity.
Defined.

(** ** When a tick reports the end of a phase *)







(** ** [sub] *)

Lemma sub_chain s ch : ∀ r i,
  static_chain s r ch → sub i r s = ch !! i.
Proof.
  unfold static_chain.
  induction ch as [|x ch IH]; intros r i; [intros H; by simpl in H|].
  intros [[= <-] Hc]. destruct i as [|i]; [reflexivity|]. simpl.
  destruct ch as [|y ch].
  - simpl in Hc. by rewrite Hc.
  - pose proof Hc as [Hy _]. rewrite Hy in Hc |- *. simpl. by apply IH.
Qed.

Lemma chain_from_grown s s' cur ch :
  grown s s' → (∀ n, n ∈ ch → is_Some (heap s !! n)) →
  chain_from s cur ch → chain_from s' cur ch.
Proof.
  intros (H & _). revert cur. induction ch as [|x ch IH]; intros cur Hex; [done|].
  intros [-> Hc]. split; [done|].
  assert (subOf x s' = subOf x s) as ->.
  { destruct (Hex x) as [nd Hx]; [by left|].
    destruct (H x nd Hx) as (nd' & Hx' & Hs & _).
    unfold subOf. rewrite Hx, Hx'. simpl.
    unfold static in Hs. by injection Hs as _ _ _ _ -> _. }
  apply IH; [|done]. intros n Hn. apply Hex. by right.
Qed.

(** X7: [sub(i)] on the handle of a chain returns its [i]-th phase, the
    handle itself for 0, and nothing beyond the last phase; the answer is
    the same at any later time, whatever was done to the scheduler. *)
Theorem sub_returns_phase fuel ops s s' r ch i :
  static_chain s r ch → (∀ n, n ∈ ch → is_Some (heap s !! n)) →
  run fuel ops s = Some s' →
  sub i r s = ch !! i ∧ sub i r s' = ch !! i.
Proof.
  intros Hc Hex Hr. split; [by apply sub_chain|].
  apply sub_chain. apply (chain_from_grown s); [by eapply grown_run|done|done].
Qed.

Lemma sub_returns_phase_witness :
  sub 1 0 (two_phases noop (throwing 7)) = Some 1 ∧
  sub 1 0 second_phase_thrown = Some 1.
Proof.
  apply (sub_returns_phase 10 (drop 1 second_phase_throws)
           (two_phases noop (throwing 7)) second_phase_thrown 0 [0; 1] 1).
  - vm_compute. done.
  - intros n Hn. apply elem_of_cons in Hn as [->|Hn]; [by eexists|].
    apply elem_of_cons in Hn as [->|Hn]; [by eexists|]. by apply elem_of_nil in Hn.
  - vm_compute. reflexivity.
Defined.

(** ** The clock across a pause *)

(** X12: a running clock paused at wall time [w1] and resumed at [w2]
    reads, at wall time [w], the value frozen by the pause plus the wall
    time since the resume, minus the offset it had before the pause; while
    paused it reads the frozen value.  With a zero offset, as after
    [reset], the time spent paused is left out and nothing else. *)
Theorem clock_pause_resume_reading w1 w2 w c :
  AnimationClock.isPaused c = false →
  let frozen := AnimationClock.now w1 c in
  AnimationClock.now w (AnimationClock.pause w1 c) = frozen ∧
  AnimationClock.isPaused (AnimationClock.resume w2 (AnimationClock.pause w1 c))
  = false ∧
  AnimationClock.now w (AnimationClock.resume w2 (AnimationClock.pause w1 c))
  = (frozen + (w - w2) - AnimationClock._offset c)%Qc.
Proof.
  intros Hp frozen. split_and!.
  - by apply clock_now_frozen.
  - unfold AnimationClock.isPaused in Hp.
    unfold AnimationClock.pause, AnimationClock.resume. by rewrite Hp.
  - by apply clock_now_after_resume.
Qed.

Lemma clock_pause_resume_reading_witness :
  AnimationClock.now (ms 30)
    (AnimationClock.resume (ms 20) (AnimationClock.pause (ms 10) AnimationClock.init))
  = (AnimationClock.now (ms 10) AnimationClock.init + (ms 30 - ms 20)
     - AnimationClock._offset AnimationClock.init)%Qc.
Proof.
  apply (clock_pause_resume_reading (ms 10) (ms 20) (ms 30) AnimationClock.init).
  reflexivity.
Defined.

(** ** The controls of the scheduler *)

Lemma start_start s : start (start s) = start s.
Proof.
  destruct (bool_decide (_timer s = None) && negb (paused s)) eqn:E; cycle 1.
  { assert (start s = s) as E' by (unfold start; by rewrite E). by rewrite !E'. }
  assert (start s = _launch (clock_reset s)) as -> by (unfold start; by rewrite E).
  apply andb_true_iff in E as [Et Ep]. apply bool_decide_eq_true in Et.
  unfold _launch. simpl. rewrite Et. simpl. reflexivity.
Qed.
Lemma pause_pause s : pause (pause s) = pause s.
Proof.
  destruct (_timer s) as [id|] eqn:Et; cycle 1.
  { assert (pause s = s) as E by (unfold pause; by rewrite Et). by rewrite !E. }
  destruct (negb (paused s)) eqn:Ep; cycle 1.
  { assert (pause s = s) as E by (unfold pause; by rewrite Et, Ep). by rewrite !E. }
  assert (pause s = set_timer None (clock_pause (cancelAnimationFrame id s))) as ->
    by (unfold pause; by rewrite Et, Ep).
  reflexivity.
Qed.
Lemma resume_resume s : resume (resume s) = resume s.
Proof.
  destruct (paused s) eqn:Ep; cycle 1.
  { assert (resume s = s) as E by (unfold resume; by rewrite Ep). by rewrite !E. }
  assert (resume s = _launch (clock_resume s)) as -> by (unfold resume; by rewrite Ep).
  unfold paused, AnimationClock.isPaused in Ep.
  assert (paused (_launch (clock_resume s)) = false) as E.
  { unfold _launch, clock_resume, paused, AnimationClock.isPaused. rewrite Ep. simpl.
    destruct (truthy (_timer s)); simpl; unfold AnimationClock.resume; by rewrite Ep. }
  unfold resume at 1. by rewrite E.
Qed.
Lemma reset_reset s : reset (reset s) = reset s.
Proof.
  unfold reset, _stopAnimation.
  destruct (_timer s) as [[|id]|] eqn:E; simpl; rewrite ?E; done.
Qed.

(** X13: [start], [pause], [resume] and [reset] are idempotent: a second
    call right after the first changes nothing. *)
Theorem controls_idempotent s :
  start (start s) = start s ∧ pause (pause s) = pause s ∧
  resume (resume s) = resume s ∧ reset (reset s) = reset s.
Proof.
  split_and!;
    [apply start_start|apply pause_pause|apply resume_resume|apply reset_reset].
Qed.

(** ** A paused scheduler *)

Lemma set_raf_same s : raf_pending s = [] → set_raf (raf_next s) [] s = s.
Proof. destruct s. simpl. by intros ->. Qed.

Lemma frame_idle fuel s : raf_pending s = [] → frame fuel s = Some s.
Proof. intros H. unfold frame. rewrite H. simpl. by rewrite set_raf_same. Qed.

Lemma run_frames_idle fuel k s :
  raf_pending s = [] → run fuel (replicate k OpFrame) s = Some s.
Proof.
  intros H. induction k as [|k IH]; [done|].
  simpl. rewrite frame_idle by done. simpl. exact IH.
Qed.

(** After [pause] the frame driver holds no callback of the scheduler:
    [pause] cancelled the one that was queued, or none was. *)
Lemma pause_unsubscribes s : subscribed s → raf_pending (pause s) = [].
Proof.
  intros Hs. unfold pause. destruct (_timer s) as [id|] eqn:Ht.
  - destruct (paused s) eqn:Hp; simpl; [by apply subscribed_paused|].
    assert (raf_pending (cancelAnimationFrame id s) = []) as E.
    { destruct Hs as [_ [Hpd|(_ & Hpd & Ht' & Hn)]]; simpl; rewrite Hpd; [done|].
      rewrite Ht in Ht'. injection Ht' as ->. apply filter_self. }
    unfold clock_pause. simpl in *.
    destruct (AnimationClock._isPaused (_clock s)); simpl; done.
  - destruct Hs as [_ [Hpd|(_ & _ & Ht' & _)]]; [done|congruence].
Qed.

Lemma pause_stops s k fuel :
  sound s →
  raf_pending (pause s) = [] ∧
  run fuel (replicate k OpFrame) (pause s) = Some (pause s).
Proof.
  intros (_ & _ & _ & Sb). pose proof (pause_unsubscribes s Sb) as H.
  split; [done|by apply run_frames_idle].
Qed.

(** X14: [pause] stops the scheduler.  In every state a fresh scheduler
    reaches by [animate], frame pulses, [start], [pause], [resume] and
    [reset], after a call of [pause] the frame driver holds no callback of
    the scheduler (the call cancelled the one that was queued, if any), so
    that any number of pulses leaves the whole state as it is: no node is
    ticked, no callback runs, the clock is not read. *)
Theorem scheduler_stands_still_after_pause wall fuel ops k :
  Forall gentle ops → nodes_of ops < fuel →
  ∃ s, run fuel ops (createTimeline wall) = Some s ∧
    raf_pending (pause s) = [] ∧
    run fuel (replicate k OpFrame) (pause s) = Some (pause s).
Proof.
  intros Ho Hf.
  destruct (run_sound fuel ops (createTimeline wall) (createTimeline_sound wall)
              Ho Hf) as (s & Hr & S & _).
  exists s. split; [done|]. by apply pause_stops.
Qed.

Lemma scheduler_stands_still_after_pause_witness :
  ∃ s, run 10 (chains_A_B ++ [OpFrame]) (createTimeline wall10) = Some s ∧
    raf_pending s = [2] ∧ raf_pending (pause s) = [] ∧
    run 10 (replicate 3 OpFrame) (pause s) = Some (pause s).
Proof.
  destruct (scheduler_stands_still_after_pause wall10 10 (chains_A_B ++ [OpFrame]) 3)
    as (s & Hr & Hp & Hrun).
  - repeat (apply Forall_cons_2; [exact I|]). apply Forall_nil_2.
  - vm_compute. lia.
  - exists s. split_and!; [exact Hr| |exact Hp|exact Hrun].
    pose (st := match run 10 (chains_A_B ++ [OpFrame]) (createTimeline wall10) with
                | Some s => s
                | None => createTimeline wall10
                end).
    assert (s = st) as -> by (unfold st; by rewrite Hr).
    vm_compute. reflexivity.
Defined.

(** ** The list after a sweep *)

(** The value a tick returns can be read off the node as the tick left
    it. *)
Lemma tick_ended ts x nd s :
  heap s !! x = Some nd →
  Node._completed nd || Node._error nd = false →
  is_Some (heap (_tick ts x s).2 !! x) ∧
  (_tick ts x s).1 = ended ts (_tick ts x s).2 x.
Proof.
  intros Hx Hd.
  destruct (tick_heap ts x s) as (g & Hh & Hg).
  pose proof (tick_spec ts x nd s Hx) as Ht. cbv zeta in Ht. rewrite Hd in Ht.
  destruct Ht as (_ & Hst & _ & _ & Hcb).
  assert (heap (_tick ts x s).2 !! x = Some (g nd)) as Hx'.
  { rewrite Hh, list_lookup_alter_eq, Hx. done. }
  split; [by eexists|].
  rewrite Hx' in Hst, Hcb. simpl in Hst, Hcb. injection Hst as Hst.
  unfold ended. rewrite Hx'.
  destruct (Hg nd) as (Hs & _). unfold static in Hs.
  injection Hs as Hdur _ _ _ _ _.
  assert (_calculateProgress ts (g nd) = rawProgress ts nd s) as ->.
  { unfold _calculateProgress, rawProgress. rewrite Hst, Hdur.
    by destruct (start_of_tick nd s). }
  destruct (callbacks nd (rawProgress ts nd s)); destruct Hcb as [-> He];
    injection He as ->; done.
Qed.

(** The nodes a pass collects are the nodes of the list whose tick
    returned true, in the order of the list. *)
Lemma tick_all_done ts l : ∀ dn s,
  NoDup l → (∀ x, x ∈ l → x ∉ dn) →
  (∀ x, x ∈ l → ∃ nd, heap s !! x = Some nd ∧
                  Node._completed nd || Node._error nd = false) →
  (tick_all ts l dn s).1
  = dn ++ filter (λ x, ended ts (tick_all ts l dn s).2 x = true) l.
Proof.
  induction l as [|x l IH]; intros dn s Hnd Hdn Hl.
  { simpl. by rewrite app_nil_r. }
  apply list.NoDup_cons in Hnd as [Hx Hnd].
  destruct (Hl x) as (nd & Hnx & Hfl); [by left|].
  pose proof (tick_ended ts x nd (log (EvTick x ts) s) Hnx Hfl) as [Hex Hb].
  pose proof (tick_view ts x (log (EvTick x ts) s)) as (_ & Ho & _).
  pose proof (tick_all_view ts l
                (if (_tick ts x (log (EvTick x ts) s)).1
                 then Set_add x dn else dn)
                (_tick ts x (log (EvTick x ts) s)).2) as (_ & Ho' & _).
  cbn [tick_all].
  destruct (_tick ts x (log (EvTick x ts) s)) as [b s1]. simpl in *.
  rewrite IH; [| done | |].
  - set (s2 := (tick_all ts l (if b then Set_add x dn else dn) s1).2) in *.
    assert (ended ts s2 x = b) as Hb'.
    { unfold ended. rewrite (Ho' x Hx). by rewrite Hb. }
    rewrite filter_cons. rewrite Hb'.
    destruct b.
    + rewrite decide_True by done. unfold Set_add.
      rewrite bool_decide_eq_false_2 by (apply Hdn; by left).
      by rewrite <- app_assoc.
    + rewrite decide_False by done. done.
  - intros y Hy. assert (y ≠ x) by (intros ->; done).
    assert (y ∉ dn) by (apply Hdn; by right).
    destruct b; [|done]. rewrite Set_add_elem. intros [?|?]; done.
  - intros y Hy. assert (x ≠ y) by (intros ->; done).
    rewrite Ho by done. apply Hl. by right.
Qed.

Lemma bind_ext_in {A B} (f g : A → list B) (l : list A) :
  (∀ x, x ∈ l → f x = g x) → l ≫= f = l ≫= g.
Proof.
  induction l as [|x l IH]; intros H; [done|].
  rewrite !bind_cons, (H x) by (by left). f_equal.
  apply IH. intros y Hy. apply H. by right.
Qed.

Lemma bind_singletons (f : nat → list nat) (l : list nat) :
  (∀ x, x ∈ l → f x = [x]) → l ≫= f = l.
Proof.
  induction l as [|x l IH]; intros H; [done|].
  rewrite bind_cons, (H x) by (by left). simpl. f_equal.
  apply IH. intros y Hy. apply H. by right.
Qed.

(** The second half of a sweep puts, at the place of every collected node,
    its next phase, or nothing. *)
Lemma completeNodes_successors dn : ∀ s l (f : nat → list nat),
  sweeping s l dn →
  (∀ x, x ∈ l →
     f x = if bool_decide (x ∈ dn)
           then match subOf x s, error x s with
                | Some m, Some false => [m]
                | _, _ => []
                end
           else [x]) →
  well_formed (_completeNodes dn s) (l ≫= f).
Proof.
  induction dn as [|n dn IH]; intros s l f Hsw Hf.
  { rewrite bind_singletons; [done|]. intros x Hx. by rewrite (Hf x Hx). }
  rewrite completeNodes_cons.
  set (s0 := log (EvComplete n) s).
  assert (sweeping s0 l (n :: dn)) as Hsw0 by done.
  destruct (sweeping_head _ _ _ _ Hsw0) as (l1 & l2 & nd & El & Hn & _ & Hm).
  destruct (complete_sweeping _ _ _ _ Hsw0) as (l1' & l2' & nd' & El' & Hn' & Hsw1).
  destruct Hsw as (Hd & _ & _ & _ & _ & ND & Hsub).
  pose proof Hd as (NDl & _).
  assert (l1' = l1 ∧ l2' = l2) as [-> ->].
  { rewrite El in El', NDl. clear -El' NDl.
    revert l1' El'. induction l1 as [|a l1 IH]; intros [|b l1'] E; simpl in *.
    - by injection E as ->.
    - injection E as <- E. exfalso. apply list.NoDup_cons in NDl as [Hn _].
      apply Hn. rewrite E. apply elem_of_app. right. by left.
    - injection E as -> E. exfalso. apply list.NoDup_cons in NDl as [Hn _].
      apply Hn. apply elem_of_app. right. by left.
    - injection E as -> E. apply list.NoDup_cons in NDl as [_ NDl].
      by destruct (IH NDl _ E) as [-> ->]. }
  assert (nd' = nd) as -> by congruence.
  subst l.
  pose proof (NoDup_middle _ _ _ NDl) as (N1 & N2 & _).
  apply list.NoDup_cons in ND as [Hndn ND].
  destruct (complete_view n s0) as (Hv & _).
  set (s1 := _complete n s0) in *.
  set (f' := λ x, if bool_decide (x ∈ dn)
                  then match subOf x s1, error x s1 with
                       | Some m, Some false => [m]
                       | _, _ => []
                       end
                  else [x]).
  assert (∀ y, y ≠ n → f' y = (if bool_decide (y ∈ n :: dn)
                              then match subOf y s, error y s with
                                   | Some m, Some false => [m]
                                   | _, _ => []
                                   end
                              else [y])) as Hf'.
  { intros y Hy. unfold f'.
    destruct (Hv y) as (-> & _ & _ & -> & _).
    change (subOf y s0) with (subOf y s). change (error y s0) with (error y s).
    destruct (decide (y ∈ dn)) as [Hin|Hin].
    - rewrite !bool_decide_eq_true_2; [done| by right |done].
    - rewrite !bool_decide_eq_false_2; [done| |done].
      intros [?|?]%elem_of_cons; done. }
  assert (completed_list l1 nd l2 ≫= f' = (l1 ++ n :: l2) ≫= f) as <-;
    [|by apply IH].
  assert (l1 ≫= f' = l1 ≫= f) as E1.
  { apply bind_ext_in. intros y Hy. rewrite Hf by (apply elem_of_app; by left).
    apply Hf'. by intros ->. }
  assert (l2 ≫= f' = l2 ≫= f) as E2.
  { apply bind_ext_in. intros y Hy.
    rewrite Hf by (apply elem_of_app; right; by right).
    apply Hf'. by intros ->. }
  assert (f n = match Node._subNode nd, Node._error nd with
                | Some m, false => [m]
                | _, _ => []
                end) as En.
  { rewrite Hf by (apply elem_of_app; right; by left).
    rewrite bool_decide_eq_true_2 by (by left).
    change (heap s0 !! n) with (heap s !! n) in Hn.
    unfold subOf, error. rewrite Hn. done. }
  rewrite bind_app, bind_cons, <- E1, <- E2, En.
  unfold completed_list.
  destruct (Node._subNode nd) as [m|] eqn:Es; [|by rewrite bind_app].
  destruct (Node._error nd); [by rewrite bind_app|].
  rewrite bind_app, bind_cons. f_equal. f_equal.
  unfold f'. rewrite bool_decide_eq_false_2; [done|].
  intros Hin. destruct (Hm m eq_refl) as (_ & _ & Hml & _).
  apply Hml, Hsub. by right.
Qed.

Lemma sweep_successors s l fuel :
  well_formed s l → paused s = false → length l < fuel →
  let now := AnimationClock.now (perf s (perf_reads s)) (_clock s) in
  let s0 := match l with [] => s | _ => (clock_now s).2 end in
  let s1 := (tick_all now l [] s0).2 in
  ∃ s', loop fuel s = Some s' ∧
    well_formed s' (l ≫= successor now s1) ∧
    (∀ x, x ∈ l → completed x s' = Some (ended now s1 x)) ∧
    (∀ x, error x s' = error x s1).
Proof.
  intros W Hp Hf now s0 s1.
  destruct (loop_well_formed s l fuel W Hp Hf)
    as (s' & l' & Hloop & _ & _ & Hh & _ & _ & Hhd & Htl & Hsw & _).
  fold now s0 in Hh, Hhd, Htl, Hsw.
  set (r := tick_all now l [] s0) in *.
  assert (heap s0 = heap s) as H0.
  { unfold s0. destruct l; [done|]. by destruct (clock_now_view s Hp) as (? & _). }
  pose proof W as (Hd & _ & _ & Hfl & _).
  assert (r.1 = filter (λ x, ended now r.2 x = true) l) as Hdone.
  { unfold r. rewrite tick_all_done; [done|apply Hd| |].
    - intros x _. apply not_elem_of_nil.
    - intros x Hx. destruct (Hfl x Hx) as (Hc & _ & He).
      specialize (He (not_elem_of_nil _)). rewrite H0.
      unfold completed, error in Hc, He.
      destruct (heap s !! x) as [nd|]; [|done].
      exists nd. split; [done|]. simpl in *.
      injection Hc as ->. by injection He as ->. }
  assert (∀ x, x ∈ l → x ∈ r.1 ↔ ended now r.2 x = true) as Hin.
  { intros x Hx. rewrite Hdone, list_elem_of_filter. tauto. }
  exists s'. split; [done|]. split_and!.
  - apply (sweeping_ext (_completeNodes r.1 r.2)); [done|done|done|].
    apply completeNodes_successors; [done|].
    intros x Hx. unfold successor. fold s1.
    destruct (ended now s1 x) eqn:E.
    + rewrite bool_decide_eq_true_2; [done|]. by apply Hin.
    + rewrite bool_decide_eq_false_2; [done|].
      intros H. apply (Hin x Hx) in H. unfold s1 in E. fold r in E. congruence.
  - intros x Hx. unfold completed. rewrite Hh. fold (completed x (_completeNodes r.1 r.2)).
    destruct (completeNodes_view r.1 r.2) as (_ & Hc & _).
    destruct (tick_all_view now l [] s0) as (Hv & _). fold r in Hv.
    destruct (Hfl x Hx) as (Hcx & _).
    assert (completed x r.2 = Some false) as Hcx'.
    { destruct (Hv x) as (_ & _ & _ & _ & _ & ->). unfold completed. by rewrite H0. }
    fold s1. destruct (ended now s1 x) eqn:E.
    + apply Hc; [by apply Hin|]. unfold completed in Hcx'.
      by destruct (heap r.2 !! x).
    + rewrite completeNodes_completed; [done|].
      intros H. apply (Hin x Hx) in H. unfold s1 in E. fold r in E. congruence.
  - intros x. unfold error at 1. rewrite Hh. fold (error x (_completeNodes r.1 r.2)).
    by destruct (completeNodes_view r.1 r.2) as (Hk & _); destruct (Hk x) as (_ & _ & _ & -> & _).
Qed.

(** X6: a sweep of a running scheduler in a well formed state returns,
    and the list it leaves is the list it found with, at the place of
    every node whose tick returned true (the node erred or its progress
    reached 1), the next phase of that node, or nothing when the node has
    no next phase or erred; the other nodes keep their place.  Exactly the
    nodes whose tick returned true are completed, and the second half of
    the sweep changes no error flag. *)
Theorem sweep_replaces_ended_nodes s l fuel :
  well_formed s l → paused s = false → length l < fuel →
  let now := AnimationClock.now (perf s (perf_reads s)) (_clock s) in
  let s0 := match l with [] => s | _ => (clock_now s).2 end in
  let s1 := (tick_all now l [] s0).2 in
  ∃ s', loop fuel s = Some s' ∧
    well_formed s' (l ≫= successor now s1) ∧
    (∀ x, x ∈ l → completed x s' = Some (ended now s1 x)) ∧
    (∀ x, error x s' = error x s1).
Proof. exact (sweep_successors s l fuel). Qed.

Lemma sweep_replaces_ended_nodes_witness :
  ∃ s', loop 2 (two_phases (throwing 7) noop) = Some s' ∧ well_formed s' [].
Proof.
  destruct (sweep_replaces_ended_nodes (two_phases (throwing 7) noop) [0] 2
              (two_phases_well_formed _ _) eq_refl ltac:(simpl; lia))
    as (s' & Hloop & W & _).
  exists s'. split; [exact Hloop|exact W].
Defined.

(** ** What [animate], [repeat] and [delay] create *)

Lemma linkChildNodes_segments inits : ∀ cur d s,
  cur < length (heap s) →
  ∀ i seg, inits !! i = Some seg →
    segment <$> heap (linkChildNodes cur inits d s).2 !! (length (heap s) + i)
    = Some seg.
Proof.
  induction inits as [|init inits IH]; intros cur d s Hcur i seg Hi; [done|].
  cbn [linkChildNodes alloc]. cbv zeta.
  set (N := length (heap s)).
  set (child := Node.new _ _ _ _ _).
  set (s1 := upd cur (Node.set_subNode (Some N)) (set_heap (heap s ++ [child]) s)).
  assert (length (heap s1) = S N) as Hl1.
  { unfold s1. simpl. rewrite length_alter, length_app. simpl. fold N. lia. }
  assert (heap s1 !! N = Some child) as Hn1.
  { unfold s1. simpl. rewrite list_lookup_alter_ne by (fold N in Hcur; lia).
    rewrite lookup_app_r by (fold N; lia). fold N. by rewrite Nat.sub_diag. }
  destruct i as [|i].
  - injection Hi as <-.
    destruct (linkChildNodes_spec inits N d s1) as (_ & _ & _ & Hat & _).
    { rewrite Hl1. lia. }
    rewrite Nat.add_0_r, Hat, Hn1.
    destruct init. by destruct inits.
  - replace (N + S i) with (length (heap s1) + i) by (rewrite Hl1; lia).
    apply IH; [rewrite Hl1; lia|done].
Qed.

(** The [i]-th node [enqueue] creates carries the [i]-th segment. *)
Lemma enqueue_segments inits s h s' :
  (∀ t, _tailNode s = Some t → t < length (heap s)) →
  enqueue inits s = Some (h, s') →
  ∀ i init, inits !! i = Some init →
    segment <$> heap s' !! (length (heap s) + i) = Some (normalize init).
Proof.
  intros Htail Henq i init Hi. revert Henq.
  unfold enqueue, _normalizeAnimationInitials.
  destruct inits as [|first0 rest0]; [done|].
  cbn [map]. set (first := normalize first0). set (rest := map normalize rest0).
  cbn [deferred _createRootNode alloc]. cbv zeta.
  set (N := length (heap s)). set (d := length (promises s)).
  set (s1 := set_promises (promises s ++ [Pending]) s).
  set (nd0 := Node.new _ _ _ _ _).
  set (s2 := set_heap (heap s1 ++ [nd0]) s1).
  set (s3 := _linkRootNode (length (heap s1)) s2).
  change (length (heap s1)) with N in *.
  assert (length (heap s3) = S N) as Hl3.
  { unfold s3, _linkRootNode. cbv zeta. simpl.
    destruct (_nextNode s); simpl; destruct (_tailNode s); simpl;
      rewrite ?length_alter, length_app; simpl; fold N; lia. }
  assert (heap s3 !! N = Some nd0) as Hn3.
  { unfold s3, _linkRootNode. cbv zeta. simpl.
    destruct (_nextNode s); simpl; destruct (_tailNode s) as [t|] eqn:Et; simpl;
      rewrite ?list_lookup_alter_ne by (specialize (Htail t eq_refl); fold N in Htail; lia);
      rewrite lookup_app_r by (fold N; lia); fold N; by rewrite Nat.sub_diag. }
  clearbody s3. unfold _createAndLinkChildNodes.
  destruct (linkChildNodes_spec rest N d s3) as (_ & _ & _ & Hat & _).
  { rewrite Hl3. lia. }
  pose proof (linkChildNodes_segments rest N d s3) as Hseg.
  rewrite Hl3 in Hseg.
  destruct (linkChildNodes N rest d s3) as [cur s4]. simpl in Hat, Hseg.
  set (s5 := upd cur (Node.set_onCompleted (Some d)) s4).
  assert (segment <$> heap s5 !! (N + i) = Some (normalize init)) as H5.
  { unfold s5. simpl. rewrite fmap_lookup_alter by done.
    destruct i as [|i].
    - injection Hi as <-. rewrite Nat.add_0_r, Hat, Hn3.
      unfold nd0, first. destruct (normalize first0). by destruct rest.
    - replace (N + S i) with (S N + i) by lia. apply Hseg; [lia|].
      unfold rest. rewrite list_lookup_fmap. simpl in Hi. by rewrite Hi. }
  intros [= _ <-].
  change (_isPolling s4) with (_isPolling s5).
  destruct (negb (_isPolling s5)); [|exact H5].
  destruct (start_heap s5) as (-> & _). exact H5.
Qed.

Lemma chain_seq s n : ∀ a,
  0 < n →
  (∀ i, i < n →
     subOf (a + i) s = if decide (S i < n) then Some (a + S i) else None) →
  chain_from s (Some a) (seq a n).
Proof.
  induction n as [|n IH]; intros a Hn Hsub; [lia|].
  simpl. split; [done|].
  pose proof (Hsub 0 ltac:(lia)) as H0. rewrite Nat.add_0_r in H0. rewrite H0.
  destruct n as [|n].
  - by rewrite decide_False by lia.
  - rewrite decide_True by lia. replace (a + 1) with (S a) by lia.
    apply IH; [lia|]. intros i Hi.
    replace (S a + i) with (a + S i) by lia. rewrite Hsub by lia.
    repeat case_decide; try lia; try done. f_equal. lia.
Qed.

Lemma enqueue_builds inits s l h s' :
  well_formed s l → bounded s → enqueue inits s = Some (h, s') →
  let N := length (heap s) in
  let d := length (promises s) in
  node h = N ∧ promise h = d ∧
  promises s' = promises s ++ [Pending] ∧
  length (heap s') = N + length inits ∧
  static_chain s' N (seq N (length inits)) ∧
  (∀ i init, inits !! i = Some init →
     segment <$> heap s' !! (N + i) = Some (normalize init) ∧
     started (N + i) s' = Some false ∧ completed (N + i) s' = Some false ∧
     error (N + i) s' = Some false ∧ chainOf (N + i) s' = Some d ∧
     callbackOf (N + i) s'
     = if decide (S i = length inits) then Some d else None) ∧
  well_formed s' (l ++ [N]) ∧
  (∀ k, k < N →
     static <$> heap s' !! k = static <$> heap s !! k ∧
     flags <$> heap s' !! k = flags <$> heap s !! k).
Proof.
  intros W B Henq N d.
  pose proof (enqueue_segments inits s h s' (λ t, bounded_tail s t B) Henq) as Hseg.
  destruct (enqueue_spec inits s h s' (λ t, bounded_tail s t B) Henq)
    as (K & s5 & HK & Hnode & Hprm & Hs' & Hprom & Hlen & Hold & Hnew & Hhead & Htail
        & _).
  fold N d in Hnode, Hprm, Hlen, Hold, Hnew, Hhead, Htail.
  pose proof (enqueued_well_formed s s5 K l W B Hprom Hlen Hold Hnew Hhead Htail)
    as W5.
  assert (heap s' = heap s5 ∧ promises s' = promises s5 ∧
          _nextNode s' = _nextNode s5 ∧ _tailNode s' = _tailNode s5)
    as (Hh & Hp & Hn & Ht).
  { rewrite Hs'. destruct (negb (_isPolling s5)); [|done].
    by destruct (start_heap s5) as (-> & -> & -> & _ & ->). }
  assert (∀ i, i ≤ K →
            started (N + i) s' = Some false ∧ completed (N + i) s' = Some false ∧
            error (N + i) s' = Some false ∧ chainOf (N + i) s' = Some d ∧
            subOf (N + i) s' = (if decide (i < K) then Some (N + S i) else None) ∧
            callbackOf (N + i) s' = (if decide (i = K) then Some d else None))
    as Hnodes.
  { intros i Hi. destruct (Hnew i Hi) as (nd & Hnd & Hc1 & Hc2 & Hc3 & Hc4 & _ & _ & Hc7 & Hc8).
    unfold started, completed, error, chainOf, subOf, callbackOf.
    rewrite Hh, Hnd. simpl. rewrite Hc1, Hc2, Hc3, Hc4, Hc7, Hc8. done. }
  split_and!; try done.
  - by rewrite Hp.
  - rewrite Hh, Hlen, HK. done.
  - rewrite HK. apply chain_seq; [lia|].
    intros i Hi. destruct (Hnodes i ltac:(lia)) as (_ & _ & _ & _ & -> & _).
    repeat case_decide; try lia; done.
  - intros i init Hi.
    assert (i ≤ K) as HiK.
    { apply lookup_lt_Some in Hi. lia. }
    destruct (Hnodes i HiK) as (? & ? & ? & ? & _ & Hcb).
    split_and!; try done; [by apply Hseg|].
    rewrite Hcb, HK. repeat case_decide; try lia; done.
  - by apply (sweeping_ext s5).
  - intros k Hk. rewrite Hh, (Hold k Hk).
    destruct (_tailNode s); [|done].
    split; by apply fmap_lookup_alter.
Qed.

(** X8: [animate] on a well formed scheduler, with at least one segment.
    It creates one node per segment, in order and after the nodes that
    exist; the [i]-th node carries duration, effect and timing of the
    [i]-th segment, is neither started, completed nor errored, and reports
    errors to a new pending deferred; each node has the next one as its
    next phase and only the last one has the completion callback.  The
    first node is appended to the list, and the nodes that existed keep
    their fields and flags (a list link apart). *)
Theorem animate_appends_chain inits s l h s' :
  well_formed s l → bounded s → enqueue inits s = Some (h, s') →
  let N := length (heap s) in
  let d := length (promises s) in
  node h = N ∧ promise h = d ∧
  promises s' = promises s ++ [Pending] ∧
  length (heap s') = N + length inits ∧
  static_chain s' N (seq N (length inits)) ∧
  (∀ i init, inits !! i = Some init →
     segment <$> heap s' !! (N + i) = Some (normalize init) ∧
     started (N + i) s' = Some false ∧ completed (N + i) s' = Some false ∧
     error (N + i) s' = Some false ∧ chainOf (N + i) s' = Some d ∧
     callbackOf (N + i) s'
     = if decide (S i = length inits) then Some d else None) ∧
  well_formed s' (l ++ [N]) ∧
  (∀ k, k < N →
     static <$> heap s' !! k = static <$> heap s !! k ∧
     flags <$> heap s' !! k = flags <$> heap s !! k).
Proof. exact (enqueue_builds inits s l h s'). Qed.

Lemma createTimeline_well_formed wall : well_formed (createTimeline wall) [].
Proof.
  apply well_formed_nil; [|done|done].
  split_and!; intros ? ?; unfold subOf, callbackOf; simpl; done.
Qed.

Lemma createTimeline_bounded wall : bounded (createTimeline wall).
Proof. by destruct (createTimeline_sound wall) as (_ & _ & B & _). Qed.

Lemma animate_appends_chain_witness :
  well_formed (two_phases noop noop) [0] ∧
  static_chain (two_phases noop noop) 0 [0; 1].
Proof.
  destruct (animate_appends_chain [phase 20 noop; phase 20 noop]
              (createTimeline wall10) []
              (mkAnimationPromise 0 0) (two_phases noop noop)
              (createTimeline_well_formed wall10) (createTimeline_bounded wall10)
              eq_refl) as (_ & _ & _ & _ & Hc & _ & W & _).
  split; [exact W|exact Hc].
Defined.

(** ** [repeat] *)

Lemma enqueue_None inits s : enqueue inits s = None ↔ inits = [].
Proof.
  unfold enqueue, _normalizeAnimationInitials.
  destruct inits as [|i inits]; [done|].
  cbn [map deferred _createRootNode alloc]. cbv zeta. done.
Qed.


(** On a count that is a natural number below 2^53 [ToLength] is the
    identity. *)
Lemma ToLength_nat (n : nat) :
  (Z.of_nat n < 2 ^ 53)%Z → ToLength (Num (Qc_of_Z (Z.of_nat n))) = Z.of_nat n.
Proof.
  intros Hn. unfold ToLength. simpl. rewrite Z.quot_1_r. lia.
Qed.






(** ** [delay] *)

Lemma tick_without_effect ts n nd s :
  heap s !! n = Some nd → Node.animator nd = None →
  trace (_tick ts n s).2 = trace s ∧ error n (_tick ts n s).2 = error n s.
Proof.
  intros Hn Ha.
  pose proof (tick_spec ts n nd s Hn) as Ht. cbv zeta in Ht.
  destruct (Node._completed nd || Node._error nd) eqn:Hd; [by rewrite Ht|].
  unfold callback_calls, error_calls, callbacks in Ht. rewrite Ha in Ht.
  destruct Ht as (_ & _ & _ & Htr & _ & He).
  split; [by rewrite Htr, app_nil_r|].
  unfold error. rewrite He, Hn. simpl.
  apply orb_false_iff in Hd as [_ ->]. done.
Qed.

Lemma delay_spec d s l :
  well_formed s l → bounded s →
  ∃ h s', delay d s = Some (h, s') ∧
    node h = length (heap s) ∧ promise h = length (promises s) ∧
    promises s' !! promise h = Some Pending ∧
    segment <$> heap s' !! node h = Some (mkSegment d None None) ∧
    subOf (node h) s' = None ∧ callbackOf (node h) s' = Some (promise h) ∧
    well_formed s' (l ++ [node h]) ∧
    ∀ fuel ops s'' ts, run fuel ops s' = Some s'' →
      trace (_tick ts (node h) s'').2 = trace s'' ∧
      error (node h) (_tick ts (node h) s'').2 = error (node h) s''.
Proof.
  intros W B. unfold delay.
  destruct (enqueue [animation d None None] s) as [[h s']|] eqn:E; cycle 1.
  { by apply enqueue_None in E. }
  destruct (enqueue_builds _ s l h s' W B E)
    as (Hn & Hp & Hprom & _ & Hch & Hnodes & W' & _).
  destruct (Hnodes 0 _ eq_refl) as (Hseg & _ & _ & _ & _ & Hcb).
  rewrite Nat.add_0_r in Hseg, Hcb. simpl in Hcb, Hch.
  exists h, s'. rewrite Hn, Hp. split_and!; try done.
  - rewrite Hprom. by rewrite lookup_app_r, Nat.sub_diag.
  - apply Hch.
  - intros fuel ops s'' ts Hr.
    destruct (heap s' !! length (heap s)) as [nd|] eqn:End; [|done].
    destruct (grown_run _ _ _ _ Hr) as (Hg & _).
    destruct (Hg _ nd End) as (nd' & Hnd' & Hst & _).
    apply (tick_without_effect ts _ nd'); [done|].
    unfold static in Hst. injection Hst as _ Ha _. rewrite Ha.
    simpl in Hseg. by injection Hseg as _ -> _.
Qed.

(** X10: [delay(d)] on a well formed scheduler never throws.  It appends
    a chain of one node of duration [d] without effect and timing, with a
    new pending deferred that the completion callback of the node
    resolves.  At any later time a tick of that node calls no caller code
    and sets no error flag. *)
Theorem delay_appends_silent_node d s l :
  well_formed s l → bounded s →
  ∃ h s', delay d s = Some (h, s') ∧
    node h = length (heap s) ∧ promise h = length (promises s) ∧
    promises s' !! promise h = Some Pending ∧
    segment <$> heap s' !! node h = Some (mkSegment d None None) ∧
    subOf (node h) s' = None ∧ callbackOf (node h) s' = Some (promise h) ∧
    well_formed s' (l ++ [node h]) ∧
    ∀ fuel ops s'' ts, run fuel ops s' = Some s'' →
      trace (_tick ts (node h) s'').2 = trace s'' ∧
      error (node h) (_tick ts (node h) s'').2 = error (node h) s''.
Proof. exact (delay_spec d s l). Qed.

Lemma delay_appends_silent_node_witness :
  ∃ h s', delay (ms 10) (createTimeline wall10) = Some (h, s') ∧
    node h = 0 ∧ promises s' !! promise h = Some Pending.
Proof.
  destruct (delay_appends_silent_node (ms 10) (createTimeline wall10) []
              (createTimeline_well_formed wall10) (createTimeline_bounded wall10))
    as (h & s' & Hd & Hn & _ & Hp & _).
  exists h, s'. split_and!; [exact Hd|exact Hn|exact Hp].
Defined.

(** ** [revoke(node, deep)] of the scheduler *)

Lemma searchInSubNodes_loop_chain fuel target s l : ∀ n cur,
  chain_from s cur l → length l < n →
  AnimationTimelineImpl._searchInSubNodes_loop fuel n cur target s
  = if bool_decide (target ∈ l)
    then s' ← revoke fuel target s; Some (true, s')
    else Some (false, s).
Proof.
  induction l as [|x l IH]; intros n cur.
  { intros Hc _. simpl in Hc. subst cur.
    rewrite bool_decide_eq_false_2 by apply not_elem_of_nil.
    by destruct n. }
  intros [-> Hc] Hn. simpl in Hn. destruct n as [|n]; [lia|].
  cbn [AnimationTimelineImpl._searchInSubNodes_loop].
  destruct (decide (x = target)) as [->|Hne].
  - rewrite !bool_decide_eq_true_2; [done|by left|done].
  - rewrite (bool_decide_eq_false_2 (x = target)) by done.
    rewrite IH; [|done|lia].
    destruct (decide (target ∈ l)) as [Hin|Hin].
    + rewrite !bool_decide_eq_true_2; [done|by right|done].
    + rewrite !bool_decide_eq_false_2; [done| |done].
      intros [?|?]%elem_of_cons; [by destruct Hne|done].
Qed.

Lemma scheduler_revoke_spec fuel n deep s ch :
  chain_from s (_nextNode s) ch → length ch < fuel →
  if bool_decide (head ch = Some n) || deep && bool_decide (n ∈ ch)
  then ∃ s', revoke fuel n s = Some s' ∧
         AnimationTimelineImpl.revoke fuel n deep s = Some (true, s')
  else AnimationTimelineImpl.revoke fuel n deep s = Some (false, s).
Proof.
  intros Hch Hf.
  unfold AnimationTimelineImpl.revoke, AnimationTimelineImpl._findAndRevokeNode.
  destruct ch as [|h rest].
  { simpl in Hch. rewrite Hch. simpl.
    rewrite andb_false_r. simpl. by destruct fuel. }
  pose proof Hch as [Hh Hrest]. rewrite Hh. rewrite Hh in Hch.
  destruct fuel as [|fuel']; [simpl in Hf; lia|].
  cbn [AnimationTimelineImpl._findAndRevokeNode_loop].
  assert (∀ m l1 l2, h :: rest = l1 ++ m :: l2 →
            revoke (S fuel') m s = Some (revoke_all (m :: l2) s)) as Hrev.
  { intros m l1 l2 E. apply revoke_chain.
    - unfold static_chain. apply (chain_from_app s (Some h) l1). by rewrite <- E.
    - apply (f_equal length) in E. rewrite length_app in E. simpl in *. lia. }
  destruct (decide (h = n)) as [->|Hne].
  - rewrite (bool_decide_eq_true_2 (n = n)) by done.
    rewrite (bool_decide_eq_true_2 (head (n :: rest) = Some n)) by done. simpl.
    rewrite (Hrev n [] rest eq_refl). simpl. by eexists.
  - rewrite (bool_decide_eq_false_2 (h = n)) by done.
    rewrite (bool_decide_eq_false_2 (head (h :: rest) = Some n))
      by (simpl; congruence).
    simpl. destruct deep; simpl; [|by destruct fuel'].
    unfold AnimationTimelineImpl._searchInSubNodes.
    rewrite (searchInSubNodes_loop_chain (S fuel') n s rest);
      [|done|simpl in Hf; lia].
    destruct (decide (n ∈ rest)) as [Hin|Hin].
    + rewrite (bool_decide_eq_true_2 (n ∈ rest)) by done.
      rewrite (bool_decide_eq_true_2 (n ∈ h :: rest)) by (by right).
      destruct (list_elem_of_split _ _ Hin) as (l1 & l2 & E).
      rewrite (Hrev n (h :: l1) l2) by (by rewrite E). simpl. by eexists.
    + rewrite (bool_decide_eq_false_2 (n ∈ rest)) by done.
      rewrite (bool_decide_eq_false_2 (n ∈ h :: rest)).
      * simpl. by destruct fuel'.
      * intros [?|?]%elem_of_cons; [by destruct Hne|done].
Qed.

(** X11: [revoke(node, deep)] of the scheduler looks at the head of the
    list only, as its walk reads [nextNode] where the link is [_nextNode].
    With [ch] the static chain of the head: the call revokes [node] and
    returns true when [node] is the head, or when [deep] is set and [node]
    is a later phase of the head; for every other node, also one on the
    list, it returns false and changes nothing. *)
Theorem scheduler_revoke_finds_head_chain_only fuel n deep s ch :
  chain_from s (_nextNode s) ch → length ch < fuel →
  if bool_decide (head ch = Some n) || deep && bool_decide (n ∈ ch)
  then ∃ s', revoke fuel n s = Some s' ∧
         AnimationTimelineImpl.revoke fuel n deep s = Some (true, s')
  else AnimationTimelineImpl.revoke fuel n deep s = Some (false, s).
Proof. exact (scheduler_revoke_spec fuel n deep s ch). Qed.

Lemma scheduler_revoke_finds_head_chain_only_witness :
  active two_chains [0; 2] ∧
  AnimationTimelineImpl.revoke 5 2 true two_chains = Some (false, two_chains).
Proof.
  split; [vm_compute; done|].
  apply (scheduler_revoke_finds_head_chain_only 5 2 true two_chains [0; 1]).
  - vm_compute. done.
  - simpl. lia.
Defined.

(** ** Revoking twice *)

Lemma revoke_again fuel r ch s :
  static_chain s r ch → (∀ n, n ∈ ch → is_Some (heap s !! n)) →
  length ch < fuel →
  ∃ s', revoke fuel r s = Some s' ∧ revoke fuel r s' = Some s' ∧
    ((∀ n, n ∈ ch → completed n s = Some true) → s' = s).
Proof.
  intros Hch Hex Hf. exists (revoke_all ch s).
  split; [by apply revoke_chain|]. split; [|by apply revoke_all_done].
  assert (static_chain (revoke_all ch s) r ch) as Hch'.
  { unfold static_chain. apply (chain_from_view s); [|done].
    intros k. destruct (revoke_all_view ch s k) as (Hs & _).
    by destruct (static_view _ _ _ Hs). }
  rewrite (revoke_chain fuel r ch _ Hch' Hf). f_equal.
  apply revoke_all_done. intros n Hn.
  destruct (revoke_all_view ch s n) as (_ & _ & _ & Hc). by apply Hc; [|apply Hex].
Qed.

(** X15: [revoke] on the handle of a chain is idempotent: a second call
    right after the first changes nothing and runs no callback; and on a
    chain whose phases are all completed the first call changes nothing
    either. *)
Theorem revoke_twice_is_revoke_once fuel r ch s :
  static_chain s r ch → (∀ n, n ∈ ch → is_Some (heap s !! n)) →
  length ch < fuel →
  ∃ s', revoke fuel r s = Some s' ∧ revoke fuel r s' = Some s' ∧
    ((∀ n, n ∈ ch → completed n s = Some true) → s' = s).
Proof. exact (revoke_again fuel r ch s). Qed.

Lemma revoke_twice_is_revoke_once_witness :
  ∃ s', revoke 3 0 (two_phases noop noop) = Some s' ∧ revoke 3 0 s' = Some s'.
Proof.
  destruct (revoke_twice_is_revoke_once 3 0 [0; 1] (two_phases noop noop))
    as (s' & H1 & H2 & _).
  - vm_compute. done.
  - intros n Hn. apply elem_of_cons in Hn as [->|Hn]; [by eexists|].
    apply elem_of_cons in Hn as [->|Hn]; [by eexists|]. by apply elem_of_nil in Hn.
  - simpl. lia.
  - exists s'. split; [exact H1|exact H2].
Defined.

(** ** A scheduler with work is subscribed *)

Lemma createTimeline_live wall : live (createTimeline wall).
Proof. split_and!; try done. Qed.

Lemma launched_live s :
  _timer s = None → paused s = false → 0 < raf_next s → live (_launch s).
Proof.
  intros Ht Hp Hn. unfold _launch. rewrite Ht. simpl.
  split_and!; simpl; try done.
  - unfold paused in *. simpl. by rewrite Hp.
  - intros _ _. by destruct (raf_pending s).
  - intros id [= <-]. done.
Qed.

Lemma start_live s : subscribed s → live s → live (start s).
Proof.
  intros [Hn _] L. unfold start.
  destruct (bool_decide (_timer s = None)) eqn:Et; [|done].
  destruct (negb (paused s)) eqn:Ep; [|done]. simpl.
  apply bool_decide_eq_true in Et. by apply launched_live.
Qed.

Lemma pause_live s : live s → live (pause s).
Proof.
  intros L. pose proof L as (L1 & L2 & L3 & L4 & L5). unfold pause.
  destruct (_timer s) as [id|] eqn:Et; [|done].
  destruct (negb (paused s)) eqn:Ep; [|done].
  apply negb_true_iff in Ep.
  assert (_isPolling s = true) as Hpo.
  { destruct (_isPolling s) eqn:E; [done|]. by specialize (L2 eq_refl). }
  assert (paused (set_timer None (clock_pause (cancelAnimationFrame id s))) = true)
    as Hp'.
  { unfold paused, AnimationClock.isPaused, clock_pause in *. simpl. rewrite Ep.
    simpl. unfold AnimationClock.pause. by rewrite Ep. }
  assert (_isPolling (set_timer None (clock_pause (cancelAnimationFrame id s)))
          = _isPolling s ∧
          _nextNode (set_timer None (clock_pause (cancelAnimationFrame id s)))
          = _nextNode s) as [Hpo' Hn'].
  { unfold clock_pause. simpl.
    by destruct (AnimationClock._isPaused (_clock s)). }
  split_and!; rewrite ?Hp', ?Hpo', ?Hn'; try done.
Qed.

Lemma resume_live s : subscribed s → live s → live (resume s).
Proof.
  intros [Hn _] L. pose proof L as (L1 & _). unfold resume.
  destruct (paused s) eqn:Ep; [|done].
  destruct (L1 eq_refl) as [_ Ht].
  unfold paused, AnimationClock.isPaused in Ep.
  apply launched_live.
  - unfold clock_resume. by rewrite Ep.
  - unfold clock_resume, paused, AnimationClock.isPaused. rewrite Ep. simpl.
    unfold AnimationClock.resume. by rewrite Ep.
  - unfold clock_resume. by rewrite Ep.
Qed.

Lemma reset_live s : live s → live (reset s).
Proof.
  intros (_ & _ & _ & _ & L5). unfold reset, _stopAnimation.
  destruct (_timer s) as [[|id]|] eqn:Et.
  - specialize (L5 0 eq_refl). lia.
  - split_and!; simpl; try done.
  - split_and!; simpl; rewrite ?Et; try done.
Qed.

Lemma enqueue_live inits s h s' :
  sound s → live s → enqueue inits s = Some (h, s') → live s'.
Proof.
  intros (_ & _ & B & Sb) L Henq. pose proof L as (L1 & L2 & L3 & L4 & L5).
  destruct (enqueue_spec inits s h s' (λ t, bounded_tail s t B) Henq)
    as (K & s5 & _ & _ & _ & -> & _ & _ & _ & _ & _ & _
        & Htm & Hck & Hpo & Hrn & Hrp & _).
  assert (paused s5 = paused s) as Hp5 by (unfold paused; by rewrite Hck).
  destruct (_isPolling s5) eqn:E; simpl.
  - symmetry in Hpo.
    split_and!; rewrite ?Hp5, ?Htm, ?Hrp, ?E; try done.
    + intros Hp. by destruct (L1 Hp).
    + intros Hp _. by apply L3.
  - symmetry in Hpo.
    assert (paused s = false) as Hp.
    { destruct (paused s) eqn:Ep; [|done]. destruct (L1 eq_refl). congruence. }
    unfold start. rewrite Htm, (L2 Hpo), Hp5, Hp. simpl.
    apply launched_live.
    + simpl. rewrite Htm. by apply L2.
    + done.
    + simpl. rewrite Hrn. apply Sb.
Qed.

Lemma loop_live s l fuel s' :
  paused s = false → active s l → length l < fuel →
  (_nextNode s ≠ None → _isPolling s = true) → 0 < raf_next s →
  loop fuel s = Some s' → live s'.
Proof.
  intros Hp Ha Hf H4 Hn Hloop.
  destruct (sweep_spec s l fuel Hp Ha Hf) as (dn & s1 & evT & evC & Hs).
  cbv zeta in Hs. destruct Hs as (Ht & _ & _ & _ & _ & _ & _ & _ & Hl).
  set (now := AnimationClock.now (perf s (perf_reads s)) (_clock s)) in *.
  set (s0 := match l with [] => s | _ => (clock_now s).2 end) in *.
  assert (_clock s0 = _clock s ∧ _isPolling s0 = _isPolling s ∧
          _nextNode s0 = _nextNode s) as (C0 & P0 & N0).
  { unfold s0. destruct l; [done|].
    unfold clock_now, paused, AnimationClock.isPaused in *. by rewrite Hp. }
  pose proof (tick_all_scalars now l [] s0) as (N1 & _ & _ & C1 & P1 & _).
  rewrite Ht in N1, C1, P1. simpl in N1, C1, P1.
  destruct (completeNodes_scalars dn s1) as (_ & C2 & P2 & _).
  destruct (_nextNode (_completeNodes dn s1)) as [hd|] eqn:Hhd.
  - rewrite Hloop in Hl. injection Hl as ->.
    assert (_nextNode s ≠ None) as Hne.
    { destruct l as [|x l]; [|by destruct Ha as [-> _]].
      unfold s0 in Ht. simpl in Ht. injection Ht as <- <-.
      simpl in Hhd. by rewrite Hhd. }
    assert (_isPolling (_completeNodes dn s1) = true) as Hpo.
    { rewrite P2, P1, P0. by apply H4. }
    assert (paused (_completeNodes dn s1) = false) as Hp2.
    { unfold paused. by rewrite C2, C1, C0. }
    split_and!; simpl; try done.
    + unfold paused in *. simpl. by rewrite Hp2.
    + by rewrite Hpo.
    + intros _ _. by destruct (raf_pending (_completeNodes dn s1)).
    + intros id [= <-]. done.
  - destruct Hl as (Hl & _). rewrite Hloop in Hl. injection Hl as ->.
    destruct (cleanup_spec (_completeNodes dn s1))
      as (T & N & _ & P & C & _).
    split_and!; rewrite ?T, ?N, ?P; try done.
Qed.

Lemma frame_live fuel s s' :
  sound s → live s → length (heap s) < fuel →
  frame fuel s = Some s' → live s'.
Proof.
  intros ((l & W & _) & _ & _ & Sb) L Hf.
  pose proof L as (_ & _ & _ & L4 & _).
  pose proof (well_formed_length s l W) as Hlen.
  unfold frame.
  destruct Sb as (Hn & [Hpd|(Hp & Hpd & _)]).
  - rewrite Hpd. simpl. rewrite set_raf_same by done. by intros [= <-].
  - rewrite Hpd. simpl.
    apply (loop_live _ l); try done; [|lia].
    apply dlist_active, W.
Qed.

Lemma step_live fuel o s s' :
  sound s → live s → gentle o → length (heap s) < fuel →
  step fuel o s = Some s' → live s'.
Proof.
  intros So L Ho Hf. pose proof So as (_ & _ & _ & Sb).
  destruct o as [inits| | | | | |n]; simpl; try done.
  - destruct (enqueue inits s) as [[h s1]|] eqn:E; intros [= <-]; [|done].
    by eapply enqueue_live.
  - by apply frame_live.
  - intros [= <-]. by apply start_live.
  - intros [= <-]. by apply pause_live.
  - intros [= <-]. by apply resume_live.
  - intros [= <-]. by apply reset_live.
Qed.

Lemma run_live fuel ops : ∀ s,
  sound s → live s → Forall gentle ops →
  length (heap s) + nodes_of ops < fuel →
  ∃ s', run fuel ops s = Some s' ∧ sound s' ∧ live s'.
Proof.
  induction ops as [|o ops IH]; intros s So L Ho Hf.
  { by exists s. }
  apply list.Forall_cons in Ho as [Ho Hops]. rewrite nodes_of_cons in Hf.
  destruct (step_sound fuel o s So Ho ltac:(lia)) as (s1 & E & S1 & Hl1).
  pose proof (step_live fuel o s s1 So L Ho ltac:(lia) E) as L1.
  destruct (IH s1 S1 L1 Hops ltac:(lia)) as (s' & Hr & S' & L').
  exists s'. simpl. rewrite E. simpl. done.
Qed.

Lemma sound_live_subscribed s :
  sound s → live s →
  (paused s = false → _nextNode s ≠ None →
     ∃ id, _timer s = Some id ∧ raf_pending s = [id]) ∧
  (paused s = true →
     raf_pending s = [] ∧ ∃ id, raf_pending (resume s) = [id]).
Proof.
  intros So L. pose proof So as (_ & _ & _ & Sb).
  pose proof L as (L1 & L2 & L3 & L4 & L5). split.
  - intros Hp Hne. specialize (L3 Hp (L4 Hne)).
    destruct Sb as (_ & [Hpd|(_ & Hpd & Ht & _)]); [done|]. by eexists.
  - intros Hp. split; [by apply subscribed_paused|].
    pose proof (resume_subscribed s Sb) as Sb'.
    pose proof (resume_live s Sb L) as (_ & _ & L3' & _).
    assert (paused (resume s) = false ∧ _isPolling (resume s) = true) as [Hp' Hpo'].
    { unfold resume. rewrite Hp. unfold paused, AnimationClock.isPaused in Hp.
      unfold _launch, clock_resume, paused, AnimationClock.isPaused.
      rewrite Hp. simpl. destruct (L1 Hp) as [Hpo ->]. simpl.
      unfold AnimationClock.resume. by rewrite Hp. }
    specialize (L3' Hp' Hpo').
    destruct Sb' as (_ & [Hpd|(_ & Hpd & _)]); [done|]. by eexists.
Qed.

(** X16: in every state a fresh scheduler reaches by [animate], frame
    pulses, [start], [pause], [resume] and [reset]: when the scheduler is
    not paused and a chain is on its list, exactly one callback of it is
    with the frame driver, the one its handle names, so the next pulse
    sweeps the list; when it is paused the frame driver holds none, and
    [resume] hands it one. *)
Theorem scheduler_with_work_is_subscribed wall fuel ops :
  Forall gentle ops → nodes_of ops < fuel →
  ∃ s', run fuel ops (createTimeline wall) = Some s' ∧
    (paused s' = false → _nextNode s' ≠ None →
       ∃ id, _timer s' = Some id ∧ raf_pending s' = [id]) ∧
    (paused s' = true →
       raf_pending s' = [] ∧ ∃ id, raf_pending (resume s') = [id]).
Proof.
  intros Ho Hf.
  destruct (run_live fuel ops (createTimeline wall) (createTimeline_sound wall)
              (createTimeline_live wall) Ho Hf) as (s' & Hr & So & L).
  exists s'. split; [done|]. by apply sound_live_subscribed.
Qed.

Lemma scheduler_with_work_is_subscribed_witness :
  ∃ s', run 10 undisturbed (createTimeline wall10) = Some s' ∧
    (paused s' = false → _nextNode s' ≠ None →
       ∃ id, _timer s' = Some id ∧ raf_pending s' = [id]).
Proof.
  destruct (scheduler_with_work_is_subscribed wall10 10 undisturbed)
    as (s' & Hr & H & _).
  - repeat (apply Forall_cons_2; [exact I|]). apply Forall_nil_2.
  - vm_compute. lia.
  - exists s'. split; [exact Hr|exact H].
Defined.

(** ** What the state of a deferred tells *)

Lemma told_ext s s' l :
  heap s' = heap s → promises s' = promises s → told s l → told s' l.
Proof. destruct s, s'. simpl. intros -> -> H. exact H. Qed.

Lemma laid_out_ext s s' : heap s' = heap s → laid_out s → laid_out s'.
Proof. destruct s, s'. simpl. intros -> H. exact H. Qed.

Lemma told_nil s l : told s l → told s [].
Proof.
  intros (T1 & T2 & T3 & _). split_and!; try done.
  intros x n Hx. by apply elem_of_nil in Hx.
Qed.

Lemma active_unique s l l' : active s l → active s l' → l = l'.
Proof. apply list_from_inj. Qed.

(** *** A tick and its deferred *)

Lemma tick_outcome ts x nd c s :
  heap s !! x = Some nd → Node._completed nd || Node._error nd = false →
  Node._onError nd = Some c →
  (error x (_tick ts x s).2 = Some false ∧
   promises (_tick ts x s).2 = promises s) ∨
  (error x (_tick ts x s).2 = Some true ∧
   ∃ e, promises (_tick ts x s).2 = alter (settle (Rejected e)) c (promises s)).
Proof.
  intros Hx Hd Hoc.
  destruct (callbacks nd (rawProgress ts nd s)) as [u|e] eqn:Hcb.
  - left. split.
    + pose proof (tick_spec ts x nd s Hx) as Ht. cbv zeta in Ht.
      rewrite Hd, Hcb in Ht. by destruct Ht as (_ & _ & _ & _ & _ & He).
    + rewrite (tick_unfold ts x nd s Hx Hd). cbv zeta. rewrite Hcb. simpl.
      by destruct (latched_scalars x nd s) as (_ & -> & _).
  - right. destruct (tick_throws ts x nd s e Hx Hd Hcb) as (_ & He & _ & Hq).
    split; [done|]. exists e. by rewrite Hq, Hoc.
Qed.

(** The first half of a sweep: the deferred of a chain on the list is
    rejected when its node erred and pending otherwise; no other deferred
    changes. *)
Lemma tick_all_outcome ts l : ∀ dn s,
  NoDup l →
  (∀ x, x ∈ l →
     completed x s = Some false ∧ error x s = Some false ∧
     ∃ c, chainOf x s = Some c ∧ promises s !! c = Some Pending) →
  (∀ x y, x ∈ l → y ∈ l → chainOf x s = chainOf y s → x = y) →
  let s1 := (tick_all ts l dn s).2 in
  (∀ x c, x ∈ l → chainOf x s = Some c →
     (error x s1 = Some true ∧ ∃ e, promises s1 !! c = Some (Rejected e)) ∨
     (error x s1 = Some false ∧ promises s1 !! c = Some Pending)) ∧
  (∀ c, (∀ x, x ∈ l → chainOf x s ≠ Some c) →
     promises s1 !! c = promises s !! c).
Proof.
  induction l as [|x l IH]; intros dn s Hnd Hl Huniq.
  { split; [|done]. intros x c Hx. by apply elem_of_nil in Hx. }
  apply list.NoDup_cons in Hnd as [Hxl Hnd].
  destruct (Hl x) as (Hcx & Hex & cx & Hchx & Hpx); [by left|].
  set (sl := log (EvTick x ts) s).
  assert (∃ nd, heap sl !! x = Some nd ∧
            Node._completed nd || Node._error nd = false ∧
            Node._onError nd = Some cx) as (nd & Hx & Hd & Hoc).
  { unfold completed, error, chainOf in Hcx, Hex, Hchx.
    change (heap sl) with (heap s).
    destruct (heap s !! x) as [nd|]; [|done]. exists nd. simpl in *.
    injection Hcx as ->. injection Hex as ->. done. }
  pose proof (tick_outcome ts x nd cx sl Hx Hd Hoc) as Hout.
  destruct (tick_view ts x sl) as (Hv & Ho & _).
  cbn [tick_all]. fold sl.
  destruct (tick_all_view ts l
              (if (_tick ts x sl).1 then Set_add x dn else dn)
              (_tick ts x sl).2) as (_ & Ho' & _).
  destruct (_tick ts x sl) as [b s'] eqn:Et. simpl in Hout, Hv, Ho, Ho'.
  assert (∀ k, chainOf k s' = chainOf k s) as Hch.
  { intros k. by destruct (Hv k) as (_ & -> & _). }
  assert (∀ c, c ≠ cx → promises s' !! c = promises s !! c) as Hpo.
  { intros c Hne. destruct Hout as [[_ ->]|[_ [e ->]]]; [done|].
    change (promises sl) with (promises s). by apply list_lookup_alter_ne. }
  destruct (IH (if b then Set_add x dn else dn) s' Hnd) as [IH1 IH2].
  { intros y Hy. assert (x ≠ y) as Hne by (intros ->; done).
    destruct (Hl y) as (Hcy & Hey & cy & Hchy & Hpy); [by right|].
    unfold completed, error. rewrite (Ho y (not_eq_sym Hne)).
    change (heap sl) with (heap s). split_and!; try done.
    exists cy. rewrite Hch. split; [done|]. rewrite Hpo; [done|].
    intros ->. apply Hne. apply Huniq; [by left|by right|congruence]. }
  { intros y z Hy Hz. rewrite !Hch. intros E.
    apply Huniq; [by right|by right|done]. }
  simpl. split.
  - intros y c Hy Hcy. apply elem_of_cons in Hy as [->|Hy].
    + assert (c = cx) as -> by congruence.
      assert (promises (tick_all ts l (if b then Set_add x dn else dn) s').2 !! cx
              = promises s' !! cx) as ->.
      { apply IH2. intros z Hz. rewrite Hch. intros E.
        assert (x = z) as ->; [|done].
        apply Huniq; [by left|by right|congruence]. }
      unfold error at 1 2. rewrite (Ho' x Hxl). fold (error x s').
      destruct Hout as [[He ->]|[He [e ->]]]; [right|left].
      * by split.
      * split; [done|]. exists e. change (promises sl) with (promises s).
        rewrite list_lookup_alter_eq, Hpx. done.
    + apply IH1; [done|]. by rewrite Hch.
  - intros c Hc. rewrite IH2.
    + apply Hpo. intros ->. by apply (Hc x); [left|].
    + intros y Hy. rewrite Hch. apply Hc. by right.
Qed.

(** *** Completion and its deferred *)

Lemma complete_resolves n s c :
  promises (_complete n s) !! c = promises s !! c ∨
  (promises s !! c = Some Pending ∧
   promises (_complete n s) !! c = Some Resolved ∧ callbackOf n s = Some c).
Proof.
  destruct (heap s !! n) as [nd|] eqn:Hn; cycle 1.
  { left. unfold _complete. by rewrite Hn. }
  destruct (Node._completed nd) eqn:Hc.
  { left. by rewrite (complete_done _ _ _ Hn Hc). }
  destruct (complete_calls n nd s Hn Hc) as [_ ->].
  unfold callbackOf. rewrite Hn. simpl.
  destruct (Node._onCompleted nd) as [c'|]; [|by left].
  destruct (decide (c' = c)) as [->|Hne]; cycle 1.
  { left. by apply list_lookup_alter_ne. }
  rewrite list_lookup_alter_eq.
  destruct (promises s !! c) as [[| |e]|]; simpl; auto.
Qed.

Lemma completeNodes_resolves dn : ∀ s c,
  promises (_completeNodes dn s) !! c = promises s !! c ∨
  (promises s !! c = Some Pending ∧
   promises (_completeNodes dn s) !! c = Some Resolved ∧
   ∃ t, t ∈ dn ∧ callbackOf t s = Some c).
Proof.
  induction dn as [|n dn IH]; intros s c; [by left|].
  rewrite completeNodes_cons.
  set (s0 := log (EvComplete n) s).
  destruct (complete_view n s0) as (Hv & _).
  destruct (complete_resolves n s0 c) as [E|(Hp & Hr & Hcb)].
  - destruct (IH (_complete n s0) c) as [E'|(Hp' & Hr' & t & Ht & Hcb')].
    + left. by rewrite E', E.
    + right. rewrite E in Hp'. split_and!; [done|done|].
      exists t. split; [by right|].
      rewrite <- Hcb'. by destruct (Hv t) as (_ & _ & -> & _).
  - right. split_and!; [done| |exists n; split; [by left|done]].
    by apply completeNodes_settled.
Qed.

(** *** A sweep *)

Lemma on_list_dec s (l : list nat) c :
  (∃ x, x ∈ l ∧ chainOf x s = Some c) ∨ (∀ x, x ∈ l → chainOf x s ≠ Some c).
Proof.
  induction l as [|y l IH].
  { right. intros x Hx. by apply elem_of_nil in Hx. }
  destruct (decide (chainOf y s = Some c)) as [Hy|Hy].
  { left. exists y. split; [by left|done]. }
  destruct IH as [(x & Hx & Hc)|IH].
  - left. exists x. split; [by right|done].
  - right. intros x [->|Hx]%elem_of_cons; [done|by apply IH].
Qed.

Lemma loop_told s l fuel :
  well_formed s l → terminal_only s → pending_on s l → laid_out s →
  told s l → paused s = false → length l < fuel →
  ∃ s' l', loop fuel s = Some s' ∧ well_formed s' l' ∧ told s' l' ∧
    laid_out s'.
Proof.
  intros W Hterm Hpend (L1 & L2) (T1 & T2 & T3 & T4) Hp Hf.
  destruct (sweep_successors s l fuel W Hp Hf) as (s' & Hloop & W' & Hcomp & Herr).
  destruct (loop_well_formed s l fuel W Hp Hf)
    as (s'' & l'' & Hloop' & _ & _ & Hh & _ & Hpr & _ & _ & Hsw & _).
  rewrite Hloop in Hloop'. injection Hloop' as <-.
  set (now := AnimationClock.now (perf s (perf_reads s)) (_clock s)) in *.
  set (s0 := match l with [] => s | _ => (clock_now s).2 end) in *.
  set (r := tick_all now l [] s0) in *.
  set (s1 := r.2) in *.
  set (s2 := _completeNodes r.1 s1) in *.
  assert (heap s0 = heap s ∧ promises s0 = promises s) as [H0 P0].
  { unfold s0. destruct l; [done|].
    by destruct (clock_now_view s Hp) as (? & _ & _ & _ & ?). }
  pose proof W as (Hd & (Hc1 & _ & Hc3) & Huniq & Hfl & _).
  destruct (tick_all_view now l [] s0) as (Hv1 & Ho1 & _). fold r s1 in Hv1, Ho1.
  destruct (completeNodes_view r.1 s1) as (Hv2 & Hdn2 & _). fold s2 in Hv2, Hdn2.
  assert (∀ k, subOf k s' = subOf k s ∧ chainOf k s' = chainOf k s ∧
               callbackOf k s' = callbackOf k s ∧ error k s' = error k s1) as Hst.
  { intros k. unfold subOf, chainOf, callbackOf, error at 1. rewrite Hh.
    fold (subOf k s2) (chainOf k s2) (callbackOf k s2) (error k s2).
    destruct (Hv2 k) as (-> & -> & -> & -> & _).
    destruct (Hv1 k) as (-> & -> & -> & _).
    unfold subOf, chainOf, callbackOf. by rewrite H0. }
  assert (∀ k, k ∉ l → error k s' = error k s ∧ completed k s' = completed k s)
    as Hoff.
  { intros k Hk. destruct (Hst k) as (_ & _ & _ & ->). split.
    - unfold error. by rewrite (Ho1 k Hk), H0.
    - unfold completed at 1. rewrite Hh. fold (completed k s2).
      unfold s2. rewrite completeNodes_completed.
      + destruct (Hv1 k) as (_ & _ & _ & _ & _ & ->).
        unfold completed. by rewrite H0.
      + intros Hin. apply Hk. destruct Hsw as (_ & _ & _ & _ & _ & _ & Hsub).
        by apply Hsub. }
  assert (∀ k, completed k s = Some true → k ∉ l) as Hdone.
  { intros k Hk Hin. destruct (Hfl k Hin) as (Hc & _). congruence. }
  destruct (tick_all_outcome now l [] s0) as [Tout Tother].
  { apply Hd. }
  { intros x Hx. destruct (Hfl x Hx) as (Hc & [c Hch] & He).
    unfold completed, error, chainOf. rewrite H0, P0.
    split_and!; [done|by apply He, not_elem_of_nil|].
    exists c. split; [done|]. by apply (Hpend x). }
  { intros x y Hx Hy. unfold chainOf. rewrite H0. by apply Huniq. }
  fold r s1 in Tout, Tother.
  assert (∀ k, chainOf k s0 = chainOf k s) as Hch0.
  { intros k. unfold chainOf. by rewrite H0. }
  assert (∀ c, promises s' !! c = promises s1 !! c ∨
               (promises s1 !! c = Some Pending ∧
                promises s' !! c = Some Resolved ∧
                ∃ t, t ∈ l ∧ chainOf t s = Some c ∧ callbackOf t s = Some c ∧
                     completed t s' = Some true)) as Cres.
  { intros c. rewrite Hpr. fold now s0 r s1 s2.
    destruct (completeNodes_resolves r.1 s1 c) as [E|(Hp1 & Hr & t & Ht & Hcb)];
      [by left|right].
    split_and!; [done|done|].
    assert (t ∈ l) as Htl.
    { destruct Hsw as (_ & _ & _ & _ & _ & _ & Hsub). by apply Hsub. }
    assert (callbackOf t s = Some c) as Hcb'.
    { destruct (Hv1 t) as (_ & _ & E & _). rewrite E in Hcb.
      unfold callbackOf in *. by rewrite <- H0. }
    exists t. split_and!; [done|by apply Hc3|done|].
    unfold completed at 1. rewrite Hh. fold (completed t s2).
    apply Hdn2; [done|].
    destruct (Hfl t Htl) as (Hct & _). unfold completed in Hct.
    destruct (Hv1 t) as (_ & _ & _ & _ & _ & Hct1).
    unfold completed in Hct1. rewrite H0, Hct in Hct1.
    by destruct (heap s1 !! t). }
  exists s', (l ≫= successor now s1). split_and!; [done|done| |].
  - split_and!.
    + (* the chain of an errored node is rejected *)
      intros n He. destruct (decide (n ∈ l)) as [Hin|Hin].
      * destruct (Hfl n Hin) as (_ & [c Hch] & _).
        destruct (Hst n) as (_ & Ech & _ & Een). rewrite Een in He.
        destruct (Tout n c Hin) as [[_ [e Hrej]]|[He' _]];
          [by rewrite Hch0| |congruence].
        exists c, e. split; [congruence|].
        destruct (Cres c) as [->|(Hp1 & _)]; [done|congruence].
      * destruct (Hoff n Hin) as [Een _]. rewrite Een in He.
        destruct (T1 n He) as (c & e & Hch & Hrej).
        exists c, e. destruct (Hst n) as (_ & -> & _). split; [done|].
        rewrite <- P0 in Hrej.
        assert (promises s1 !! c = Some (Rejected e)) as Hrej1
          by (by apply tick_all_settled).
        destruct (Cres c) as [->|(Hp1 & _)]; [done|congruence].
    + (* a rejected chain has an errored node *)
      intros c e Hrej.
      assert (promises s1 !! c = Some (Rejected e)) as Hrej1.
      { destruct (Cres c) as [<-|(_ & Hr & _)]; [done|congruence]. }
      destruct (on_list_dec s l c) as [(x & Hx & Hch)|Hno].
      * exists x. destruct (Hst x) as (_ & -> & _ & ->). split; [done|].
        destruct (Tout x c Hx) as [[He _]|[_ Hpe]];
          [by rewrite Hch0|done|congruence].
      * rewrite Tother in Hrej1; cycle 1.
        { intros x Hx. rewrite Hch0. by apply Hno. }
        rewrite P0 in Hrej1. destruct (T2 c e Hrej1) as (n & Hch & He).
        exists n. destruct (Hst n) as (_ & -> & _). split; [done|].
        assert (n ∉ l) as Hnl.
        { intros Hin. destruct (Hfl n Hin) as (_ & _ & He').
          specialize (He' (not_elem_of_nil _)). congruence. }
        by destruct (Hoff n Hnl) as [-> _].
    + (* the nodes of a resolved chain are completed, without error *)
      intros c n Hres Hchn. destruct (Hst n) as (_ & Ech & _ & Een).
      rewrite Ech in Hchn.
      destruct (Cres c) as [E|(Hp1 & _ & t & Ht & Hcht & Hcbt & Hct)].
      * rewrite E in Hres.
        assert (promises s !! c = Some Resolved) as Hres0.
        { destruct (on_list_dec s l c) as [(x & Hx & Hch)|Hno].
          - destruct (Tout x c Hx) as [[_ [e Hpe]]|[_ Hpe]];
              [by rewrite Hch0|congruence|congruence].
          - rewrite Tother in Hres; [by rewrite <- P0|].
            intros x Hx. rewrite Hch0. by apply Hno. }
        destruct (T3 c n Hres0 Hchn) as [Hc He].
        destruct (Hoff n (Hdone n Hc)) as [-> ->]. done.
      * assert (error t s1 = Some false) as Het.
        { destruct (Tout t c Ht) as [[_ [e Hpe]]|[He _]];
            [by rewrite Hch0|congruence|done]. }
        destruct (decide (n = t)) as [->|Hne].
        { split; [done|congruence]. }
        destruct (decide (n < t)) as [Hlt|Hge].
        -- destruct (T4 t n Ht Hlt) as [Hc He]; [congruence|].
           destruct (Hoff n (Hdone n Hc)) as [-> ->]. done.
        -- exfalso. destruct (L2 t n c) as [m Hm]; [lia|done|done|].
           rewrite (Hterm t c Hcbt) in Hm. done.
    + (* the phases before a node of the list *)
      intros y n Hy Hlt Hch.
      apply list_elem_of_bind in Hy as (x & Hy & Hx).
      destruct (Hst n) as (_ & Echn & _), (Hst y) as (_ & Echy & _).
      rewrite Echn, Echy in Hch.
      assert (∀ k, k < x → chainOf k s = chainOf x s →
                 completed k s' = Some true ∧ error k s' = Some false) as Hbefore.
      { intros k Hk Hck. destruct (T4 x k Hx Hk Hck) as [Hc He].
        destruct (Hoff k (Hdone k Hc)) as [-> ->]. done. }
      unfold successor in Hy. destruct (ended now s1 x) eqn:Hend; cycle 1.
      { apply list_elem_of_singleton in Hy as ->. by apply Hbefore. }
      destruct (subOf x s1) as [m|] eqn:Hsub; [|by apply elem_of_nil in Hy].
      destruct (error x s1) as [[]|] eqn:Hex; try (by apply elem_of_nil in Hy).
      apply list_elem_of_singleton in Hy as ->.
      assert (subOf x s = Some m) as Hsub0.
      { destruct (Hv1 x) as (E & _). rewrite E in Hsub.
        unfold subOf in *. by rewrite <- H0. }
      pose proof (L1 x m Hsub0) as ->.
      destruct (Hc1 x (S x) Hsub0) as [_ Hchm].
      destruct (decide (n = x)) as [->|Hne].
      * split; [rewrite (Hcomp x Hx); by rewrite Hend|].
        destruct (Hst x) as (_ & _ & _ & ->). done.
      * apply Hbefore; [lia|congruence].
  - split.
    + intros n m. destruct (Hst n) as (-> & _). apply L1.
    + intros n m c Hlt. destruct (Hst n) as (-> & -> & _), (Hst m) as (_ & -> & _).
      by apply L2.
Qed.

(** *** The other operations *)

Lemma enqueue_told inits s l h s' :
  well_formed s l → bounded s → laid_out s → told s l →
  enqueue inits s = Some (h, s') →
  told s' (l ++ [length (heap s)]) ∧ laid_out s'.
Proof.
  intros W B (L1 & L2) (T1 & T2 & T3 & T4) Henq.
  destruct (enqueue_spec inits s h s' (λ t, bounded_tail s t B) Henq)
    as (K & s5 & HK & _ & _ & Hs' & Hprom & Hlen & Hold & Hnew & Hhead & Htail & _).
  pose proof (enqueued_old_view s s5 K l W B Hprom Hlen Hold Hnew Hhead Htail) as Hov.
  pose proof (enqueued_new s s5 K l W B Hprom Hlen Hold Hnew Hhead Htail) as Hnw.
  set (N := length (heap s)) in *. set (d := length (promises s)) in *.
  assert (heap s' = heap s5 ∧ promises s' = promises s5) as [Hh Hp].
  { rewrite Hs'. destruct (negb (_isPolling s5)); [|done].
    by destruct (start_heap s5) as (-> & _ & _ & _ & ->). }
  assert (∀ k c, chainOf k s = Some c → k < N ∧ c < d) as Hin.
  { intros k c Hch. split.
    - unfold chainOf in Hch. destruct (heap s !! k) eqn:E; [|done].
      by apply lookup_lt_Some in E.
    - destruct B as (_ & _ & Bc). by apply (Bc k). }
  assert (∀ c p, p ≠ Pending → promises s5 !! c = Some p → promises s !! c = Some p)
    as Hpold.
  { intros c p Hne. rewrite Hprom. intros Hc.
    apply lookup_app_Some in Hc as [Hc|[_ Hc]]; [done|].
    apply list_lookup_singleton_Some in Hc as [_ <-]. done. }
  assert (∀ k, N ≤ k → error k s5 ≠ Some true ∧
            (∀ c, chainOf k s5 = Some c → c = d ∧ k ≤ N + K) ∧
            (∀ m, subOf k s5 = Some m → m = S k) ∧
            (k < N + K → is_Some (subOf k s5))) as Hyoung.
  { intros k Hk. destruct (Hnw k Hk)
      as [(Hle & Hch & _ & He & _ & _ & _ & Hsub & _)|(Hgt & Hnone)].
    - rewrite He, Hch, Hsub. split_and!; [done| | |].
      + intros c [= <-]. done.
      + intros m. case_decide; [by intros [= <-]|done].
      + intros Hlt. rewrite decide_True by done. by eexists.
    - unfold error, chainOf, subOf. rewrite Hnone. split_and!; try done. lia. }
  enough (told s5 (l ++ [N]) ∧ laid_out s5) as [HT HL].
  { split; [by apply (told_ext s5)|by apply (laid_out_ext s5)]. }
  split; [split_and!|split].
  - intros n He. destruct (decide (n < N)) as [Hlt|Hge].
    + destruct (Hov n Hlt) as (_ & Ech & _ & _ & Een). rewrite Een in He.
      destruct (T1 n He) as (c & e & Hch & Hrej). exists c, e.
      rewrite Ech, Hprom. split; [done|]. by apply lookup_app_l_Some.
    + destruct (Hyoung n) as (Hne & _); [lia|done].
  - intros c e Hrej. apply Hpold in Hrej; [|done].
    destruct (T2 c e Hrej) as (n & Hch & He). exists n.
    destruct (Hin n c Hch) as [Hlt _].
    destruct (Hov n Hlt) as (_ & -> & _ & _ & ->). done.
  - intros c n Hres Hch. apply Hpold in Hres; [|done].
    destruct (decide (n < N)) as [Hlt|Hge].
    + destruct (Hov n Hlt) as (_ & Ech & _ & -> & ->). rewrite Ech in Hch.
      by apply (T3 c).
    + destruct (Hyoung n) as (_ & Hc & _); [lia|]. destruct (Hc c Hch) as [-> _].
      apply lookup_lt_Some in Hres. unfold d in Hres. lia.
  - intros x n Hx Hlt Hch. apply elem_of_app in Hx as [Hx|Hx].
    + assert (x < N) as HxN by (by apply (dlist_lt s l); [apply W|]).
      destruct (Hov x HxN) as (_ & Ecx & _), (Hov n ltac:(lia)) as (_ & Ecn & _ & -> & ->).
      rewrite Ecx, Ecn in Hch. by apply (T4 x).
    + apply list_elem_of_singleton in Hx as ->.
      destruct (Hov n Hlt) as (_ & Ecn & _). rewrite Ecn in Hch.
      destruct (Hnw N (le_n _)) as [(_ & HchN & _)|(Hgt & _)]; [|lia].
      rewrite HchN in Hch. destruct (Hin n d Hch). lia.
  - intros n m Hsub. destruct (decide (n < N)) as [Hlt|Hge].
    + destruct (Hov n Hlt) as (Es & _). rewrite Es in Hsub. by apply L1.
    + destruct (Hyoung n) as (_ & _ & Hs & _); [lia|]. by apply Hs.
  - intros n m c Hlt Hcn Hcm. destruct (decide (m < N)) as [HmN|HmN].
    + destruct (Hov n ltac:(lia)) as (-> & Ecn & _), (Hov m HmN) as (_ & Ecm & _).
      rewrite Ecn in Hcn. rewrite Ecm in Hcm. by apply (L2 n m c).
    + destruct (Hyoung m) as (_ & Hc & _); [lia|].
      destruct (Hc c Hcm) as [-> Hle].
      destruct (decide (n < N)) as [HnN|HnN].
      * destruct (Hov n HnN) as (_ & Ecn & _). rewrite Ecn in Hcn.
        destruct (Hin n d Hcn). lia.
      * destruct (Hyoung n) as (_ & _ & _ & Hs); [lia|]. apply Hs. lia.
Qed.

Lemma telling_well_formed s :
  telling s → ∃ l, well_formed s l ∧ pending_on s l ∧ told s l.
Proof.
  intros (((l0 & W & Pd) & _) & _ & l & Ha & T).
  assert (l0 = l) as -> by (apply (active_unique s); [apply dlist_active, W|done]).
  by exists l.
Qed.

Lemma telling_same s s' :
  telling s → sound s' → heap s' = heap s → promises s' = promises s →
  _nextNode s' = _nextNode s → telling s'.
Proof.
  intros (_ & L & l & Ha & T) So Hh Hp Hn. split_and!; [done| |].
  - by apply (laid_out_ext s).
  - exists l. split; [|by apply (told_ext s)].
    unfold active. rewrite Hn. apply (list_from_ext s); [|done].
    intros m. unfold nextOf. by rewrite Hh.
Qed.

Lemma frame_telling fuel s :
  telling s → length (heap s) < fuel →
  ∃ s', frame fuel s = Some s' ∧ telling s' ∧ length (heap s') = length (heap s).
Proof.
  intros Ht Hf. pose proof Ht as (So & L & _).
  destruct (frame_sound fuel s So Hf) as (s' & Hfr & So' & Hlen).
  exists s'. split_and!; [done| |done].
  destruct (telling_well_formed s Ht) as (l & W & Pd & T).
  pose proof So as (_ & Term & _ & Sb).
  revert Hfr. unfold frame.
  destruct Sb as (Hn & [Hpd|(Hp & Hpd & _)]); rewrite Hpd; simpl.
  - intros [= <-]. by apply (telling_same s).
  - set (s0 := set_raf (raf_next s) [] s). intros Hloop.
    destruct (loop_told s0 l fuel) as (s'' & l' & Hloop' & W' & T' & L');
      try done.
    { pose proof (well_formed_length s l W). lia. }
    rewrite Hloop in Hloop'. injection Hloop' as <-.
    split_and!; [done|done|]. exists l'. split; [apply dlist_active, W'|done].
Qed.

Lemma step_telling fuel o s :
  telling s → gentle o → length (heap s) < fuel →
  ∃ s', step fuel o s = Some s' ∧ telling s' ∧
    length (heap s') ≤ length (heap s) + nodes_of [o].
Proof.
  intros Ht Ho Hf. pose proof Ht as (So & L & _).
  destruct o as [inits| | | | | |n]; simpl; try done.
  - destruct (enqueue inits s) as [[h s']|] eqn:E.
    + destruct (enqueue_sound inits s h s' So E) as [So' Hl].
      destruct (telling_well_formed s Ht) as (l & W & Pd & T).
      pose proof So as (_ & _ & B & _).
      destruct (enqueue_told inits s l h s' W B L T E) as [T' L'].
      destruct (enqueue_builds inits s l h s' W B E) as (_ & _ & _ & _ & _ & _ & W' & _).
      exists s'. split_and!; [done| |unfold nodes_of; simpl; lia].
      split_and!; [done|done|]. eexists. split; [apply dlist_active, W'|done].
    + exists s. split_and!; [done|done|lia].
  - destruct (frame_telling fuel s Ht Hf) as (s' & -> & ? & Hl).
    exists s'. split_and!; [done|done|lia].
  - exists (start s). destruct (start_heap s) as (Hh & Hn & _ & _ & Hp).
    split_and!; [done| |rewrite Hh; lia].
    apply (telling_same s); try done. by apply start_sound.
  - exists (pause s). destruct (pause_heap s) as (Hh & Hn & _ & _ & Hp).
    split_and!; [done| |rewrite Hh; lia].
    apply (telling_same s); try done. by apply pause_sound.
  - exists (resume s). destruct (resume_heap s) as (Hh & Hn & _ & _ & Hp).
    split_and!; [done| |rewrite Hh; lia].
    apply (telling_same s); try done. by apply resume_sound.
  - exists (reset s). destruct (reset_heap s) as (Hh & Hn & _ & _ & Hp).
    split_and!; [done| |rewrite Hh; lia].
    destruct Ht as (_ & _ & l & _ & T).
    split_and!; [by apply reset_sound|by apply (laid_out_ext s)|].
    exists []. split; [done|]. apply (told_ext s); [done|done|].
    by apply (told_nil s l).
Qed.

Lemma run_telling fuel ops : ∀ s,
  telling s → Forall gentle ops → length (heap s) + nodes_of ops < fuel →
  ∃ s', run fuel ops s = Some s' ∧ telling s'.
Proof.
  induction ops as [|o ops IH]; intros s Ht Ho Hf.
  { by exists s. }
  apply list.Forall_cons in Ho as [Ho Hops]. rewrite nodes_of_cons in Hf.
  destruct (step_telling fuel o s Ht Ho ltac:(lia)) as (s1 & E & T1 & Hl1).
  destruct (IH s1 T1 Hops ltac:(lia)) as (s' & Hr & T').
  exists s'. simpl. rewrite E. simpl. done.
Qed.

Lemma createTimeline_telling wall : telling (createTimeline wall).
Proof.
  split_and!; [apply createTimeline_sound| |].
  - split; [intros n m|intros n m c _]; unfold subOf, chainOf; simpl; done.
  - exists []. split; [done|]. split_and!.
    + intros n. unfold error. simpl. done.
    + intros c e. simpl. done.
    + intros c n. simpl. done.
    + intros x n Hx. by apply elem_of_nil in Hx.
Qed.

(** X17: in every state a fresh scheduler reaches by [animate], frame
    pulses, [start], [pause], [resume] and [reset], the deferreds tell what
    happened to their chains.  A node has its error flag set exactly when
    its chain is rejected: the deferred of an errored node is rejected, and
    a rejected deferred has an errored node.  When a deferred is resolved,
    every phase of its chain is completed and none of them erred. *)
Theorem deferred_tells_chain_outcome wall fuel ops :
  Forall gentle ops → nodes_of ops < fuel →
  ∃ s', run fuel ops (createTimeline wall) = Some s' ∧
    (∀ n, error n s' = Some true →
       ∃ c e, chainOf n s' = Some c ∧ promises s' !! c = Some (Rejected e)) ∧
    (∀ c e, promises s' !! c = Some (Rejected e) →
       ∃ n, chainOf n s' = Some c ∧ error n s' = Some true) ∧
    (∀ c n, promises s' !! c = Some Resolved → chainOf n s' = Some c →
       completed n s' = Some true ∧ error n s' = Some false).
Proof.
  intros Ho Hf.
  destruct (run_telling fuel ops (createTimeline wall)
              (createTimeline_telling wall) Ho Hf)
    as (s' & Hr & _ & _ & l & _ & T1 & T2 & T3 & _).
  exists s'. by split_and!.
Qed.

Lemma deferred_tells_chain_outcome_witness :
  ∃ s', run 10 second_phase_throws (createTimeline wall10) = Some s' ∧
    (∀ c e, promises s' !! c = Some (Rejected e) →
       ∃ n, chainOf n s' = Some c ∧ error n s' = Some true).
Proof.
  destruct (deferred_tells_chain_outcome wall10 10 second_phase_throws)
    as (s' & Hr & _ & H & _).
  - repeat (apply Forall_cons_2; [exact I|]). apply Forall_nil_2.
  - vm_compute. lia.
  - exists s'. split; [exact Hr|exact H].
Defined.

(** ** [revoke] on a chain with a phase still to come *)

(** What [revoke] on one node reports and settles. *)
Lemma revoke_node_touches n s :
  raf_pending (revoke_node n s) = raf_pending s ∧
  (∃ evs, trace (revoke_node n s) = trace s ++ evs ∧
     Forall (λ e, node_of e = n) evs) ∧
  (∀ k, callbackOf n s ≠ Some k →
     promises (revoke_node n s) !! k = promises s !! k) ∧
  length (promises (revoke_node n s)) = length (promises s).
Proof.
  assert (∃ evs, trace s = trace s ++ evs ∧ Forall (λ e, node_of e = n) evs) as Hsame.
  { exists []. by rewrite app_nil_r. }
  destruct (heap s !! n) as [nd|] eqn:H; cycle 1.
  { unfold revoke_node. by rewrite H. }
  destruct (Node._completed nd) eqn:Hc.
  { unfold revoke_node. by rewrite H, Hc. }
  rewrite (revoke_node_unfold _ _ _ H Hc).
  set (s0 := unlink n (upd n (Node.set_completed true) s)).
  destruct (relinked_unlink n (upd n (Node.set_completed true) s))
    as (Hst &_&_&_&_&_& Hraf &_&_& Hp & Ht). fold s0 in Hst, Hraf, Hp, Ht.
  destruct (fire_onCompleted_spec n s0) as (_ & (_&_&_&_&_&_& Hraf' &_) & _ & Ht' & Hp').
  assert (heap s0 !! n ≫= Node._onCompleted = callbackOf n s) as Hcb0.
  { unfold callbackOf. specialize (Hst n). rewrite heap_upd_eq, H in Hst.
    simpl in Hst. rewrite H. simpl.
    destruct (heap s0 !! n) as [nd0|]; [|done]. simpl in *.
    injection Hst as _ _ _ _ _ ->. done. }
  rewrite Hcb0 in Ht', Hp'. split_and!.
  - by rewrite Hraf', Hraf.
  - eexists. split; [rewrite Ht', Ht; done|].
    destruct (callbackOf n s); by repeat constructor.
  - intros k Hk. rewrite Hp', Hp. simpl.
    destruct (callbackOf n s) as [c|]; [|done].
    apply list_lookup_alter_ne. congruence.
  - rewrite Hp', Hp. simpl. destruct (callbackOf n s); [|done].
    by rewrite length_alter.
Qed.

Lemma revoke_all_touches ch s :
  raf_pending (revoke_all ch s) = raf_pending s ∧
  (∃ evs, trace (revoke_all ch s) = trace s ++ evs ∧
     Forall (λ e, node_of e ∈ ch) evs) ∧
  (∀ k, (∀ n, n ∈ ch → callbackOf n s ≠ Some k) →
     promises (revoke_all ch s) !! k = promises s !! k) ∧
  length (promises (revoke_all ch s)) = length (promises s).
Proof.
  revert s. induction ch as [|x ch IH]; intros s.
  { simpl. split_and!; try done. exists []. by rewrite app_nil_r. }
  simpl. destruct (IH (revoke_node x s)) as (R2 & (e2 & T2 & F2) & P2 & L2).
  destruct (revoke_node_touches x s) as (R1 & (e1 & T1 & F1) & P1 & L1).
  split_and!.
  - by rewrite R2, R1.
  - exists (e1 ++ e2). split; [by rewrite T2, T1, app_assoc|].
    apply list.Forall_app. split.
    + eapply list.Forall_impl; [exact F1|]. intros e ->. by left.
    + eapply list.Forall_impl; [exact F2|]. intros e ?. by right.
  - intros k Hk. rewrite P2, P1; [done|apply Hk; by left|].
    intros n Hn. destruct (revoke_node_view x s n) as [Hst _].
    destruct (static_view _ _ _ Hst) as (_ & _ & ->). apply Hk. by right.
  - by rewrite L2, L1.
Qed.

(** The nodes of a static chain report to one deferred. *)
Lemma chain_from_chainOf s r ch n :
  chains_ok s → static_chain s r ch → n ∈ ch → chainOf n s = chainOf r s.
Proof.
  intros Hok Hch Hn. destruct ch as [|a ch]; [by apply elem_of_nil in Hn|].
  pose proof Hch as [[= <-] _].
  apply elem_of_cons in Hn as [->|Hn]; [done|].
  by destruct (chain_from_younger s r ch n Hok Hch Hn).
Qed.

(** The pulse after the list was emptied resets the scheduler. *)
Lemma frame_without_head fuel id s :
  _nextNode s = None → raf_pending s = [id] →
  frame fuel s = Some (_cleanup (set_raf (raf_next s) [] s)).
Proof.
  intros Hn Hr. unfold frame. rewrite Hr. simpl.
  unfold loop, _poll.
  replace (_nextNode (set_raf (raf_next s) [] s)) with (_nextNode s) by done.
  rewrite Hn, (bool_decide_eq_true_2 (None = None)) by done.
  by rewrite orb_true_r.
Qed.

Lemma revoke_drops_list s l1 y l2 r pre post fuel id ops :
  well_formed s (l1 ++ y :: l2) →
  static_chain s r (pre ++ y :: post) →
  (∀ n, n ∈ pre → completed n s = Some true) →
  post ≠ [] →
  length (pre ++ y :: post) < fuel →
  raf_pending s = [id] →
  Forall (spares (length (heap s))) ops →
  ∃ s1 s2,
    revoke fuel r s = Some s1 ∧ _nextNode s1 = None ∧
    frame fuel s1 = Some s2 ∧
    _nextNode s2 = None ∧ _tailNode s2 = None ∧
    ∀ s3, run fuel ops s2 = Some s3 →
      ∀ x, x ∈ l1 ++ l2 →
        completed x s3 = Some false ∧
        (∀ c p, chainOf x s = Some c → promises s !! c = Some p →
           promises s3 !! c = Some p) ∧
        ∃ evs, trace s3 = trace s ++ evs ∧ Forall (λ e, node_of e ≠ x) evs.
Proof.
  intros W Hch Hpre Hpost Hf Hraf Hops.
  set (ch := pre ++ y :: post) in *.
  pose proof W as (Hdl & Hok & Huniq & Hfl & Hyoung & _ & _).
  assert (y ∈ l1 ++ y :: l2) as Hyl by (apply elem_of_app; right; by left).
  destruct (Hfl y Hyl) as (Hcy & _ & _).
  assert (NoDup ch) as Hnd by by apply (chain_from_NoDup s (Some r)).
  assert (chain_from s (Some y) (y :: post)) as Hchy
    by by apply (chain_from_app s (Some r) pre).
  assert (∀ m, m ∈ post → y < m ∧ chainOf m s = chainOf y s) as Hyg.
  { intros m Hm. by apply (chain_from_younger s y post). }
  assert (∀ m, m ∈ post → fresh s m ∧ unreferenced s m) as Hfr.
  { intros m Hm. destruct (Hyg m Hm). by apply (Hyoung y). }
  assert (y ∈ ch) as Hych by (apply elem_of_app; right; by left).
  (* the other chains *)
  assert (∀ x, x ∈ l1 ++ l2 → x ∈ l1 ++ y :: l2 ∧ x ≠ y) as Hother.
  { intros x Hx. split.
    - apply elem_of_app in Hx as [?|?]; apply elem_of_app; [by left|].
      right. by right.
    - intros ->. destruct Hdl as (Hndl & _).
      apply NoDup_middle in Hndl as (H1 & H2 & _).
      apply elem_of_app in Hx as [?|?]; done. }
  assert (∀ x, x ∈ l1 ++ l2 → chainOf x s ≠ chainOf y s) as Hchain.
  { intros x Hx E. destruct (Hother x Hx) as [Hxl Hne].
    by apply Hne, Huniq. }
  assert (∀ x n, x ∈ l1 ++ l2 → n ∈ ch → chainOf n s ≠ chainOf x s) as Hsep.
  { intros x n Hx Hn E. apply (Hchain x Hx).
    rewrite <- E, (chain_from_chainOf s r ch n), (chain_from_chainOf s r ch y); done. }
  (* the revocation *)
  set (s1 := revoke_all ch s).
  assert (revoke fuel r s = Some s1) as Hrev by by apply revoke_chain.
  assert (s1 = revoke_all post (revoke_node y s)) as Es.
  { unfold s1, ch. rewrite revoke_all_app, (revoke_all_done pre) by done. done. }
  assert (∀ m, m ∈ post → fresh (revoke_node y s) m ∧ unreferenced (revoke_node y s) m) as Hfr1.
  { intros m Hm. destruct (Hfr m Hm) as [Hfm Hum].
    split; [|by apply unreferenced_revoke_node].
    apply (fresh_view s); [|done].
    destruct Hum as (_ & _ & Hz). destruct (Hz y) as [? ?].
    destruct (dlist_links s l1 y l2 Hdl) as (_ & _ & Hpy & Hny).
    apply revoke_node_other; try done.
    intros ->. destruct (Hyg y Hm). lia. }
  assert (_nextNode s1 = None) as Hhead.
  { rewrite Es. apply revoke_all_fresh; [done| |done].
    apply list.NoDup_app in Hnd as (_ & _ & Hnd).
    by apply list.NoDup_cons in Hnd as [_ Hnd]. }
  destruct (revoke_all_touches ch s) as (Hraf1 & (e1 & Ht1 & Fe1) & Hp1 & Hl1).
  fold s1 in Hraf1, Ht1, Hp1, Hl1.
  assert (length (heap s1) = length (heap s)) as Hlh.
  { apply static_view_length. intros k. by destruct (revoke_all_view ch s k). }
  (* the pulse *)
  set (s2 := _cleanup (set_raf (raf_next s1) [] s1)).
  assert (frame fuel s1 = Some s2) as Hframe.
  { apply (frame_without_head fuel id); [done|]. by rewrite Hraf1. }
  destruct (reset_heap (set_timer None (set_raf (raf_next s1) [] s1)))
    as (Hh2 & Hn2 & Htl2 & Ht2 & Hp2).
  fold (_cleanup (set_raf (raf_next s1) [] s1)) in Hh2, Hn2, Htl2, Ht2, Hp2.
  fold s2 in Hh2, Hn2, Htl2, Ht2, Hp2.
  change (heap (set_timer None (set_raf (raf_next s1) [] s1))) with (heap s1) in Hh2.
  change (trace (set_timer None (set_raf (raf_next s1) [] s1))) with (trace s1) in Ht2.
  change (promises (set_timer None (set_raf (raf_next s1) [] s1))) with (promises s1) in Hp2.
  assert (detached (length (heap s)) (length (promises s)) s2) as Hdet.
  { pose proof (reset_detached (set_timer None (set_raf (raf_next s1) [] s1))) as D.
    fold (_cleanup (set_raf (raf_next s1) [] s1)) in D. fold s2 in D.
    change (heap (set_timer None (set_raf (raf_next s1) [] s1))) with (heap s1) in D.
    change (promises (set_timer None (set_raf (raf_next s1) [] s1))) with (promises s1) in D.
    by rewrite Hlh, Hl1 in D. }
  exists s1, s2. split_and!; try done.
  intros s3 Hrun x Hx.
  destruct (run_aside _ _ fuel ops s2 s3 Hdet Hops Hrun)
    as [_ (Hk & Hkp & e3 & Ht3 & Fe3)].
  destruct (Hother x Hx) as [Hxl Hne].
  destruct (Hfl x Hxl) as (Hcx & _ & _).
  assert (x < length (heap s)) as Hxlt.
  { unfold completed in Hcx. apply lookup_lt_is_Some.
    destruct (heap s !! x); [by eexists|done]. }
  assert (x ∉ ch) as Hxch.
  { intros Hin. apply (Hsep x x Hx Hin). done. }
  split_and!.
  - unfold completed. rewrite Hk, Hh2 by done.
    destruct (revoke_all_view ch s x) as (_ & _ & Hno & _).
    fold (completed x s1). unfold s1. by rewrite Hno.
  - intros c p Hc Hpc.
    assert (c < length (promises s)) as Hclt by (by eapply lookup_lt_Some).
    rewrite Hkp, Hp2 by done. rewrite Hp1; [done|].
    intros n Hn Hcb. destruct Hok as (_ & _ & Hcbk).
    apply (Hsep x n Hx Hn). by rewrite (Hcbk n c Hcb), Hc.
  - exists (e1 ++ e3). split; [by rewrite Ht3, Ht2, Ht1, app_assoc|].
    apply list.Forall_app. split.
    + eapply list.Forall_impl; [exact Fe1|]. simpl. intros e He E.
      by rewrite E in He.
    + eapply list.Forall_impl; [exact Fe3|]. simpl. intros e He. lia.
Qed.

Lemma two_chains_well_formed : well_formed two_chains [0; 2].
Proof.
  destruct (run_sound 10 chains_A_B (createTimeline wall10)
              (createTimeline_sound wall10))
    as (s' & Hr & ((l & W & _) & _) & _).
  - repeat (apply Forall_cons_2; [exact I|]). apply Forall_nil_2.
  - vm_compute. lia.
  - assert (two_chains = s') as E by (unfold two_chains; by rewrite Hr).
    rewrite E.
    assert (l = [0; 2]) as <-; [|done].
    apply (active_unique s'); [apply dlist_active, W|].
    rewrite <- E. vm_compute. done.
Qed.

(** X18: [revoke] on the handle of a chain whose current phase is on the
    list and which has a phase still to come, on a running scheduler with
    its callback queued at the frame driver.  The call clears the head of
    the list although other chains are on it, the next pulse resets the
    scheduler, and from then on, whatever the caller does apart from
    [revoke] on an old node, every other chain that was on the list is
    left behind: its node is never completed, no event is about it (no
    tick, no call of its effect, no callback), and its deferred stays as
    it was, so a pending one never settles. *)
Theorem revoke_with_phase_to_come_drops_every_chain
    s l1 y l2 r pre post fuel id ops :
  well_formed s (l1 ++ y :: l2) →
  static_chain s r (pre ++ y :: post) →
  (∀ n, n ∈ pre → completed n s = Some true) →
  post ≠ [] →
  length (pre ++ y :: post) < fuel →
  raf_pending s = [id] →
  Forall (spares (length (heap s))) ops →
  ∃ s1 s2,
    revoke fuel r s = Some s1 ∧ _nextNode s1 = None ∧
    frame fuel s1 = Some s2 ∧
    _nextNode s2 = None ∧ _tailNode s2 = None ∧
    ∀ s3, run fuel ops s2 = Some s3 →
      ∀ x, x ∈ l1 ++ l2 →
        completed x s3 = Some false ∧
        (∀ c p, chainOf x s = Some c → promises s !! c = Some p →
           promises s3 !! c = Some p) ∧
        ∃ evs, trace s3 = trace s ++ evs ∧ Forall (λ e, node_of e ≠ x) evs.
Proof. exact (revoke_drops_list s l1 y l2 r pre post fuel id ops). Qed.

Lemma revoke_with_phase_to_come_drops_every_chain_witness :
  ∃ s3, run 5 (OpRevoke 0 :: OpFrame :: after_reset) two_chains = Some s3 ∧
    completed 2 s3 = Some false ∧ promises s3 !! 1 = Some Pending.
Proof.
  destruct (revoke_with_phase_to_come_drops_every_chain
              two_chains [] 0 [2] 0 [] [1] 5 1 after_reset)
    as (s1 & s2 & Hrev & _ & Hfr & _ & _ & Hall).
  - exact two_chains_well_formed.
  - vm_compute. done.
  - intros n Hn. by apply elem_of_nil in Hn.
  - done.
  - simpl. lia.
  - vm_compute. done.
  - repeat (apply Forall_cons_2; [exact I|]). apply Forall_nil_2.
  - assert (run 5 (OpRevoke 0 :: OpFrame :: after_reset) two_chains
            = run 5 after_reset s2) as E.
    { change (run 5 (OpRevoke 0 :: OpFrame :: after_reset) two_chains)
        with (revoke 5 0 two_chains ≫= λ s, frame 5 s ≫= run 5 after_reset).
      rewrite Hrev. simpl. rewrite Hfr. done. }
    destruct (run 5 after_reset s2) as [s3|] eqn:E3.
    + exists s3. split; [exact E|].
      destruct (Hall s3 eq_refl 2) as (Hc & Hp & _); [by left|].
      split; [exact Hc|]. apply (Hp 1 Pending); vm_compute; done.
    + exfalso. revert E. vm_compute. done.
Defined.

(** ** Chains that come to an end *)

(** *** What the operations keep *)

















(** *** One sweep *)





(** *** The weight of the list *)




(** *** One pulse on a running scheduler *)


(** *** Pulses until the list is empty *)






(** *** The states a scheduler reaches *)










(** ** One phase after the other *)

Lemma sequenced_heap s s' : heap s' = heap s → sequenced s → sequenced s'.
Proof.
  intros E Q n m. unfold subOf, started, completed, error. rewrite E. apply Q.
Qed.

Lemma frame_sequenced fuel s s' :
  telling s → sequenced s → length (heap s) < fuel →
  frame fuel s = Some s' → sequenced s'.
Proof.
  intros Tl Q Hf. pose proof Tl as (So & _).
  destruct (telling_well_formed s Tl) as (l & W & _ & (_ & _ & _ & T4)).
  pose proof So as (_ & _ & _ & Sb).
  pose proof (well_formed_length s l W) as Hlen.
  unfold frame. destruct Sb as (Hn & [Hpd|(Hp & Hpd & _)]); rewrite Hpd; simpl.
  { intros [= <-]. by apply (sequenced_heap s). }
  set (s0 := set_raf (raf_next s) [] s). intros Hloop.
  assert (well_formed s0 l) as W0 by by apply (sweeping_ext s).
  destruct (loop_well_formed s0 l fuel W0 Hp ltac:(lia))
    as (s'' & l'' & Hloop' & _ & _ & Hheap & _).
  rewrite Hloop in Hloop'. injection Hloop' as <-. clear l''.
  set (now := AnimationClock.now (perf s0 (perf_reads s0)) (_clock s0)) in *.
  set (s00 := match l with [] => s0 | _ :: _ => (clock_now s0).2 end) in *.
  assert (heap s00 = heap s) as Hh00.
  { unfold s00. destruct l; [done|]. by rewrite (clock_now_running s0 Hp). }
  set (s1 := (tick_all now l [] s00).2) in *.
  destruct (tick_all_view now l [] s00) as (Hv & Hout & _). fold s1 in Hv, Hout.
  destruct (completeNodes_view (tick_all now l [] s00).1 s1) as (Hcv & _ & Hmono).
  pose proof W as (_ & (Hsub & _) & _ & Hfl & _).
  intros n m Hs Hst.
  assert (subOf n s = Some m) as Hs0.
  { unfold subOf in Hs. rewrite Hheap in Hs. fold (subOf n (_completeNodes (tick_all now l [] s00).1 s1)) in Hs.
    destruct (Hcv n) as (E1 & _). destruct (Hv n) as (E2 & _).
    rewrite E1, E2 in Hs. unfold subOf in *. by rewrite <- Hh00. }
  assert (started m s1 = Some true) as Hst1.
  { unfold started in Hst. rewrite Hheap in Hst.
    fold (started m (_completeNodes (tick_all now l [] s00).1 s1)) in Hst.
    by destruct (Hcv m) as (_ & _ & _ & _ & <-). }
  assert (completed n s = Some true ∧ error n s = Some false) as [Hc He].
  { destruct (decide (m ∈ l)) as [Hin|Hout'].
    - destruct (Hsub n m Hs0) as [Hlt Hch]. by apply (T4 m n).
    - apply (Q n m Hs0). unfold started in *. by rewrite <- Hh00, <- (Hout m). }
  assert (n ∉ l) as Hnl.
  { intros Hin. destruct (Hfl n Hin) as (Hc' & _). congruence. }
  split.
  - unfold completed. rewrite Hheap.
    fold (completed n (_completeNodes (tick_all now l [] s00).1 s1)).
    apply Hmono. destruct (Hv n) as (_ & _ & _ & _ & _ & ->).
    unfold completed in *. by rewrite Hh00.
  - unfold error. rewrite Hheap.
    fold (error n (_completeNodes (tick_all now l [] s00).1 s1)).
    destruct (Hcv n) as (_ & _ & _ & -> & _).
    unfold error in *. by rewrite (Hout n Hnl), Hh00.
Qed.

Lemma enqueue_sequenced inits s l h s' :
  well_formed s l → bounded s → sequenced s →
  enqueue inits s = Some (h, s') → sequenced s'.
Proof.
  intros W B Q Henq.
  destruct (enqueue_spec inits s h s' (λ t, bounded_tail s t B) Henq)
    as (K & s5 & HK & _ & _ & Hs' & Hprom & Hlen & Hold & Hnew & Hhead & Htail & _).
  pose proof (enqueued_old s s5 K l W B Hprom Hlen Hold Hnew Hhead Htail) as Hov.
  pose proof (enqueued_old_view s s5 K l W B Hprom Hlen Hold Hnew Hhead Htail) as Hvw.
  pose proof (enqueued_new s s5 K l W B Hprom Hlen Hold Hnew Hhead Htail) as Hnw.
  set (N := length (heap s)) in *.
  assert (heap s' = heap s5) as Hh.
  { rewrite Hs'. destruct (negb (_isPolling s5)); [|done].
    by destruct (start_heap s5) as (-> & _). }
  apply (sequenced_heap s5); [done|].
  intros n m Hs Hst.
  assert (m < N) as Hm.
  { destruct (decide (m < N)) as [?|Hge]; [done|].
    destruct (Hnw m ltac:(lia)) as [(_ & _ & _ & _ & Hst' & _)|(_ & Hnone)].
    - congruence.
    - unfold started in Hst. by rewrite Hnone in Hst. }
  assert (n < N) as Hn.
  { destruct (decide (n < N)) as [?|Hge]; [done|].
    destruct (Hnw n ltac:(lia)) as [(_ & _ & _ & _ & _ & _ & _ & Hsub & _)|(_ & Hnone)].
    - rewrite Hsub in Hs. case_decide; [|done]. injection Hs as <-. lia.
    - unfold subOf in Hs. by rewrite Hnone in Hs. }
  destruct (Hvw n Hn) as (E1 & _ & _ & E4 & E5). rewrite E4, E5.
  apply (Q n m); [by rewrite <- E1|].
  destruct (Hov m Hm) as (_ & Efl & _). unfold started in *.
  destruct (heap s5 !! m) as [a|], (heap s !! m) as [b|]; simpl in *; try done.
  by injection Efl as <- _ _ _.
Qed.

Lemma step_sequenced fuel o s s' :
  telling s → sequenced s → gentle o → length (heap s) < fuel →
  step fuel o s = Some s' → sequenced s'.
Proof.
  intros Tl Q Hg Hf. pose proof Tl as (So & _).
  destruct o as [inits| | | | | |n]; simpl; try done.
  - destruct (enqueue inits s) as [[h s1]|] eqn:Henq; intros [= <-]; [|done].
    destruct So as ((l & W & _) & _ & B & _).
    by apply (enqueue_sequenced inits s l h).
  - by apply frame_sequenced.
  - intros [= <-]. apply (sequenced_heap s); [|done]. by destruct (start_heap s) as (-> & _).
  - intros [= <-]. apply (sequenced_heap s); [|done]. by destruct (pause_heap s) as (-> & _).
  - intros [= <-]. apply (sequenced_heap s); [|done]. by destruct (resume_heap s) as (-> & _).
  - intros [= <-]. apply (sequenced_heap s); [|done]. by destruct (reset_heap s) as (-> & _).
Qed.

Lemma run_sequenced fuel ops : ∀ s,
  telling s → sequenced s → Forall gentle ops →
  length (heap s) + nodes_of ops < fuel →
  ∃ s', run fuel ops s = Some s' ∧ telling s' ∧ sequenced s'.
Proof.
  induction ops as [|o ops IH]; intros s Tl Q Hg Hf.
  { by exists s. }
  apply list.Forall_cons in Hg as [Hg Hgs]. rewrite nodes_of_cons in *.
  destruct (step_telling fuel o s Tl Hg ltac:(lia)) as (s1 & E & T1 & Hl1).
  pose proof (step_sequenced fuel o s s1 Tl Q Hg ltac:(lia) E) as Q1.
  destruct (IH s1 T1 Q1 Hgs ltac:(lia)) as (s' & Hr & T' & Q').
  exists s'. simpl. rewrite E. done.
Qed.

(** X20: the phases of a chain run one after the other.  In every state a
    fresh scheduler reaches by [animate], frame pulses, [start], [pause],
    [resume] and [reset]: a phase that was started (it was ticked) follows
    a phase that is completed and did not err. *)
Theorem phase_starts_after_previous_completed wall fuel ops :
  Forall gentle ops → nodes_of ops < fuel →
  ∃ s, run fuel ops (createTimeline wall) = Some s ∧
    ∀ n m, subOf n s = Some m → started m s = Some true →
      completed n s = Some true ∧ error n s = Some false.
Proof.
  intros Hg Hf.
  destruct (run_sequenced fuel ops (createTimeline wall)
              (createTimeline_telling wall)) as (s & Hr & _ & Q); try done.
  exists s. split; [done|exact Q].
Qed.

Lemma phase_starts_after_previous_completed_witness :
  ∃ s, run 10 undisturbed (createTimeline wall10) = Some s ∧
    started 1 s = Some true ∧
    completed 0 s = Some true ∧ error 0 s = Some false.
Proof.
  destruct (phase_starts_after_previous_completed wall10 10 undisturbed)
    as (s & Hr & H).
  - repeat (apply Forall_cons_2; [exact I|]). apply Forall_nil_2.
  - vm_compute. lia.
  - exists s. split; [exact Hr|].
    pose (st := match run 10 undisturbed (createTimeline wall10) with
                | Some s => s
                | None => createTimeline wall10
                end).
    assert (s = st) as E by (unfold st; by rewrite Hr).
    assert (started 1 s = Some true) as Hst by (rewrite E; vm_compute; done).
    split; [exact Hst|]. apply (H 0 1); [|exact Hst].
    rewrite E. vm_compute. done.
Defined.
